(** * nitro: lock-free skiplist, access barrier and allocator statistics

    A shallow embedding of the Go sources

    - [mm] (allocator facade): [computeBinFrag];
    - [skiplist/access_barrier.go]: [CompareBS], [Acquire], [Release],
      [FlushSession], [doCleanup];
    - [skiplist/skiplist.go]: [randomLevel], [findPath], [Insert2], [Delete];

    together with the properties of these functions. *)

From Stdlib Require Import ZArith List Lia Bool QArith Sorted.
From stdpp Require Import base list sorting gmap strings pretty.
Import ListNotations.

(** ** Go machine integers and results *)

Module Go.
Local Open Scope Z_scope.

(** [uint64], [int] (64 bits on the targets the library runs on) and
    [int32] arithmetic wraps around. *)
Definition wrap_u64 (z : Z) : Z := z mod 2 ^ 64.
Definition wrap_i64 (z : Z) : Z := (z + 2 ^ 63) mod 2 ^ 64 - 2 ^ 63.
Definition wrap_i32 (z : Z) : Z := (z + 2 ^ 31) mod 2 ^ 32 - 2 ^ 31.

Definition MaxInt32 : Z := 2147483647.

Arguments wrap_u64 : simpl never.
Arguments wrap_i64 : simpl never.
Arguments wrap_i32 : simpl never.

(** What a run-time panic is about. *)
Inductive Fault :=
| UnsafeReclamation   (* panic("Unsafe memory reclamation detected") *)
| NilDereference      (* invalid memory address or nil pointer dereference *)
| IndexOutOfRange     (* slice index out of range *)
| MakeSliceLen        (* makeslice: len out of range *)
| DivideByZero.       (* integer divide by zero *)

(** The outcome of running a piece of code with a bound on the number of
    iterations of each of its loops. *)
Inductive Res (A : Type) :=
| Ok (a : A)
| Panic (f : Fault)
| OutOfFuel.
Arguments Ok {A} a.
Arguments Panic {A} f.
Arguments OutOfFuel {A}.

End Go.

(** ** The allocator facade: bin fragmentation *)

Module Mm.
Import Go.
Local Open Scope Z_scope.

(** [computeBinFrag] on [uint64] arguments, given as integers in
    [[0, 2^64)].  The products and the subtraction wrap around, and the
    division panics when the wrapped divisor is zero. *)
Definition computeBinFrag (curregs curslabs nregs : Z) : Res Z :=
  if (curslabs <=? 0) || (nregs <=? 0) then Ok 0
  else
    let d := wrap_u64 (curslabs * nregs) in
    if d =? 0 then Panic DivideByZero
    else Ok (wrap_u64 (100 - wrap_u64 (100 * curregs) / d)).

Definition computeBinResident (curslabs nregs size : Z) : Z :=
  wrap_u64 (wrap_u64 (curslabs * nregs) * size).

Definition is_uint64 (z : Z) : Prop := 0 <= z < 2 ^ 64.

(** The fragmentation of a bin in the words of the specification, over
    the integers: [100 - floor ((100 * curregs) / (curslabs * nregs))] when
    both denominators are positive, else [0]. *)
Definition frag_percent (curregs curslabs nregs : Z) : Z :=
  if (0 <? curslabs) && (0 <? nregs)
  then 100 - (100 * curregs) / (curslabs * nregs)
  else 0.

Record JemallocBinStats := mkBinStats {
  FragPercent : Z;   (* uint64 *)
  Resident : Z       (* uint64 *)
}.

(** What the four statistics calls into the allocator return for a bin
    in one pass of the loop of [getBinsStats], converted to [uint64]. *)
Record BinRaw := mkBinRaw {
  bin_size : Z;
  bin_nregs : Z;
  bin_curregs : Z;
  bin_curslabs : Z
}.

(** [fmt.Sprintf("bin_%d", size)] for a [uint64]. *)
Definition bin_key (size : Z) : string :=
  String.append "bin_" (pretty (Z.to_N size)).

(** The body of the loop, up to the store into the map. *)
Definition bin_stats (b : BinRaw) : Res JemallocBinStats :=
  match computeBinFrag (bin_curregs b) (bin_curslabs b) (bin_nregs b) with
  | Ok f =>
      Ok {| FragPercent := f;
            Resident := computeBinResident (bin_curslabs b) (bin_nregs b)
                          (bin_size b) |}
  | Panic e => Panic e
  | OutOfFuel => OutOfFuel
  end.

(** [getBinsStats] over the bins the allocator reports, in index order;
    the Go map is keyed by string. *)
Fixpoint getBinsStats_loop (raw : list BinRaw)
    (bs : gmap string JemallocBinStats) : Res (gmap string JemallocBinStats) :=
  match raw with
  | [] => Ok bs
  | b :: raw' =>
      match bin_stats b with
      | Ok sts => getBinsStats_loop raw' (<[bin_key (bin_size b) := sts]> bs)
      | Panic e => Panic e
      | OutOfFuel => OutOfFuel
      end
  end.

Definition getBinsStats (raw : list BinRaw)
    : Res (gmap string JemallocBinStats) :=
  getBinsStats_loop raw ∅.

(** The package variables [Debug] and [stats]; the counters are
    [uint64]. *)
Record Counters := mkCounters {
  Debug : bool;
  allocs : Z;
  frees : Z
}.

(** What [Malloc] and [Free] do to the counters; the memory itself is the
    allocator's. *)
Definition Malloc (st : Counters) : Counters :=
  if Debug st
  then {| Debug := Debug st; allocs := wrap_u64 (allocs st + 1);
          frees := frees st |}
  else st.

Definition Free (st : Counters) : Counters :=
  if Debug st
  then {| Debug := Debug st; allocs := allocs st;
          frees := wrap_u64 (frees st + 1) |}
  else st.

Definition GetAllocStats (st : Counters) : Z * Z := (allocs st, frees st).

(** A program that allocates and frees. *)
Inductive MmCall := CallMalloc | CallFree.

Definition mm_call (st : Counters) (c : MmCall) : Counters :=
  match c with
  | CallMalloc => Malloc st
  | CallFree => Free st
  end.

Fixpoint n_mallocs (cs : list MmCall) : Z :=
  match cs with
  | [] => 0
  | CallMalloc :: cs' => 1 + n_mallocs cs'
  | CallFree :: cs' => n_mallocs cs'
  end.

Fixpoint n_frees (cs : list MmCall) : Z :=
  match cs with
  | [] => 0
  | CallMalloc :: cs' => n_frees cs'
  | CallFree :: cs' => 1 + n_frees cs'
  end.

End Mm.

(** ** The access barrier (safe memory reclamation) *)

Module Barrier.
Import Go.
Local Open Scope Z_scope.

Definition barrierFlushOffset : Z := MaxInt32 / 2.
Arguments barrierFlushOffset : simpl never.

(** A [*BarrierSession] is the index of the session in the store of
    allocated sessions; [objectRef] is an opaque pointer. *)
Abbreviation bsptr := nat (only parsing).

Record BarrierSession := mkBS {
  liveCount : Z;   (* the int32 behind the [*int32] field *)
  objectRef : Z;
  seqno : Z;       (* uint64 *)
  closed : Z       (* int32 *)
}.

Definition newBarrierSession : BarrierSession :=
  {| liveCount := 0; objectRef := 0; seqno := 0; closed := 0 |}.

Definition set_liveCount (v : Z) (s : BarrierSession) : BarrierSession :=
  {| liveCount := v; objectRef := objectRef s; seqno := seqno s;
     closed := closed s |}.
Definition set_closed (v : Z) (s : BarrierSession) : BarrierSession :=
  {| liveCount := liveCount s; objectRef := objectRef s; seqno := seqno s;
     closed := v |}.
Definition set_flushed (ref sq : Z) (s : BarrierSession) : BarrierSession :=
  {| liveCount := liveCount s; objectRef := ref; seqno := sq;
     closed := closed s |}.

(** [CompareBS]: both sequence numbers are converted to [int] and
    subtracted there. *)
Definition CompareBS (this that : BarrierSession) : Z :=
  wrap_i64 (wrap_i64 (seqno this) - wrap_i64 (seqno that)).

(** One call of the destructor callback [callb(bs.objectRef)], recorded
    with the session it was made for and that session's sequence number at
    the time of the call. *)
Record DestructorCall := mkCall {
  call_bs : bsptr;
  call_seqno : Z;
  call_ref : Z
}.

(** The barrier, the sessions it allocated ([store], a session pointer
    being an index into it) and the destructor calls made so far, oldest
    first.  [freeq] holds the queue's sessions in iteration order. *)
Record AccessBarrier := mkAB {
  activeSeqno : Z;
  session : bsptr;
  freeq : list bsptr;
  freeSeqno : Z;
  isDestructorRunning : Z;
  numAllocated : Z;
  numFreed : Z;
  active : bool;
  store : list BarrierSession;
  calls : list DestructorCall
}.

Definition newAccessBarrier (active : bool) : AccessBarrier :=
  {| activeSeqno := 0; session := 0%nat; freeq := []; freeSeqno := 0;
     isDestructorRunning := 0; numAllocated := 1; numFreed := 0;
     active := active; store := [newBarrierSession]; calls := [] |}.

Definition with_store (st : list BarrierSession) (ab : AccessBarrier) :=
  {| activeSeqno := activeSeqno ab; session := session ab; freeq := freeq ab;
     freeSeqno := freeSeqno ab; isDestructorRunning := isDestructorRunning ab;
     numAllocated := numAllocated ab; numFreed := numFreed ab;
     active := active ab; store := st; calls := calls ab |}.
Definition with_freeq (q : list bsptr) (ab : AccessBarrier) :=
  {| activeSeqno := activeSeqno ab; session := session ab; freeq := q;
     freeSeqno := freeSeqno ab; isDestructorRunning := isDestructorRunning ab;
     numAllocated := numAllocated ab; numFreed := numFreed ab;
     active := active ab; store := store ab; calls := calls ab |}.
Definition with_running (v : Z) (ab : AccessBarrier) :=
  {| activeSeqno := activeSeqno ab; session := session ab; freeq := freeq ab;
     freeSeqno := freeSeqno ab; isDestructorRunning := v;
     numAllocated := numAllocated ab; numFreed := numFreed ab;
     active := active ab; store := store ab; calls := calls ab |}.

(** Modelled from the spec: the queue [freeq] is a skiplist of sessions
    whose [Insert], [NewIterator] and [DeleteNode] take a comparator and
    are not part of [skiplist.go] as given.  Following section 4.B, an
    insertion walks right while [cmp(curr, item) < 0] and links the new
    item in front of the first element that is not smaller. *)
Fixpoint freeq_insert (st : list BarrierSession) (bs : bsptr)
    (b : BarrierSession) (q : list bsptr) : list bsptr :=
  match q with
  | [] => [bs]
  | x :: q' =>
      match st !! x with
      | Some sx =>
          if CompareBS sx b <? 0 then x :: freeq_insert st bs b q'
          else bs :: q
      | None => bs :: q
      end
  end.

(** Modelled from the spec: [DeleteNode] unlinks the given node, the
    other nodes keep their order. *)
Fixpoint freeq_delete (node : bsptr) (q : list bsptr) : list bsptr :=
  match q with
  | [] => []
  | x :: q' => if Nat.eqb x node then q' else x :: freeq_delete node q'
  end.

(** The body of the loop of [doCleanup]; [iter] is what the iterator has
    still to visit.  [None] stands for the [return] inside the loop. *)
Definition doCleanup_step (node : bsptr) (ab : AccessBarrier)
    : Res (option AccessBarrier) :=
  match store ab !! node with
  | None => Panic NilDereference
  | Some bs =>
      if negb (seqno bs =? wrap_u64 (freeSeqno ab + 1)) then Ok None
      else
        Ok (Some
          {| activeSeqno := activeSeqno ab; session := session ab;
             freeq := freeq_delete node (freeq ab);
             freeSeqno := wrap_u64 (freeSeqno ab + 1);
             isDestructorRunning := isDestructorRunning ab;
             numAllocated := numAllocated ab;
             numFreed := wrap_i64 (numFreed ab + 1);
             active := active ab; store := store ab;
             calls := calls ab ++ [mkCall node (seqno bs) (objectRef bs)] |})
  end.

Fixpoint doCleanup_loop (iter : list bsptr) (ab : AccessBarrier)
    : Res AccessBarrier :=
  match iter with
  | [] => Ok ab
  | node :: iter' =>
      match doCleanup_step node ab with
      | Ok (Some ab') => doCleanup_loop iter' ab'
      | Ok None => Ok ab
      | Panic f => Panic f
      | OutOfFuel => OutOfFuel
      end
  end.

Definition doCleanup (ab : AccessBarrier) : Res AccessBarrier :=
  doCleanup_loop (freeq ab) ab.

(** [Release].  [atomic.AddInt32] wraps around. *)
Definition Release (bs : bsptr) (ab : AccessBarrier) : Res AccessBarrier :=
  if active ab then
    match store ab !! bs with
    | None => Panic NilDereference
    | Some s =>
        let lc := wrap_i32 (liveCount s - 1) in
        let s1 := set_liveCount lc s in
        let ab1 := with_store (<[bs := s1]> (store ab)) ab in
        if lc =? barrierFlushOffset then
          let c := wrap_i32 (closed s1 + 1) in
          let s2 := set_closed c s1 in
          let ab2 := with_store (<[bs := s2]> (store ab1)) ab1 in
          if c =? 1 then
            let ab3 := with_freeq (freeq_insert (store ab2) bs s2 (freeq ab2)) ab2 in
            if isDestructorRunning ab3 =? 0 then
              match doCleanup (with_running 1 ab3) with
              | Ok ab4 =>
                  Ok (if isDestructorRunning ab4 =? 1 then with_running 0 ab4
                      else ab4)
              | Panic f => Panic f
              | OutOfFuel => OutOfFuel
              end
            else Ok ab3
          else Ok ab2
        else if (lc <? 0) || (lc =? barrierFlushOffset - 1) then
          Panic UnsafeReclamation
        else Ok ab1
    end
  else Ok ab.

(** [Acquire]; [fuel] bounds the number of passes through [retry]. *)
Fixpoint Acquire_retry (fuel : nat) (ab : AccessBarrier)
    : Res (option bsptr * AccessBarrier) :=
  match fuel with
  | O => OutOfFuel
  | S fuel' =>
      let bs := session ab in
      match store ab !! bs with
      | None => Panic NilDereference
      | Some s =>
          let lc := wrap_i32 (liveCount s + 1) in
          let ab1 := with_store (<[bs := set_liveCount lc s]> (store ab)) ab in
          if lc >? barrierFlushOffset then
            match Release bs ab1 with
            | Ok ab2 => Acquire_retry fuel' ab2
            | Panic f => Panic f
            | OutOfFuel => OutOfFuel
            end
          else Ok (Some bs, ab1)
      end
  end.

Definition Acquire (fuel : nat) (ab : AccessBarrier)
    : Res (option bsptr * AccessBarrier) :=
  if active ab then Acquire_retry fuel ab else Ok (None, ab).

(** [FlushSession].  The mutex is held for the whole call; the pointer
    CAS on [ab.session] follows the load it compares with. *)
Definition FlushSession (ref : Z) (ab : AccessBarrier) : Res AccessBarrier :=
  if active ab then
    let bsPtr := session ab in
    let newBsPtr := length (store ab) in
    let st1 := store ab ++ [newBarrierSession] in
    match st1 !! bsPtr with
    | None => Panic NilDereference
    | Some bs =>
        let sq := wrap_u64 (activeSeqno ab + 1) in
        let bs1 := set_flushed ref sq bs in
        let bs2 := set_liveCount
                     (wrap_i32 (liveCount bs1 + (barrierFlushOffset + 1))) bs1 in
        Release bsPtr
          {| activeSeqno := sq; session := newBsPtr; freeq := freeq ab;
             freeSeqno := freeSeqno ab;
             isDestructorRunning := isDestructorRunning ab;
             numAllocated := wrap_i64 (numAllocated ab + 1);
             numFreed := numFreed ab;
             active := active ab; store := <[bsPtr := bs2]> st1;
             calls := calls ab |}
    end
  else Ok ab.

(** The sessions of a queue that [doCleanup] destructs when the last
    freed sequence number is [from]: the longest prefix of the queue
    numbered [from + 1], [from + 2], ... *)
Fixpoint contig (st : list BarrierSession) (from : Z) (q : list bsptr)
    : list bsptr :=
  match q with
  | [] => []
  | x :: q' =>
      match st !! x with
      | Some s => if seqno s =? from + 1 then x :: contig st (from + 1) q'
                  else []
      | None => []
      end
  end.

Definition seqno_at (st : list BarrierSession) (x : bsptr) : Z :=
  match st !! x with Some s => seqno s | None => 0 end.

Definition call_of (st : list BarrierSession) (x : bsptr) : DestructorCall :=
  match st !! x with
  | Some s => mkCall x (seqno s) (objectRef s)
  | None => mkCall x 0 0
  end.

(** A client of the barrier calls its three operations. *)
Inductive Op :=
| OpAcquire
| OpRelease (bs : bsptr)
| OpFlushSession (ref : Z).

Definition step (fuel : nat) (op : Op) (ab : AccessBarrier)
    : Res AccessBarrier :=
  match op with
  | OpAcquire =>
      match Acquire fuel ab with
      | Ok (_, ab') => Ok ab'
      | Panic f => Panic f
      | OutOfFuel => OutOfFuel
      end
  | OpRelease bs => Release bs ab
  | OpFlushSession ref => FlushSession ref ab
  end.

Fixpoint run (fuel : nat) (ops : list Op) (ab : AccessBarrier)
    : Res AccessBarrier :=
  match ops with
  | [] => Ok ab
  | op :: ops' =>
      match step fuel op ab with
      | Ok ab' => run fuel ops' ab'
      | Panic f => Panic f
      | OutOfFuel => OutOfFuel
      end
  end.

(** [GetStats].  Modelled from the spec: the node count of the queue is
    kept by the queue's own [Insert] and [DeleteNode], which are not part
    of [skiplist.go] as given; it is the number of sessions queued.  The
    queue exists on an active barrier only. *)
Definition GetStats (ab : AccessBarrier) : Z * Z * Z * Z :=
  (numAllocated ab, numFreed ab,
   if active ab then Z.of_nat (length (freeq ab)) else 0,
   freeSeqno ab).

(** The references handed to [FlushSession], in call order. *)
Fixpoint flushed_refs (ops : list Op) : list Z :=
  match ops with
  | [] => []
  | OpFlushSession ref :: ops' => ref :: flushed_refs ops'
  | _ :: ops' => flushed_refs ops'
  end.

End Barrier.

(** ** The lock-free skiplist *)

Module Skiplist.
Import Go.
Local Open Scope Z_scope.

Definition MaxLevel : Z := 32.
Definition p : Q := 1 # 4.

(** A sample of the random source below [p]; a sample is the rational
    number a finite [float32] denotes. *)
Definition below_p (x : Q) : bool := negb (Qle_bool p x).

(** The [Item] interface. *)
Class Item (K : Type) := { Compare : K -> K -> Z }.

(** A [*Node] is [None] for [nil] and otherwise the index of the node in
    the heap. *)
Abbreviation nodeptr := (option nat) (only parsing).

Record NodeRef := mkRef { deleted : bool; ptr : nodeptr }.

(** What another thread may do between two atomic operations of the
    thread that is modelled: a CAS on a successor reference, or a CAS on
    the level counter of the skiplist. *)
Inductive EnvStep :=
| EnvCasNext (n : nat) (lvl : nat) (old new : NodeRef)
| EnvCasLevel (old new : Z).

Section WithItem.
Context {K : Type} `{Item K}.

(** Modelled from the spec: the sentinels are [nilItem] values whose
    [Compare] method is not part of [skiplist.go] as given; it returns the
    stored [cmp] ([-1] for the head, [1] for the tail), so that they
    compare below and above every item. *)
Inductive NodeItem :=
| nilItem (cmp : Z)
| userItem (k : K).

Definition item_Compare (it : NodeItem) (k : K) : Z :=
  match it with
  | nilItem c => c
  | userItem a => Compare a k
  end.

Record Node := mkNode {
  next : list (option NodeRef);   (* [nil] or a [*NodeRef] *)
  itm : NodeItem;
  level : Z                       (* uint16 *)
}.

(** The memory: the nodes, the fields of the one [Skiplist], and the
    steps other threads take: the [n]-th entry of [sched] runs just before
    the [n]-th atomic operation from now. *)
Record State := mkState {
  heap : list Node;
  head : nodeptr;
  tail : nodeptr;
  slevel : Z;                     (* int32 *)
  sched : list (list EnvStep)
}.

Definition set_heap (h : list Node) (st : State) : State :=
  {| heap := h; head := head st; tail := tail st; slevel := slevel st;
     sched := sched st |}.
Definition set_slevel (l : Z) (st : State) : State :=
  {| heap := heap st; head := head st; tail := tail st; slevel := l;
     sched := sched st |}.
Definition set_sched (sc : list (list EnvStep)) (st : State) : State :=
  {| heap := heap st; head := head st; tail := tail st; slevel := slevel st;
     sched := sc |}.

Definition set_next (lvl : nat) (r : option NodeRef) (n : Node) : Node :=
  {| next := <[lvl := r]> (next n); itm := itm n; level := level n |}.

Definition NodeRef_eqb (a b : NodeRef) : bool :=
  Bool.eqb (deleted a) (deleted b) &&
  match ptr a, ptr b with
  | None, None => true
  | Some x, Some y => Nat.eqb x y
  | _, _ => false
  end.

Definition nodeptr_eqb (a b : nodeptr) : bool :=
  match a, b with
  | None, None => true
  | Some x, Some y => Nat.eqb x y
  | _, _ => false
  end.

Definition env_apply (st : State) (e : EnvStep) : State :=
  match e with
  | EnvCasNext n lvl old new =>
      match heap st !! n with
      | Some nd =>
          match next nd !! lvl with
          | Some (Some r) =>
              if NodeRef_eqb r old
              then set_heap (<[n := set_next lvl (Some new) nd]> (heap st)) st
              else st
          | _ => st
          end
      | None => st
      end
  | EnvCasLevel old new =>
      if slevel st =? old then set_slevel new st else st
  end.

(** *** The monad of the operations *)

Definition M (A : Type) : Type := State -> Res (A * State).

Definition ret {A} (a : A) : M A := fun st => Ok (a, st).

Definition bind {A B} (m : M A) (f : A -> M B) : M B :=
  fun st =>
    match m st with
    | Ok (a, st') => f a st'
    | Panic e => Panic e
    | OutOfFuel => OutOfFuel
    end.

Definition panic {A} (e : Fault) : M A := fun _ => Panic e.
Definition out_of_fuel {A} : M A := fun _ => OutOfFuel.

(** The other threads run before an atomic operation. *)
Definition yield : M unit :=
  fun st =>
    match sched st with
    | [] => Ok (tt, st)
    | es :: sc => Ok (tt, fold_left env_apply es (set_sched sc st))
    end.

(** The state once the other threads have run. *)
Definition yielded (st : State) : State :=
  match sched st with
  | [] => st
  | es :: sc => fold_left env_apply es (set_sched sc st)
  end.

Definition deref (n : nodeptr) : M Node :=
  fun st =>
    match n with
    | None => Panic NilDereference
    | Some a =>
        match heap st !! a with
        | Some nd => Ok (nd, st)
        | None => Panic NilDereference
        end
    end.

Notation "'do' x <- m 'in' k" := (bind m (fun x => k))
  (at level 10, x name, m at level 100, k at level 200).
Notation "'do' ' pat <- m 'in' k" :=
  (bind m (fun x => match x with pat => k end))
  (at level 10, pat pattern, m at level 100, k at level 200).

(** *** Nodes and their successor references *)

(** [newNode]: [make] panics on a negative length; the conversion to
    [uint16] truncates. *)
Definition newNode (it : NodeItem) (lvl : Z) : M nodeptr :=
  fun st =>
    let n := wrap_i64 (lvl + 1) in
    if n <? 0 then Panic MakeSliceLen
    else
      Ok (Some (length (heap st)),
          set_heap (heap st ++ [{| next := replicate (Z.to_nat n) None;
                                    itm := it;
                                    level := lvl mod 2 ^ 16 |}]) st).

(** [n.next[level] = &NodeRef{...}], a plain store. *)
Definition setNext (n : nodeptr) (lvl : nat) (pt : nodeptr) (del : bool)
    : M unit :=
  fun st =>
    match n with
    | None => Panic NilDereference
    | Some a =>
        match heap st !! a with
        | None => Panic NilDereference
        | Some nd =>
            if decide (lvl < length (next nd))%nat
            then Ok (tt, set_heap (<[a := set_next lvl (Some (mkRef del pt)) nd]>
                                     (heap st)) st)
            else Panic IndexOutOfRange
        end
    end.

(** The atomic load of [n.next[level]]. *)
Definition loadNext (n : nodeptr) (lvl : nat) : M (option NodeRef) :=
  do _ <- yield in
  do nd <- deref n in
  match next nd !! lvl with
  | None => panic IndexOutOfRange
  | Some r => ret r
  end.

Definition getNext (n : nodeptr) (lvl : nat) : M (nodeptr * bool) :=
  do ref <- loadNext n lvl in
  match ref with
  | Some r => ret (ptr r, deleted r)
  | None => ret (None, false)
  end.

(** The atomic compare-and-swap of [n.next[level]]: a reference is
    immutable once published, and the swap succeeds when the slot still
    holds the reference that was loaded. *)
Definition casNext (n : nodeptr) (lvl : nat) (old new : NodeRef) : M bool :=
  do _ <- yield in
  do nd <- deref n in
  match next nd !! lvl with
  | Some (Some r) =>
      if NodeRef_eqb r old then
        fun st =>
          match n with
          | Some a =>
              Ok (true, set_heap (<[a := set_next lvl (Some new) nd]> (heap st)) st)
          | None => Panic NilDereference
          end
      else ret false
  | Some None => ret false
  | None => panic IndexOutOfRange
  end.

Definition dcasNext (n : nodeptr) (lvl : nat) (prevPtr newPtr : nodeptr)
    (prevIsdeleted newIsdeleted : bool) : M bool :=
  do ref <- loadNext n lvl in
  match ref with
  | Some r =>
      if nodeptr_eqb (ptr r) prevPtr && Bool.eqb (deleted r) prevIsdeleted
      then casNext n lvl r (mkRef newIsdeleted newPtr)
      else ret false
  | None => ret false
  end.

Definition loadLevel : M Z :=
  do _ <- yield in fun st => Ok (slevel st, st).

Definition casLevel (old new : Z) : M bool :=
  do _ <- yield in
  fun st =>
    if slevel st =? old then Ok (true, set_slevel new st) else Ok (false, st).

(** [New]: the head is node 0 and the tail node 1, both of level
    [MaxLevel]; every level of the head points to the tail. *)
Definition New : State :=
  {| heap := [ {| next := replicate 33 (Some (mkRef false (Some 1%nat)));
                  itm := nilItem (-1); level := MaxLevel |};
               {| next := replicate 33 None;
                  itm := nilItem 1; level := MaxLevel |} ];
     head := Some 0%nat; tail := Some 1%nat; slevel := 0; sched := [] |}.

(** *** randomLevel *)

(** The loop [for ; randFn() < p; nextLevel++ {}] over the samples the
    random source returns, in call order; [nextLevel] is an [int]. *)
Fixpoint count_below (samples : list Q) (nextLevel : Z) : M Z :=
  match samples with
  | [] => out_of_fuel
  | x :: samples' =>
      if below_p x then count_below samples' (wrap_i64 (nextLevel + 1))
      else ret nextLevel
  end.

Definition randomLevel (samples : list Q) : M Z :=
  do nextLevel <- count_below samples 0 in
  let nextLevel := if nextLevel >? MaxLevel then MaxLevel else nextLevel in
  do lvl <- loadLevel in
  if nextLevel >? lvl then
    do _ <- casLevel (wrap_i32 lvl) (wrap_i32 (wrap_i64 (lvl + 1))) in
    ret (wrap_i64 (lvl + 1))
  else ret nextLevel.

(** *** findPath *)

Definition helpDelete (lvl : nat) (prev curr nxt : nodeptr) : M bool :=
  dcasNext prev lvl curr nxt false false.

(** The loop [for deleted { ... }]; [None] stands for [goto retry]. *)
Fixpoint helpLoop (n : nat) (lvl : nat) (prev curr nxt : nodeptr)
    (del : bool) : M (option nodeptr) :=
  if del then
    match n with
    | O => out_of_fuel
    | S n' =>
        do ok <- helpDelete lvl prev curr nxt in
        if negb ok then ret None
        else
          do '(curr', _) <- getNext prev lvl in
          do '(nxt', del') <- getNext curr' lvl in
          helpLoop n' lvl prev curr' nxt' del'
    end
  else ret (Some curr).

(** The loop [levelSearch]; the result is [(prev, curr)] at the [break],
    or [None] for [goto retry], with the last value assigned to [cmpVal]. *)
Fixpoint levelSearch (fuel n : nat) (lvl : nat) (k : K) (prev curr : nodeptr)
    (cv : Z) : M (option (nodeptr * nodeptr) * Z) :=
  match n with
  | O => out_of_fuel
  | S n' =>
      do '(nxt, del) <- getNext curr lvl in
      do r <- helpLoop fuel lvl prev curr nxt del in
      match r with
      | None => ret (None, cv)
      | Some curr =>
          do nd <- deref curr in
          let cv := item_Compare (itm nd) k in
          if cv <? 0 then
            do '(curr', _) <- getNext curr lvl in
            levelSearch fuel n' lvl k curr curr' cv
          else ret (Some (prev, curr), cv)
      end
  end.

Definition store_at (l : list nodeptr) (i : nat) (v : nodeptr)
    : M (list nodeptr) :=
  if decide (i < length l)%nat then ret (<[i := v]> l)
  else panic IndexOutOfRange.

Definition index_at (l : list nodeptr) (i : nat) : M nodeptr :=
  match l !! i with
  | Some v => ret v
  | None => panic IndexOutOfRange
  end.

(** The variables of [findPath] that outlive a [goto retry]. *)
Record Path := mkPath {
  preds : list nodeptr;
  succs : list nodeptr;
  cmpVal : Z
}.

(** The loop [for i := level; i >= 0; i--], with [n = i + 1]; the
    boolean tells whether the loop ran to its end. *)
Fixpoint levelLoop (fuel : nat) (n : nat) (k : K) (prev : nodeptr)
    (pa : Path) : M (bool * Path) :=
  match n with
  | O => ret (true, pa)
  | S i =>
      do '(curr, _) <- getNext prev i in
      do '(r, cv) <- levelSearch fuel fuel i k prev curr (cmpVal pa) in
      match r with
      | None => ret (false, mkPath (preds pa) (succs pa) cv)
      | Some (prev', curr') =>
          do ps <- store_at (preds pa) i prev' in
          do ss <- store_at (succs pa) i curr' in
          levelLoop fuel i k prev' (mkPath ps ss cv)
      end
  end.

Fixpoint findPath_retry (fuel n : nat) (k : K) (pa : Path)
    : M (list nodeptr * list nodeptr * bool) :=
  match n with
  | O => out_of_fuel
  | S n' =>
      do prev <- (fun st => Ok (head st, st)) in
      do lvl <- loadLevel in
      do '(done, pa') <- levelLoop fuel (Z.to_nat (lvl + 1)) k prev pa in
      if done then ret (preds pa', succs pa', cmpVal pa' =? 0)
      else findPath_retry fuel n' k pa'
  end.

Definition findPath (fuel : nat) (k : K)
    : M (list nodeptr * list nodeptr * bool) :=
  findPath_retry fuel fuel k
    (mkPath (replicate (Z.to_nat (MaxLevel + 1)) None)
            (replicate (Z.to_nat (MaxLevel + 1)) None) 1).

(** *** Insert *)

(** The part of [Insert2] from [retry] to the link of level 0. *)
Fixpoint insert_level0 (fuel n : nat) (k : K) (x : nodeptr)
    : M (list nodeptr * list nodeptr) :=
  match n with
  | O => out_of_fuel
  | S n' =>
      do '(ps, ss, _) <- findPath fuel k in
      do s0 <- index_at ss 0 in
      do _ <- setNext x 0 s0 false in
      do p0 <- index_at ps 0 in
      do ok <- dcasNext p0 0 s0 x false false in
      if negb ok then insert_level0 fuel n' k x else ret (ps, ss)
  end.

(** The loop [fixThisLevel]. *)
Fixpoint fixThisLevel (fuel n : nat) (k : K) (x : nodeptr) (i : nat)
    (ps ss : list nodeptr) : M (list nodeptr * list nodeptr) :=
  match n with
  | O => out_of_fuel
  | S n' =>
      do si <- index_at ss i in
      do _ <- setNext x i si false in
      do pi <- index_at ps i in
      do ok <- dcasNext pi i si x false false in
      if ok then ret (ps, ss)
      else
        do '(ps', ss', _) <- findPath fuel k in
        fixThisLevel fuel n' k x i ps' ss'
  end.

(** The loop [for i := 1; i <= itemLevel; i++], with [cnt] levels to go. *)
Fixpoint upperLevels (fuel cnt : nat) (i : nat) (k : K) (x : nodeptr)
    (ps ss : list nodeptr) : M unit :=
  match cnt with
  | O => ret tt
  | S cnt' =>
      do '(ps', ss') <- fixThisLevel fuel fuel k x i ps ss in
      upperLevels fuel cnt' (S i) k x ps' ss'
  end.

Definition Insert2 (fuel : nat) (k : K) (samples : list Q) : M unit :=
  do itemLevel <- randomLevel samples in
  do x <- newNode (userItem k) itemLevel in
  do '(ps, ss) <- insert_level0 fuel fuel k x in
  upperLevels fuel (Z.to_nat itemLevel) 1 k x ps ss.

(** *** Delete *)

(** The loop [for !deleted { ... }] on one level.  [dm] is the variable
    [deleteMarked]; [log] collects the outcomes of the marking CASes in
    program order, which the source does not keep. *)
Fixpoint markInner (n : nat) (delNode : nodeptr) (i : nat) (nxt : nodeptr)
    (del : bool) (dm : bool) (log : list bool) : M (bool * list bool) :=
  if del then ret (dm, log)
  else
    match n with
    | O => out_of_fuel
    | S n' =>
        do ok <- dcasNext delNode i nxt nxt false true in
        do '(nxt', del') <- getNext delNode i in
        markInner n' delNode i nxt' del' ok (log ++ [ok])
    end.

(** The loop [for i := targetLevel; i >= 0; i--], with [n = i + 1]. *)
Fixpoint markLevels (fuel n : nat) (delNode : nodeptr) (dm : bool)
    (log : list bool) : M (bool * list bool) :=
  match n with
  | O => ret (dm, log)
  | S i =>
      do '(nxt, del) <- getNext delNode i in
      do '(dm', log') <- markInner fuel delNode i nxt del dm log in
      markLevels fuel i delNode dm' log'
  end.

(** What a run of [Delete] did: whether [findPath] found the item, the
    outcomes of the marking CASes, and whether [findPath] was run again. *)
Record DeleteRun := mkRun {
  run_found : bool;
  run_target : nodeptr;
  run_cas : list bool;
  run_again : bool
}.

Definition Delete_run (fuel : nat) (k : K) : M DeleteRun :=
  do '(_, ss, found) <- findPath fuel k in
  if negb found then ret (mkRun false None [] false)
  else
    do delNode <- index_at ss 0 in
    do nd <- deref delNode in
    let targetLevel := level nd in
    do '(deleteMarked, log) <-
       markLevels fuel (Z.to_nat (targetLevel + 1)) delNode false [] in
    if deleteMarked then
      do _ <- findPath fuel k in
      ret (mkRun true delNode log true)
    else ret (mkRun true delNode log false).

(** [Delete] has no result. *)
Definition Delete (fuel : nat) (k : K) : M unit :=
  do _ <- Delete_run fuel k in ret tt.

(** [Delete] up to the end of the marking loop, before the test of
    [deleteMarked]: the value of [deleteMarked] there and the outcomes of
    the marking CASes. *)
Definition Delete_mark (fuel : nat) (k : K) : M (bool * list bool) :=
  do '(_, ss, found) <- findPath fuel k in
  if negb found then ret (false, [])
  else
    do delNode <- index_at ss 0 in
    do nd <- deref delNode in
    let targetLevel := level nd in
    markLevels fuel (Z.to_nat (targetLevel + 1)) delNode false [].

(** *** Single-threaded use *)

Inductive Op :=
| OpInsert (k : K) (samples : list Q)
| OpDelete (k : K).

Definition step (fuel : nat) (op : Op) : M unit :=
  match op with
  | OpInsert k samples => Insert2 fuel k samples
  | OpDelete k => Delete fuel k
  end.

Fixpoint run (fuel : nat) (ops : list Op) : M unit :=
  match ops with
  | [] => ret tt
  | op :: ops' => do _ <- step fuel op in run fuel ops'
  end.

(** The forward traversal of level 0 from [curr] to the tail: the items
    of the nodes whose level-0 reference is not marked deleted. *)
Fixpoint walk0 (n : nat) (st : State) (curr : nodeptr) : option (list K) :=
  match n with
  | O => None
  | S n' =>
      if nodeptr_eqb curr (tail st) then Some []
      else
        match curr with
        | None => None
        | Some a =>
            match heap st !! a with
            | None => None
            | Some nd =>
                match next nd !! 0%nat with
                | Some (Some r) =>
                    match walk0 n' st (ptr r) with
                    | Some rest =>
                        Some (match itm nd with
                              | userItem k =>
                                  if deleted r then rest else k :: rest
                              | nilItem _ => rest
                              end)
                    | None => None
                    end
                | _ => None
                end
            end
        end
  end.

(** The items of the list, in order. *)
Definition items (n : nat) (st : State) : option (list K) :=
  match head st with
  | None => None
  | Some h =>
      match heap st !! h with
      | None => None
      | Some nd =>
          match next nd !! 0%nat with
          | Some (Some r) => walk0 n st (ptr r)
          | _ => None
          end
      end
  end.

End WithItem.

Arguments NodeItem K : clear implicits.
Arguments Node K : clear implicits.
Arguments State K : clear implicits.
Arguments M K A : clear implicits.

End Skiplist.

(** ** Invariants of the skiplist in single-threaded use *)

Module SkiplistInv.
Import Go Skiplist.
Local Open Scope Z_scope.

(** The comparator is a total preorder. *)
Class ItemLaws (K : Type) `{Item K} := {
  Compare_antisym : forall a b : K, Z.sgn (Compare b a) = - Z.sgn (Compare a b);
  Compare_trans : forall a b c : K,
    Compare a b <= 0 -> Compare b c <= 0 -> Compare a c <= 0
}.

(** The random source returns a sample that is not below [p] after fewer
    than [2^63] samples that are. *)
Definition ends_below_run (samples : list Q) : Prop :=
  exists pre x rest, samples = pre ++ x :: rest /\
    Forall (fun y => below_p y = true) pre /\ below_p x = false /\
    Z.of_nat (length pre) < 2 ^ 63.

Section WithItem.
Context {K : Type} `{Item K}.

(** A node of the list: where it is, its item and its level. *)
Record Entry := mkEntry { e_addr : nat; e_key : K; e_level : nat }.

Definition addrs (L : list Entry) : list nat := map e_addr L.

(** The nodes linked at level [i], in list order. *)
Definition lev (i : nat) (L : list Entry) : list nat :=
  addrs (filter (fun e => (i <= e_level e)%nat) L).

Definition key_le (a b : Entry) : Prop := Compare (e_key a) (e_key b) <= 0.

Definition has_edge (st : State K) (a i : nat) (del : bool) (b : nat) : Prop :=
  exists nd, heap st !! a = Some nd /\
             next nd !! i = Some (Some (mkRef del (Some b))).

Definition nil_edge (st : State K) (a i : nat) : Prop :=
  exists nd, heap st !! a = Some nd /\ next nd !! i = Some None.

(** Consecutive nodes of [xs] are joined by unmarked references. *)
Fixpoint path (st : State K) (i : nat) (xs : list nat) : Prop :=
  match xs with
  | a :: (b :: _) as t => has_edge st a i false b /\ path st i t
  | _ => True
  end.

Definition node_ok (st : State K) (e : Entry) : Prop :=
  exists nd, heap st !! e_addr e = Some nd /\ itm nd = userItem (e_key e) /\
             level nd = Z.of_nat (e_level e) /\
             length (next nd) = S (e_level e).

(** The head is node 0 and the tail node 1. *)
Record Base (st : State K) (L : list Entry) : Prop := {
  base_sched : sched st = [];
  base_head : head st = Some 0%nat;
  base_tail : tail st = Some 1%nat;
  base_level : 0 <= slevel st <= MaxLevel;
  base_tail_node : exists nd, heap st !! 1%nat = Some nd /\ itm nd = nilItem 1;
  base_tail_nil : forall i, (i <= 32)%nat -> nil_edge st 1 i;
  base_nodup : NoDup (addrs L);
  base_nodes : forall e, e ∈ L ->
               (2 <= e_addr e)%nat /\ node_ok st e /\
               Z.of_nat (e_level e) <= slevel st;
  base_sorted : StronglySorted key_le L
}.

Definition Inv (st : State K) (L : list Entry) : Prop :=
  Base st L /\
  forall i, (i <= 32)%nat -> path st i (0%nat :: lev i L ++ [1%nat]).

(** The predecessor and the successor [findPath] records at level [i]
    when the items of [L1] are smaller than the one searched and those of
    [L2] are not. *)
Definition pred_at (i : nat) (L1 : list Entry) : nat :=
  default 0%nat (last (lev i L1)).
Definition succ_at (i : nat) (L2 : list Entry) : nat :=
  hd 1%nat (lev i L2).

(** A store to a successor reference. *)
Definition upd_edge (a i : nat) (r : NodeRef) (st : State K) : State K :=
  match heap st !! a with
  | Some nd => set_heap (<[a := set_next i (Some r) nd]> (heap st)) st
  | None => st
  end.

(** The reference node [d] holds at level [i], if any. *)
Definition edge_of (st : State K) (d i : nat) : option NodeRef :=
  match heap st !! d with
  | Some nd => match next nd !! i with Some (Some r) => Some r | _ => None end
  | None => None
  end.

(** Marking level [i] of node [d], and the outcomes of the CASes this
    takes without interference. *)
Definition mark_one (d i : nat) (st : State K) : State K :=
  match edge_of st d i with
  | Some r => if deleted r then st else upd_edge d i (mkRef true (ptr r)) st
  | None => st
  end.

Definition mark_log (d i : nat) (st : State K) : list bool :=
  match edge_of st d i with
  | Some r => if deleted r then [] else [true]
  | None => []
  end.

(** Marking the levels [n - 1], ..., [0] of node [d]. *)
Fixpoint mark_state (d n : nat) (st : State K) : State K :=
  match n with
  | O => st
  | S i => mark_state d i (mark_one d i st)
  end.

Fixpoint mark_logs (d n : nat) (st : State K) : list bool :=
  match n with
  | O => []
  | S i => mark_log d i st ++ mark_logs d i (mark_one d i st)
  end.

(** The random source of every insertion stops the sampling loop. *)
Definition op_ok (op : @Skiplist.Op K) : Prop :=
  match op with
  | OpInsert _ samples => ends_below_run samples
  | OpDelete _ => True
  end.

End WithItem.

Arguments Entry K : clear implicits.

(** *** The states of a search, an insertion and a deletion *)

Section States.
Context {K : Type} `{Item K}.

(** The item of the node at [a] compares as [c] with [k]. *)
Definition node_cmp (st : State K) (a : nat) (k : K) (c : Z) : Prop :=
  exists nd, heap st !! a = Some nd /\ item_Compare (itm nd) k = c.

(** The node at [c] is where the search of [k] stops: its item is not
    smaller, and its own reference at level [i] is not marked. *)
Definition stops_at (st : State K) (i c : nat) (k : K) (cc : Z) : Prop :=
  node_cmp st c k cc /\ 0 <= cc /\
  ((exists b, has_edge st c i false b) \/ nil_edge st c i).

(** The node being deleted, if any, between the smaller nodes and the
    others. *)
Definition mid (od : option (Entry K)) : list (Entry K) :=
  match od with Some d => [d] | None => [] end.

(** Level [i] while [findPath] descends with [n] levels to go: the
    marked node [od], if any, is still linked at the levels below [n]. *)
Definition level_ok (st : State K) (L1 : list (Entry K))
    (od : option (Entry K)) (L2 : list (Entry K)) (n i : nat) : Prop :=
  match od with
  | Some d =>
      if decide (i < n /\ i <= e_level d)%nat then
        path st i (0%nat :: lev i L1 ++ [e_addr d]) /\
        has_edge st (e_addr d) i true (hd 1%nat (lev i L2)) /\
        path st i (lev i L2 ++ [1%nat])
      else path st i (0%nat :: lev i (L1 ++ L2) ++ [1%nat])
  | None => path st i (0%nat :: lev i (L1 ++ L2) ++ [1%nat])
  end.

(** The state while [findPath] descends, with [n] levels to go. *)
Definition Desc (st : State K) (L1 : list (Entry K)) (od : option (Entry K))
    (L2 : list (Entry K)) (n : nat) : Prop :=
  Base st (L1 ++ mid od ++ L2) /\
  forall i, (i <= 32)%nat -> level_ok st L1 od L2 n i.

(** The items of [L] are all smaller than [k]; none is. *)
Definition keys_below (k : K) (L : list (Entry K)) : Prop :=
  Forall (fun e => Compare (e_key e) k < 0) L.

Definition keys_not_below (k : K) (L : list (Entry K)) : Prop :=
  Forall (fun e => 0 <= Compare (e_key e) k) L.

(** The operations allocate no node and leave the level counter alone. *)
Definition same_frame (S : list nat) (st st' : State K) : Prop :=
  slevel st' = slevel st /\ length (heap st') = length (heap st) /\
  forall a i del b, a ∉ S -> has_edge st a i del b -> has_edge st' a i del b.

(** States with the same nodes, possibly more. *)
Definition extends (st st' : State K) : Prop :=
  forall a nd, heap st !! a = Some nd -> heap st' !! a = Some nd.

(** The new node is linked at the levels below [j]. *)
Definition ins_ok (st : State K) (L1 : list (Entry K)) ex
    (L2 : list (Entry K)) (j : nat) : Prop :=
  Base st (L1 ++ [ex] ++ L2) /\
  forall i, (i <= 32)%nat ->
    path st i (0%nat :: lev i (if decide (i < j)%nat then L1 ++ [ex] ++ L2
                               else L1 ++ L2) ++ [1%nat]).

(** Level [i] of a list whose node [d] is marked and still linked. *)
Definition marked_shape (st : State K) (L1 : list (Entry K)) (d : Entry K)
    (L2 : list (Entry K)) (i : nat) : Prop :=
  path st i (0%nat :: lev i L1 ++ [e_addr d]) /\
  has_edge st (e_addr d) i true (succ_at i L2) /\
  path st i (lev i L2 ++ [1%nat]).

(** The levels [n .. e_level d] of the node [d] are marked. *)
Definition mark_ok (st : State K) (L1 : list (Entry K)) (d : Entry K)
    (L2 : list (Entry K)) (n : nat) : Prop :=
  Base st (L1 ++ [d] ++ L2) /\
  forall i, (i <= 32)%nat ->
    if decide (n <= i <= e_level d)%nat then marked_shape st L1 d L2 i
    else path st i (0%nat :: lev i (L1 ++ [d] ++ L2) ++ [1%nat]).

(** *** What the operations leave alone *)

(** From [st] to [st'] no node is freed, [n] nodes are allocated, and the
    item, the level and the number of references of every node stay as
    they are. *)
Definition grows (n : nat) (st st' : State K) : Prop :=
  head st' = head st /\ tail st' = tail st /\
  length (heap st') = (length (heap st) + n)%nat /\
  forall a nd, heap st !! a = Some nd ->
    exists nd', heap st' !! a = Some nd' /\ itm nd' = itm nd /\
                level nd' = level nd /\
                length (next nd') = length (next nd).

Definition keeps {A} (n : nat) (m : M K A) : Prop :=
  forall st r st', m st = Ok (r, st') -> grows n st st'.

(** The references marked deleted are the same in [st] and [st'], and
    no other thread is scheduled in [st']. *)
Definition same_marks (st st' : State K) : Prop :=
  sched st' = [] /\
  forall a i r, deleted r = true ->
    (edge_of st a i = Some r <-> edge_of st' a i = Some r).

(** The references marked deleted in [st] are still there in [st']. *)
Definition marks_kept (st st' : State K) : Prop :=
  sched st' = [] /\
  forall a i r, deleted r = true ->
    edge_of st a i = Some r -> edge_of st' a i = Some r.

(** No reference of the node [x] is marked. *)
Definition unmarked (x : nodeptr) (st : State K) : Prop :=
  match x with
  | Some a => forall i r, edge_of st a i = Some r -> deleted r = false
  | None => True
  end.

Definition keepsx {A} (x : nodeptr) (m : M K A) : Prop :=
  forall st r st', sched st = [] -> unmarked x st ->
    m st = Ok (r, st') -> same_marks st st'.

Definition keepsm {A} (m : M K A) : Prop :=
  forall st r st', sched st = [] -> m st = Ok (r, st') -> marks_kept st st'.

(** *** The items as a sequence *)

(** Where [Insert2] puts an item: in front of the first item that is not
    smaller. *)
Fixpoint list_ins (k : K) (l : list K) : list K :=
  match l with
  | [] => [k]
  | a :: l' => if Compare a k <? 0 then a :: list_ins k l' else k :: l
  end.

(** What [Delete] takes out: the first item that is not smaller, if it
    compares equal. *)
Fixpoint list_del (k : K) (l : list K) : list K :=
  match l with
  | [] => []
  | a :: l' =>
      if Compare a k <? 0 then a :: list_del k l'
      else if Compare a k =? 0 then l' else l
  end.

Definition list_op (l : list K) (op : @Skiplist.Op K) : list K :=
  match op with
  | OpInsert k _ => list_ins k l
  | OpDelete k => list_del k l
  end.

End States.

End SkiplistInv.

(** ** A list of integers *)

Module IntList.
Import Go Skiplist SkiplistInv.
Local Open Scope Z_scope.

(** Integers, compared by their difference. *)
#[global] Instance ZItem : Item Z := {| Compare a b := a - b |}.

(** The state an operation leaves behind. *)
Definition exec {A} (m : M Z A) (st : State Z) : State Z :=
  match m st with
  | Ok (_, st') => st'
  | _ => st
  end.

(** A random source that yields [n] samples below [p], then one that is
    not. *)
Definition samples_for (n : nat) : list Q :=
  replicate n (0 # 1)%Q ++ [(1 # 1)%Q].

(** The list that holds the item 5 in a node of level 1 (node 2). *)
Definition one_item : State Z := exec (Insert2 3 5 (samples_for 1)) New.

(** Another deleter marks level 0 of node 2 between the load and the CAS
    of the [dcasNext] with which [Delete] marks that level: the twelfth
    atomic operation of [Delete]. *)
Definition racing_deleter : list (list EnvStep) :=
  replicate 11 [] ++
  [[EnvCasNext 2 0 (mkRef false (Some 1%nat)) (mkRef true (Some 1%nat))]].

(** Inserts of 5, 2, 9, 1, 7 and 2 again, then a delete of 2. *)
Definition inserts_then_delete : list (@Skiplist.Op Z) :=
  [OpInsert 5 (samples_for 0); OpInsert 2 (samples_for 2);
   OpInsert 9 (samples_for 0); OpInsert 1 (samples_for 2);
   OpInsert 7 (samples_for 2); OpInsert 2 (samples_for 0);
   OpDelete 2].

(** The list these operations build. *)
Definition built : State Z := exec (run 10 inserts_then_delete) New.

End IntList.

(** ** Invariants of the access barrier *)

Module BarrierInv.
Import Go Barrier.
Local Open Scope Z_scope.

(** A session that has been flushed: it carries the sequence number and
    the reference of its [FlushSession] call ([refs] lists the references
    in call order), and either still counts accessors above the offset,
    or has been closed by the last of them. *)
Definition flushed_ok (refs : list Z) (f : Z) (s : BarrierSession) : Prop :=
  1 <= seqno s <= Z.of_nat (length refs) /\
  refs !! Z.to_nat (seqno s - 1) = Some (objectRef s) /\
  ((closed s = 0 /\ barrierFlushOffset < liveCount s <= MaxInt32 /\
    f < seqno s) \/
   (closed s = 1 /\ liveCount s = barrierFlushOffset)).

Definition seqno_lt (st : list BarrierSession) (a b : bsptr) : Prop :=
  seqno_at st a < seqno_at st b.

Record InvCore (refs : list Z) (ab : AccessBarrier) : Prop := {
  inv_active : active ab = true;
  inv_cur : exists s, store ab !! session ab = Some s /\ closed s = 0 /\
                      0 <= liveCount s <= barrierFlushOffset;
  inv_seq : activeSeqno ab = Z.of_nat (length refs) /\
            0 <= freeSeqno ab <= activeSeqno ab /\
            numFreed ab = freeSeqno ab;
  inv_flushed : forall a s, a <> session ab -> store ab !! a = Some s ->
                flushed_ok refs (freeSeqno ab) s;
  inv_inj : forall a b sa sb, a <> session ab -> b <> session ab ->
            store ab !! a = Some sa -> store ab !! b = Some sb ->
            seqno sa = seqno sb -> a = b;
  inv_q_nodup : NoDup (freeq ab);
  inv_q_elem : forall a, a ∈ freeq ab ->
               a <> session ab /\
               exists s, store ab !! a = Some s /\ closed s = 1 /\
                         freeSeqno ab < seqno s;
  inv_q_sorted : StronglySorted (seqno_lt (store ab)) (freeq ab);
  inv_calls_seq : map call_seqno (calls ab) =
                  map Z.of_nat (seq 1 (Z.to_nat (freeSeqno ab)));
  inv_calls_ref : forall c, c ∈ calls ab ->
                  refs !! Z.to_nat (call_seqno c - 1) = Some (call_ref c)
}.

(** Between two operations no destructor chain is running, and no queued
    session is next in line: its number is above [freeSeqno + 1]. *)
Definition Inv (refs : list Z) (ab : AccessBarrier) : Prop :=
  InvCore refs ab /\ isDestructorRunning ab = 0 /\
  (forall x, x ∈ freeq ab -> freeSeqno ab + 1 < seqno_at (store ab) x).

(** Every sequence number handed out is that of a flushed session, and
    every closed session that is not yet destructed is queued. *)
Definition Live (ab : AccessBarrier) : Prop :=
  (forall n, 1 <= n <= activeSeqno ab ->
     exists a s, a <> session ab /\ store ab !! a = Some s /\ seqno s = n) /\
  (forall a s, a <> session ab -> store ab !! a = Some s -> closed s = 1 ->
     freeSeqno ab < seqno s -> a ∈ freeq ab).

(** *** Clients that pair their calls *)

(** How often the handle [a] is held. *)
Fixpoint cnt (a : nat) (held : list nat) : Z :=
  match held with
  | [] => 0
  | x :: l => (if Nat.eqb x a then 1 else 0) + cnt a l
  end.

Fixpoint release_one (a : nat) (held : list nat) : list nat :=
  match held with
  | [] => []
  | x :: l => if Nat.eqb x a then l else x :: release_one a l
  end.

(** A sequence of calls that releases only handles it got from [Acquire]
    and still holds; [cur] is the session [Acquire] returns, the first
    session being 0 and each [FlushSession] installing the next one. *)
Fixpoint well_paired (cur : nat) (held : list nat) (ops : list Op) : Prop :=
  match ops with
  | [] => True
  | OpAcquire :: ops' => well_paired cur (cur :: held) ops'
  | OpRelease bs :: ops' =>
      bs ∈ held /\ well_paired cur (release_one bs held) ops'
  | OpFlushSession _ :: ops' => well_paired (S cur) held ops'
  end.

(** The counters of the sessions count the handles held. *)
Definition Held (held : list nat) (ab : AccessBarrier) : Prop :=
  length (store ab) = S (session ab) /\
  Forall (fun a => (a < length (store ab))%nat) held /\
  forall a s, store ab !! a = Some s ->
    (a = session ab -> liveCount s = cnt a held) /\
    (a <> session ab -> closed s = 0 ->
       liveCount s = barrierFlushOffset + cnt a held) /\
    (a <> session ab -> closed s = 1 -> cnt a held = 0).

(** *** The sessions of a barrier *)

(** The pointer [bs] is that of a session of the store. *)
Definition allocated (st : list BarrierSession) (bs : bsptr) : Prop :=
  is_Some (st !! bs).

(** Every session pointer the barrier holds is allocated. *)
Definition wf_ptrs (ab : AccessBarrier) : Prop :=
  allocated (store ab) (session ab) /\
  Forall (allocated (store ab)) (freeq ab).

(** The session [bs] after the decrement of [Release], and after the
    decrement and the increment of [closed]. *)
Definition released (s : BarrierSession) : BarrierSession :=
  set_liveCount (wrap_i32 (liveCount s - 1)) s.

Definition released_closed (s : BarrierSession) : BarrierSession :=
  set_closed (wrap_i32 (closed s + 1)) (released s).

(** The barrier in the middle of [FlushSession], before its [Release]. *)
Definition flush_mid (ref : Z) (ab : AccessBarrier) (s : BarrierSession)
    : AccessBarrier :=
  {| activeSeqno := wrap_u64 (activeSeqno ab + 1);
     session := length (store ab); freeq := freeq ab;
     freeSeqno := freeSeqno ab;
     isDestructorRunning := isDestructorRunning ab;
     numAllocated := wrap_i64 (numAllocated ab + 1);
     numFreed := numFreed ab; active := active ab;
     store := <[session ab :=
                 set_liveCount
                   (wrap_i32 (liveCount s + (barrierFlushOffset + 1)))
                   (set_flushed ref (wrap_u64 (activeSeqno ab + 1)) s)]>
                (store ab ++ [newBarrierSession]);
     calls := calls ab |}.

End BarrierInv.

(** ** Runs of a barrier *)

Module BarrierRuns.
Import Go Barrier.
Local Open Scope Z_scope.

(** The barrier a sequence of calls leaves behind. *)
Definition after (ops : list Op) : AccessBarrier :=
  match run 1 ops (newAccessBarrier true) with
  | Ok ab => ab
  | _ => newAccessBarrier true
  end.

(** A reader enters, and the session it holds is flushed. *)
Definition reader_then_flush : list Op := [OpAcquire; OpFlushSession 11].

(** A reader enters, three sessions are flushed, the reader leaves. *)
Definition reader_three_flushes : list Op :=
  [OpAcquire; OpFlushSession 11; OpFlushSession 12; OpFlushSession 13].

Definition reader_three_flushes_release : list Op :=
  reader_three_flushes ++ [OpRelease 0].

End BarrierRuns.

(** * Properties *)

Module GoFacts.
Import Go.
Local Open Scope Z_scope.

Lemma wrap_u64_small z : 0 <= z < 2 ^ 64 -> wrap_u64 z = z.
Proof. intros H. unfold wrap_u64. apply Z.mod_small. exact H. Qed.

Lemma wrap_i64_small z : - 2 ^ 63 <= z < 2 ^ 63 -> wrap_i64 z = z.
Proof. intros H. unfold wrap_i64. rewrite Z.mod_small; lia. Qed.

Lemma wrap_i32_small z : - 2 ^ 31 <= z < 2 ^ 31 -> wrap_i32 z = z.
Proof. intros H. unfold wrap_i32. rewrite Z.mod_small; lia. Qed.

Lemma wrap_i64_range z : - 2 ^ 63 <= wrap_i64 z < 2 ^ 63.
Proof.
  unfold wrap_i64.
  pose proof (Z.mod_pos_bound (z + 2 ^ 63) (2 ^ 64) ltac:(lia)). lia.
Qed.

Lemma wrap_i32_range z : - 2 ^ 31 <= wrap_i32 z < 2 ^ 31.
Proof.
  unfold wrap_i32.
  pose proof (Z.mod_pos_bound (z + 2 ^ 31) (2 ^ 32) ltac:(lia)). lia.
Qed.

End GoFacts.

Module MmSpec.
Import Go Mm GoFacts.
Local Open Scope Z_scope.

Example computeBinFrag_E6 : computeBinFrag 75 5 20 = Ok 25.
Proof. reflexivity. Qed.

Example computeBinFrag_no_slabs curregs nregs :
  computeBinFrag curregs 0 nregs = Ok 0.
Proof. reflexivity. Qed.

(** C3 (as stated, refuted): with [curregs = 3], [curslabs = 1] and
    [nregs = 1] the unsigned subtraction [100 - 300] wraps around, so the
    result is neither [100 - (100 * 3) / (1 * 1)] nor inside [[0, 100]]. *)
Lemma computeBinFrag_not_clamped :
  is_uint64 3 /\ is_uint64 1 /\
  ~ (exists r, computeBinFrag 3 1 1 = Ok r /\
               r = 100 - (100 * 3) / (1 * 1) /\ 0 <= r <= 100).
Proof.
  repeat split; try (unfold is_uint64; lia).
  intros (r & Hr & _ & Hlo & Hhi).
  vm_compute in Hr. injection Hr as <-. lia.
Qed.

(** The divisor itself can wrap around to zero. *)
Lemma computeBinFrag_divisor_wraps :
  computeBinFrag 1 (2 ^ 32) (2 ^ 32) = Panic DivideByZero.
Proof. reflexivity. Qed.

(** Where [computeBinFrag] returns the value of the specification and
    that value is inside [[0, 100]]: with a denominator that is zero always;
    with positive denominators exactly when the quotient is at most 100,
    the wrapped divisor is not zero and the quotient of the wrapped
    products is the exact one. *)
Lemma computeBinFrag_agrees (curregs curslabs nregs : Z) :
  is_uint64 curregs -> is_uint64 curslabs -> is_uint64 nregs ->
  ((computeBinFrag curregs curslabs nregs =
      Ok (frag_percent curregs curslabs nregs)) /\
   (0 <= frag_percent curregs curslabs nregs <= 100)) <->
  (curslabs = 0 \/ nregs = 0 \/
   (100 * curregs < 101 * (curslabs * nregs) /\
    wrap_u64 (curslabs * nregs) <> 0 /\
    wrap_u64 (100 * curregs) / wrap_u64 (curslabs * nregs) =
      100 * curregs / (curslabs * nregs))).
Proof.
  unfold is_uint64. intros Hc Hs Hn. unfold computeBinFrag, frag_percent.
  destruct (Z.leb_spec curslabs 0) as [Hs0|Hs0]; cbn [orb].
  { replace (0 <? curslabs) with false by (symmetry; apply Z.ltb_ge; lia).
    cbn [andb]. split; [intros _; left; lia|intros _; split; [reflexivity|lia]]. }
  destruct (Z.leb_spec nregs 0) as [Hn0|Hn0]; cbn [orb].
  { replace (0 <? nregs) with false by (symmetry; apply Z.ltb_ge; lia).
    rewrite andb_false_r.
    split; [intros _; right; left; lia|intros _; split; [reflexivity|lia]]. }
  replace (0 <? curslabs) with true by (symmetry; apply Z.ltb_lt; lia).
  replace (0 <? nregs) with true by (symmetry; apply Z.ltb_lt; lia).
  cbn [andb]. cbv zeta.
  assert (Hd : 0 < curslabs * nregs) by nia.
  set (q := 100 * curregs / (curslabs * nregs)).
  assert (Hq0 : 0 <= q) by (apply Z.div_pos; lia).
  assert (Hq : q <= 100 <-> 100 * curregs < 101 * (curslabs * nregs)).
  { split; intros Hle.
    - assert (Hlt : q < 101) by lia.
      pose proof (Z.mul_succ_div_gt (100 * curregs) (curslabs * nregs) Hd) as Hm.
      fold q in Hm. nia.
    - assert (Hlt : q < 101); [|lia].
      apply Z.div_lt_upper_bound; lia. }
  set (d := wrap_u64 (curslabs * nregs)).
  assert (Hdr : 0 <= d < 2 ^ 64) by (apply Z.mod_pos_bound; lia).
  set (q' := wrap_u64 (100 * curregs) / d).
  destruct (Z.eqb_spec d 0) as [Ed|Ed].
  { split; [intros [E _]; discriminate|].
    intros [?|[?|(_ & Hne & _)]]; [lia|lia|contradiction]. }
  assert (Hq' : 0 <= q' < 2 ^ 64).
  { assert (Hw : 0 <= wrap_u64 (100 * curregs) < 2 ^ 64)
      by (apply Z.mod_pos_bound; lia).
    split; [apply Z.div_pos; lia|].
    apply Z.div_lt_upper_bound; nia. }
  split.
  - intros [E Hb]. right. right. injection E as E.
    split; [apply Hq; lia|]. split; [exact Ed|].
    destruct (Z_le_gt_dec q' 100) as [Hle|Hgt].
    + rewrite wrap_u64_small in E by lia. lia.
    + exfalso.
      assert (Ew : wrap_u64 (100 - q') = 100 - q' + 2 ^ 64).
      { unfold wrap_u64. symmetry.
        apply (Z.mod_unique_pos _ _ (-1)); lia. }
      lia.
  - intros [?|[?|(Hlt & _ & Eq)]]; [lia|lia|].
    apply Hq in Hlt. rewrite Eq. rewrite wrap_u64_small by lia.
    split; [reflexivity|lia].
Qed.

(** C3 (amended): for unsigned 64-bit arguments, [computeBinFrag] returns
    [0] whenever [curslabs] or [nregs] is [0].  When both are positive it
    returns [100 - (100 * curregs) / (curslabs * nregs)], a value inside
    [[0, 100]], exactly when [100 * curregs < 101 * (curslabs * nregs)]
    (the quotient is at most 100), the divisor is not zero modulo [2^64]
    and the quotient of the wrapped products is the exact quotient; the
    last two conditions hold whenever neither product overflows 64 bits.
    75 regions in 5 slabs of 20 give 25, and no slab gives 0. *)
Theorem computeBinFrag_spec (curregs curslabs nregs : Z) :
  is_uint64 curregs -> is_uint64 curslabs -> is_uint64 nregs ->
  (computeBinFrag curregs 0 nregs = Ok 0 /\
   computeBinFrag curregs curslabs 0 = Ok 0 /\
   frag_percent curregs 0 nregs = 0 /\ frag_percent curregs curslabs 0 = 0) /\
  (((computeBinFrag curregs curslabs nregs =
      Ok (frag_percent curregs curslabs nregs)) /\
    (0 <= frag_percent curregs curslabs nregs <= 100)) <->
   (curslabs = 0 \/ nregs = 0 \/
    (100 * curregs < 101 * (curslabs * nregs) /\
     wrap_u64 (curslabs * nregs) <> 0 /\
     wrap_u64 (100 * curregs) / wrap_u64 (curslabs * nregs) =
       100 * curregs / (curslabs * nregs)))) /\
  (0 < curslabs -> 0 < nregs ->
   100 * curregs < 2 ^ 64 -> curslabs * nregs < 2 ^ 64 ->
   ((computeBinFrag curregs curslabs nregs =
      Ok (100 - (100 * curregs) / (curslabs * nregs))) /\
    (0 <= 100 - (100 * curregs) / (curslabs * nregs) <= 100)) <->
   100 * curregs < 101 * (curslabs * nregs)) /\
  computeBinFrag 75 5 20 = Ok 25.
Proof.
  intros Hc Hs Hn.
  split.
  { unfold computeBinFrag, frag_percent. cbn [Z.leb orb].
    rewrite orb_true_r, andb_false_r. cbn. auto. }
  split; [apply computeBinFrag_agrees; assumption|].
  split; [|reflexivity].
  intros Hs0 Hn0 Ho1 Ho2.
  pose proof (computeBinFrag_agrees curregs curslabs nregs Hc Hs Hn) as Hag.
  unfold frag_percent in Hag.
  replace (0 <? curslabs) with true in Hag by (symmetry; apply Z.ltb_lt; lia).
  replace (0 <? nregs) with true in Hag by (symmetry; apply Z.ltb_lt; lia).
  cbn [andb] in Hag. rewrite Hag.
  unfold is_uint64 in *.
  rewrite (wrap_u64_small (curslabs * nregs)) by nia.
  rewrite (wrap_u64_small (100 * curregs)) by lia.
  split.
  - intros [?|[?|(Hlt & _)]]; [lia|lia|exact Hlt].
  - intros Hlt. right. right. split; [exact Hlt|]. split; [nia|reflexivity].
Qed.

Lemma computeBinFrag_spec_witness :
  ((computeBinFrag 75 5 20 = Ok (100 - (100 * 75) / (5 * 20))) /\
   (0 <= 100 - (100 * 75) / (5 * 20) <= 100)) /\
  ((computeBinFrag 201 200 1 = Ok (100 - (100 * 201) / (200 * 1))) /\
   (0 <= 100 - (100 * 201) / (200 * 1) <= 100)) /\
  computeBinFrag 5 3 0 = Ok 0.
Proof.
  split; [|split].
  - apply (computeBinFrag_spec 75 5 20); unfold is_uint64; lia.
  - apply (computeBinFrag_spec 201 200 1); unfold is_uint64; lia.
  - apply (computeBinFrag_spec 5 3 0); unfold is_uint64; lia.
Defined.

(** *** Fragmentation: errors, extremes and monotonicity *)

(** The only panic of [computeBinFrag] is the division by zero, and it
    happens exactly when both counts are positive and their product is a
    multiple of [2^64]; counts below [2^32] never panic. *)
Theorem computeBinFrag_panics_iff (curregs curslabs nregs : Z) :
  is_uint64 curregs -> is_uint64 curslabs -> is_uint64 nregs ->
  (computeBinFrag curregs curslabs nregs = Panic DivideByZero <->
   0 < curslabs /\ 0 < nregs /\ (curslabs * nregs) mod 2 ^ 64 = 0) /\
  ((exists r, computeBinFrag curregs curslabs nregs = Ok r /\ is_uint64 r) \/
   computeBinFrag curregs curslabs nregs = Panic DivideByZero) /\
  (curslabs < 2 ^ 32 -> nregs < 2 ^ 32 ->
   exists r, computeBinFrag curregs curslabs nregs = Ok r).
Proof.
  unfold is_uint64. intros Hc Hs Hn. unfold computeBinFrag.
  destruct (Z.leb_spec curslabs 0) as [Hs0|Hs0]; cbn [orb].
  { split; [split; [discriminate|lia]|].
    split; [left; exists 0; split; [reflexivity|lia]|]. intros; eauto. }
  destruct (Z.leb_spec nregs 0) as [Hn0|Hn0]; cbn [orb].
  { split; [split; [discriminate|lia]|].
    split; [left; exists 0; split; [reflexivity|lia]|]. intros; eauto. }
  cbv zeta.
  change (wrap_u64 (curslabs * nregs)) with ((curslabs * nregs) mod 2 ^ 64).
  destruct (Z.eqb_spec ((curslabs * nregs) mod 2 ^ 64) 0) as [E|Hne].
  - split; [split; [intros _; auto|reflexivity]|]. split; [right; reflexivity|].
    intros H1 H2. exfalso.
    rewrite Z.mod_small in E by nia. nia.
  - split; [split; [discriminate|intros (_ & _ & E); contradiction]|].
    split; [|intros; eauto]. left. eexists. split; [reflexivity|].
    unfold wrap_u64 at 1. apply Z.mod_pos_bound. lia.
Qed.

Lemma computeBinFrag_exact (curregs curslabs nregs : Z) :
  0 <= curregs -> 0 < curslabs -> 0 < nregs ->
  curregs <= curslabs * nregs ->
  100 * curregs < 2 ^ 64 -> curslabs * nregs < 2 ^ 64 ->
  computeBinFrag curregs curslabs nregs =
    Ok (100 - (100 * curregs) / (curslabs * nregs)) /\
  0 <= (100 * curregs) / (curslabs * nregs) <= 100.
Proof.
  intros Hr Hs Hn Hle Ho1 Ho2. unfold computeBinFrag.
  destruct (Z.leb_spec curslabs 0); [lia|].
  destruct (Z.leb_spec nregs 0); [lia|]. cbn [orb].
  assert (Hd : 0 < curslabs * nregs) by nia.
  rewrite (wrap_u64_small (curslabs * nregs)) by lia.
  rewrite (wrap_u64_small (100 * curregs)) by lia.
  destruct (Z.eqb_spec (curslabs * nregs) 0) as [E|_]; [lia|].
  assert (Hq0 : 0 <= 100 * curregs / (curslabs * nregs))
    by (apply Z.div_pos; lia).
  assert (Hq1 : 100 * curregs / (curslabs * nregs) <= 100).
  { apply Z.div_le_upper_bound; nia. }
  rewrite wrap_u64_small by lia. auto.
Qed.

(** On a consistent bin the fragmentation falls as more regions are in
    use: it is 100 as long as less than one region in a hundred is used,
    and 0 exactly when every region is. *)
Theorem computeBinFrag_monotone (c1 c2 curslabs nregs : Z) :
  0 <= c1 -> c1 <= c2 -> c2 <= curslabs * nregs ->
  0 < curslabs -> 0 < nregs ->
  100 * c2 < 2 ^ 64 -> curslabs * nregs < 2 ^ 64 ->
  exists r1 r2,
    computeBinFrag c1 curslabs nregs = Ok r1 /\
    computeBinFrag c2 curslabs nregs = Ok r2 /\
    r2 <= r1 /\
    (r2 = 0 <-> c2 = curslabs * nregs) /\
    (r1 = 100 <-> 100 * c1 < curslabs * nregs).
Proof.
  intros H0 H12 H2 Hs Hn Ho1 Ho2.
  destruct (computeBinFrag_exact c1 curslabs nregs) as [E1 B1]; try lia.
  destruct (computeBinFrag_exact c2 curslabs nregs) as [E2 B2]; try lia.
  assert (Hd : 0 < curslabs * nregs) by nia.
  set (d := curslabs * nregs) in *.
  exists (100 - 100 * c1 / d), (100 - 100 * c2 / d).
  split; [exact E1|]. split; [exact E2|]. split; [|split].
  - assert (100 * c1 / d <= 100 * c2 / d) by (apply Z.div_le_mono; lia). lia.
  - split.
    + intros Hr. assert (Hq : 100 * c2 / d = 100) by lia.
      assert (Hm : d * (100 * c2 / d) <= 100 * c2)
        by (apply Z.mul_div_le; lia).
      rewrite Hq in Hm. lia.
    + intros ->. rewrite Z.div_mul by lia. lia.
  - split.
    + intros Hr. assert (Hq : 100 * c1 / d = 0) by lia.
      apply Z.div_small_iff in Hq; lia.
    + intros Hlt. rewrite Z.div_small by lia. lia.
Qed.

(** [computeBinResident] is the product of its three arguments modulo
    [2^64]: the wrap-around of the first product does no further harm, and
    the result is exact as long as the product itself fits. *)
Theorem computeBinResident_exact (curslabs nregs size : Z) :
  is_uint64 curslabs -> is_uint64 nregs -> is_uint64 size ->
  computeBinResident curslabs nregs size = (curslabs * nregs * size) mod 2 ^ 64 /\
  (curslabs * nregs * size < 2 ^ 64 ->
   computeBinResident curslabs nregs size = curslabs * nregs * size).
Proof.
  unfold is_uint64. intros Hs Hn Hz.
  assert (E : computeBinResident curslabs nregs size =
              (curslabs * nregs * size) mod 2 ^ 64).
  { unfold computeBinResident, wrap_u64. apply Zmult_mod_idemp_l. }
  split; [exact E|].
  intros Hlt. rewrite E. apply Z.mod_small. nia.
Qed.

Lemma computeBinResident_exact_witness :
  computeBinResident 5 20 64 = (5 * 20 * 64) mod 2 ^ 64 /\
  (5 * 20 * 64 < 2 ^ 64 -> computeBinResident 5 20 64 = 5 * 20 * 64).
Proof. apply (computeBinResident_exact 5 20 64); unfold is_uint64; lia. Defined.

(** *** The per-bin statistics *)

Lemma bin_key_inj (x y : Z) : 0 <= x -> 0 <= y -> bin_key x = bin_key y -> x = y.
Proof.
  intros Hx Hy E. unfold bin_key in E.
  apply String.app_inj in E. apply pretty_N_inj in E. lia.
Qed.

Lemma getBinsStats_loop_frame raw : forall m0 m k,
  getBinsStats_loop raw m0 = Ok m ->
  (forall b, b ∈ raw -> bin_key (bin_size b) <> k) ->
  m !! k = m0 !! k.
Proof.
  induction raw as [|b raw IH]; intros m0 m k; cbn.
  - intros [= <-] _. reflexivity.
  - destruct (bin_stats b) as [sts| |]; try discriminate.
    intros E Hk.
    rewrite (IH _ _ k E) by (intros b' Hb'; apply Hk; right; exact Hb').
    apply lookup_insert_ne. apply Hk. left.
Qed.

Lemma getBinsStats_loop_last raw : forall m0 m pre b post,
  getBinsStats_loop raw m0 = Ok m -> raw = pre ++ b :: post ->
  (forall b', b' ∈ post -> bin_key (bin_size b') <> bin_key (bin_size b)) ->
  exists sts, bin_stats b = Ok sts /\ m !! bin_key (bin_size b) = Some sts.
Proof.
  induction raw as [|b0 raw IH]; intros m0 m pre b post E Hr Hpost.
  - destruct pre; discriminate.
  - cbn in E. destruct (bin_stats b0) as [sts0| |] eqn:E0; try discriminate.
    destruct pre as [|p pre]; cbn in Hr; injection Hr as -> ->.
    + exists sts0. split; [exact E0|].
      rewrite (getBinsStats_loop_frame _ _ _ _ E Hpost).
      apply lookup_insert_eq.
    + eapply IH; eauto.
Qed.

Lemma getBinsStats_loop_keys raw : forall m0 m k,
  getBinsStats_loop raw m0 = Ok m -> is_Some (m !! k) ->
  is_Some (m0 !! k) \/ exists b, b ∈ raw /\ k = bin_key (bin_size b).
Proof.
  induction raw as [|b raw IH]; intros m0 m k; cbn.
  - intros [= <-] Hk. auto.
  - destruct (bin_stats b) as [sts| |]; try discriminate.
    intros E Hk. destruct (IH _ _ k E Hk) as [H0|(b' & Hb' & ->)].
    + destruct (decide (bin_key (bin_size b) = k)) as [<-|Hne].
      * right. exists b. split; [left|reflexivity].
      * rewrite lookup_insert_ne in H0 by exact Hne. auto.
    + right. exists b'. split; [right; exact Hb'|reflexivity].
Qed.

Lemma bin_stats_panics (b : BinRaw) :
  (bin_stats b = Panic DivideByZero <->
   0 < bin_curslabs b /\ 0 < bin_nregs b /\
   (bin_curslabs b * bin_nregs b) mod 2 ^ 64 = 0) /\
  ((exists sts, bin_stats b = Ok sts) \/ bin_stats b = Panic DivideByZero).
Proof.
  unfold bin_stats, computeBinFrag.
  destruct (Z.leb_spec (bin_curslabs b) 0) as [Hs0|Hs0]; cbn [orb];
    [split; [split; [discriminate|lia] | eauto]|].
  destruct (Z.leb_spec (bin_nregs b) 0) as [Hn0|Hn0]; cbn [orb];
    [split; [split; [discriminate|lia] | eauto]|].
  cbv zeta.
  change (wrap_u64 (bin_curslabs b * bin_nregs b))
    with ((bin_curslabs b * bin_nregs b) mod 2 ^ 64).
  destruct (Z.eqb_spec ((bin_curslabs b * bin_nregs b) mod 2 ^ 64) 0).
  - split; [split; auto | auto].
  - split; [split; [discriminate|intros (_ & _ & ?); contradiction] | eauto].
Qed.

Lemma getBinsStats_loop_total raw : forall m0,
  (exists m, getBinsStats_loop raw m0 = Ok m /\
             Forall (fun b => exists sts, bin_stats b = Ok sts) raw) \/
  (getBinsStats_loop raw m0 = Panic DivideByZero /\
   Exists (fun b => bin_stats b = Panic DivideByZero) raw).
Proof.
  induction raw as [|b raw IH]; intros m0; cbn.
  - left. exists m0. split; [reflexivity|constructor].
  - destruct (proj2 (bin_stats_panics b)) as [[sts E]|E]; rewrite E.
    + destruct (IH (<[bin_key (bin_size b) := sts]> m0))
        as [(m & Em & Hall)|[Ep Hex]].
      * left. exists m. split; [exact Em|]. constructor; eauto.
      * right. split; [exact Ep|]. right. exact Hex.
    + right. split; [reflexivity|]. left. exact E.
Qed.

(** [getBinsStats] panics exactly when the divisor of some bin wraps
    around to zero.  Otherwise it returns a map whose keys are those of the
    bins reported, and the entry of a size holds the fragmentation and the
    resident bytes of the last bin reported with that size. *)
Theorem getBinsStats_entries (raw : list BinRaw) :
  Forall (fun b => 0 <= bin_size b) raw ->
  (getBinsStats raw = Panic DivideByZero <->
   Exists (fun b => 0 < bin_curslabs b /\ 0 < bin_nregs b /\
                    (bin_curslabs b * bin_nregs b) mod 2 ^ 64 = 0) raw) /\
  (getBinsStats raw = Panic DivideByZero \/
   exists m,
     getBinsStats raw = Ok m /\
     (forall pre b post, raw = pre ++ b :: post ->
        Forall (fun b' => bin_size b' <> bin_size b) post ->
        exists f,
          computeBinFrag (bin_curregs b) (bin_curslabs b) (bin_nregs b) = Ok f /\
          m !! bin_key (bin_size b) =
            Some {| FragPercent := f;
                    Resident := computeBinResident (bin_curslabs b)
                                  (bin_nregs b) (bin_size b) |}) /\
     (forall k, is_Some (m !! k) ->
        exists b, b ∈ raw /\ k = bin_key (bin_size b))).
Proof.
  intros Hsz. unfold getBinsStats.
  destruct (getBinsStats_loop_total raw ∅) as [(m & Em & Hall)|[Ep Hex]].
  - split.
    + rewrite Em. split; [discriminate|]. intros Hex. exfalso.
      apply Exists_exists in Hex as (b & Hb & Hbp).
      rewrite Forall_forall in Hall. destruct (Hall b Hb) as (sts & Es).
      apply (bin_stats_panics b) in Hbp. congruence.
    + right. exists m. split; [exact Em|]. split.
      * intros pre b post Hr Hpost.
        assert (Hb : b ∈ raw) by (rewrite Hr; apply elem_of_app; right; left).
        destruct (getBinsStats_loop_last raw ∅ m pre b post Em Hr)
          as (sts & Es & Hl).
        { intros b' Hb' Ek. rewrite Forall_forall in Hpost, Hsz.
          apply (Hpost b' Hb'). apply bin_key_inj; [| |exact Ek].
          - apply Hsz. rewrite Hr. apply elem_of_app. right. right. exact Hb'.
          - apply Hsz. exact Hb. }
        unfold bin_stats in Es.
        destruct (computeBinFrag (bin_curregs b) (bin_curslabs b) (bin_nregs b))
          as [f| |]; try discriminate.
        injection Es as <-. exists f. auto.
      * intros k Hk.
        destruct (getBinsStats_loop_keys raw ∅ m k Em Hk) as [H0|Hb]; [|exact Hb].
        rewrite lookup_empty in H0. destruct H0 as [? H0]. discriminate.
  - split; [|left; exact Ep]. split; [intros _|intros _; exact Ep].
    eapply Exists_impl; [exact Hex|]. intros b. apply bin_stats_panics.
Qed.

(** *** The allocation counters *)

Lemma wrap_u64_shift (z n : Z) : wrap_u64 (wrap_u64 (z + 1) + n) = wrap_u64 (z + (1 + n)).
Proof.
  unfold wrap_u64. rewrite Zplus_mod_idemp_l. f_equal. lia.
Qed.

Lemma wrap_u64_is_uint64 (z : Z) : is_uint64 (wrap_u64 z).
Proof. unfold is_uint64, wrap_u64. apply Z.mod_pos_bound. lia. Qed.

(** With [Debug] set, [GetAllocStats] after a run of [Malloc] and [Free]
    calls returns the counters advanced by the number of calls of each
    kind, modulo [2^64]; with [Debug] unset the counters never move. *)
Theorem GetAllocStats_counts (cs : list MmCall) (st : Counters) :
  is_uint64 (allocs st) -> is_uint64 (frees st) ->
  GetAllocStats (fold_left mm_call cs st) =
    (if Debug st
     then (wrap_u64 (allocs st + n_mallocs cs), wrap_u64 (frees st + n_frees cs))
     else (allocs st, frees st)) /\
  Debug (fold_left mm_call cs st) = Debug st.
Proof.
  revert st. induction cs as [|c cs IH]; intros st Ha Hf.
  - cbn. rewrite !Z.add_0_r, !wrap_u64_small by assumption.
    destruct (Debug st); auto.
  - cbn [fold_left]. destruct (Debug st) eqn:Hd.
    + destruct c; cbn [mm_call]; unfold Malloc, Free; rewrite Hd.
      * destruct (IH {| Debug := true; allocs := wrap_u64 (allocs st + 1);
                        frees := frees st |}) as [E1 E2];
          [apply wrap_u64_is_uint64 | exact Hf |].
        cbn in E1, E2. rewrite E1, E2. cbn [n_mallocs n_frees].
        rewrite wrap_u64_shift. auto.
      * destruct (IH {| Debug := true; allocs := allocs st;
                        frees := wrap_u64 (frees st + 1) |}) as [E1 E2];
          [exact Ha | apply wrap_u64_is_uint64 |].
        cbn in E1, E2. rewrite E1, E2. cbn [n_mallocs n_frees].
        rewrite wrap_u64_shift. auto.
    + assert (E : mm_call st c = st)
        by (destruct c; cbn; unfold Malloc, Free; rewrite Hd; reflexivity).
      rewrite E. destruct (IH st Ha Hf) as [E1 E2]. rewrite Hd in E1, E2. auto.
Qed.

Lemma computeBinFrag_panics_iff_witness :
  (computeBinFrag 1 (2 ^ 32) (2 ^ 32) = Panic DivideByZero <->
   0 < 2 ^ 32 /\ 0 < 2 ^ 32 /\ (2 ^ 32 * 2 ^ 32) mod 2 ^ 64 = 0) /\
  ((exists r, computeBinFrag 1 (2 ^ 32) (2 ^ 32) = Ok r /\ is_uint64 r) \/
   computeBinFrag 1 (2 ^ 32) (2 ^ 32) = Panic DivideByZero) /\
  (2 ^ 32 < 2 ^ 32 -> 2 ^ 32 < 2 ^ 32 ->
   exists r, computeBinFrag 1 (2 ^ 32) (2 ^ 32) = Ok r).
Proof.
  apply (computeBinFrag_panics_iff 1 (2 ^ 32) (2 ^ 32));
    unfold is_uint64; lia.
Defined.

Lemma computeBinFrag_monotone_witness :
  exists r1 r2,
    computeBinFrag 50 5 20 = Ok r1 /\
    computeBinFrag 75 5 20 = Ok r2 /\
    r2 <= r1 /\
    (r2 = 0 <-> 75 = 5 * 20) /\
    (r1 = 100 <-> 100 * 50 < 5 * 20).
Proof. apply (computeBinFrag_monotone 50 75 5 20); lia. Defined.

Lemma getBinsStats_entries_witness :
  (getBinsStats [mkBinRaw 64 20 75 5; mkBinRaw 8 512 0 0] = Panic DivideByZero <->
   Exists (fun b => 0 < bin_curslabs b /\ 0 < bin_nregs b /\
                    (bin_curslabs b * bin_nregs b) mod 2 ^ 64 = 0)
     [mkBinRaw 64 20 75 5; mkBinRaw 8 512 0 0]) /\
  (getBinsStats [mkBinRaw 64 20 75 5; mkBinRaw 8 512 0 0] = Panic DivideByZero \/
   exists m,
     getBinsStats [mkBinRaw 64 20 75 5; mkBinRaw 8 512 0 0] = Ok m /\
     (forall pre b post,
        [mkBinRaw 64 20 75 5; mkBinRaw 8 512 0 0] = pre ++ b :: post ->
        Forall (fun b' => bin_size b' <> bin_size b) post ->
        exists f,
          computeBinFrag (bin_curregs b) (bin_curslabs b) (bin_nregs b) = Ok f /\
          m !! bin_key (bin_size b) =
            Some {| FragPercent := f;
                    Resident := computeBinResident (bin_curslabs b)
                                  (bin_nregs b) (bin_size b) |}) /\
     (forall k, is_Some (m !! k) ->
        exists b, b ∈ [mkBinRaw 64 20 75 5; mkBinRaw 8 512 0 0] /\
                  k = bin_key (bin_size b))).
Proof.
  apply (getBinsStats_entries [mkBinRaw 64 20 75 5; mkBinRaw 8 512 0 0]).
  repeat constructor; cbn; lia.
Defined.

Lemma GetAllocStats_counts_witness :
  GetAllocStats
    (fold_left mm_call [CallMalloc; CallMalloc; CallFree] (mkCounters true 0 0)) =
    (if Debug (mkCounters true 0 0)
     then (wrap_u64 (allocs (mkCounters true 0 0)
                     + n_mallocs [CallMalloc; CallMalloc; CallFree]),
           wrap_u64 (frees (mkCounters true 0 0)
                     + n_frees [CallMalloc; CallMalloc; CallFree]))
     else (allocs (mkCounters true 0 0), frees (mkCounters true 0 0))) /\
  Debug (fold_left mm_call [CallMalloc; CallMalloc; CallFree]
           (mkCounters true 0 0)) = Debug (mkCounters true 0 0).
Proof.
  apply (GetAllocStats_counts [CallMalloc; CallMalloc; CallFree]
           (mkCounters true 0 0)); unfold is_uint64; cbn; lia.
Defined.

End MmSpec.

(** ** The access barrier *)

Module BarrierSpec.
Import Go Barrier BarrierInv GoFacts.
Local Open Scope Z_scope.

Lemma barrierFlushOffset_value : barrierFlushOffset = 1073741823.
Proof. reflexivity. Qed.

Lemma wrap_i64_sub (a b : Z) :
  wrap_i64 (wrap_i64 a - wrap_i64 b) = wrap_i64 (a - b).
Proof.
  unfold wrap_i64.
  rewrite (Z.mod_eq (a + 2 ^ 63) (2 ^ 64)) by lia.
  rewrite (Z.mod_eq (b + 2 ^ 63) (2 ^ 64)) by lia.
  f_equal.
  replace (a + 2 ^ 63 - 2 ^ 64 * ((a + 2 ^ 63) / 2 ^ 64) - 2 ^ 63 -
           (b + 2 ^ 63 - 2 ^ 64 * ((b + 2 ^ 63) / 2 ^ 64) - 2 ^ 63) + 2 ^ 63)
    with (a - b + 2 ^ 63 +
          ((b + 2 ^ 63) / 2 ^ 64 - (a + 2 ^ 63) / 2 ^ 64) * 2 ^ 64) by lia.
  apply Z_mod_plus_full.
Qed.

Lemma CompareBS_exact (a b : BarrierSession) :
  - 2 ^ 63 <= seqno a - seqno b < 2 ^ 63 ->
  CompareBS a b = seqno a - seqno b.
Proof.
  intros H. unfold CompareBS. rewrite wrap_i64_sub.
  apply wrap_i64_small. exact H.
Qed.

(** C9 (as stated, refuted): for the sequence numbers [2^63] and [0] the
    conversion to [int] turns the larger one negative, and [CompareBS]
    orders the sessions the wrong way round. *)
Lemma CompareBS_wrong_sign :
  (0 <= seqno (mkBS 0 0 (2 ^ 63) 0) < 2 ^ 64) /\
  (0 <= seqno (mkBS 0 0 0 0) < 2 ^ 64) /\
  ~ (CompareBS (mkBS 0 0 (2 ^ 63) 0) (mkBS 0 0 0 0) < 0 <->
     seqno (mkBS 0 0 (2 ^ 63) 0) < seqno (mkBS 0 0 0 0)).
Proof.
  split; [cbn; lia|]. split; [cbn; lia|].
  intros [H _].
  assert (Hc : CompareBS (mkBS 0 0 (2 ^ 63) 0) (mkBS 0 0 0 0) < 0)
    by (vm_compute; reflexivity).
  specialize (H Hc). cbn in H. lia.
Qed.

(** C9 (amended): when the two sequence numbers differ by less than
    [2^63] (in particular when both are below [2^63]), [CompareBS a b] is
    negative, zero or positive exactly when [a.seqno] is smaller than,
    equal to or larger than [b.seqno]. *)
Theorem CompareBS_sign (a b : BarrierSession) :
  - 2 ^ 63 <= seqno a - seqno b < 2 ^ 63 ->
  (CompareBS a b < 0 <-> seqno a < seqno b) /\
  (CompareBS a b = 0 <-> seqno a = seqno b) /\
  (CompareBS a b > 0 <-> seqno a > seqno b).
Proof.
  intros H. rewrite (CompareBS_exact a b H). lia.
Qed.

Lemma CompareBS_sign_witness :
  (CompareBS (mkBS 0 0 7 0) (mkBS 0 0 9 0) < 0 <-> 7 < 9) /\
  (CompareBS (mkBS 0 0 7 0) (mkBS 0 0 9 0) = 0 <-> 7 = 9) /\
  (CompareBS (mkBS 0 0 7 0) (mkBS 0 0 9 0) > 0 <-> 7 > 9).
Proof. apply (CompareBS_sign (mkBS 0 0 7 0) (mkBS 0 0 9 0)). cbn. lia. Defined.

(** *** Release *)

Lemma doCleanup_loop_total (iter : list bsptr) (ab : AccessBarrier) :
  Forall (allocated (store ab)) iter ->
  exists ab', doCleanup_loop iter ab = Ok ab' /\
    store ab' = store ab /\ session ab' = session ab /\
    active ab' = active ab /\ activeSeqno ab' = activeSeqno ab /\
    numAllocated ab' = numAllocated ab /\
    isDestructorRunning ab' = isDestructorRunning ab.
Proof.
  revert ab. induction iter as [|node iter IH]; intros ab Hall.
  - exists ab. cbn. auto 10.
  - inversion Hall as [|? ? [s Hs] Hrest]; subst.
    cbn [doCleanup_loop]. unfold doCleanup_step. rewrite Hs.
    destruct (negb (seqno s =? wrap_u64 (freeSeqno ab + 1))).
    + exists ab. auto 10.
    + match goal with |- context [doCleanup_loop iter ?x] => set (ab1 := x) end.
      destruct (IH ab1) as (ab' & E & H1 & H2 & H3 & H4 & H5 & H6).
      { exact Hrest. }
      exists ab'. rewrite E. auto 10.
Qed.

Lemma doCleanup_total (ab : AccessBarrier) :
  Forall (allocated (store ab)) (freeq ab) ->
  exists ab', doCleanup ab = Ok ab' /\
    store ab' = store ab /\ session ab' = session ab /\
    active ab' = active ab /\ activeSeqno ab' = activeSeqno ab /\
    numAllocated ab' = numAllocated ab /\
    isDestructorRunning ab' = isDestructorRunning ab.
Proof. apply doCleanup_loop_total. Qed.

Lemma allocated_insert (st : list BarrierSession) (bs x : bsptr)
    (b : BarrierSession) :
  allocated st x -> allocated (<[bs := b]> st) x.
Proof.
  unfold allocated. intros [s Hs].
  apply lookup_lt_is_Some. rewrite length_insert.
  eapply lookup_lt_Some; eauto.
Qed.

Lemma Forall_freeq_insert (P : bsptr -> Prop) st bs b q :
  P bs -> Forall P q -> Forall P (freeq_insert st bs b q).
Proof.
  intros Hbs. induction 1 as [|x q Hx Hq IH]; cbn.
  - constructor; auto.
  - destruct (st !! x) as [sx|]; [destruct (CompareBS sx b <? 0)|];
      repeat constructor; auto.
Qed.

(** What [Release] does on an allocated session of an active barrier, by
    the value [lc] of the decremented counter. *)
Lemma Release_cases (ab : AccessBarrier) (bs : bsptr) (s : BarrierSession) :
  active ab = true -> Forall (allocated (store ab)) (freeq ab) ->
  store ab !! bs = Some s ->
  let lc := wrap_i32 (liveCount s - 1) in
  (lc = barrierFlushOffset ->
     exists ab', Release bs ab = Ok ab' /\
       store ab' = <[bs := released_closed s]> (store ab) /\
       session ab' = session ab /\ active ab' = true /\
       activeSeqno ab' = activeSeqno ab /\
       numAllocated ab' = numAllocated ab) /\
  (lc <> barrierFlushOffset -> lc < 0 \/ lc = barrierFlushOffset - 1 ->
     Release bs ab = Panic UnsafeReclamation) /\
  (lc <> barrierFlushOffset -> ~ (lc < 0 \/ lc = barrierFlushOffset - 1) ->
     Release bs ab = Ok (with_store (<[bs := released s]> (store ab)) ab)).
Proof.
  intros Hact Hq Hs lc. unfold Release. rewrite Hact, Hs.
  fold lc. cbn [store with_store closed set_liveCount].
  split; [|split].
  - intros E. rewrite E, Z.eqb_refl.
    rewrite list_insert_insert_eq.
    destruct (wrap_i32 (closed s + 1) =? 1) eqn:Ec.
    + cbn [isDestructorRunning with_freeq with_store].
      destruct (isDestructorRunning ab =? 0) eqn:Er.
      * match goal with |- context [doCleanup ?x] => set (abr := x) end.
        destruct (doCleanup_total abr) as (ab' & E' & H1 & H2 & H3 & H4 & H5 & H6).
        { subst abr. cbn. apply Forall_freeq_insert.
          - apply allocated_insert. eexists; eauto.
          - eapply Forall_impl; [exact Hq|]. intros x Hx.
            apply allocated_insert, Hx. }
        rewrite E'. eexists. split; [reflexivity|].
        destruct (isDestructorRunning ab' =? 1); cbn;
          rewrite ?H1, ?H2, ?H3, ?H4, ?H5; subst abr; cbn;
          unfold released_closed, released; fold lc; rewrite E; auto.
      * eexists. split; [reflexivity|]. cbn.
        unfold released_closed, released; fold lc; rewrite E; auto.
    + eexists. split; [reflexivity|]. cbn.
      unfold released_closed, released; fold lc; rewrite E; auto.
  - intros Hne Hbad.
    destruct (Z.eqb_spec lc barrierFlushOffset) as [?|_]; [contradiction|].
    destruct Hbad as [Hneg|Heq].
    + replace (lc <? 0) with true by (symmetry; apply Z.ltb_lt; exact Hneg).
      reflexivity.
    + rewrite Heq, Z.eqb_refl, orb_true_r. reflexivity.
  - intros Hne Hgood.
    destruct (Z.eqb_spec lc barrierFlushOffset) as [?|_]; [contradiction|].
    destruct (Z.ltb_spec lc 0) as [?|_]; [tauto|].
    destruct (Z.eqb_spec lc (barrierFlushOffset - 1)) as [?|_]; [tauto|].
    reflexivity.
Qed.

(** C8: on an active barrier, [Release] of an allocated session panics
    with the unsafe-reclamation fault exactly when the decremented
    [liveCount] is negative or equals [barrierFlushOffset - 1]; in every
    other case it returns without a fault. *)
Theorem Release_fault_iff (ab : AccessBarrier) (bs : bsptr) (s : BarrierSession) :
  active ab = true -> wf_ptrs ab -> store ab !! bs = Some s ->
  (Release bs ab = Panic UnsafeReclamation <->
     wrap_i32 (liveCount s - 1) < 0 \/
     wrap_i32 (liveCount s - 1) = barrierFlushOffset - 1) /\
  (~ (wrap_i32 (liveCount s - 1) < 0 \/
      wrap_i32 (liveCount s - 1) = barrierFlushOffset - 1) ->
   exists ab', Release bs ab = Ok ab').
Proof.
  intros Hact [_ Hq] Hs.
  destruct (Release_cases ab bs s Hact Hq Hs) as (Hclose & Hbad & Hgood).
  cbn zeta in *.
  destruct (Z.eq_dec (wrap_i32 (liveCount s - 1)) barrierFlushOffset) as [E|Hne].
  - destruct (Hclose E) as (ab' & E' & _). rewrite E'. split.
    + split; [discriminate|]. rewrite E.
      rewrite barrierFlushOffset_value. lia.
    + intros _. eauto.
  - split.
    + split.
      * intros HP.
        destruct (Z.ltb_spec (wrap_i32 (liveCount s - 1)) 0) as [?|Hge]; [tauto|].
        destruct (Z.eq_dec (wrap_i32 (liveCount s - 1)) (barrierFlushOffset - 1))
          as [?|Hn1]; [tauto|].
        rewrite (Hgood Hne) in HP by lia. discriminate.
      * intros Hb. exact (Hbad Hne Hb).
    + intros Hg. rewrite (Hgood Hne Hg). eauto.
Qed.

Lemma Release_fault_iff_witness :
  (Release 0%nat (newAccessBarrier true) = Panic UnsafeReclamation <->
     wrap_i32 (0 - 1) < 0 \/ wrap_i32 (0 - 1) = barrierFlushOffset - 1) /\
  (~ (wrap_i32 (0 - 1) < 0 \/ wrap_i32 (0 - 1) = barrierFlushOffset - 1) ->
   exists ab', Release 0%nat (newAccessBarrier true) = Ok ab').
Proof.
  apply (Release_fault_iff (newAccessBarrier true) 0%nat newBarrierSession).
  - reflexivity.
  - split; [eexists; reflexivity | constructor].
  - reflexivity.
Defined.

(** *** Acquire followed by Release *)

Lemma with_store_id (ab : AccessBarrier) : with_store (store ab) ab = ab.
Proof. destruct ab; reflexivity. Qed.

(** C10: on an active barrier whose current session holds [c] accessors,
    with [0 <= c] and [c + 1 < barrierFlushOffset - 1], [Acquire] returns
    the current session with [liveCount = c + 1], and the [Release] that
    follows restores the barrier as it was: [liveCount = c], no panic, the
    session not closed, no destructor called. *)
Theorem Acquire_Release_restores (fuel : nat) (ab : AccessBarrier)
    (s : BarrierSession) :
  active ab = true -> store ab !! session ab = Some s ->
  0 <= liveCount s -> liveCount s + 1 < barrierFlushOffset - 1 ->
  exists ab1,
    Acquire (S fuel) ab = Ok (Some (session ab), ab1) /\
    store ab1 !! session ab = Some (set_liveCount (liveCount s + 1) s) /\
    Release (session ab) ab1 = Ok ab /\
    closed s = closed (set_liveCount (liveCount s + 1) s) /\
    freeq ab1 = freeq ab /\ calls ab1 = calls ab.
Proof.
  intros Hact Hs H0 Hlt. rewrite barrierFlushOffset_value in Hlt.
  unfold Acquire. rewrite Hact. cbn [Acquire_retry]. rewrite Hs.
  rewrite (wrap_i32_small (liveCount s + 1)) by lia.
  destruct (Z.gtb_spec (liveCount s + 1) barrierFlushOffset) as [Hgt|_].
  { rewrite barrierFlushOffset_value in Hgt. lia. }
  eexists. split; [reflexivity|].
  assert (Hlen : (session ab < length (store ab))%nat)
    by (eapply lookup_lt_Some; eauto).
  split; [cbn; apply list_lookup_insert_eq; exact Hlen|].
  split; [|auto].
  unfold Release. cbn [active with_store store].
  rewrite Hact, list_lookup_insert_eq by exact Hlen.
  cbn [liveCount set_liveCount].
  replace (liveCount s + 1 - 1) with (liveCount s) by lia.
  rewrite (wrap_i32_small (liveCount s)) by lia.
  destruct (Z.eqb_spec (liveCount s) barrierFlushOffset) as [E|_].
  { rewrite barrierFlushOffset_value in E. lia. }
  destruct (Z.ltb_spec (liveCount s) 0) as [?|_]; [lia|].
  destruct (Z.eqb_spec (liveCount s) (barrierFlushOffset - 1)) as [E|_].
  { rewrite barrierFlushOffset_value in E. lia. }
  cbn [orb]. f_equal.
  rewrite list_insert_insert_eq.
  replace (set_liveCount (liveCount s) (set_liveCount (liveCount s + 1) s))
    with s by (destruct s; reflexivity).
  rewrite list_insert_id by exact Hs.
  destruct ab; reflexivity.
Qed.

Lemma Acquire_Release_restores_witness :
  exists ab1,
    Acquire 1 (newAccessBarrier true) = Ok (Some 0%nat, ab1) /\
    store ab1 !! 0%nat = Some (set_liveCount (0 + 1) newBarrierSession) /\
    Release 0%nat ab1 = Ok (newAccessBarrier true) /\
    closed newBarrierSession = closed (set_liveCount (0 + 1) newBarrierSession) /\
    freeq ab1 = freeq (newAccessBarrier true) /\
    calls ab1 = calls (newAccessBarrier true).
Proof.
  apply (Acquire_Release_restores 0 (newAccessBarrier true) newBarrierSession).
  - reflexivity.
  - reflexivity.
  - cbn. lia.
  - rewrite barrierFlushOffset_value. cbn. lia.
Defined.

(** *** doCleanup *)

Lemma contig_prefix st from q :
  q = contig st from q ++ drop (length (contig st from q)) q.
Proof.
  revert from. induction q as [|x q IH]; intros from; cbn; [reflexivity|].
  destruct (st !! x) as [sx|]; [|reflexivity].
  destruct (seqno sx =? from + 1); [|reflexivity].
  cbn. f_equal. apply IH.
Qed.

Lemma contig_seqno st from q (j : nat) x :
  contig st from q !! j = Some x -> seqno_at st x = from + 1 + Z.of_nat j.
Proof.
  revert from j. induction q as [|y q IH]; intros from j; cbn; [discriminate|].
  destruct (st !! y) as [sy|] eqn:Ey; [|discriminate].
  destruct (Z.eqb_spec (seqno sy) (from + 1)) as [E|_]; [|discriminate].
  destruct j as [|j]; cbn.
  - intros [= <-]. unfold seqno_at. rewrite Ey. lia.
  - intros H. rewrite (IH _ _ H). lia.
Qed.

Lemma contig_stops st from q :
  match drop (length (contig st from q)) q with
  | [] => True
  | x :: _ => seqno_at st x <> from + Z.of_nat (length (contig st from q)) + 1
              \/ st !! x = None
  end.
Proof.
  revert from. induction q as [|y q IH]; intros from; cbn; [exact I|].
  destruct (st !! y) as [sy|] eqn:Ey; cbn; [|auto].
  destruct (Z.eqb_spec (seqno sy) (from + 1)) as [E|Hne]; cbn.
  - specialize (IH (from + 1)).
    destruct (drop (length (contig st (from + 1) q)) q); [exact I|].
    destruct IH as [IH|IH]; [left|right; exact IH]. lia.
  - left. unfold seqno_at. rewrite Ey. lia.
Qed.

(** [doCleanup] destructs exactly the sessions of [contig], in queue
    order, and leaves the rest of the queue. *)
Lemma doCleanup_loop_spec (q : list bsptr) (ab : AccessBarrier) :
  freeq ab = q ->
  0 <= freeSeqno ab -> freeSeqno ab + Z.of_nat (length q) < 2 ^ 64 ->
  - 2 ^ 63 <= numFreed ab -> numFreed ab + Z.of_nat (length q) < 2 ^ 63 ->
  Forall (allocated (store ab)) q ->
  let pre := contig (store ab) (freeSeqno ab) q in
  doCleanup_loop q ab =
    Ok {| activeSeqno := activeSeqno ab; session := session ab;
          freeq := drop (length pre) q;
          freeSeqno := freeSeqno ab + Z.of_nat (length pre);
          isDestructorRunning := isDestructorRunning ab;
          numAllocated := numAllocated ab;
          numFreed := numFreed ab + Z.of_nat (length pre);
          active := active ab; store := store ab;
          calls := calls ab ++ map (call_of (store ab)) pre |}.
Proof.
  revert ab. induction q as [|x q IH]; intros ab Hq Hf0 Hf1 Hn0 Hn1 Hall.
  - cbn. rewrite !Z.add_0_r, app_nil_r. destruct ab; cbn in *; subst; reflexivity.
  - inversion Hall as [|? ? [sx Hx] Hrest]; subst.
    cbn [doCleanup_loop contig]. unfold doCleanup_step. rewrite Hx.
    cbn [length] in Hf1, Hn1.
    rewrite (wrap_u64_small (freeSeqno ab + 1)) by lia.
    rewrite (wrap_i64_small (numFreed ab + 1)) by lia.
    destruct (Z.eqb_spec (seqno sx) (freeSeqno ab + 1)) as [E|Hne]; cbn [negb].
    + rewrite Hq. cbn [freeq_delete]. rewrite Nat.eqb_refl.
      rewrite IH; cbn [freeq freeSeqno numFreed store]; try lia; try assumption;
        try reflexivity.
      cbn [length drop map]. f_equal. f_equal.
      * lia.
      * lia.
      * cbn [calls]. unfold call_of at 2. rewrite Hx, <- app_assoc. reflexivity.
    + cbn. rewrite !Z.add_0_r, app_nil_r.
      destruct ab; cbn in *; subst; reflexivity.
Qed.

(** *** What the operations leave unchanged *)

Lemma doCleanup_loop_frame (iter : list bsptr) (ab ab' : AccessBarrier) :
  doCleanup_loop iter ab = Ok ab' ->
  store ab' = store ab /\ session ab' = session ab /\ active ab' = active ab.
Proof.
  revert ab. induction iter as [|x iter IH]; intros ab; cbn.
  - intros [= <-]. auto.
  - unfold doCleanup_step. destruct (store ab !! x) as [sx|]; [|discriminate].
    destruct (negb (seqno sx =? wrap_u64 (freeSeqno ab + 1))).
    + intros [= <-]. auto.
    + intros H. apply IH in H. cbn in H. exact H.
Qed.

Lemma Release_frame (bs : bsptr) (ab ab' : AccessBarrier) (s : BarrierSession) :
  active ab = true -> store ab !! bs = Some s -> Release bs ab = Ok ab' ->
  session ab' = session ab /\ active ab' = true /\
  (forall a, a <> bs -> store ab' !! a = store ab !! a) /\
  exists s', store ab' !! bs = Some s' /\
             liveCount s' = wrap_i32 (liveCount s - 1).
Proof.
  intros Hact Hs. unfold Release. rewrite Hact, Hs.
  assert (Hlen : (bs < length (store ab))%nat) by (eapply lookup_lt_Some; eauto).
  cbn [store with_store closed set_liveCount].
  rewrite list_insert_insert_eq.
  set (lc := wrap_i32 (liveCount s - 1)).
  assert (Hfin : forall b ab0, liveCount b = lc ->
            store ab0 = <[bs := b]> (store ab) -> session ab0 = session ab ->
            active ab0 = true ->
            session ab0 = session ab /\ active ab0 = true /\
            (forall a, a <> bs -> store ab0 !! a = store ab !! a) /\
            exists s', store ab0 !! bs = Some s' /\ liveCount s' = lc).
  { intros b ab0 Hb Hst Hse Ha. repeat split; auto.
    - intros a Ha'. rewrite Hst. apply list_lookup_insert_ne. auto.
    - exists b. rewrite Hst. split; [apply list_lookup_insert_eq; exact Hlen | exact Hb]. }
  destruct (lc =? barrierFlushOffset).
  - destruct (wrap_i32 (closed s + 1) =? 1).
    + cbn [isDestructorRunning with_freeq with_store].
      destruct (isDestructorRunning ab =? 0).
      * destruct (doCleanup _) as [ab4| |] eqn:E; try discriminate.
        apply doCleanup_loop_frame in E. cbn in E. destruct E as (E1 & E2 & E3).
        intros [= <-].
        eapply (Hfin (set_closed (wrap_i32 (closed s + 1)) (set_liveCount lc s))).
        -- reflexivity.
        -- destruct (isDestructorRunning ab4 =? 1); cbn; rewrite E1; reflexivity.
        -- destruct (isDestructorRunning ab4 =? 1); cbn; rewrite E2; reflexivity.
        -- destruct (isDestructorRunning ab4 =? 1); cbn; rewrite E3; exact Hact.
      * intros [= <-].
        eapply (Hfin (set_closed (wrap_i32 (closed s + 1)) (set_liveCount lc s)));
          cbn; eauto.
    + intros [= <-].
      eapply (Hfin (set_closed (wrap_i32 (closed s + 1)) (set_liveCount lc s)));
        cbn; eauto.
  - destruct ((lc <? 0) || (lc =? barrierFlushOffset - 1)); [discriminate|].
    intros [= <-]. eapply (Hfin (set_liveCount lc s)); cbn; eauto.
Qed.

(** With [barrierFlushOffset] accessors on the current session, [Acquire]
    finds the incremented counter above the offset on every pass. *)
Lemma Acquire_retry_full (fuel : nat) (ab : AccessBarrier) (s : BarrierSession) r :
  active ab = true -> store ab !! session ab = Some s ->
  liveCount s = barrierFlushOffset ->
  Acquire_retry fuel ab <> Ok r.
Proof.
  revert ab s. induction fuel as [|fuel IH]; intros ab s Hact Hs Hlc; cbn.
  - discriminate.
  - rewrite Hs, Hlc.
    replace (wrap_i32 (barrierFlushOffset + 1) >? barrierFlushOffset) with true
      by reflexivity.
    match goal with |- context [Release _ ?x] => set (ab1 := x) end.
    destruct (Release (session ab) ab1) as [ab2| |] eqn:E; try discriminate.
    assert (Hlen : (session ab < length (store ab))%nat)
      by (eapply lookup_lt_Some; eauto).
    assert (Hs1 : store ab1 !! session ab =
                  Some (set_liveCount (wrap_i32 (barrierFlushOffset + 1)) s)).
    { subst ab1. cbn. apply list_lookup_insert_eq. exact Hlen. }
    destruct (Release_frame (session ab) ab1 ab2 _ Hact Hs1 E)
      as (E1 & E2 & _ & s' & E3 & E4).
    eapply IH; [exact E2 | rewrite E1; exact E3 |].
    rewrite E4. reflexivity.
Qed.

(** *** The invariant *)

Lemma Inv_init : Inv [] (newAccessBarrier true).
Proof.
  split; [|split; [reflexivity | intros x Hx; inversion Hx]]. constructor; cbn.
  - reflexivity.
  - exists newBarrierSession. rewrite barrierFlushOffset_value. cbn.
    repeat split; lia.
  - lia.
  - intros [|a] s Ha; [congruence|]. cbn. discriminate.
  - intros [|a] b sa sb Ha; [congruence|]. cbn. discriminate.
  - constructor.
  - intros a Ha. inversion Ha.
  - constructor.
  - reflexivity.
  - intros c Hc. inversion Hc.
Qed.

Lemma seqno_at_insert st bs (s s' : BarrierSession) a :
  st !! bs = Some s -> seqno s' = seqno s ->
  seqno_at (<[bs := s']> st) a = seqno_at st a.
Proof.
  intros Hs Hseq. unfold seqno_at.
  destruct (decide (a = bs)) as [E|Hne].
  - subst a. rewrite list_lookup_insert_eq by (eapply lookup_lt_Some; eauto).
    rewrite Hs. exact Hseq.
  - rewrite list_lookup_insert_ne by auto. reflexivity.
Qed.

Lemma StronglySorted_ext {A} (R R' : A -> A -> Prop) l :
  (forall a b, R a b -> R' a b) -> StronglySorted R l -> StronglySorted R' l.
Proof.
  intros HR. induction 1 as [|a l Hl IH Ha]; constructor; auto.
  eapply Forall_impl; [exact Ha|]. cbn. auto.
Qed.

(** Writing a session back with the same sequence number. *)
Lemma InvCore_set refs ab bs (s s' : BarrierSession) :
  InvCore refs ab -> store ab !! bs = Some s -> seqno s' = seqno s ->
  (bs = session ab ->
     closed s' = 0 /\ 0 <= liveCount s' <= barrierFlushOffset) ->
  (bs <> session ab ->
     flushed_ok refs (freeSeqno ab) s' /\
     (bs ∈ freeq ab -> closed s' = 1)) ->
  InvCore refs (with_store (<[bs := s']> (store ab)) ab).
Proof.
  intros [Ha Hc Hq Hf Hi Hnd Hel Hso Hcs Hcr] Hs Hseq Hcur Hoth.
  assert (Hlen : (bs < length (store ab))%nat) by (eapply lookup_lt_Some; eauto).
  constructor; cbn; auto.
  - destruct (decide (bs = session ab)) as [E|Hne].
    + exists s'. rewrite <- E, list_lookup_insert_eq by exact Hlen.
      split; [reflexivity | apply Hcur, E].
    + rewrite list_lookup_insert_ne by exact Hne. exact Hc.
  - intros a sa Hane. destruct (decide (a = bs)) as [->|Hne].
    + rewrite list_lookup_insert_eq by exact Hlen. intros [= <-].
      apply Hoth, Hane.
    + rewrite list_lookup_insert_ne by auto. apply Hf, Hane.
  - intros a b sa sb Hane Hbne Hla Hlb Heq.
    assert (Hx : forall x sx, x <> session ab ->
              <[bs := s']> (store ab) !! x = Some sx ->
              exists sx', store ab !! x = Some sx' /\ seqno sx' = seqno sx).
    { intros x sx Hxne. destruct (decide (x = bs)) as [->|Hne].
      - rewrite list_lookup_insert_eq by exact Hlen. intros [= <-].
        exists s. auto.
      - rewrite list_lookup_insert_ne by auto. eauto. }
    destruct (Hx a sa Hane Hla) as (sa' & Ha1 & Ha2).
    destruct (Hx b sb Hbne Hlb) as (sb' & Hb1 & Hb2).
    eapply Hi; eauto. congruence.
  - intros a Hin. destruct (Hel a Hin) as (Hane & sa & Hla & Hca & Hfa).
    split; [exact Hane|]. destruct (decide (a = bs)) as [->|Hne].
    + exists s'. rewrite list_lookup_insert_eq by exact Hlen.
      split; [reflexivity|]. split; [apply Hoth; auto|].
      rewrite Hseq. congruence.
    + exists sa. rewrite list_lookup_insert_ne by auto. auto.
  - eapply StronglySorted_ext; [|exact Hso]. unfold seqno_lt. intros a b.
    rewrite !(seqno_at_insert _ _ _ _ _ Hs Hseq). auto.
Qed.

Lemma InvCore_running refs ab v :
  InvCore refs ab -> InvCore refs (with_running v ab).
Proof. intros [Ha Hc Hq Hf Hi Hnd Hel Hso Hcs Hcr]. constructor; cbn; auto. Qed.

(** *** The queue of closed sessions *)

Lemma elem_of_freeq_insert st bs b q x :
  x ∈ freeq_insert st bs b q <-> x = bs \/ x ∈ q.
Proof.
  induction q as [|y q IH]; cbn.
  - rewrite list_elem_of_singleton. split; [auto|]. intros [?|H]; [auto|inversion H].
  - destruct (st !! y) as [sy|]; [destruct (CompareBS sy b <? 0)|];
      rewrite ?elem_of_cons, ?IH; tauto.
Qed.

Lemma NoDup_freeq_insert st bs b q :
  bs ∉ q -> NoDup q -> NoDup (freeq_insert st bs b q).
Proof.
  intros Hnin Hnd. induction Hnd as [|y q Hy Hq IH]; cbn.
  - apply NoDup_singleton.
  - assert (NoDup (bs :: y :: q)) by (constructor; [exact Hnin | constructor; auto]).
    destruct (st !! y) as [sy|]; [destruct (CompareBS sy b <? 0)|]; auto.
    constructor.
    + rewrite elem_of_freeq_insert. intros [->|?]; [|contradiction].
      apply Hnin. left.
    + apply IH. intros Hin. apply Hnin. right. exact Hin.
Qed.

Lemma Sorted_freeq_insert st bs b q :
  st !! bs = Some b -> 0 <= seqno b < 2 ^ 63 ->
  (forall x, x ∈ q -> exists sx, st !! x = Some sx /\
                      0 <= seqno sx < 2 ^ 63 /\ seqno sx <> seqno b) ->
  StronglySorted (seqno_lt st) q ->
  StronglySorted (seqno_lt st) (freeq_insert st bs b q).
Proof.
  intros Hbs Hb Hq Hso. induction Hso as [|y q Hso IH Hy]; cbn.
  - repeat constructor.
  - destruct (Hq y) as (sy & Hly & Hry & Hney); [left|].
    rewrite Hly.
    assert (Hcmp : CompareBS sy b = seqno sy - seqno b)
      by (apply CompareBS_exact; lia).
    destruct (Z.ltb_spec (CompareBS sy b) 0) as [Hlt|Hge].
    + constructor.
      * apply IH. intros x Hx. apply Hq. right. exact Hx.
      * apply Forall_forall. intros x Hx.
        apply elem_of_freeq_insert in Hx as [->|Hx].
        -- unfold seqno_lt, seqno_at. rewrite Hly, Hbs. lia.
        -- rewrite Forall_forall in Hy. apply Hy, Hx.
    + assert (Hlt : seqno_lt st bs y).
      { unfold seqno_lt, seqno_at. rewrite Hly, Hbs. lia. }
      constructor; [constructor; assumption|].
      constructor; [exact Hlt|].
      eapply Forall_impl; [exact Hy|]. cbn. unfold seqno_lt in *. lia.
Qed.

(** A strictly ascending queue numbered within [(lo, hi]] holds at most
    [hi - lo] sessions. *)
Lemma sorted_length_bound st q lo hi :
  StronglySorted (seqno_lt st) q ->
  (forall x, x ∈ q -> lo < seqno_at st x <= hi) ->
  lo <= hi -> Z.of_nat (length q) <= hi - lo.
Proof.
  intros Hso. revert lo. induction Hso as [|y q Hso IH Hy]; intros lo Hr Hle; cbn.
  - cbn. lia.
  - assert (Hyr : lo < seqno_at st y <= hi) by (apply Hr; left).
    specialize (IH (seqno_at st y)).
    rewrite Forall_forall in Hy.
    assert (Z.of_nat (length q) <= hi - seqno_at st y).
    { apply IH; [|lia]. intros x Hx. split; [apply Hy, Hx|].
      apply Hr. right. exact Hx. }
    lia.
Qed.

Lemma InvCore_insert refs ab bs (s : BarrierSession) :
  InvCore refs ab -> Z.of_nat (length refs) < 2 ^ 63 ->
  bs <> session ab -> store ab !! bs = Some s -> closed s = 1 ->
  freeSeqno ab < seqno s -> bs ∉ freeq ab ->
  InvCore refs (with_freeq (freeq_insert (store ab) bs s (freeq ab)) ab).
Proof.
  intros [Ha Hc Hq Hf Hi Hnd Hel Hso Hcs Hcr] Hn Hne Hs Hcl Hfs Hnin.
  constructor; cbn; auto.
  - apply NoDup_freeq_insert; assumption.
  - intros a Hin. apply elem_of_freeq_insert in Hin as [->|Hin]; [|auto].
    split; [exact Hne|]. eauto.
  - destruct (Hf bs s Hne Hs) as (Hr & _).
    apply Sorted_freeq_insert; auto; [lia|].
    intros x Hx. destruct (Hel x Hx) as (Hxne & sx & Hlx & _ & _).
    exists sx. split; [exact Hlx|].
    destruct (Hf x sx Hxne Hlx) as (Hrx & _). split; [lia|].
    intros Heq. apply Hnin.
    replace bs with x; [exact Hx|]. eapply Hi; eauto.
Qed.

(** *** doCleanup keeps the invariant *)

Lemma contig_call_seqnos st from q :
  0 <= from ->
  map call_seqno (map (call_of st) (contig st from q)) =
  map Z.of_nat (seq (S (Z.to_nat from)) (length (contig st from q))).
Proof.
  revert from. induction q as [|x q IH]; intros from Hfrom; cbn; [reflexivity|].
  destruct (st !! x) as [sx|] eqn:Ex; [|reflexivity].
  destruct (Z.eqb_spec (seqno sx) (from + 1)) as [E|_]; [|reflexivity].
  cbn. unfold call_of at 1. rewrite Ex. cbn. f_equal; [lia|].
  rewrite IH by lia. do 2 f_equal. lia.
Qed.

Lemma contig_length_le st from q :
  (length (contig st from q) <= length q)%nat.
Proof.
  rewrite (contig_prefix st from q) at 2. rewrite length_app. lia.
Qed.

Lemma contig_last st from q x :
  x ∈ contig st from q ->
  from < seqno_at st x <= from + Z.of_nat (length (contig st from q)).
Proof.
  intros Hx. apply list_elem_of_lookup in Hx as [j Hj].
  pose proof (lookup_lt_Some _ _ _ Hj) as Hlt.
  rewrite (contig_seqno _ _ _ _ _ Hj). lia.
Qed.

Lemma InvCore_doCleanup refs ab :
  InvCore refs ab -> Z.of_nat (length refs) < 2 ^ 63 ->
  exists ab',
    doCleanup ab = Ok ab' /\ InvCore refs ab' /\
    isDestructorRunning ab' = isDestructorRunning ab /\
    (forall x, x ∈ freeq ab' -> freeSeqno ab' + 1 < seqno_at (store ab') x).
Proof.
  intros Hinv Hn.
  destruct Hinv as [Ha Hc (Hq1 & Hq2 & Hq3) Hf Hi Hnd Hel Hso Hcs Hcr].
  set (q := freeq ab) in *. set (st := store ab) in *.
  set (f := freeSeqno ab) in *.
  assert (Hrange : forall x, x ∈ q -> f < seqno_at st x <= activeSeqno ab).
  { intros x Hx. destruct (Hel x Hx) as (Hxne & sx & Hlx & _ & Hfx).
    destruct (Hf x sx Hxne Hlx) as (Hr & _).
    unfold seqno_at. fold st in Hlx. rewrite Hlx. lia. }
  assert (Hlen : Z.of_nat (length q) <= activeSeqno ab - f)
    by (eapply sorted_length_bound; eauto; lia).
  assert (Hall : Forall (allocated st) q).
  { apply Forall_forall. intros x Hx.
    destruct (Hel x Hx) as (_ & sx & Hlx & _). exists sx. exact Hlx. }
  pose proof (doCleanup_loop_spec q ab eq_refl) as Hspec.
  cbn zeta in Hspec. fold st f in Hspec.
  eexists. split; [unfold doCleanup; fold q; apply Hspec; lia || assumption|].
  set (pre := contig st f q) in *.
  pose proof (contig_prefix st f q) as Hsplit. fold pre in Hsplit.
  pose proof (contig_length_le st f q) as Hple. fold pre in Hple.
  assert (Hpre : forall x, x ∈ pre -> x ∈ q).
  { intros x Hx. rewrite Hsplit. apply elem_of_app. auto. }
  assert (Hrest : forall x, x ∈ drop (length pre) q ->
            x ∈ q /\ f + Z.of_nat (length pre) < seqno_at st x).
  { intros x Hx. assert (Hxq : x ∈ q) by (rewrite Hsplit; apply elem_of_app; auto).
    split; [exact Hxq|].
    destruct (decide (length pre = 0%nat)) as [E0|Hpos].
    - rewrite E0. specialize (Hrange x Hxq). lia.
    - assert (Hlk : is_Some (pre !! (length pre - 1)%nat)).
      { apply lookup_lt_is_Some. lia. }
      destruct Hlk as [y Hy].
      assert (Hyin : y ∈ pre) by (eapply list_elem_of_lookup_2; exact Hy).
      assert (Hys : seqno_at st y = f + Z.of_nat (length pre)).
      { subst pre. rewrite (contig_seqno _ _ _ _ _ Hy). lia. }
      rewrite <- Hys. rewrite Hsplit in Hso.
      exact (StronglySorted_app_1_elem_of _ _ _ _ _ Hso Hyin Hx). }
  split; [|split; [reflexivity|]].
  - constructor; cbn [active store session activeSeqno freeSeqno numFreed freeq calls];
      auto.
    + fold f. repeat split; lia.
    + intros a s Hane Hla. destruct (Hf a s Hane Hla) as (Hr & Href & Hcase).
      split; [exact Hr|]. split; [exact Href|].
      destruct Hcase as [(Hc0 & Hlc & Hfs)|Hc1]; [left|right; exact Hc1].
      split; [exact Hc0|]. split; [exact Hlc|]. fold f.
      destruct (Z.lt_ge_cases (f + Z.of_nat (length pre)) (seqno s)) as [?|Hge];
        [assumption|exfalso].
      fold f in Hfs.
      assert (Hj : is_Some (pre !! Z.to_nat (seqno s - f - 1))).
      { apply lookup_lt_is_Some. lia. }
      destruct Hj as [x Hx].
      pose proof (contig_seqno _ _ _ _ _ Hx) as Hsx.
      assert (Hxq : x ∈ q) by (apply Hpre; eapply list_elem_of_lookup_2; exact Hx).
      destruct (Hel x Hxq) as (Hxne & sx & Hlx & Hcx & _).
      unfold seqno_at in Hsx. fold st in Hlx. rewrite Hlx in Hsx.
      assert (a = x) by (eapply Hi; eauto; lia). subst x.
      fold st in Hla. congruence.
    + rewrite Hsplit in Hnd. apply NoDup_app in Hnd. tauto.
    + intros a Hin. destruct (Hrest a Hin) as (Haq & Hgt).
      destruct (Hel a Haq) as (Hane & sa & Hla & Hca & _).
      split; [exact Hane|]. exists sa. split; [exact Hla|]. split; [exact Hca|].
      unfold seqno_at in Hgt. fold st in Hla. rewrite Hla in Hgt. fold f. lia.
    + rewrite Hsplit in Hso. eapply StronglySorted_app_1_r. exact Hso.
    + rewrite map_app, Hcs. fold f. subst pre.
      rewrite contig_call_seqnos by lia.
      rewrite <- map_app. f_equal.
      replace (Z.to_nat (f + Z.of_nat (length (contig st f q))))
        with (Z.to_nat f + length (contig st f q))%nat by lia.
      rewrite seq_app. reflexivity.
    + intros c Hin. apply elem_of_app in Hin as [Hin|Hin]; [auto|].
      apply list_elem_of_fmap in Hin as (x & -> & Hx).
      destruct (Hel x (Hpre x Hx)) as (Hxne & sx & Hlx & _).
      destruct (Hf x sx Hxne Hlx) as (_ & Href & _).
      unfold call_of. fold st in Hlx. rewrite Hlx. exact Href.
  - cbn [freeq freeSeqno store]. intros x Hx.
    destruct (Hrest x Hx) as (Hxq & Hgt).
    assert (Hne : seqno_at st x <> f + Z.of_nat (length pre) + 1).
    { pose proof (contig_stops st f q) as Hstop. fold pre in Hstop.
      destruct (drop (length pre) q) as [|y rest] eqn:Ed; [inversion Hx|].
      destruct Hstop as [Hstop|Hnone].
      - apply elem_of_cons in Hx as [->|Hx]; [exact Hstop|].
        assert (Hs2 : StronglySorted (seqno_lt st) (y :: rest)).
        { rewrite Hsplit in Hso. eapply StronglySorted_app_1_r. exact Hso. }
        inversion Hs2 as [|? ? _ Hall2]; subst.
        rewrite Forall_forall in Hall2. specialize (Hall2 x Hx).
        assert (Hy : f + Z.of_nat (length pre) < seqno_at st y).
        { apply Hrest. left. }
        unfold seqno_lt in Hall2. lia.
      - assert (Hyq : y ∈ q).
        { rewrite Hsplit. apply elem_of_app. right. left. }
        destruct (Hel y Hyq) as (_ & sy & Hly & _). fold st in Hly. congruence. }
    lia.
Qed.

(** *** Release keeps the invariant *)

Lemma Release_close_eq ab bs (s : BarrierSession) :
  active ab = true -> store ab !! bs = Some s ->
  wrap_i32 (liveCount s - 1) = barrierFlushOffset ->
  wrap_i32 (closed s + 1) = 1 -> isDestructorRunning ab = 0 ->
  Release bs ab =
    match doCleanup
            (with_running 1
               (with_freeq
                  (freeq_insert (<[bs := released_closed s]> (store ab)) bs
                     (released_closed s) (freeq ab))
                  (with_store (<[bs := released_closed s]> (store ab)) ab)))
    with
    | Ok ab4 => Ok (if isDestructorRunning ab4 =? 1 then with_running 0 ab4
                    else ab4)
    | Panic f => Panic f
    | OutOfFuel => OutOfFuel
    end.
Proof.
  intros Hact Hs Hlc Hcl Hrun. unfold Release. rewrite Hact, Hs.
  cbn [store with_store closed set_liveCount].
  rewrite Hlc, Z.eqb_refl, Hcl. cbn [Z.eqb Pos.eqb].
  cbn [isDestructorRunning with_freeq with_store]. rewrite Hrun.
  cbn [Z.eqb]. rewrite list_insert_insert_eq.
  unfold released_closed, released. rewrite Hlc, Hcl. reflexivity.
Qed.

Lemma Release_open_eq ab bs (s : BarrierSession) :
  active ab = true -> store ab !! bs = Some s ->
  wrap_i32 (liveCount s - 1) <> barrierFlushOffset ->
  Release bs ab =
    if (wrap_i32 (liveCount s - 1) <? 0) ||
       (wrap_i32 (liveCount s - 1) =? barrierFlushOffset - 1)
    then Panic UnsafeReclamation
    else Ok (with_store (<[bs := released s]> (store ab)) ab).
Proof.
  intros Hact Hs Hlc. unfold Release. rewrite Hact, Hs.
  destruct (Z.eqb_spec (wrap_i32 (liveCount s - 1)) barrierFlushOffset);
    [contradiction|reflexivity].
Qed.

Lemma Inv_Release refs ab bs ab' :
  Inv refs ab -> Z.of_nat (length refs) < 2 ^ 63 ->
  Release bs ab = Ok ab' -> Inv refs ab'.
Proof.
  intros (Hcore & Hrun & Hgap) Hn HR.
  pose proof Hcore as [Ha Hc Hq Hf Hi Hnd Hel Hso Hcs Hcr].
  pose proof barrierFlushOffset_value as Hoff.
  destruct (store ab !! bs) as [s|] eqn:Hs;
    [|unfold Release in HR; rewrite Ha, Hs in HR; discriminate].
  assert (Hgap' : forall x, x ∈ freeq ab ->
            freeSeqno ab + 1 < seqno_at (<[bs := released s]> (store ab)) x).
  { intros x Hx. rewrite (seqno_at_insert _ _ s) by auto. auto. }
  destruct (decide (bs = session ab)) as [Ecur|Hne].
  - destruct Hc as (s0 & Hs0 & Hc0 & Hl0).
    rewrite <- Ecur, Hs in Hs0. injection Hs0 as <-.
    assert (Hlc : wrap_i32 (liveCount s - 1) = liveCount s - 1)
      by (apply wrap_i32_small; lia).
    rewrite (Release_open_eq ab bs s Ha Hs) in HR by lia.
    rewrite Hlc in HR.
    destruct (Z.ltb_spec (liveCount s - 1) 0); [discriminate|].
    destruct (Z.eqb_spec (liveCount s - 1) (barrierFlushOffset - 1));
      [discriminate|].
    injection HR as <-. split; [|split; [exact Hrun | exact Hgap']].
    eapply InvCore_set; eauto.
    + intros _. unfold released. cbn. rewrite Hlc. split; [exact Hc0 | lia].
    + intros Hx. contradiction.
  - destruct (Hf bs s Hne Hs) as (Hr & Href & [(Hc0 & Hlc0 & Hfs)|(Hc1 & Hlc1)]).
    + assert (Hlc : wrap_i32 (liveCount s - 1) = liveCount s - 1).
      { apply wrap_i32_small. unfold MaxInt32 in Hlc0. lia. }
      assert (Hnin : bs ∉ freeq ab).
      { intros Hin. destruct (Hel bs Hin) as (_ & s1 & Hs1 & Hcl1 & _).
        rewrite Hs in Hs1. injection Hs1 as <-. lia. }
      destruct (Z.eq_dec (liveCount s - 1) barrierFlushOffset) as [E|Hgt].
      * assert (Hcl : wrap_i32 (closed s + 1) = 1) by (rewrite Hc0; reflexivity).
        rewrite (Release_close_eq ab bs s Ha Hs) in HR by congruence.
        set (s2 := released_closed s) in *.
        assert (Hs2 : seqno s2 = seqno s /\ objectRef s2 = objectRef s /\
                      closed s2 = 1 /\ liveCount s2 = barrierFlushOffset).
        { subst s2. unfold released_closed, released. cbn.
          rewrite Hcl, Hlc. auto. }
        destruct Hs2 as (Hs2a & Hs2b & Hs2c & Hs2d).
        assert (Hlen : (bs < length (store ab))%nat)
          by (eapply lookup_lt_Some; eauto).
        assert (H2 : InvCore refs (with_store (<[bs := s2]> (store ab)) ab)).
        { eapply InvCore_set; eauto; [intros; contradiction|].
          intros _. split; [|auto]. unfold flushed_ok.
          rewrite Hs2a, Hs2b. auto. }
        assert (H3 : InvCore refs
                  (with_running 1
                     (with_freeq
                        (freeq_insert (<[bs := s2]> (store ab)) bs s2 (freeq ab))
                        (with_store (<[bs := s2]> (store ab)) ab)))).
        { apply InvCore_running.
          apply (InvCore_insert refs (with_store (<[bs := s2]> (store ab)) ab) bs s2);
            cbn; auto; try lia.
          apply list_lookup_insert_eq. exact Hlen. }
        destruct (InvCore_doCleanup _ _ H3 Hn) as (ab4 & E4 & H4 & Hr4 & Hg4).
        rewrite E4 in HR. cbn in Hr4. rewrite Hr4 in HR. cbn in HR.
        injection HR as <-.
        split; [apply InvCore_running; exact H4 | split; [reflexivity|exact Hg4]].
      * rewrite (Release_open_eq ab bs s Ha Hs) in HR by lia.
        rewrite Hlc in HR.
        destruct (Z.ltb_spec (liveCount s - 1) 0); [discriminate|].
        destruct (Z.eqb_spec (liveCount s - 1) (barrierFlushOffset - 1));
          [discriminate|].
        injection HR as <-. split; [|split; [exact Hrun | exact Hgap']].
        eapply InvCore_set; eauto; [intros; contradiction|].
        intros _. split; [|intros; contradiction].
        unfold flushed_ok, released. cbn. rewrite Hlc.
        split; [exact Hr|]. split; [exact Href|]. left. lia.
    + rewrite (Release_open_eq ab bs s Ha Hs) in HR
        by (rewrite Hlc1, Hoff; vm_compute; discriminate).
      rewrite Hlc1 in HR.
      replace (wrap_i32 (barrierFlushOffset - 1)) with (barrierFlushOffset - 1)
        in HR by reflexivity.
      rewrite Z.eqb_refl, orb_true_r in HR. discriminate.
Qed.

(** *** Acquire and FlushSession keep the invariant *)

Lemma Inv_Acquire refs fuel ab r ab' :
  Inv refs ab -> Acquire fuel ab = Ok (r, ab') -> Inv refs ab'.
Proof.
  intros (Hcore & Hrun & Hgap) HA.
  pose proof Hcore as [Ha Hc Hq Hf Hi Hnd Hel Hso Hcs Hcr].
  pose proof barrierFlushOffset_value as Hoff.
  destruct Hc as (s & Hs & Hc0 & Hl0).
  unfold Acquire in HA. rewrite Ha in HA.
  destruct (Z.eq_dec (liveCount s) barrierFlushOffset) as [E|Hne].
  { exfalso. eapply Acquire_retry_full; eauto. }
  destruct fuel as [|fuel]; [discriminate|]. cbn [Acquire_retry] in HA.
  rewrite Hs in HA.
  rewrite (wrap_i32_small (liveCount s + 1)) in HA by lia.
  destruct (Z.gtb_spec (liveCount s + 1) barrierFlushOffset) as [?|_]; [lia|].
  injection HA as <- <-. split; [|split; [exact Hrun|]].
  - eapply InvCore_set; eauto.
    + intros _. cbn. split; [exact Hc0|lia].
    + intros Hx. contradiction.
  - cbn. intros x Hx. rewrite (seqno_at_insert _ _ s) by auto. auto.
Qed.

Lemma StronglySorted_ext_in {A} (R R' : A -> A -> Prop) l :
  (forall a b, a ∈ l -> b ∈ l -> R a b -> R' a b) ->
  StronglySorted R l -> StronglySorted R' l.
Proof.
  intros HR Hso. induction Hso as [|a l Hl IH Ha]; constructor.
  - apply IH. intros x y Hx Hy. apply HR; right; assumption.
  - rewrite Forall_forall in *. intros x Hx. apply HR; [left|right; exact Hx|].
    apply Ha, Hx.
Qed.

Lemma FlushSession_eq ref ab (s : BarrierSession) :
  active ab = true -> store ab !! session ab = Some s ->
  FlushSession ref ab = Release (session ab) (flush_mid ref ab s).
Proof.
  intros Ha Hs. unfold FlushSession, flush_mid.
  rewrite (lookup_app_l_Some _ _ _ _ Hs).
  destruct (active ab); [reflexivity | discriminate].
Qed.

Lemma flushed_ok_snoc refs ref f (s : BarrierSession) :
  flushed_ok refs f s -> flushed_ok (refs ++ [ref]) f s.
Proof.
  intros (Hr & Href & Hcase). split; [|split].
  - rewrite length_app. cbn. lia.
  - apply lookup_app_l_Some. exact Href.
  - exact Hcase.
Qed.

Lemma Inv_flush_mid refs ref ab (s : BarrierSession) :
  Inv refs ab -> Z.of_nat (length refs) + 1 < 2 ^ 63 ->
  store ab !! session ab = Some s ->
  Inv (refs ++ [ref]) (flush_mid ref ab s).
Proof.
  intros (Hcore & Hrun & Hgap) Hn Hs.
  destruct Hcore as [Ha Hc (Hq1 & Hq2 & Hq3) Hf Hi Hnd Hel Hso Hcs Hcr].
  pose proof barrierFlushOffset_value as Hoff.
  destruct Hc as (s0 & Hs0 & Hc0 & Hl0). rewrite Hs in Hs0. injection Hs0 as <-.
  assert (Hlen : (session ab < length (store ab))%nat)
    by (eapply lookup_lt_Some; eauto).
  assert (Hsq : wrap_u64 (activeSeqno ab + 1) = activeSeqno ab + 1)
    by (apply wrap_u64_small; lia).
  assert (Hlc : wrap_i32 (liveCount s + (barrierFlushOffset + 1)) =
                liveCount s + (barrierFlushOffset + 1))
    by (apply wrap_i32_small; lia).
  set (bs2 := set_liveCount (wrap_i32 (liveCount s + (barrierFlushOffset + 1)))
                (set_flushed ref (wrap_u64 (activeSeqno ab + 1)) s)).
  assert (Hold : forall a, a <> session ab -> a <> length (store ab) ->
            store (flush_mid ref ab s) !! a = store ab !! a).
  { intros a H1 H2. cbn. rewrite list_lookup_insert_ne by auto.
    destruct (decide (a < length (store ab))%nat) as [Hlt|Hge].
    - apply lookup_app_l. exact Hlt.
    - rewrite !lookup_ge_None_2; [reflexivity|lia|].
      rewrite length_app. cbn. lia. }
  assert (Hmid : store (flush_mid ref ab s) !! session ab = Some bs2).
  { cbn. apply list_lookup_insert_eq. rewrite length_app. lia. }
  assert (Hbs2 : flushed_ok (refs ++ [ref]) (freeSeqno ab) bs2).
  { unfold flushed_ok. subst bs2. cbn. rewrite Hsq, Hlc, length_app. cbn.
    split; [lia|]. split.
    - replace (Z.to_nat (activeSeqno ab + 1 - 1)) with (length refs + 0)%nat by lia.
      rewrite lookup_app_r by lia.
      replace (length refs + 0 - length refs)%nat with 0%nat by lia. reflexivity.
    - left. unfold MaxInt32. lia. }
  assert (Hsame : forall x, x ∈ freeq ab ->
            seqno_at (store (flush_mid ref ab s)) x = seqno_at (store ab) x).
  { intros x Hx. destruct (Hel x Hx) as (Hxne & sx & Hlx & _).
    assert ((x < length (store ab))%nat) by (eapply lookup_lt_Some; eauto).
    unfold seqno_at. rewrite Hold by (auto; lia). reflexivity. }
  split; [|split; [exact Hrun|]];
    [|intros x Hx; rewrite (Hsame x Hx); apply Hgap, Hx].
  constructor.
  - exact Ha.
  - exists newBarrierSession. cbn [session store flush_mid]. split.
    + rewrite list_lookup_insert_ne by lia.
      rewrite lookup_app_r by lia. rewrite Nat.sub_diag. reflexivity.
    + cbn. lia.
  - cbn [activeSeqno freeSeqno numFreed flush_mid].
    rewrite Hsq, length_app. cbn. lia.
  - cbn [session freeSeqno flush_mid]. intros a sa Hane Hla.
    destruct (decide (a = session ab)) as [->|Hne].
    + change (store (flush_mid ref ab s) !! session ab = Some sa) in Hla.
      rewrite Hmid in Hla. injection Hla as <-. exact Hbs2.
    + change (store (flush_mid ref ab s) !! a = Some sa) in Hla.
      rewrite Hold in Hla by auto. apply flushed_ok_snoc. eauto.
  - cbn [session flush_mid]. intros a b sa sb Hane Hbne Hla Hlb Heq.
    change (store (flush_mid ref ab s) !! a = Some sa) in Hla.
    change (store (flush_mid ref ab s) !! b = Some sb) in Hlb.
    destruct (decide (a = session ab)) as [Ea|Hna];
      destruct (decide (b = session ab)) as [Eb|Hnb]; [congruence| | |].
    + subst a. rewrite Hmid in Hla. injection Hla as <-.
      rewrite Hold in Hlb by auto.
      destruct (Hf b sb Hnb Hlb) as (Hr & _).
      subst bs2. cbn in Heq. lia.
    + subst b. rewrite Hmid in Hlb. injection Hlb as <-.
      rewrite Hold in Hla by auto.
      destruct (Hf a sa Hna Hla) as (Hr & _).
      subst bs2. cbn in Heq. lia.
    + rewrite Hold in Hla, Hlb by auto. eapply Hi; eauto.
  - exact Hnd.
  - cbn [freeq session freeSeqno flush_mid]. intros a Hin.
    destruct (Hel a Hin) as (Hane & sa & Hla & Hca & Hfa).
    assert (Hlt : (a < length (store ab))%nat) by (eapply lookup_lt_Some; eauto).
    split; [lia|]. exists sa.
    change (store (flush_mid ref ab s) !! a = Some sa /\ closed sa = 1 /\
            freeSeqno ab < seqno sa).
    rewrite Hold by (auto; lia). auto.
  - cbn [freeq]. eapply StronglySorted_ext_in; [|exact Hso].
    intros a b Hai Hbi.
    unfold seqno_lt. rewrite (Hsame a Hai), (Hsame b Hbi). auto.
  - exact Hcs.
  - cbn [calls flush_mid]. intros c Hin. apply lookup_app_l_Some. auto.
Qed.

Lemma Inv_FlushSession refs ref ab ab' :
  Inv refs ab -> Z.of_nat (length refs) + 1 < 2 ^ 63 ->
  FlushSession ref ab = Ok ab' -> Inv (refs ++ [ref]) ab'.
Proof.
  intros HI Hn HF.
  pose proof HI as [[Ha (s & Hs & _) _ _ _ _ _ _ _ _] _].
  rewrite (FlushSession_eq ref ab s Ha Hs) in HF.
  eapply Inv_Release; [apply (Inv_flush_mid refs ref ab s HI Hn Hs)| |exact HF].
  rewrite length_app. cbn. lia.
Qed.

Lemma Inv_run fuel ops : forall refs ab ab',
  Inv refs ab ->
  Z.of_nat (length refs) + Z.of_nat (length ops) < 2 ^ 63 ->
  run fuel ops ab = Ok ab' -> Inv (refs ++ flushed_refs ops) ab'.
Proof.
  induction ops as [|op ops IH]; intros refs ab ab' HI Hn; cbn.
  - intros [= <-]. rewrite app_nil_r. exact HI.
  - cbn [length] in Hn.
    destruct (step fuel op ab) as [ab1| |] eqn:E; try discriminate.
    intros HR. destruct op as [|bs|ref]; cbn in E.
    + destruct (Acquire fuel ab) as [[r ab2]| |] eqn:EA; try discriminate.
      injection E as ->. apply (IH refs ab1 ab'); auto; [|lia].
      eapply Inv_Acquire; eauto.
    + apply (IH refs ab1 ab'); auto; [|lia].
      eapply Inv_Release; eauto. lia.
    + replace (refs ++ ref :: flushed_refs ops)
        with ((refs ++ [ref]) ++ flushed_refs ops)
        by (rewrite <- app_assoc; reflexivity).
      apply (IH (refs ++ [ref]) ab1 ab'); auto.
      * eapply Inv_FlushSession; eauto. lia.
      * rewrite length_app. cbn. lia.
Qed.

(** *** The order of the destructor calls *)

Lemma calls_are_first_flushes refs ab :
  InvCore refs ab ->
  map call_ref (calls ab) = take (Z.to_nat (freeSeqno ab)) refs.
Proof.
  intros [Ha Hc (Hq1 & Hq2 & Hq3) Hf Hi Hnd Hel Hso Hcs Hcr].
  assert (Hlen : length (calls ab) = Z.to_nat (freeSeqno ab)).
  { rewrite <- (length_map call_seqno), Hcs, length_map, length_seq. reflexivity. }
  apply list_eq. intros i. rewrite list_lookup_fmap.
  destruct (decide (i < Z.to_nat (freeSeqno ab))%nat) as [Hlt|Hge].
  - rewrite lookup_take_lt by exact Hlt.
    destruct (lookup_lt_is_Some_2 (calls ab) i) as [c Hci]; [lia|].
    rewrite Hci. cbn.
    assert (Hseq : call_seqno c = Z.of_nat (1 + i)).
    { assert (H1 : map call_seqno (calls ab) !! i = Some (call_seqno c))
        by (rewrite list_lookup_fmap, Hci; reflexivity).
      rewrite Hcs, list_lookup_fmap, lookup_seq_lt in H1 by exact Hlt.
      change (Some (Z.of_nat (1 + i)) = Some (call_seqno c)) in H1.
      congruence. }
    rewrite <- (Hcr c) by (eapply list_elem_of_lookup_2; exact Hci).
    rewrite Hseq. f_equal. lia.
  - rewrite (lookup_ge_None_2 (calls ab)) by lia. cbn. symmetry.
    apply lookup_ge_None_2. rewrite length_take. lia.
Qed.

(** Scenario E4: a reader holds a handle while three sessions are
    flushed; no destructor runs until the reader leaves, then all three
    run in flush order. *)
Example flush_three_then_release :
  (exists ab, run 1 [OpAcquire; OpFlushSession 11; OpFlushSession 12;
                     OpFlushSession 13] (newAccessBarrier true) = Ok ab /\
              calls ab = [] /\ freeq ab = [1%nat; 2%nat]) /\
  (exists ab, run 1 [OpAcquire; OpFlushSession 11; OpFlushSession 12;
                     OpFlushSession 13; OpRelease 0] (newAccessBarrier true)
                = Ok ab /\
              calls ab = [mkCall 0 1 11; mkCall 1 2 12; mkCall 2 3 13] /\
              freeq ab = [] /\ freeSeqno ab = 3 /\ numFreed ab = 3).
Proof. split; eexists; vm_compute; repeat split; reflexivity. Qed.

(** C6: [doCleanup] destructs the longest prefix of the queue that is
    numbered [freeSeqno + 1], [freeSeqno + 2], ..., in that order, adding
    one to [freeSeqno] and to [numFreed] for each session, and stops at the
    first session with another number.  Hence, whatever the clients of a
    new barrier call, the destructor calls made so far are those of the
    sessions numbered [1 .. freeSeqno], each once and in ascending order,
    with the references of the corresponding [FlushSession] calls, and
    every session still queued is numbered above [freeSeqno + 1]. *)
Theorem destructors_run_in_seqno_order :
  (forall ab,
     0 <= freeSeqno ab ->
     freeSeqno ab + Z.of_nat (length (freeq ab)) < 2 ^ 64 ->
     - 2 ^ 63 <= numFreed ab ->
     numFreed ab + Z.of_nat (length (freeq ab)) < 2 ^ 63 ->
     Forall (allocated (store ab)) (freeq ab) ->
     exists ab' pre,
       doCleanup ab = Ok ab' /\
       freeq ab = pre ++ freeq ab' /\
       calls ab' = calls ab ++ map (call_of (store ab)) pre /\
       (forall (j : nat) x, pre !! j = Some x ->
          seqno_at (store ab) x = freeSeqno ab + 1 + Z.of_nat j) /\
       freeSeqno ab' = freeSeqno ab + Z.of_nat (length pre) /\
       numFreed ab' = numFreed ab + Z.of_nat (length pre) /\
       store ab' = store ab /\
       match freeq ab' with
       | [] => True
       | x :: _ => seqno_at (store ab) x <> freeSeqno ab' + 1
       end) /\
  (forall fuel ops ab',
     Z.of_nat (length ops) < 2 ^ 63 ->
     run fuel ops (newAccessBarrier true) = Ok ab' ->
     map call_seqno (calls ab') =
       map Z.of_nat (seq 1 (Z.to_nat (freeSeqno ab'))) /\
     map call_ref (calls ab') =
       take (Z.to_nat (freeSeqno ab')) (flushed_refs ops) /\
     numFreed ab' = freeSeqno ab' /\
     (forall x, x ∈ freeq ab' ->
        freeSeqno ab' + 1 < seqno_at (store ab') x)).
Proof.
  split.
  - intros ab Hf0 Hf1 Hn0 Hn1 Hall.
    pose proof (doCleanup_loop_spec (freeq ab) ab eq_refl Hf0 Hf1 Hn0 Hn1 Hall)
      as Hspec. cbn zeta in Hspec.
    set (pre := contig (store ab) (freeSeqno ab) (freeq ab)) in *.
    eexists. exists pre. split; [exact Hspec|].
    cbn [freeq calls freeSeqno numFreed store].
    split; [apply contig_prefix|]. split; [reflexivity|].
    split; [intros j x Hj; eapply contig_seqno; exact Hj|].
    split; [reflexivity|]. split; [reflexivity|]. split; [reflexivity|].
    pose proof (contig_stops (store ab) (freeSeqno ab) (freeq ab)) as Hstop.
    fold pre in Hstop.
    destruct (drop (length pre) (freeq ab)) as [|x rest] eqn:Ed; [exact I|].
    destruct Hstop as [Hstop|Hnone]; [exact Hstop|].
    assert (Hx : x ∈ freeq ab).
    { rewrite (contig_prefix (store ab) (freeSeqno ab) (freeq ab)).
      fold pre. rewrite Ed. apply elem_of_app. right. left. }
    rewrite Forall_forall in Hall. destruct (Hall x Hx) as [sx Hsx]. congruence.
  - intros fuel ops ab' Hn Hrun.
    destruct (Inv_run fuel ops [] (newAccessBarrier true) ab' Inv_init)
      as (Hcore & _ & Hgap); [cbn; lia | exact Hrun |].
    cbn [app] in Hcore.
    split; [apply (inv_calls_seq _ _ Hcore)|].
    split; [apply calls_are_first_flushes, Hcore|].
    split; [apply (inv_seq _ _ Hcore) | exact Hgap].
Qed.

(** *** The offset *)

(** C2 (as stated, refuted): [math.MaxInt32 / 2] is [2^30 - 1]. *)
Lemma barrierFlushOffset_not_2_pow_30 :
  barrierFlushOffset = 1073741823 /\ barrierFlushOffset <> 2 ^ 30.
Proof. split; [reflexivity | discriminate]. Qed.

(** C2 (amended): the offset is [MaxInt32 / 2 = 2^30 - 1 = 1073741823],
    and this is the value of every comparison and of the bias: [Acquire]
    backs off exactly when the incremented counter is above it, [Release]
    closes the session when the decremented counter equals it and panics
    when the counter is negative or one below it, and [FlushSession] adds
    it plus one before its own [Release]. *)
Theorem barrierFlushOffset_uses :
  barrierFlushOffset = 2 ^ 30 - 1 /\
  (forall ab s,
     active ab = true -> store ab !! session ab = Some s ->
     (wrap_i32 (liveCount s + 1) <= 1073741823 ->
      forall fuel,
        Acquire (S fuel) ab =
          Ok (Some (session ab),
              with_store
                (<[session ab := set_liveCount (wrap_i32 (liveCount s + 1)) s]>
                   (store ab)) ab)) /\
     (wrap_i32 (liveCount s + 1) > 1073741823 ->
      forall r, Acquire 1 ab <> Ok r)) /\
  (forall ab bs s,
     active ab = true -> Forall (allocated (store ab)) (freeq ab) ->
     store ab !! bs = Some s ->
     (wrap_i32 (liveCount s - 1) = 1073741823 ->
        exists ab', Release bs ab = Ok ab' /\
          store ab' = <[bs := released_closed s]> (store ab)) /\
     (wrap_i32 (liveCount s - 1) < 0 \/
      wrap_i32 (liveCount s - 1) = 1073741822 ->
        Release bs ab = Panic UnsafeReclamation) /\
     (0 <= wrap_i32 (liveCount s - 1) ->
      wrap_i32 (liveCount s - 1) <> 1073741823 ->
      wrap_i32 (liveCount s - 1) <> 1073741822 ->
        Release bs ab = Ok (with_store (<[bs := released s]> (store ab)) ab))) /\
  (forall ref ab s,
     active ab = true -> store ab !! session ab = Some s ->
     FlushSession ref ab = Release (session ab) (flush_mid ref ab s) /\
     liveCount <$> store (flush_mid ref ab s) !! session ab =
       Some (wrap_i32 (liveCount s + 1073741824))).
Proof.
  pose proof barrierFlushOffset_value as Hoff.
  split; [reflexivity|]. split; [|split].
  - intros ab s Ha Hs. split.
    + intros Hle fuel. unfold Acquire. rewrite Ha. cbn [Acquire_retry].
      rewrite Hs.
      destruct (Z.gtb_spec (wrap_i32 (liveCount s + 1)) barrierFlushOffset);
        [lia|reflexivity].
    + intros Hgt r. unfold Acquire. rewrite Ha. cbn [Acquire_retry].
      rewrite Hs.
      destruct (Z.gtb_spec (wrap_i32 (liveCount s + 1)) barrierFlushOffset);
        [|lia].
      destruct (Release _ _); discriminate.
  - intros ab bs s Ha Hq Hs.
    destruct (Release_cases ab bs s Ha Hq Hs) as (Hclose & Hbad & Hgood).
    cbn zeta in *. rewrite Hoff in *. split; [|split].
    + intros E. destruct (Hclose E) as (ab' & E' & Hst & _). eauto.
    + intros Hb. apply Hbad; lia.
    + intros H0 H1 H2. apply Hgood; lia.
  - intros ref ab s Ha Hs. split; [apply FlushSession_eq; assumption|].
    cbn [store flush_mid].
    rewrite list_lookup_insert_eq.
    + cbn. rewrite Hoff. reflexivity.
    + rewrite length_app. apply lookup_lt_Some in Hs. lia.
Qed.

(** *** What the clients of a barrier can rely on *)

(** No destructor runs for a session an accessor still holds: after any
    sequence of calls on a new barrier, a flushed session whose counter is
    above the offset is neither closed nor queued and is numbered above
    [freeSeqno], that is above every destructor call made so far; and every
    session numbered up to [freeSeqno] is closed, with no accessor left. *)
Theorem no_destructor_for_held_session fuel ops ab' :
  Z.of_nat (length ops) < 2 ^ 63 ->
  run fuel ops (newAccessBarrier true) = Ok ab' ->
  (exists s, store ab' !! session ab' = Some s /\ closed s = 0 /\
             0 <= liveCount s <= barrierFlushOffset) /\
  (forall a s, a <> session ab' -> store ab' !! a = Some s ->
     (barrierFlushOffset < liveCount s ->
        closed s = 0 /\ freeSeqno ab' < seqno s /\ a ∉ freeq ab') /\
     (seqno s <= freeSeqno ab' ->
        closed s = 1 /\ liveCount s = barrierFlushOffset)) /\
  (forall c, c ∈ calls ab' -> 1 <= call_seqno c <= freeSeqno ab').
Proof.
  intros Hn Hrun.
  destruct (Inv_run fuel ops [] (newAccessBarrier true) ab' Inv_init)
    as (Hcore & _ & _); [cbn; lia | exact Hrun |].
  destruct Hcore as [Ha Hc Hq Hf Hi Hnd Hel Hso Hcs Hcr].
  split; [exact Hc|]. split.
  - intros a s Hne Hs.
    destruct (Hf a s Hne Hs) as (_ & _ & [(Hc0 & Hlc & Hfs)|(Hc1 & Hlc)]).
    + split; [|intros; lia]. intros _. split; [exact Hc0|].
      split; [exact Hfs|]. intros Hin.
      destruct (Hel a Hin) as (_ & s1 & Hs1 & Hcl1 & _).
      rewrite Hs in Hs1. injection Hs1 as <-. lia.
    + split; [intros; lia | auto].
  - intros c Hc'.
    assert (Hin : call_seqno c ∈ map call_seqno (calls ab'))
      by (apply list_elem_of_fmap; eauto).
    rewrite Hcs in Hin. apply list_elem_of_fmap in Hin as (j & -> & Hj).
    apply elem_of_seq in Hj. lia.
Qed.

Lemma doCleanup_loop_counts (iter : list bsptr) (ab ab' : AccessBarrier) :
  doCleanup_loop iter ab = Ok ab' ->
  numAllocated ab' = numAllocated ab /\ activeSeqno ab' = activeSeqno ab.
Proof.
  revert ab. induction iter as [|x iter IH]; intros ab; cbn.
  - intros [= <-]. auto.
  - unfold doCleanup_step. destruct (store ab !! x) as [sx|]; [|discriminate].
    destruct (negb (seqno sx =? wrap_u64 (freeSeqno ab + 1))).
    + intros [= <-]. auto.
    + intros Hl. apply IH in Hl. cbn in Hl. exact Hl.
Qed.

Lemma Release_counts (bs : bsptr) (ab ab' : AccessBarrier) :
  Release bs ab = Ok ab' ->
  numAllocated ab' = numAllocated ab /\ activeSeqno ab' = activeSeqno ab /\
  active ab' = active ab.
Proof.
  unfold Release. destruct (active ab) eqn:Ha; [|intros [= <-]; auto].
  destruct (store ab !! bs) as [s|]; [|discriminate].
  cbn [store with_store closed set_liveCount].
  destruct (wrap_i32 (liveCount s - 1) =? barrierFlushOffset).
  - destruct (wrap_i32 (closed s + 1) =? 1).
    + cbn [isDestructorRunning with_freeq with_store].
      destruct (isDestructorRunning ab =? 0).
      * unfold doCleanup.
        match goal with |- context [doCleanup_loop ?q ?x] =>
          destruct (doCleanup_loop q x) as [ab4| |] eqn:E end;
          try discriminate.
        intros [= <-].
        destruct (doCleanup_loop_counts _ _ _ E) as (E1 & E2).
        destruct (doCleanup_loop_frame _ _ _ E) as (_ & _ & E3).
        cbn in E1, E2, E3.
        destruct (isDestructorRunning ab4 =? 1); cbn; rewrite E1, E2, E3; auto.
      * intros [= <-]. cbn. auto.
    + intros [= <-]. cbn. auto.
  - destruct ((wrap_i32 (liveCount s - 1) <? 0)
              || (wrap_i32 (liveCount s - 1) =? barrierFlushOffset - 1));
      [discriminate|].
    intros [= <-]. cbn. auto.
Qed.

Lemma Acquire_retry_counts fuel : forall (ab ab' : AccessBarrier) r,
  Acquire_retry fuel ab = Ok (r, ab') ->
  numAllocated ab' = numAllocated ab /\ activeSeqno ab' = activeSeqno ab /\
  active ab' = active ab.
Proof.
  induction fuel as [|fuel IH]; intros ab ab' r; cbn; [discriminate|].
  destruct (store ab !! session ab) as [s|]; [|discriminate].
  destruct (wrap_i32 (liveCount s + 1) >? barrierFlushOffset).
  - match goal with |- context [Release ?b ?x] =>
      destruct (Release b x) as [ab2| |] eqn:E end; try discriminate.
    intros HA. apply IH in HA as (E1 & E2 & E3).
    apply Release_counts in E as (F1 & F2 & F3). cbn in F1, F2, F3.
    rewrite E1, E2, E3. auto.
  - intros [= _ <-]. cbn. auto.
Qed.

Lemma step_counts fuel op (ab ab' : AccessBarrier) :
  active ab = true -> step fuel op ab = Ok ab' ->
  active ab' = true /\
  activeSeqno ab' = match op with
                    | OpFlushSession _ => wrap_u64 (activeSeqno ab + 1)
                    | _ => activeSeqno ab
                    end /\
  numAllocated ab' = match op with
                     | OpFlushSession _ => wrap_i64 (numAllocated ab + 1)
                     | _ => numAllocated ab
                     end.
Proof.
  intros Ha. destruct op as [|bs|ref]; cbn.
  - unfold Acquire. rewrite Ha.
    destruct (Acquire_retry fuel ab) as [[r ab1]| |] eqn:E; try discriminate.
    intros [= <-]. apply Acquire_retry_counts in E as (E1 & E2 & E3).
    rewrite E1, E2, E3. auto.
  - intros E. apply Release_counts in E as (E1 & E2 & E3).
    rewrite E1, E2, E3. auto.
  - unfold FlushSession. rewrite Ha.
    destruct ((store ab ++ [newBarrierSession]) !! session ab) as [s|];
      [|discriminate].
    intros E. apply Release_counts in E as (E1 & E2 & E3). cbn in E1, E2, E3.
    rewrite E1, E2, E3. auto.
Qed.

Lemma run_counts fuel : forall ops (ab ab' : AccessBarrier),
  active ab = true -> 0 <= numAllocated ab ->
  numAllocated ab + Z.of_nat (length ops) < 2 ^ 63 ->
  run fuel ops ab = Ok ab' ->
  numAllocated ab' = numAllocated ab + Z.of_nat (length (flushed_refs ops)).
Proof.
  induction ops as [|op ops IH]; intros ab ab' Ha H0 Hn; cbn [run].
  - intros [= <-]. cbn. lia.
  - destruct (step fuel op ab) as [ab1| |] eqn:E; try discriminate.
    intros Hrun. cbn [length] in Hn.
    destruct (step_counts fuel op ab ab1 Ha E) as (Ha1 & _ & Hna).
    assert (Hle : (length (flushed_refs ops) <= length ops)%nat).
    { clear. induction ops as [|[| |] ops IH]; cbn; lia. }
    destruct op as [|bs|ref]; cbn [flushed_refs length].
    + rewrite (IH ab1 ab' Ha1) by (try exact Hrun; lia). lia.
    + rewrite (IH ab1 ab' Ha1) by (try exact Hrun; lia). lia.
    + rewrite (wrap_i64_small (numAllocated ab + 1)) in Hna by lia.
      rewrite (IH ab1 ab' Ha1) by (try exact Hrun; lia). lia.
Qed.

(** [GetStats] after any sequence of calls on a new barrier: one session
    allocated per [FlushSession] plus the first, as many sessions freed
    as [freeSeqno] tells, and the sessions freed and queued together are
    no more than those flushed. *)
Theorem GetStats_accounts fuel ops ab' :
  Z.of_nat (length ops) + 1 < 2 ^ 63 ->
  run fuel ops (newAccessBarrier true) = Ok ab' ->
  GetStats ab' =
    (1 + Z.of_nat (length (flushed_refs ops)), freeSeqno ab',
     Z.of_nat (length (freeq ab')), freeSeqno ab') /\
  0 <= freeSeqno ab' /\
  freeSeqno ab' + Z.of_nat (length (freeq ab'))
    <= Z.of_nat (length (flushed_refs ops)).
Proof.
  intros Hn Hrun.
  destruct (Inv_run fuel ops [] (newAccessBarrier true) ab' Inv_init)
    as (Hcore & _ & _); [cbn; lia | exact Hrun |].
  destruct Hcore as [Ha Hc (Hq1 & Hq2 & Hq3) Hf Hi Hnd Hel Hso Hcs Hcr].
  cbn [app] in *.
  pose proof (run_counts fuel ops (newAccessBarrier true) ab' eq_refl
                ltac:(cbn; lia) ltac:(cbn; lia) Hrun) as Hna.
  cbn [numAllocated newAccessBarrier] in Hna.
  unfold GetStats. rewrite Ha, Hna, Hq3. split; [reflexivity|].
  split; [lia|].
  assert (Hlen : Z.of_nat (length (freeq ab')) <= activeSeqno ab' - freeSeqno ab').
  { apply (sorted_length_bound (store ab')); [exact Hso| |lia].
    intros x Hx. destruct (Hel x Hx) as (Hxne & sx & Hlx & _ & Hfx).
    destruct (Hf x sx Hxne Hlx) as (Hr & _).
    unfold seqno_at. rewrite Hlx. lia. }
  lia.
Qed.

(** *** The last accessor of a flushed session *)

Lemma doCleanup_eq refs ab :
  InvCore refs ab -> Z.of_nat (length refs) < 2 ^ 63 ->
  doCleanup ab =
    Ok {| activeSeqno := activeSeqno ab; session := session ab;
          freeq := drop (length (contig (store ab) (freeSeqno ab) (freeq ab)))
                     (freeq ab);
          freeSeqno := freeSeqno ab +
            Z.of_nat (length (contig (store ab) (freeSeqno ab) (freeq ab)));
          isDestructorRunning := isDestructorRunning ab;
          numAllocated := numAllocated ab;
          numFreed := numFreed ab +
            Z.of_nat (length (contig (store ab) (freeSeqno ab) (freeq ab)));
          active := active ab; store := store ab;
          calls := calls ab ++
            map (call_of (store ab))
              (contig (store ab) (freeSeqno ab) (freeq ab)) |}.
Proof.
  intros [Ha Hc (Hq1 & Hq2 & Hq3) Hf Hi Hnd Hel Hso Hcs Hcr] Hn.
  assert (Hrange : forall x, x ∈ freeq ab ->
            freeSeqno ab < seqno_at (store ab) x <= activeSeqno ab).
  { intros x Hx. destruct (Hel x Hx) as (Hxne & sx & Hlx & _ & Hfx).
    destruct (Hf x sx Hxne Hlx) as (Hr & _).
    unfold seqno_at. rewrite Hlx. lia. }
  assert (Hlen : Z.of_nat (length (freeq ab)) <= activeSeqno ab - freeSeqno ab)
    by (eapply sorted_length_bound; eauto; lia).
  assert (Hall : Forall (allocated (store ab)) (freeq ab)).
  { apply Forall_forall. intros x Hx.
    destruct (Hel x Hx) as (_ & sx & Hlx & _). exists sx. exact Hlx. }
  pose proof (doCleanup_loop_spec (freeq ab) ab eq_refl) as Hspec.
  cbn zeta in Hspec. unfold doCleanup. apply Hspec; lia || assumption.
Qed.

Lemma contig_gap st from q :
  (forall x, x ∈ q -> seqno_at st x <> from + 1) -> contig st from q = [].
Proof.
  destruct q as [|x q]; [reflexivity|]. intros Hq. cbn.
  specialize (Hq x ltac:(left)). unfold seqno_at in Hq.
  destruct (st !! x) as [sx|]; [|reflexivity].
  destruct (Z.eqb_spec (seqno sx) (from + 1)); [contradiction|reflexivity].
Qed.

Lemma freeq_insert_head st bs b q :
  (forall x sx, hd_error q = Some x -> st !! x = Some sx ->
     0 <= CompareBS sx b) ->
  freeq_insert st bs b q = bs :: q.
Proof.
  destruct q as [|x q]; [reflexivity|]. intros Hq. cbn.
  destruct (st !! x) as [sx|] eqn:Ex; [|reflexivity].
  specialize (Hq x sx eq_refl Ex).
  destruct (Z.ltb_spec (CompareBS sx b) 0); [lia|reflexivity].
Qed.

(** The [Release] that takes the counter of a flushed session down to the
    offset closes the session, queues it and runs [doCleanup]. *)
Lemma Release_close_explicit refs ab bs (s : BarrierSession) :
  Inv refs ab -> Z.of_nat (length refs) < 2 ^ 63 ->
  bs <> session ab -> store ab !! bs = Some s ->
  closed s = 0 -> liveCount s = barrierFlushOffset + 1 ->
  (bs ∉ freeq ab) /\ freeSeqno ab < seqno s <= Z.of_nat (length refs) /\
  Release bs ab =
    Ok {| activeSeqno := activeSeqno ab; session := session ab;
          freeq :=
            drop (length (contig (<[bs := released_closed s]> (store ab))
                            (freeSeqno ab)
                            (freeq_insert (<[bs := released_closed s]> (store ab))
                               bs (released_closed s) (freeq ab))))
              (freeq_insert (<[bs := released_closed s]> (store ab))
                 bs (released_closed s) (freeq ab));
          freeSeqno := freeSeqno ab +
            Z.of_nat (length (contig (<[bs := released_closed s]> (store ab))
                                (freeSeqno ab)
                                (freeq_insert
                                   (<[bs := released_closed s]> (store ab))
                                   bs (released_closed s) (freeq ab))));
          isDestructorRunning := 0;
          numAllocated := numAllocated ab;
          numFreed := numFreed ab +
            Z.of_nat (length (contig (<[bs := released_closed s]> (store ab))
                                (freeSeqno ab)
                                (freeq_insert
                                   (<[bs := released_closed s]> (store ab))
                                   bs (released_closed s) (freeq ab))));
          active := active ab;
          store := <[bs := released_closed s]> (store ab);
          calls := calls ab ++
            map (call_of (<[bs := released_closed s]> (store ab)))
              (contig (<[bs := released_closed s]> (store ab)) (freeSeqno ab)
                 (freeq_insert (<[bs := released_closed s]> (store ab))
                    bs (released_closed s) (freeq ab))) |}.
Proof.
  intros (Hcore & Hrun & Hgap) Hn Hne Hs Hc0 Hlc0.
  pose proof Hcore as [Ha Hc Hq Hf Hi Hnd Hel Hso Hcs Hcr].
  pose proof barrierFlushOffset_value as Hoff.
  destruct (Hf bs s Hne Hs) as (Hr & Href & [(_ & _ & Hfs)|(Hc1 & _)]); [|lia].
  assert (Hlc : wrap_i32 (liveCount s - 1) = barrierFlushOffset).
  { rewrite Hlc0. replace (barrierFlushOffset + 1 - 1) with barrierFlushOffset
      by lia. reflexivity. }
  assert (Hnin : bs ∉ freeq ab).
  { intros Hin. destruct (Hel bs Hin) as (_ & s1 & Hs1 & Hcl1 & _).
    rewrite Hs in Hs1. injection Hs1 as <-. lia. }
  split; [exact Hnin|]. split; [lia|].
  assert (Hcl : wrap_i32 (closed s + 1) = 1) by (rewrite Hc0; reflexivity).
  rewrite (Release_close_eq ab bs s Ha Hs Hlc Hcl Hrun).
  set (s2 := released_closed s) in *.
  assert (Hs2 : seqno s2 = seqno s /\ objectRef s2 = objectRef s /\
                closed s2 = 1 /\ liveCount s2 = barrierFlushOffset).
  { subst s2. unfold released_closed, released. cbn. rewrite Hcl, Hlc. auto. }
  destruct Hs2 as (Hs2a & Hs2b & Hs2c & Hs2d).
  assert (Hlen : (bs < length (store ab))%nat)
    by (eapply lookup_lt_Some; eauto).
  assert (H2 : InvCore refs (with_store (<[bs := s2]> (store ab)) ab)).
  { eapply InvCore_set; eauto; [intros; contradiction|].
    intros _. split; [|auto]. unfold flushed_ok.
    rewrite Hs2a, Hs2b. auto. }
  assert (H3 : InvCore refs
            (with_running 1
               (with_freeq
                  (freeq_insert (<[bs := s2]> (store ab)) bs s2 (freeq ab))
                  (with_store (<[bs := s2]> (store ab)) ab)))).
  { apply InvCore_running.
    apply (InvCore_insert refs (with_store (<[bs := s2]> (store ab)) ab) bs s2);
      cbn; auto; try lia.
    apply list_lookup_insert_eq. exact Hlen. }
  rewrite (doCleanup_eq refs _ H3 Hn). reflexivity.
Qed.

(** What the last accessor of a flushed session does when it leaves: if
    the session is next in line its destructor runs at once, before those
    of the queued sessions that follow it; otherwise the session is queued
    and no destructor runs. *)
Lemma Release_last refs ab bs (s : BarrierSession) :
  Inv refs ab -> Z.of_nat (length refs) < 2 ^ 63 ->
  bs <> session ab -> store ab !! bs = Some s ->
  closed s = 0 -> liveCount s = barrierFlushOffset + 1 ->
  (seqno s = freeSeqno ab + 1 ->
     exists ab' more,
       Release bs ab = Ok ab' /\
       calls ab' = calls ab ++ mkCall bs (seqno s) (objectRef s) :: more /\
       (bs ∉ freeq ab') /\ seqno s <= freeSeqno ab' /\
       (freeq ab = [] ->
          more = [] /\ freeq ab' = [] /\ freeSeqno ab' = freeSeqno ab + 1) /\
       session ab' = session ab /\ activeSeqno ab' = activeSeqno ab) /\
  (freeSeqno ab + 1 < seqno s ->
     exists ab',
       Release bs ab = Ok ab' /\ calls ab' = calls ab /\
       bs ∈ freeq ab' /\ freeSeqno ab' = freeSeqno ab /\
       session ab' = session ab /\ activeSeqno ab' = activeSeqno ab).
Proof.
  intros HI Hn Hne Hs Hc0 Hlc0.
  destruct (Release_close_explicit refs ab bs s HI Hn Hne Hs Hc0 Hlc0)
    as (Hnin & Hrange & HR).
  destruct HI as (Hcore & Hrun & Hgap).
  pose proof Hcore as [Ha Hc Hq Hf Hi Hnd Hel Hso Hcs Hcr].
  set (s2 := released_closed s) in *.
  set (st2 := <[bs := s2]> (store ab)) in *.
  assert (Hlen : (bs < length (store ab))%nat)
    by (eapply lookup_lt_Some; eauto).
  assert (Hs2 : st2 !! bs = Some s2)
    by (apply list_lookup_insert_eq; exact Hlen).
  assert (Hseq2 : seqno s2 = seqno s) by reflexivity.
  assert (Href2 : objectRef s2 = objectRef s) by reflexivity.
  assert (Hold : forall x, x ∈ freeq ab ->
            freeSeqno ab + 1 < seqno_at st2 x).
  { intros x Hx. unfold st2. rewrite (seqno_at_insert _ _ s) by auto. auto. }
  split.
  - intros Hnext.
    assert (Hq2 : freeq_insert st2 bs s2 (freeq ab) = bs :: freeq ab).
    { apply freeq_insert_head. intros x sx Hx Hsx.
      assert (Hxin : x ∈ freeq ab).
      { destruct (freeq ab) as [|y q]; [discriminate|].
        injection Hx as ->. left. }
      pose proof (Hold x Hxin) as Hgt. unfold seqno_at in Hgt.
      rewrite Hsx in Hgt.
      destruct (Hel x Hxin) as (Hxne & sx0 & Hlx & _).
      destruct (Hf x sx0 Hxne Hlx) as (Hrx & _).
      assert (Hxb : x <> bs) by (intros ->; contradiction).
      unfold st2 in Hsx. rewrite list_lookup_insert_ne in Hsx by auto.
      rewrite Hlx in Hsx. injection Hsx as <-.
      rewrite CompareBS_exact; rewrite Hseq2; lia. }
    rewrite Hq2 in HR. cbn [contig] in HR. rewrite Hs2 in HR.
    rewrite Hseq2, Hnext, Z.eqb_refl in HR. cbn [length map drop] in HR.
    unfold call_of at 1 in HR. rewrite Hs2, Hseq2, Href2 in HR.
    eexists _, _. split; [exact HR|].
    cbn [calls freeq freeSeqno session activeSeqno].
    rewrite Hnext. split; [reflexivity|]. split; [|split; [lia|split]].
    + intros Hin. apply Hnin.
      eapply elem_of_sublist; [exact Hin | apply sublist_drop].
    + intros Eq. rewrite Eq. cbn. split; [reflexivity|].
      split; [reflexivity | lia].
    + auto.
  - intros Hlater.
    assert (Hnil : contig st2 (freeSeqno ab)
                     (freeq_insert st2 bs s2 (freeq ab)) = []).
    { apply contig_gap. intros x Hx.
      apply elem_of_freeq_insert in Hx as [->|Hx].
      - unfold seqno_at. rewrite Hs2, Hseq2. lia.
      - specialize (Hold x Hx). lia. }
    rewrite Hnil in HR. cbn [length map drop] in HR.
    eexists. split; [exact HR|].
    cbn [calls freeq freeSeqno session activeSeqno].
    rewrite app_nil_r. split; [reflexivity|].
    split; [apply elem_of_freeq_insert; auto|]. split; [lia|auto].
Qed.

(** The [Release] calls of the accessors of a flushed session, when the
    calls do not overlap (the barrier is in a state reached by calls made
    one after the other, and no other thread is inside [Release] or
    [doCleanup]): all but the last only count down; the last one runs the
    destructor of the session at once if the session is next in line, with
    its own reference and before any later session's, and otherwise leaves
    it queued. *)
Theorem Release_of_flushed_session fuel ops ab a (s : BarrierSession) :
  Z.of_nat (length ops) < 2 ^ 63 ->
  run fuel ops (newAccessBarrier true) = Ok ab ->
  a <> session ab -> store ab !! a = Some s -> closed s = 0 ->
  (barrierFlushOffset + 1 < liveCount s ->
     Release a ab =
       Ok (with_store (<[a := set_liveCount (liveCount s - 1) s]> (store ab)) ab)) /\
  (liveCount s = barrierFlushOffset + 1 -> seqno s = freeSeqno ab + 1 ->
     exists ab' more,
       Release a ab = Ok ab' /\
       calls ab' = calls ab ++ mkCall a (seqno s) (objectRef s) :: more /\
       (a ∉ freeq ab') /\ seqno s <= freeSeqno ab') /\
  (liveCount s = barrierFlushOffset + 1 -> freeSeqno ab + 1 < seqno s ->
     exists ab',
       Release a ab = Ok ab' /\ calls ab' = calls ab /\
       a ∈ freeq ab' /\ freeSeqno ab' = freeSeqno ab).
Proof.
  intros Hn Hrun Hne Hs Hc0.
  pose proof (Inv_run fuel ops [] (newAccessBarrier true) ab Inv_init
                ltac:(cbn; lia) Hrun) as HI.
  cbn [app] in HI.
  assert (Hrefs : Z.of_nat (length (flushed_refs ops)) < 2 ^ 63).
  { assert (length (flushed_refs ops) <= length ops)%nat; [|lia].
    clear. induction ops as [|[| |] ops IH]; cbn; lia. }
  pose proof HI as ([Ha Hc Hq Hf Hi Hnd Hel Hso Hcs Hcr] & _ & _).
  pose proof barrierFlushOffset_value as Hoff.
  destruct (Hf a s Hne Hs) as (_ & _ & [(_ & Hlc & _)|(Hc1 & _)]); [|lia].
  split; [|split].
  - intros Hgt.
    assert (Hw : wrap_i32 (liveCount s - 1) = liveCount s - 1).
    { apply wrap_i32_small. unfold MaxInt32 in Hlc. lia. }
    rewrite (Release_open_eq ab a s Ha Hs) by lia. rewrite Hw.
    destruct (Z.ltb_spec (liveCount s - 1) 0); [lia|].
    destruct (Z.eqb_spec (liveCount s - 1) (barrierFlushOffset - 1)); [lia|].
    cbn [orb]. unfold released. rewrite Hw. reflexivity.
  - intros Hlast Hnext.
    destruct (Release_last _ ab a s HI Hrefs Hne Hs Hc0 Hlast) as [H1 _].
    destruct (H1 Hnext) as (ab' & more & E1 & E2 & E3 & E4 & _).
    exists ab', more. auto.
  - intros Hlast Hlater.
    destruct (Release_last _ ab a s HI Hrefs Hne Hs Hc0 Hlast) as [_ H2].
    destruct (H2 Hlater) as (ab' & E1 & E2 & E3 & E4 & _).
    exists ab'. auto.
Qed.

(** [FlushSession] when the calls do not overlap (the barrier is in a
    state reached by calls made one after the other, and no other thread
    is inside [Release] or [doCleanup] meanwhile): on a session that
    nobody holds it runs the destructor for the given reference before it
    returns, provided every earlier session has been destructed, and
    queues the session otherwise; on a session that accessors hold it
    calls no destructor and leaves the session open, counting its
    accessors above the offset.  Either way a new session becomes
    current. *)
Theorem FlushSession_now_or_later fuel ops ref ab :
  Z.of_nat (length ops) + 1 < 2 ^ 63 ->
  run fuel ops (newAccessBarrier true) = Ok ab ->
  exists s,
    store ab !! session ab = Some s /\
    (liveCount s = 0 -> freeSeqno ab = activeSeqno ab ->
       exists ab',
         FlushSession ref ab = Ok ab' /\
         calls ab' = calls ab ++ [mkCall (session ab) (activeSeqno ab + 1) ref] /\
         freeSeqno ab' = activeSeqno ab + 1 /\
         activeSeqno ab' = activeSeqno ab + 1 /\
         freeq ab' = [] /\ session ab' = length (store ab)) /\
    (liveCount s = 0 -> freeSeqno ab < activeSeqno ab ->
       exists ab',
         FlushSession ref ab = Ok ab' /\ calls ab' = calls ab /\
         session ab ∈ freeq ab' /\ session ab' = length (store ab)) /\
    (0 < liveCount s ->
       exists ab' s',
         FlushSession ref ab = Ok ab' /\ calls ab' = calls ab /\
         freeq ab' = freeq ab /\ session ab' = length (store ab) /\
         store ab' !! session ab = Some s' /\
         liveCount s' = liveCount s + barrierFlushOffset /\
         closed s' = 0 /\ seqno s' = activeSeqno ab + 1 /\ objectRef s' = ref).
Proof.
  intros Hn Hrun.
  pose proof (Inv_run fuel ops [] (newAccessBarrier true) ab Inv_init
                ltac:(cbn; lia) Hrun) as HI.
  cbn [app] in HI.
  assert (Hrefs : Z.of_nat (length (flushed_refs ops)) + 1 < 2 ^ 63).
  { assert (length (flushed_refs ops) <= length ops)%nat; [|lia].
    clear. induction ops as [|[| |] ops IH]; cbn; lia. }
  pose proof HI as ([Ha Hc (Hq1 & Hq2 & Hq3) Hf Hi Hnd Hel Hso Hcs Hcr] & Hrn & Hgap).
  pose proof barrierFlushOffset_value as Hoff.
  destruct Hc as (s & Hs & Hc0 & Hl0). exists s. split; [exact Hs|].
  pose proof (Inv_flush_mid _ ref ab s HI Hrefs Hs) as HIm.
  rewrite (FlushSession_eq ref ab s Ha Hs).
  assert (Hlen : (session ab < length (store ab))%nat)
    by (eapply lookup_lt_Some; eauto).
  assert (Hsq : wrap_u64 (activeSeqno ab + 1) = activeSeqno ab + 1)
    by (apply wrap_u64_small; lia).
  assert (Hlc : wrap_i32 (liveCount s + (barrierFlushOffset + 1)) =
                liveCount s + (barrierFlushOffset + 1))
    by (apply wrap_i32_small; lia).
  set (bs2 := set_liveCount (wrap_i32 (liveCount s + (barrierFlushOffset + 1)))
                (set_flushed ref (wrap_u64 (activeSeqno ab + 1)) s)).
  assert (Hsm : store (flush_mid ref ab s) !! session ab = Some bs2).
  { cbn. apply list_lookup_insert_eq. rewrite length_app. cbn. lia. }
  assert (Hnem : session ab <> session (flush_mid ref ab s)) by (cbn; lia).
  assert (Hlenm : Z.of_nat (length (flushed_refs ops ++ [ref])) < 2 ^ 63)
    by (rewrite length_app; cbn; lia).
  assert (Hbs2 : closed bs2 = 0 /\ seqno bs2 = activeSeqno ab + 1 /\
                 objectRef bs2 = ref /\
                 liveCount bs2 = liveCount s + (barrierFlushOffset + 1)).
  { subst bs2. cbn. rewrite Hsq, Hlc. auto. }
  destruct Hbs2 as (Hb1 & Hb2 & Hb3 & Hb4).
  split; [|split].
  - intros Hz Hall.
    destruct (Release_last _ (flush_mid ref ab s) (session ab) bs2 HIm Hlenm
                Hnem Hsm Hb1 ltac:(lia)) as [H1 _].
    destruct H1 as (ab' & more & E1 & E2 & _ & _ & E5 & E6 & E7);
      [cbn; lia|].
    assert (Hqe : freeq ab = []).
    { destruct (freeq ab) as [|x q] eqn:Eq; [reflexivity|exfalso].
      assert (Hx : x ∈ x :: q) by left.
      destruct (Hel x Hx) as (Hxne & sx & Hlx & _ & _).
      destruct (Hf x sx Hxne Hlx) as (Hr & _).
      specialize (Hgap x Hx). unfold seqno_at in Hgap. rewrite Hlx in Hgap.
      lia. }
    destruct (E5 Hqe) as (-> & F2 & F3). exists ab'.
    split; [exact E1|]. rewrite E2, Hb2, Hb3. cbn [calls flush_mid].
    split; [reflexivity|]. cbn in F3, E6, E7.
    split; [lia|]. split; [rewrite E7; exact Hsq|]. auto.
  - intros Hz Hpend.
    destruct (Release_last _ (flush_mid ref ab s) (session ab) bs2 HIm Hlenm
                Hnem Hsm Hb1 ltac:(lia)) as [_ H2].
    destruct H2 as (ab' & E1 & E2 & E3 & _ & E5 & _); [cbn; lia|].
    exists ab'. auto.
  - intros Hpos.
    assert (Hw : wrap_i32 (liveCount bs2 - 1) = liveCount s + barrierFlushOffset).
    { rewrite Hb4.
      replace (liveCount s + (barrierFlushOffset + 1) - 1)
        with (liveCount s + barrierFlushOffset) by lia.
      apply wrap_i32_small. lia. }
    rewrite (Release_open_eq (flush_mid ref ab s) (session ab) bs2 Ha Hsm)
      by lia.
    rewrite Hw.
    destruct (Z.ltb_spec (liveCount s + barrierFlushOffset) 0); [lia|].
    destruct (Z.eqb_spec (liveCount s + barrierFlushOffset)
                (barrierFlushOffset - 1)); [lia|].
    cbn [orb]. eexists _, (released bs2). split; [reflexivity|].
    cbn [calls freeq session with_store flush_mid store].
    split; [reflexivity|]. split; [reflexivity|]. split; [reflexivity|].
    split.
    + apply list_lookup_insert_eq. rewrite length_insert, length_app. cbn. lia.
    + unfold released. cbn [liveCount closed seqno objectRef set_liveCount].
      rewrite Hw. auto.
Qed.

(** *** Destructors are not held back for nothing *)

Lemma Live_init : Live (newAccessBarrier true).
Proof.
  split.
  - cbn. intros n Hn. lia.
  - intros [|a] s Hne Hs; [cbn in Hne; congruence|]. cbn in Hs. discriminate.
Qed.

Lemma Live_set ab bs (s s' : BarrierSession) :
  Live ab -> store ab !! bs = Some s -> seqno s' = seqno s ->
  (bs <> session ab -> closed s' = 1 -> closed s = 1) ->
  Live (with_store (<[bs := s']> (store ab)) ab).
Proof.
  intros [H1 H2] Hs Hseq Hcl.
  assert (Hlen : (bs < length (store ab))%nat) by (eapply lookup_lt_Some; eauto).
  split; cbn.
  - intros n Hn. destruct (H1 n Hn) as (a & sa & Hne & Hsa & Hna).
    destruct (decide (a = bs)) as [->|Hab].
    + exists bs, s'. rewrite list_lookup_insert_eq by exact Hlen.
      split; [exact Hne|]. split; [reflexivity|]. congruence.
    + exists a, sa. rewrite list_lookup_insert_ne by auto. auto.
  - intros a sa Hne Hsa Hca Hfa. destruct (decide (a = bs)) as [->|Hab].
    + rewrite list_lookup_insert_eq in Hsa by exact Hlen. injection Hsa as <-.
      apply (H2 bs s); auto. lia.
    + rewrite list_lookup_insert_ne in Hsa by auto. eapply H2; eauto.
Qed.

Lemma Live_Release refs ab bs ab' :
  Inv refs ab -> Live ab -> Z.of_nat (length refs) < 2 ^ 63 ->
  Release bs ab = Ok ab' -> Live ab'.
Proof.
  intros HI HL Hn HR. pose proof HI as (Hcore & Hrun & Hgap).
  pose proof Hcore as [Ha Hc Hq Hf Hi Hnd Hel Hso Hcs Hcr].
  pose proof barrierFlushOffset_value as Hoff.
  destruct (store ab !! bs) as [s|] eqn:Hs;
    [|unfold Release in HR; rewrite Ha, Hs in HR; discriminate].
  destruct (Z.eq_dec (wrap_i32 (liveCount s - 1)) barrierFlushOffset)
    as [Eclose|Hopen].
  - assert (Hcase : bs <> session ab /\ closed s = 0 /\
                    liveCount s = barrierFlushOffset + 1).
    { destruct (decide (bs = session ab)) as [Ecur|Hne].
      - destruct Hc as (s0 & Hs0 & Hc0 & Hl0).
        rewrite <- Ecur, Hs in Hs0. injection Hs0 as <-.
        rewrite wrap_i32_small in Eclose by lia. lia.
      - destruct (Hf bs s Hne Hs) as (_ & _ & [(Hc0 & Hlc & _)|(Hc1 & Hlc)]).
        + rewrite wrap_i32_small in Eclose by (unfold MaxInt32 in Hlc; lia).
          split; [exact Hne|]. split; [exact Hc0|lia].
        + rewrite Hlc in Eclose.
          replace (wrap_i32 (barrierFlushOffset - 1)) with (barrierFlushOffset - 1)
            in Eclose by reflexivity.
          lia. }
    destruct Hcase as (Hne & Hc0 & Hlc).
    destruct (Release_close_explicit refs ab bs s HI Hn Hne Hs Hc0 Hlc)
      as (Hnin & Hrange & HR').
    rewrite HR' in HR. injection HR as <-.
    destruct HL as [H1 H2].
    set (s2 := released_closed s) in *.
    set (st2 := <[bs := s2]> (store ab)) in *.
    set (q2 := freeq_insert st2 bs s2 (freeq ab)) in *.
    set (pre := contig st2 (freeSeqno ab) q2) in *.
    assert (Hlen : (bs < length (store ab))%nat)
      by (eapply lookup_lt_Some; eauto).
    assert (Hs2 : st2 !! bs = Some s2)
      by (apply list_lookup_insert_eq; exact Hlen).
    split; cbn [activeSeqno session store freeq freeSeqno].
    + intros n Hn'. destruct (H1 n Hn') as (a & sa & Hane & Hsa & Hna).
      destruct (decide (a = bs)) as [->|Hab].
      * exists bs, s2. split; [exact Hane|]. split; [exact Hs2|].
        rewrite Hs in Hsa. injection Hsa as <-. exact Hna.
      * exists a, sa. unfold st2. rewrite list_lookup_insert_ne by auto. auto.
    + intros a sa Hane Hsa Hca Hfa.
      assert (Hin : a ∈ q2).
      { apply elem_of_freeq_insert. destruct (decide (a = bs)) as [->|Hab];
          [left; reflexivity|right].
        unfold st2 in Hsa. rewrite list_lookup_insert_ne in Hsa by auto.
        apply (H2 a sa); auto. lia. }
      rewrite (contig_prefix st2 (freeSeqno ab) q2) in Hin. fold pre in Hin.
      apply elem_of_app in Hin as [Hin|Hin]; [exfalso|exact Hin].
      pose proof (contig_last _ _ _ _ Hin) as Hle. fold pre in Hle.
      unfold seqno_at in Hle. rewrite Hsa in Hle. lia.
  - rewrite (Release_open_eq ab bs s Ha Hs Hopen) in HR.
    destruct ((wrap_i32 (liveCount s - 1) <? 0)
              || (wrap_i32 (liveCount s - 1) =? barrierFlushOffset - 1));
      [discriminate|].
    injection HR as <-. apply (Live_set ab bs s); auto.
Qed.

Lemma Live_Acquire refs fuel ab r ab' :
  Inv refs ab -> Live ab -> Acquire fuel ab = Ok (r, ab') -> Live ab'.
Proof.
  intros (Hcore & Hrun & Hgap) HL HA.
  pose proof Hcore as [Ha Hc Hq Hf Hi Hnd Hel Hso Hcs Hcr].
  pose proof barrierFlushOffset_value as Hoff.
  destruct Hc as (s & Hs & Hc0 & Hl0).
  unfold Acquire in HA. rewrite Ha in HA.
  destruct (Z.eq_dec (liveCount s) barrierFlushOffset) as [E|Hne].
  { exfalso. eapply Acquire_retry_full; eauto. }
  destruct fuel as [|fuel]; [discriminate|]. cbn [Acquire_retry] in HA.
  rewrite Hs in HA.
  rewrite (wrap_i32_small (liveCount s + 1)) in HA by lia.
  destruct (Z.gtb_spec (liveCount s + 1) barrierFlushOffset) as [?|_]; [lia|].
  injection HA as <- <-. apply (Live_set ab (session ab) s); auto.
Qed.

Lemma Live_flush_mid refs ref ab (s : BarrierSession) :
  Inv refs ab -> Live ab -> Z.of_nat (length refs) + 1 < 2 ^ 63 ->
  store ab !! session ab = Some s -> Live (flush_mid ref ab s).
Proof.
  intros (Hcore & Hrun & Hgap) [H1 H2] Hn Hs.
  destruct Hcore as [Ha Hc (Hq1 & Hq2 & Hq3) Hf Hi Hnd Hel Hso Hcs Hcr].
  destruct Hc as (s0 & Hs0 & Hc0 & Hl0). rewrite Hs in Hs0. injection Hs0 as <-.
  assert (Hlen : (session ab < length (store ab))%nat)
    by (eapply lookup_lt_Some; eauto).
  assert (Hsq : wrap_u64 (activeSeqno ab + 1) = activeSeqno ab + 1)
    by (apply wrap_u64_small; lia).
  assert (Hold : forall a, a <> session ab -> a <> length (store ab) ->
            store (flush_mid ref ab s) !! a = store ab !! a).
  { intros a Ha1 Ha2. cbn. rewrite list_lookup_insert_ne by auto.
    destruct (decide (a < length (store ab))%nat) as [Hlt|Hge].
    - apply lookup_app_l. exact Hlt.
    - rewrite !lookup_ge_None_2; [reflexivity|lia|].
      rewrite length_app. cbn. lia. }
  split.
  - cbn [activeSeqno session flush_mid]. rewrite Hsq. intros n Hn'.
    destruct (Z.eq_dec n (activeSeqno ab + 1)) as [->|Hlt].
    + eexists (session ab), _. split; [lia|]. split.
      * cbn. apply list_lookup_insert_eq. rewrite length_app. cbn. lia.
      * cbn. exact Hsq.
    + destruct (H1 n ltac:(lia)) as (a & sa & Hane & Hsa & Hna).
      assert (Halt : (a < length (store ab))%nat)
        by (eapply lookup_lt_Some; eauto).
      exists a, sa. split; [lia|]. split; [|exact Hna].
      rewrite Hold by (auto; lia). exact Hsa.
  - cbn [session freeq freeSeqno flush_mid]. intros a sa Hane Hsa Hca Hfa.
    destruct (decide (a = session ab)) as [->|Hne].
    + cbn in Hsa. rewrite list_lookup_insert_eq in Hsa
        by (rewrite length_app; cbn; lia).
      injection Hsa as <-. cbn in Hca. lia.
    + rewrite Hold in Hsa by auto. eapply H2; eauto.
Qed.

Lemma Live_run fuel ops : forall refs ab ab',
  Inv refs ab -> Live ab ->
  Z.of_nat (length refs) + Z.of_nat (length ops) < 2 ^ 63 ->
  run fuel ops ab = Ok ab' -> Live ab'.
Proof.
  induction ops as [|op ops IH]; intros refs ab ab' HI HL Hn; cbn.
  - intros [= <-]. exact HL.
  - cbn [length] in Hn.
    destruct (step fuel op ab) as [ab1| |] eqn:E; try discriminate.
    intros HR. destruct op as [|bs|ref]; cbn in E.
    + destruct (Acquire fuel ab) as [[r ab2]| |] eqn:EA; try discriminate.
      injection E as ->. apply (IH refs ab1 ab'); auto; [| |lia].
      * eapply Inv_Acquire; eauto.
      * eapply Live_Acquire; eauto.
    + apply (IH refs ab1 ab'); auto; [| |lia].
      * eapply Inv_Release; eauto. lia.
      * eapply Live_Release; eauto. lia.
    + pose proof HI as [[Ha (s & Hs & _) _ _ _ _ _ _ _ _] _].
      apply (IH (refs ++ [ref]) ab1 ab'); auto.
      * eapply Inv_FlushSession; eauto. lia.
      * rewrite (FlushSession_eq ref ab s Ha Hs) in E.
        eapply (Live_Release (refs ++ [ref])); [| | |exact E].
        -- apply Inv_flush_mid; auto. lia.
        -- eapply Live_flush_mid; eauto. lia.
        -- rewrite length_app. cbn. lia.
      * rewrite length_app. cbn. lia.
Qed.

(** When the calls do not overlap (each call returns before the next one
    begins, so that no [Release] finds [isDestructorRunning] set by
    another thread), a destructor is held back only by an accessor: after
    any such sequence of calls on a new barrier, if some flushed session is
    not yet destructed, then the next one in line still counts an accessor;
    so once no flushed session counts an accessor, the destructor of every
    flushed session has run, in the order of the [FlushSession] calls, and
    the queue is empty. *)
Theorem destructor_waits_only_for_accessors fuel ops ab' :
  Z.of_nat (length ops) < 2 ^ 63 ->
  run fuel ops (newAccessBarrier true) = Ok ab' ->
  (freeSeqno ab' < activeSeqno ab' ->
     exists a s, a <> session ab' /\ store ab' !! a = Some s /\
       seqno s = freeSeqno ab' + 1 /\ closed s = 0 /\
       barrierFlushOffset < liveCount s) /\
  ((forall a s, a <> session ab' -> store ab' !! a = Some s ->
      liveCount s <= barrierFlushOffset) ->
     freeSeqno ab' = activeSeqno ab' /\ freeq ab' = [] /\
     map call_ref (calls ab') = flushed_refs ops).
Proof.
  intros Hn Hrun.
  pose proof (Inv_run fuel ops [] (newAccessBarrier true) ab' Inv_init
                ltac:(cbn; lia) Hrun) as HI.
  pose proof (Live_run fuel ops [] (newAccessBarrier true) ab' Inv_init
                Live_init ltac:(cbn; lia) Hrun) as [H1 H2].
  cbn [app] in HI. pose proof HI as (Hcore & _ & Hgap).
  pose proof Hcore as [Ha Hc (Hq1 & Hq2 & Hq3) Hf Hi Hnd Hel Hso Hcs Hcr].
  assert (Hnext : freeSeqno ab' < activeSeqno ab' ->
            exists a s, a <> session ab' /\ store ab' !! a = Some s /\
              seqno s = freeSeqno ab' + 1 /\ closed s = 0 /\
              barrierFlushOffset < liveCount s).
  { intros Hlt. destruct (H1 (freeSeqno ab' + 1) ltac:(lia))
      as (a & s & Hne & Hs & Hseq).
    exists a, s. split; [exact Hne|]. split; [exact Hs|]. split; [exact Hseq|].
    destruct (Hf a s Hne Hs) as (_ & _ & [(Hc0 & Hlc & _)|(Hc1 & _)]);
      [split; [exact Hc0|lia]|exfalso].
    assert (Hin : a ∈ freeq ab') by (apply (H2 a s); auto; lia).
    specialize (Hgap a Hin). unfold seqno_at in Hgap. rewrite Hs in Hgap. lia. }
  split; [exact Hnext|]. intros Hnone.
  assert (Hall : freeSeqno ab' = activeSeqno ab').
  { destruct (Z.eq_dec (freeSeqno ab') (activeSeqno ab')) as [E|Hne]; [exact E|].
    destruct Hnext as (a & s & Hane & Hs & _ & _ & Hlc); [lia|].
    specialize (Hnone a s Hane Hs). lia. }
  split; [exact Hall|]. split.
  - destruct (freeq ab') as [|x q] eqn:Eq; [reflexivity|exfalso].
    assert (Hx : x ∈ x :: q) by left.
    destruct (Hel x Hx) as (Hxne & sx & Hlx & _ & _).
    destruct (Hf x sx Hxne Hlx) as (Hr & _).
    specialize (Hgap x Hx). unfold seqno_at in Hgap. rewrite Hlx in Hgap. lia.
  - rewrite (calls_are_first_flushes _ _ Hcore), Hall, Hq1.
    apply take_ge. lia.
Qed.

(** *** Clients that pair their calls never panic *)

Lemma cnt_nonneg a held : 0 <= cnt a held.
Proof. induction held as [|x l IH]; cbn; [lia|]. destruct (Nat.eqb x a); lia. Qed.

Lemma cnt_le_length a held : cnt a held <= Z.of_nat (length held).
Proof.
  induction held as [|x l IH]; cbn [cnt length]; [lia|].
  destruct (Nat.eqb x a); lia.
Qed.

Lemma cnt_pos a held : a ∈ held <-> 0 < cnt a held.
Proof.
  induction held as [|x l IH]; cbn.
  - split; [intros Hin; inversion Hin | lia].
  - rewrite elem_of_cons, IH. pose proof (cnt_nonneg a l).
    destruct (Nat.eqb_spec x a) as [->|Hne]; split; intros; try lia; auto.
Qed.

Lemma cnt_release_same a held :
  a ∈ held -> cnt a (release_one a held) = cnt a held - 1.
Proof.
  induction held as [|x l IH]; intros Hin; [inversion Hin|]. cbn.
  destruct (Nat.eqb_spec x a) as [->|Hne]; [lia|]. cbn.
  destruct (Nat.eqb_spec x a); [contradiction|].
  apply elem_of_cons in Hin as [->|Hin]; [contradiction|]. rewrite IH by auto. lia.
Qed.

Lemma cnt_release_other a b held :
  b <> a -> cnt b (release_one a held) = cnt b held.
Proof.
  intros Hne. induction held as [|x l IH]; [reflexivity|]. cbn.
  destruct (Nat.eqb_spec x a) as [->|Hxa].
  - destruct (Nat.eqb_spec a b); [congruence|]. lia.
  - cbn. rewrite IH. reflexivity.
Qed.

Lemma release_one_length a held :
  (length (release_one a held) <= length held)%nat.
Proof.
  induction held as [|x l IH]; cbn; [lia|].
  destruct (Nat.eqb x a); cbn; lia.
Qed.

Lemma release_one_Forall (P : nat -> Prop) a held :
  Forall P held -> Forall P (release_one a held).
Proof.
  induction 1 as [|x l Hx Hl IH]; cbn; [constructor|].
  destruct (Nat.eqb x a); [exact Hl|constructor; auto].
Qed.

Lemma Held_init : Held [] (newAccessBarrier true).
Proof.
  split; [reflexivity|]. split; [constructor|].
  intros [|a] s Hs; cbn in Hs; [|discriminate]. injection Hs as <-.
  cbn. split; [reflexivity|]. split; intros Hne; congruence.
Qed.

(** The [Release] of a handle that is held. *)
Lemma Held_Release refs ab bs held :
  Inv refs ab -> Held held ab -> Z.of_nat (length refs) < 2 ^ 63 ->
  Z.of_nat (length held) < barrierFlushOffset -> bs ∈ held ->
  exists ab', Release bs ab = Ok ab' /\ Held (release_one bs held) ab'.
Proof.
  intros HI (Hlen & Hval & Hcnt) Hn Hbound Hin.
  pose proof HI as (Hcore & Hrun & Hgap).
  pose proof Hcore as [Ha Hc Hq Hf Hi Hnd Hel Hso Hcs Hcr].
  pose proof barrierFlushOffset_value as Hoff.
  assert (Hlt : (bs < length (store ab))%nat).
  { rewrite Forall_forall in Hval. apply Hval, Hin. }
  destruct (lookup_lt_is_Some_2 _ _ Hlt) as [s Hs].
  destruct (Hcnt bs s Hs) as (Hcur & Hopen & Hclosed).
  pose proof (proj1 (cnt_pos bs held) Hin) as Hpos.
  pose proof (cnt_le_length bs held) as Hle.
  assert (Hfin : forall ab' s',
            session ab' = session ab -> store ab' = <[bs := s']> (store ab) ->
            liveCount s' = liveCount s - 1 ->
            (bs <> session ab ->
               (closed s' = 0 /\ barrierFlushOffset < liveCount s') \/
               (closed s' = 1 /\ liveCount s' = barrierFlushOffset)) ->
            Held (release_one bs held) ab').
  { intros ab' s' Hse Hst Hlc Hfl. split; [|split].
    - rewrite Hst, Hse, length_insert. exact Hlen.
    - rewrite Hst, length_insert. apply release_one_Forall. exact Hval.
    - intros a sa Hsa. rewrite Hst in Hsa. rewrite Hse.
      destruct (decide (a = bs)) as [->|Hab].
      + rewrite list_lookup_insert_eq in Hsa by exact Hlt. injection Hsa as <-.
        rewrite cnt_release_same by exact Hin.
        split; [intros E; rewrite Hlc, (Hcur E); reflexivity|].
        split.
        * intros Hne Hc0. destruct (Hfl Hne) as [[_ Hgt]|[Hc1 _]]; [|lia].
          destruct (Hf bs s Hne Hs) as (_ & _ & [(Hs0 & _)|(Hs1 & Hl1)]).
          -- rewrite Hlc, (Hopen Hne Hs0). lia.
          -- specialize (Hclosed Hne Hs1). lia.
        * intros Hne Hc1. destruct (Hfl Hne) as [[Hc0 _]|[_ Heq]]; [lia|].
          destruct (Hf bs s Hne Hs) as (_ & _ & [(Hs0 & _)|(Hs1 & Hl1)]).
          -- pose proof (Hopen Hne Hs0). lia.
          -- specialize (Hclosed Hne Hs1). lia.
      + rewrite list_lookup_insert_ne in Hsa by auto.
        rewrite cnt_release_other by auto. apply Hcnt. exact Hsa. }
  destruct (decide (bs = session ab)) as [Ecur|Hne].
  - pose proof (Hcur Ecur) as Hlc.
    assert (Hw : wrap_i32 (liveCount s - 1) = liveCount s - 1)
      by (apply wrap_i32_small; lia).
    rewrite (Release_open_eq ab bs s Ha Hs) by lia. rewrite Hw.
    destruct (Z.ltb_spec (liveCount s - 1) 0); [lia|].
    destruct (Z.eqb_spec (liveCount s - 1) (barrierFlushOffset - 1)); [lia|].
    cbn [orb]. eexists. split; [reflexivity|].
    apply (Hfin _ (released s));
      [reflexivity | reflexivity | exact Hw | intros; contradiction].
  - destruct (Hf bs s Hne Hs) as (_ & _ & [(Hc0 & Hrange & _)|(Hc1 & _)]);
      [|specialize (Hclosed Hne Hc1); lia].
    pose proof (Hopen Hne Hc0) as Hlc.
    assert (Hw : wrap_i32 (liveCount s - 1) = liveCount s - 1)
      by (apply wrap_i32_small; unfold MaxInt32 in Hrange; lia).
    destruct (Z.eq_dec (cnt bs held) 1) as [E1|Hmore].
    + destruct (Release_close_explicit refs ab bs s HI Hn Hne Hs Hc0
                  ltac:(lia)) as (_ & _ & HR).
      eexists. split; [exact HR|].
      apply (Hfin _ (released_closed s));
        [reflexivity | reflexivity | exact Hw |].
      intros _. right. unfold released_closed, released. cbn.
      rewrite Hw, Hc0. split; [reflexivity|lia].
    + rewrite (Release_open_eq ab bs s Ha Hs) by lia. rewrite Hw.
      destruct (Z.ltb_spec (liveCount s - 1) 0); [lia|].
      destruct (Z.eqb_spec (liveCount s - 1) (barrierFlushOffset - 1)); [lia|].
      cbn [orb]. eexists. split; [reflexivity|].
      apply (Hfin _ (released s)); [reflexivity | reflexivity | exact Hw |].
      intros _. left. unfold released. cbn. rewrite Hw. split; [exact Hc0|lia].
Qed.

Lemma Held_Acquire refs fuel ab held :
  Inv refs ab -> Held held ab ->
  Z.of_nat (length held) < barrierFlushOffset ->
  exists ab',
    Acquire (S fuel) ab = Ok (Some (session ab), ab') /\
    Held (session ab :: held) ab' /\ session ab' = session ab.
Proof.
  intros (Hcore & Hrun & Hgap) (Hlen & Hval & Hcnt) Hbound.
  pose proof Hcore as [Ha Hc Hq Hf Hi Hnd Hel Hso Hcs Hcr].
  destruct Hc as (s & Hs & Hc0 & Hl0).
  destruct (Hcnt _ s Hs) as (Hcur & _).
  pose proof (cnt_le_length (session ab) held) as Hle.
  specialize (Hcur eq_refl).
  assert (Hlt : (session ab < length (store ab))%nat) by lia.
  unfold Acquire. rewrite Ha. cbn [Acquire_retry]. rewrite Hs.
  rewrite (wrap_i32_small (liveCount s + 1))
    by (rewrite barrierFlushOffset_value in *; lia).
  destruct (Z.gtb_spec (liveCount s + 1) barrierFlushOffset) as [?|_]; [lia|].
  eexists. split; [reflexivity|]. split; [|reflexivity].
  split; [|split]; cbn [store session with_store].
  - rewrite length_insert. exact Hlen.
  - rewrite length_insert. constructor; [exact Hlt|exact Hval].
  - intros a sa Hsa. destruct (decide (a = session ab)) as [->|Hne].
    + rewrite list_lookup_insert_eq in Hsa by exact Hlt. injection Hsa as <-.
      cbn. rewrite Nat.eqb_refl, Hcur. split; [intros; lia|].
      split; intros; contradiction.
    + rewrite list_lookup_insert_ne in Hsa by auto. cbn.
      destruct (Nat.eqb_spec (session ab) a) as [E|_]; [congruence|].
      cbn. apply Hcnt. exact Hsa.
Qed.

Lemma Held_FlushSession refs ref ab held :
  Inv refs ab -> Held held ab -> Z.of_nat (length refs) + 1 < 2 ^ 63 ->
  Z.of_nat (length held) + 1 < barrierFlushOffset ->
  exists ab', FlushSession ref ab = Ok ab' /\ Held held ab' /\
              session ab' = S (session ab).
Proof.
  intros HI HH Hn Hbound. pose proof HH as (Hlen & Hval & Hcnt).
  pose proof HI as ([Ha Hc Hq Hf Hi Hnd Hel Hso Hcs Hcr] & Hrun & Hgap).
  pose proof barrierFlushOffset_value as Hoff.
  destruct Hc as (s & Hs & Hc0 & Hl0).
  pose proof (Inv_flush_mid refs ref ab s HI Hn Hs) as HIm.
  rewrite (FlushSession_eq ref ab s Ha Hs).
  assert (Hlt : (session ab < length (store ab))%nat) by lia.
  assert (Hlc : wrap_i32 (liveCount s + (barrierFlushOffset + 1)) =
                liveCount s + (barrierFlushOffset + 1))
    by (apply wrap_i32_small; lia).
  destruct (Hcnt _ s Hs) as (Hcur & _). specialize (Hcur eq_refl).
  assert (HHm : Held (session ab :: held) (flush_mid ref ab s)).
  { split; [|split]; cbn [store session flush_mid].
    - rewrite length_insert, length_app. cbn. lia.
    - rewrite length_insert, length_app. cbn.
      constructor; [lia|]. eapply Forall_impl; [exact Hval|]. cbn. lia.
    - intros a sa Hsa. destruct (decide (a = session ab)) as [->|Hne].
      + rewrite list_lookup_insert_eq in Hsa
          by (rewrite length_app; cbn; lia).
        injection Hsa as <-. cbn. rewrite Nat.eqb_refl, Hlc, Hcur.
        split; [intros; lia|]. split; [intros; lia|intros; lia].
      + rewrite list_lookup_insert_ne in Hsa by auto. cbn.
        destruct (Nat.eqb_spec (session ab) a) as [E|_]; [congruence|]. cbn.
        destruct (decide (a < length (store ab))%nat) as [Hal|Hge].
        * rewrite lookup_app_l in Hsa by exact Hal.
          destruct (Hcnt a sa Hsa) as (_ & H2 & H3).
          split; [intros; lia|]. split; auto.
        * assert (a = length (store ab)) as ->.
          { apply lookup_lt_Some in Hsa. rewrite length_app in Hsa.
            cbn in Hsa. lia. }
          rewrite lookup_app_r, Nat.sub_diag in Hsa by lia.
          injection Hsa as <-. cbn.
          assert (Hz : cnt (length (store ab)) held = 0).
          { destruct (Z.eq_dec (cnt (length (store ab)) held) 0) as [E|Hnz];
              [exact E|exfalso].
            pose proof (cnt_nonneg (length (store ab)) held).
            assert (Hin : length (store ab) ∈ held) by (apply cnt_pos; lia).
            rewrite Forall_forall in Hval. specialize (Hval _ Hin). lia. }
          rewrite Hz. split; [reflexivity|]. split; intros; congruence. }
  destruct (Held_Release (refs ++ [ref]) (flush_mid ref ab s) (session ab)
              (session ab :: held) HIm HHm) as (ab' & E & HH').
  { rewrite length_app. cbn. lia. }
  { cbn [length]. lia. }
  { left. }
  exists ab'. split; [exact E|].
  cbn [release_one] in HH'. rewrite Nat.eqb_refl in HH'.
  split; [exact HH'|].
  assert (Hsm : store (flush_mid ref ab s) !! session ab =
                Some (set_liveCount
                        (wrap_i32 (liveCount s + (barrierFlushOffset + 1)))
                        (set_flushed ref (wrap_u64 (activeSeqno ab + 1)) s))).
  { cbn. apply list_lookup_insert_eq. rewrite length_app. cbn. lia. }
  destruct (Release_frame (session ab) (flush_mid ref ab s) ab' _ Ha Hsm E)
    as (E1 & _).
  rewrite E1. cbn. lia.
Qed.

Lemma paired_run fuel : forall ops refs held ab,
  Inv refs ab -> Held held ab -> well_paired (session ab) held ops ->
  Z.of_nat (length refs) + Z.of_nat (length ops) < 2 ^ 63 ->
  Z.of_nat (length held) + Z.of_nat (length ops) < barrierFlushOffset ->
  exists ab', run (S fuel) ops ab = Ok ab'.
Proof.
  induction ops as [|op ops IH]; intros refs held ab HI HH Hwp Hn Hb.
  - exists ab. reflexivity.
  - cbn [length] in Hn, Hb.
    destruct op as [|bs|ref]; cbn [well_paired] in Hwp; cbn [run step].
    + destruct (Held_Acquire refs fuel ab held HI HH ltac:(lia))
        as (ab1 & E & HH1 & Hse).
      rewrite E. apply (IH refs (session ab :: held) ab1).
      * eapply Inv_Acquire; eauto.
      * exact HH1.
      * rewrite Hse. exact Hwp.
      * lia.
      * cbn [length]. lia.
    + destruct Hwp as [Hin Hwp].
      destruct (Held_Release refs ab bs held HI HH ltac:(lia) ltac:(lia) Hin)
        as (ab1 & E & HH1).
      rewrite E. apply (IH refs (release_one bs held) ab1).
      * eapply Inv_Release; eauto. lia.
      * exact HH1.
      * assert (Hse : session ab1 = session ab).
        { destruct HH as (Hlen & Hval & _). rewrite Forall_forall in Hval.
          destruct (lookup_lt_is_Some_2 _ _ (Hval bs Hin)) as [s Hs].
          destruct HI as ([Ha _ _ _ _ _ _ _ _ _] & _).
          destruct (Release_frame _ _ _ _ Ha Hs E) as (E1 & _). exact E1. }
        rewrite Hse. exact Hwp.
      * lia.
      * pose proof (release_one_length bs held). lia.
    + destruct (Held_FlushSession refs ref ab held HI HH ltac:(lia) ltac:(lia))
        as (ab1 & E & HH1 & Hse).
      rewrite E. apply (IH (refs ++ [ref]) held ab1).
      * eapply Inv_FlushSession; eauto. lia.
      * exact HH1.
      * rewrite Hse. exact Hwp.
      * rewrite length_app. cbn. lia.
      * lia.
Qed.

(** A client that releases only handles it got from [Acquire] and still
    holds never makes the barrier panic, and [Acquire] never has to retry:
    every such sequence of fewer than [barrierFlushOffset] calls on a new
    barrier runs to its end. *)
Theorem paired_calls_never_panic fuel ops :
  well_paired 0 [] ops ->
  Z.of_nat (length ops) < barrierFlushOffset ->
  exists ab', run (S fuel) ops (newAccessBarrier true) = Ok ab'.
Proof.
  intros Hwp Hb.
  apply (paired_run fuel ops [] [] (newAccessBarrier true) Inv_init Held_init);
    [exact Hwp | | cbn; lia].
  rewrite barrierFlushOffset_value in Hb. cbn. lia.
Qed.

(** On a barrier that is not active nothing ever happens: [Acquire]
    returns no session, and no sequence of calls changes the barrier,
    calls a destructor or panics. *)
Theorem inactive_barrier_is_inert fuel ops (ab : AccessBarrier) :
  active ab = false ->
  run fuel ops ab = Ok ab /\ Acquire fuel ab = Ok (None, ab) /\
  GetStats ab = (numAllocated ab, numFreed ab, 0, freeSeqno ab).
Proof.
  intros Ha. split; [|split].
  - induction ops as [|op ops IH]; [reflexivity|]. cbn [run].
    assert (E : step fuel op ab = Ok ab).
    { destruct op; cbn; unfold Acquire, Release, FlushSession;
        rewrite Ha; reflexivity. }
    rewrite E. exact IH.
  - unfold Acquire. rewrite Ha. reflexivity.
  - unfold GetStats. rewrite Ha. reflexivity.
Qed.

(** *** The scenario of a reader and three flushes *)

Import BarrierRuns.

Lemma no_destructor_for_held_session_witness :
  (exists s, store (after reader_three_flushes)
               !! session (after reader_three_flushes) = Some s /\
             closed s = 0 /\ 0 <= liveCount s <= barrierFlushOffset) /\
  (forall a s, a <> session (after reader_three_flushes) ->
     store (after reader_three_flushes) !! a = Some s ->
     (barrierFlushOffset < liveCount s ->
        closed s = 0 /\ freeSeqno (after reader_three_flushes) < seqno s /\
        a ∉ freeq (after reader_three_flushes)) /\
     (seqno s <= freeSeqno (after reader_three_flushes) ->
        closed s = 1 /\ liveCount s = barrierFlushOffset)) /\
  (forall c, c ∈ calls (after reader_three_flushes) ->
     1 <= call_seqno c <= freeSeqno (after reader_three_flushes)).
Proof.
  apply (no_destructor_for_held_session 1 reader_three_flushes).
  - cbn. lia.
  - vm_compute. reflexivity.
Defined.

Lemma GetStats_accounts_witness :
  GetStats (after reader_three_flushes_release) =
    (1 + Z.of_nat (length (flushed_refs reader_three_flushes_release)),
     freeSeqno (after reader_three_flushes_release),
     Z.of_nat (length (freeq (after reader_three_flushes_release))),
     freeSeqno (after reader_three_flushes_release)) /\
  0 <= freeSeqno (after reader_three_flushes_release) /\
  freeSeqno (after reader_three_flushes_release)
    + Z.of_nat (length (freeq (after reader_three_flushes_release)))
    <= Z.of_nat (length (flushed_refs reader_three_flushes_release)).
Proof.
  apply (GetStats_accounts 1 reader_three_flushes_release).
  - cbn. lia.
  - vm_compute. reflexivity.
Defined.

Lemma Release_of_flushed_session_witness :
  (barrierFlushOffset + 1 < liveCount (mkBS 1073741824 11 1 0) ->
     Release 0 (after reader_then_flush) =
       Ok (with_store
             (<[0%nat := set_liveCount (liveCount (mkBS 1073741824 11 1 0) - 1)
                           (mkBS 1073741824 11 1 0)]>
                (store (after reader_then_flush)))
             (after reader_then_flush))) /\
  (liveCount (mkBS 1073741824 11 1 0) = barrierFlushOffset + 1 ->
   seqno (mkBS 1073741824 11 1 0) = freeSeqno (after reader_then_flush) + 1 ->
     exists ab' more,
       Release 0 (after reader_then_flush) = Ok ab' /\
       calls ab' =
         calls (after reader_then_flush) ++
         mkCall 0 (seqno (mkBS 1073741824 11 1 0))
           (objectRef (mkBS 1073741824 11 1 0)) :: more /\
       (0%nat ∉ freeq ab') /\
       seqno (mkBS 1073741824 11 1 0) <= freeSeqno ab') /\
  (liveCount (mkBS 1073741824 11 1 0) = barrierFlushOffset + 1 ->
   freeSeqno (after reader_then_flush) + 1 < seqno (mkBS 1073741824 11 1 0) ->
     exists ab',
       Release 0 (after reader_then_flush) = Ok ab' /\
       calls ab' = calls (after reader_then_flush) /\
       0%nat ∈ freeq ab' /\
       freeSeqno ab' = freeSeqno (after reader_then_flush)).
Proof.
  apply (Release_of_flushed_session 1 reader_then_flush
           (after reader_then_flush) 0%nat (mkBS 1073741824 11 1 0)).
  - cbn. lia.
  - vm_compute. reflexivity.
  - vm_compute. discriminate.
  - vm_compute. reflexivity.
  - reflexivity.
Defined.

Lemma FlushSession_now_or_later_witness :
  exists s,
    store (after []) !! session (after []) = Some s /\
    (liveCount s = 0 -> freeSeqno (after []) = activeSeqno (after []) ->
       exists ab',
         FlushSession 11 (after []) = Ok ab' /\
         calls ab' =
           calls (after []) ++
           [mkCall (session (after [])) (activeSeqno (after []) + 1) 11] /\
         freeSeqno ab' = activeSeqno (after []) + 1 /\
         activeSeqno ab' = activeSeqno (after []) + 1 /\
         freeq ab' = [] /\ session ab' = length (store (after []))) /\
    (liveCount s = 0 -> freeSeqno (after []) < activeSeqno (after []) ->
       exists ab',
         FlushSession 11 (after []) = Ok ab' /\ calls ab' = calls (after []) /\
         session (after []) ∈ freeq ab' /\
         session ab' = length (store (after []))) /\
    (0 < liveCount s ->
       exists ab' s',
         FlushSession 11 (after []) = Ok ab' /\ calls ab' = calls (after []) /\
         freeq ab' = freeq (after []) /\
         session ab' = length (store (after [])) /\
         store ab' !! session (after []) = Some s' /\
         liveCount s' = liveCount s + barrierFlushOffset /\
         closed s' = 0 /\ seqno s' = activeSeqno (after []) + 1 /\
         objectRef s' = 11).
Proof.
  apply (FlushSession_now_or_later 1 [] 11 (after [])).
  - cbn. lia.
  - reflexivity.
Defined.

Lemma destructor_waits_only_for_accessors_witness :
  (freeSeqno (after reader_three_flushes)
     < activeSeqno (after reader_three_flushes) ->
     exists a s, a <> session (after reader_three_flushes) /\
       store (after reader_three_flushes) !! a = Some s /\
       seqno s = freeSeqno (after reader_three_flushes) + 1 /\ closed s = 0 /\
       barrierFlushOffset < liveCount s) /\
  ((forall a s, a <> session (after reader_three_flushes) ->
      store (after reader_three_flushes) !! a = Some s ->
      liveCount s <= barrierFlushOffset) ->
     freeSeqno (after reader_three_flushes)
       = activeSeqno (after reader_three_flushes) /\
     freeq (after reader_three_flushes) = [] /\
     map call_ref (calls (after reader_three_flushes))
       = flushed_refs reader_three_flushes).
Proof.
  apply (destructor_waits_only_for_accessors 1 reader_three_flushes).
  - cbn. lia.
  - vm_compute. reflexivity.
Defined.

Lemma paired_calls_never_panic_witness :
  exists ab',
    run (S 0) reader_three_flushes_release (newAccessBarrier true) = Ok ab'.
Proof.
  apply (paired_calls_never_panic 0 reader_three_flushes_release).
  - cbn. split; [left | exact I].
  - rewrite barrierFlushOffset_value. cbn. lia.
Defined.

Lemma inactive_barrier_is_inert_witness :
  run 1 reader_three_flushes_release (newAccessBarrier false)
    = Ok (newAccessBarrier false) /\
  Acquire 1 (newAccessBarrier false) = Ok (None, newAccessBarrier false) /\
  GetStats (newAccessBarrier false) =
    (numAllocated (newAccessBarrier false), numFreed (newAccessBarrier false),
     0, freeSeqno (newAccessBarrier false)).
Proof.
  apply (inactive_barrier_is_inert 1 reader_three_flushes_release
           (newAccessBarrier false)).
  reflexivity.
Defined.

End BarrierSpec.

(** ** The skiplist *)

Module SkiplistSpec.
Import Go Skiplist SkiplistInv GoFacts.
Local Open Scope Z_scope.

Section Sequential.
Context {K : Type} `{Item K}.

Lemma bind_Ok {A B} (m : M K A) (f : A -> M K B) st a st' :
  m st = Ok (a, st') -> bind m f st = f a st'.
Proof. intros E. unfold bind. rewrite E. reflexivity. Qed.

Lemma yield_seq (st : State K) : sched st = [] -> yield st = Ok (tt, st).
Proof. intros E. unfold yield. rewrite E. reflexivity. Qed.

Lemma loadNext_seq (st : State K) a i nd r :
  sched st = [] -> heap st !! a = Some nd -> next nd !! i = Some r ->
  loadNext (Some a) i st = Ok (r, st).
Proof.
  intros Hs Ha Hi. unfold loadNext.
  rewrite (bind_Ok _ _ _ _ _ (yield_seq st Hs)).
  unfold bind, deref. rewrite Ha, Hi. reflexivity.
Qed.

Lemma getNext_edge (st : State K) a i del b :
  sched st = [] -> has_edge st a i del b ->
  getNext (Some a) i st = Ok ((Some b, del), st).
Proof.
  intros Hs (nd & Ha & Hi). unfold getNext.
  rewrite (bind_Ok _ _ _ _ _ (loadNext_seq st a i nd _ Hs Ha Hi)). reflexivity.
Qed.

Lemma getNext_nil (st : State K) a i :
  sched st = [] -> nil_edge st a i ->
  getNext (Some a) i st = Ok ((None, false), st).
Proof.
  intros Hs (nd & Ha & Hi). unfold getNext.
  rewrite (bind_Ok _ _ _ _ _ (loadNext_seq st a i nd _ Hs Ha Hi)). reflexivity.
Qed.

Lemma NodeRef_eqb_refl r : NodeRef_eqb r r = true.
Proof.
  destruct r as [d [x|]]; unfold NodeRef_eqb; cbn;
    rewrite ?Nat.eqb_refl; destruct d; reflexivity.
Qed.

Lemma dcasNext_ok (st : State K) a i del b newPtr newDel :
  sched st = [] -> has_edge st a i del b ->
  dcasNext (Some a) i (Some b) newPtr del newDel st =
    Ok (true, upd_edge a i (mkRef newDel newPtr) st).
Proof.
  intros Hs (nd & Ha & Hi). unfold dcasNext.
  rewrite (bind_Ok _ _ _ _ _ (loadNext_seq st a i nd _ Hs Ha Hi)).
  cbn [ptr deleted nodeptr_eqb]. rewrite Nat.eqb_refl, eqb_reflx. cbn [andb].
  unfold casNext. rewrite (bind_Ok _ _ _ _ _ (yield_seq st Hs)).
  unfold bind, deref. rewrite Ha, Hi, NodeRef_eqb_refl.
  unfold upd_edge. rewrite Ha. reflexivity.
Qed.

Lemma setNext_ok (st : State K) a i nd pt del :
  heap st !! a = Some nd -> (i < length (next nd))%nat ->
  setNext (Some a) i pt del st = Ok (tt, upd_edge a i (mkRef del pt) st).
Proof.
  intros Ha Hi. unfold setNext, upd_edge. rewrite Ha.
  destruct (decide (i < length (next nd))%nat); [reflexivity|lia].
Qed.

(** *** Stores to successor references *)

Lemma upd_edge_fields a i r (st : State K) :
  sched (upd_edge a i r st) = sched st /\
  head (upd_edge a i r st) = head st /\
  tail (upd_edge a i r st) = tail st /\
  slevel (upd_edge a i r st) = slevel st /\
  length (heap (upd_edge a i r st)) = length (heap st).
Proof.
  unfold upd_edge. destruct (heap st !! a); cbn; auto 10.
  rewrite length_insert. auto 10.
Qed.

Lemma upd_edge_lookup_ne a i r (st : State K) a' :
  a' <> a -> heap (upd_edge a i r st) !! a' = heap st !! a'.
Proof.
  intros Hne. unfold upd_edge. destruct (heap st !! a); [|reflexivity].
  cbn. apply list_lookup_insert_ne. auto.
Qed.

Lemma upd_edge_lookup_eq a i r (st : State K) nd :
  heap st !! a = Some nd ->
  heap (upd_edge a i r st) !! a = Some (set_next i (Some r) nd).
Proof.
  intros Ha. unfold upd_edge. rewrite Ha. cbn.
  apply list_lookup_insert_eq. eapply lookup_lt_Some; eauto.
Qed.

Lemma has_edge_upd_same a i del b (st : State K) nd :
  heap st !! a = Some nd -> (i < length (next nd))%nat ->
  has_edge (upd_edge a i (mkRef del (Some b)) st) a i del b.
Proof.
  intros Ha Hi. eexists. split; [apply upd_edge_lookup_eq; exact Ha|].
  cbn. apply list_lookup_insert_eq. exact Hi.
Qed.

Lemma has_edge_upd_other a i r (st : State K) a' i' del b :
  a' <> a \/ i' <> i -> has_edge st a' i' del b ->
  has_edge (upd_edge a i r st) a' i' del b.
Proof.
  intros Hne (nd & Ha & Hi). destruct (decide (a' = a)) as [->|Hna].
  - exists (set_next i (Some r) nd). split; [apply upd_edge_lookup_eq; exact Ha|].
    cbn. rewrite list_lookup_insert_ne by (destruct Hne; congruence). exact Hi.
  - exists nd. rewrite upd_edge_lookup_ne by exact Hna. auto.
Qed.

Lemma nil_edge_upd_other a i r (st : State K) a' i' :
  a' <> a \/ i' <> i -> nil_edge st a' i' -> nil_edge (upd_edge a i r st) a' i'.
Proof.
  intros Hne (nd & Ha & Hi). destruct (decide (a' = a)) as [->|Hna].
  - exists (set_next i (Some r) nd). split; [apply upd_edge_lookup_eq; exact Ha|].
    cbn. rewrite list_lookup_insert_ne by (destruct Hne; congruence). exact Hi.
  - exists nd. rewrite upd_edge_lookup_ne by exact Hna. auto.
Qed.

Lemma node_ok_upd a i r (st : State K) e :
  node_ok st e -> node_ok (upd_edge a i r st) e.
Proof.
  intros (nd & Ha & Hit & Hl & Hlen). destruct (decide (e_addr e = a)) as [E|Hne].
  - exists (set_next i (Some r) nd). rewrite <- E.
    split; [apply upd_edge_lookup_eq; exact Ha|]. cbn.
    rewrite length_insert. auto.
  - exists nd. rewrite upd_edge_lookup_ne by exact Hne. auto.
Qed.

Lemma node_cmp_upd a i r (st : State K) a' k c :
  node_cmp st a' k c -> node_cmp (upd_edge a i r st) a' k c.
Proof.
  intros (nd & Ha & Hc). destruct (decide (a' = a)) as [->|Hne].
  - exists (set_next i (Some r) nd). split; [apply upd_edge_lookup_eq; exact Ha|].
    exact Hc.
  - exists nd. rewrite upd_edge_lookup_ne by exact Hne. auto.
Qed.

(** *** Paths *)

Lemma path_cons (st : State K) i a b xs :
  path st i (a :: b :: xs) <-> has_edge st a i false b /\ path st i (b :: xs).
Proof. reflexivity. Qed.

Lemma path_app_inv (st : State K) i xs y ys :
  path st i (xs ++ y :: ys) -> path st i (xs ++ [y]) /\ path st i (y :: ys).
Proof.
  induction xs as [|a xs IH]; cbn [app].
  - intros Hp. split; [exact I | exact Hp].
  - destruct xs as [|b xs]; cbn [app] in *.
    + intros [He Hp]. split; [split; [exact He|exact I] | exact Hp].
    + intros [He Hp]. destruct (IH Hp) as [H1 H2].
      split; [split; assumption | exact H2].
Qed.

Lemma path_app (st : State K) i xs y ys :
  path st i (xs ++ [y]) -> path st i (y :: ys) -> path st i (xs ++ y :: ys).
Proof.
  induction xs as [|a xs IH]; cbn [app].
  - intros _ Hp. exact Hp.
  - destruct xs as [|b xs]; cbn [app] in *.
    + intros [He _] Hp. split; assumption.
    + intros [He Hp1] Hp2. split; [exact He | apply IH; assumption].
Qed.

Lemma path_last_edge (st : State K) i xs a b :
  path st i (xs ++ [a; b]) -> has_edge st a i false b.
Proof.
  intros Hp. apply (path_app_inv st i xs a [b]) in Hp as [_ [He _]]. exact He.
Qed.

(** A store at level [i] to a node that is not a source of the path
    leaves the path as it is. *)
Lemma path_upd (st : State K) a i r i' xs z :
  i' <> i \/ a ∉ xs ->
  path st i' (xs ++ [z]) -> path (upd_edge a i r st) i' (xs ++ [z]).
Proof.
  intros Hne. induction xs as [|b xs IH]; cbn [app]; [auto|].
  assert (Hne' : i' <> i \/ a ∉ xs).
  { destruct Hne as [?|Hn]; [auto|right]. intros Hin. apply Hn. right. exact Hin. }
  assert (Hb : b <> a \/ i' <> i).
  { destruct Hne as [?|Hn]; [auto|left]. intros ->. apply Hn. left. }
  destruct xs as [|c xs]; cbn [app] in *.
  - intros [He _]. split; [|exact I]. apply has_edge_upd_other; assumption.
  - intros [He Hp]. split; [apply has_edge_upd_other; assumption|].
    apply IH; assumption.
Qed.

(** *** The search along one level *)

Lemma deref_ok (st : State K) a nd :
  heap st !! a = Some nd -> deref (Some a) st = Ok (nd, st).
Proof. intros E. unfold deref. rewrite E. reflexivity. Qed.

Lemma helpLoop_false n i prev curr nxt (st : State K) :
  helpLoop n i prev curr nxt false st = Ok (Some curr, st).
Proof. destruct n; reflexivity. Qed.

Ltac mstep E := rewrite (bind_Ok _ _ _ _ _ E); cbv beta iota.

Lemma getNext_unmarked (st : State K) i c :
  sched st = [] ->
  (exists b, has_edge st c i false b) \/ nil_edge st c i ->
  exists nx, getNext (Some c) i st = Ok ((nx, false), st).
Proof.
  intros Hs [[b Hb]|Hn].
  - exists (Some b). apply getNext_edge; assumption.
  - exists None. apply getNext_nil; assumption.
Qed.

Lemma levelSearch_step (st : State K) fuel n i k prev y nx cv cy :
  sched st = [] -> has_edge st y i false nx -> node_cmp st y k cy -> cy < 0 ->
  levelSearch fuel (S n) i k prev (Some y) cv st =
  levelSearch fuel n i k (Some y) (Some nx) cy st.
Proof.
  intros Hs He (nd & Hy & Hc) Hlt. cbn [levelSearch].
  mstep (getNext_edge st y i false nx Hs He).
  mstep (helpLoop_false fuel i prev (Some y) (Some nx) st).
  mstep (deref_ok st y nd Hy). rewrite Hc.
  destruct (Z.ltb_spec cy 0) as [_|?]; [|lia].
  mstep (getNext_edge st y i false nx Hs He). reflexivity.
Qed.

Lemma levelSearch_stop (st : State K) fuel n i k prev c cv cc :
  sched st = [] -> stops_at st i c k cc ->
  levelSearch fuel (S n) i k prev (Some c) cv st =
  Ok ((Some (prev, Some c), cc), st).
Proof.
  intros Hs ((nd & Hc & Hcc) & Hge & Hedge). cbn [levelSearch].
  destruct (getNext_unmarked st i c Hs Hedge) as [nx Hnx].
  mstep Hnx. mstep (helpLoop_false fuel i prev (Some c) nx st).
  mstep (deref_ok st c nd Hc). rewrite Hcc.
  destruct (Z.ltb_spec cc 0) as [?|_]; [lia|]. reflexivity.
Qed.

(** Helping: the marked node [d] is unlinked from its predecessor. *)
Lemma helpLoop_unlink (st : State K) n i p d c :
  sched st = [] -> has_edge st p i false d ->
  (exists b, has_edge st c i false b) \/ nil_edge st c i -> c <> p ->
  helpLoop (S n) i (Some p) (Some d) (Some c) true st =
  Ok (Some (Some c), upd_edge p i (mkRef false (Some c)) st).
Proof.
  intros Hs Hpd Hedge Hne. cbn [helpLoop]. unfold helpDelete.
  mstep (dcasNext_ok st p i false d (Some c) false Hs Hpd). cbn [negb].
  set (st' := upd_edge p i (mkRef false (Some c)) st).
  destruct (upd_edge_fields p i (mkRef false (Some c)) st) as (Hs' & _).
  fold st' in Hs'. rewrite Hs in Hs'.
  assert (Hpc : has_edge st' p i false c).
  { destruct Hpd as (ndp & Hp & Hi). subst st'.
    eapply has_edge_upd_same; [exact Hp|]. eapply lookup_lt_Some; eauto. }
  mstep (getNext_edge st' p i false c Hs' Hpc).
  assert (Hedge' : (exists b, has_edge st' c i false b) \/ nil_edge st' c i).
  { destruct Hedge as [[b Hb]|Hn]; [left; exists b|right]; subst st'.
    - apply has_edge_upd_other; auto.
    - apply nil_edge_upd_other; auto. }
  destruct (getNext_unmarked st' i c Hs' Hedge') as [nx Hnx].
  mstep Hnx. apply helpLoop_false.
Qed.

(** The search meets a marked node [d] and unlinks it. *)
Lemma levelSearch_help (st : State K) fuel n i k p d c cv cc :
  sched st = [] -> has_edge st p i false d -> has_edge st d i true c ->
  stops_at st i c k cc -> c <> p -> (0 < fuel)%nat ->
  levelSearch fuel (S n) i k (Some p) (Some d) cv st =
  Ok ((Some (Some p, Some c), cc), upd_edge p i (mkRef false (Some c)) st).
Proof.
  intros Hs Hpd Hdc ((nd & Hc & Hcc) & Hge & Hedge) Hne Hfuel.
  cbn [levelSearch].
  mstep (getNext_edge st d i true c Hs Hdc).
  destruct fuel as [|fuel]; [lia|].
  mstep (helpLoop_unlink st fuel i p d c Hs Hpd Hedge Hne).
  set (st' := upd_edge p i (mkRef false (Some c)) st).
  assert (Hc' : heap st' !! c = Some nd).
  { subst st'. rewrite upd_edge_lookup_ne by exact Hne. exact Hc. }
  mstep (deref_ok st' c nd Hc'). rewrite Hcc.
  destruct (Z.ltb_spec cc 0) as [?|_]; [lia|]. reflexivity.
Qed.

Lemma default_last_cons (prev y : nat) ys :
  default prev (last (y :: ys)) = default y (last ys).
Proof. rewrite last_cons. destruct (last ys); reflexivity. Qed.

(** Walking over the nodes [ys], all smaller than [k], up to [c]. *)
Lemma levelSearch_walk (st : State K) fuel i k c cc : forall ys n prev cv,
  sched st = [] -> path st i (prev :: ys ++ [c]) ->
  Forall (fun y => exists cy, node_cmp st y k cy /\ cy < 0) ys ->
  stops_at st i c k cc -> (length ys < n)%nat ->
  levelSearch fuel n i k (Some prev) (Some (hd c ys)) cv st =
  Ok ((Some (Some (default prev (last ys)), Some c), cc), st).
Proof.
  induction ys as [|y ys IH]; intros n prev cv Hs Hp Hys Hc Hn.
  - destruct n as [|n]; [cbn in Hn; lia|]. cbn [hd last default].
    apply levelSearch_stop; assumption.
  - destruct n as [|n]; [cbn in Hn; lia|]. cbn [hd].
    inversion Hys as [|? ? (cy & Hcy & Hlt) Hys']; subst.
    cbn [app] in Hp. destruct Hp as [_ Hp].
    assert (Hnx : has_edge st y i false (hd c ys)).
    { destruct ys; cbn in Hp |- *; tauto. }
    rewrite (levelSearch_step st fuel n i k (Some prev) y (hd c ys) cv cy)
      by assumption.
    rewrite (IH n y cy) by (auto; cbn in Hn; lia).
    rewrite default_last_cons. reflexivity.
Qed.

(** The same walk when the node before [c] is the marked node [d]. *)
Lemma levelSearch_walk_help (st : State K) fuel i k d c cc : forall ys n prev cv,
  sched st = [] -> path st i (prev :: ys ++ [d]) ->
  Forall (fun y => exists cy, node_cmp st y k cy /\ cy < 0) ys ->
  has_edge st d i true c -> stops_at st i c k cc ->
  c <> default prev (last ys) -> (0 < fuel)%nat -> (length ys < n)%nat ->
  levelSearch fuel n i k (Some prev) (Some (hd d ys)) cv st =
  Ok ((Some (Some (default prev (last ys)), Some c), cc),
      upd_edge (default prev (last ys)) i (mkRef false (Some c)) st).
Proof.
  induction ys as [|y ys IH]; intros n prev cv Hs Hp Hys Hd Hc Hne Hf Hn.
  - destruct n as [|n]; [cbn in Hn; lia|]. cbn [hd last default] in *.
    cbn [app] in Hp. destruct Hp as [Hpd _].
    apply levelSearch_help; assumption.
  - destruct n as [|n]; [cbn in Hn; lia|]. cbn [hd].
    inversion Hys as [|? ? (cy & Hcy & Hlt) Hys']; subst.
    cbn [app] in Hp. destruct Hp as [_ Hp].
    assert (Hnx : has_edge st y i false (hd d ys)).
    { destruct ys; cbn in Hp |- *; tauto. }
    rewrite default_last_cons in *.
    rewrite (levelSearch_step st fuel n i k (Some prev) y (hd d ys) cv cy)
      by assumption.
    apply IH; auto. cbn in Hn. lia.
Qed.

(** *** The levels of the list *)

Lemma lev_app i (A B : list (Entry K)) : lev i (A ++ B) = lev i A ++ lev i B.
Proof. unfold lev, addrs. rewrite filter_app, map_app. reflexivity. Qed.

Lemma lev_cons i (e : Entry K) L :
  lev i (e :: L) = if decide (i <= e_level e)%nat then e_addr e :: lev i L
                   else lev i L.
Proof.
  unfold lev, addrs. rewrite filter_cons.
  destruct (decide (i <= e_level e)%nat); reflexivity.
Qed.

Lemma elem_of_lev i (L : list (Entry K)) a :
  a ∈ lev i L -> exists e, e ∈ L /\ e_addr e = a /\ (i <= e_level e)%nat.
Proof.
  unfold lev, addrs. intros Ha. apply list_elem_of_fmap in Ha as (e & -> & He).
  apply list_elem_of_filter in He as [Hl He]. eauto.
Qed.

Lemma lev_above i (L : list (Entry K)) :
  (forall e, e ∈ L -> (e_level e < i)%nat) -> lev i L = [].
Proof.
  intros Hall. destruct (lev i L) as [|a l] eqn:E; [reflexivity|].
  assert (Ha : a ∈ lev i L) by (rewrite E; left).
  apply elem_of_lev in Ha as (e & He & _ & Hl). specialize (Hall e He). lia.
Qed.

(** The nodes of level [i] split at the predecessor found one level up. *)
Lemma lev_split i (L : list (Entry K)) :
  exists A B, lev i L = A ++ B /\
    default 0%nat (last A) = pred_at (S i) L /\
    pred_at i L = default (pred_at (S i) L) (last B).
Proof.
  unfold pred_at at 2.
  induction L as [|e L IH] using rev_ind.
  - exists [], []. cbn. auto.
  - destruct IH as (A & B & HAB & HA & HB).
    unfold pred_at in *. rewrite !lev_app, !lev_cons.
    cbn [lev addrs filter map list_filter].
    destruct (decide (S i <= e_level e)%nat) as [Hhi|Hlo].
    + destruct (decide (i <= e_level e)%nat) as [_|?]; [|lia].
      exists (lev i L ++ [e_addr e]), [].
      rewrite ?app_nil_r, !last_snoc. cbn. auto.
    + destruct (decide (i <= e_level e)%nat) as [Hi|Hni].
      * exists A, (B ++ [e_addr e]).
        rewrite HAB, ?app_nil_r, <- ?app_assoc, HA.
        split; [reflexivity|]. split; [reflexivity|].
        rewrite !app_assoc, !last_snoc. reflexivity.
      * exists A, B. rewrite ?app_nil_r. auto.
Qed.

(** *** The state during a descent *)

Lemma Base_upd (st : State K) L a i r :
  Base st L -> a <> 1%nat -> Base (upd_edge a i r st) L.
Proof.
  intros [Hs Hh Ht Hl Htn Htl Hnd Hno Hso] Ha.
  destruct (upd_edge_fields a i r st) as (E1 & E2 & E3 & E4 & E5).
  constructor; rewrite ?E1, ?E2, ?E3, ?E4; auto.
  - destruct Htn as (nd & Hnd1 & Hit). exists nd.
    rewrite upd_edge_lookup_ne by auto. auto.
  - intros j Hj. apply nil_edge_upd_other; [left; auto | auto].
  - intros e He. destruct (Hno e He) as (H2 & Hok & Hlv).
    split; [exact H2|]. split; [apply node_ok_upd; exact Hok | exact Hlv].
Qed.

Lemma node_cmp_entry (st : State K) (e : Entry K) k :
  node_ok st e -> node_cmp st (e_addr e) k (Compare (e_key e) k).
Proof.
  intros (nd & Ha & Hit & _). exists nd. split; [exact Ha|]. rewrite Hit. reflexivity.
Qed.

Lemma cons_snoc_default (a : nat) A : exists xs, a :: A = xs ++ [default a (last A)].
Proof.
  induction A as [|x A _] using rev_ind.
  - exists []. reflexivity.
  - exists (a :: A). rewrite last_snoc. reflexivity.
Qed.

Lemma lev_sublist i (L : list (Entry K)) : lev i L `sublist_of` addrs L.
Proof. unfold lev, addrs. apply fmap_sublist, sublist_filter. Qed.

Lemma lev_length i (L : list (Entry K)) : (length (lev i L) <= length L)%nat.
Proof.
  rewrite <- (length_map e_addr L). apply sublist_length, lev_sublist.
Qed.

Lemma lev_in_addrs i (L : list (Entry K)) a : a ∈ lev i L -> a ∈ addrs L.
Proof.
  intros Ha. apply elem_of_lev in Ha as (e & He & <- & _).
  unfold addrs. apply list_elem_of_fmap. eauto.
Qed.

Lemma elem_of_addrs (L : list (Entry K)) a :
  a ∈ addrs L -> exists e, e ∈ L /\ e_addr e = a.
Proof.
  unfold addrs. intros Ha. apply list_elem_of_fmap in Ha as (e & -> & He). eauto.
Qed.

Lemma pred_at_cases i (L : list (Entry K)) :
  pred_at i L = 0%nat \/ pred_at i L ∈ lev i L.
Proof.
  unfold pred_at. destruct (last (lev i L)) as [a|] eqn:E; [right|left; reflexivity].
  cbn. apply last_Some_elem_of. exact E.
Qed.

Lemma succ_at_cases i (L : list (Entry K)) :
  (succ_at i L = 1%nat /\ lev i L = []) \/
  (exists rest, lev i L = succ_at i L :: rest).
Proof.
  unfold succ_at. destruct (lev i L) as [|c rest]; [left; auto|right]. cbn. eauto.
Qed.

(** The successor is where the search stops. *)
Lemma succ_stops (st : State K) L i k L2 :
  Base st L -> (forall e, e ∈ L2 -> e ∈ L) -> (i <= 32)%nat ->
  keys_not_below k L2 -> path st i (lev i L2 ++ [1%nat]) ->
  exists cc, stops_at st i (succ_at i L2) k cc.
Proof.
  intros HB Hsub Hi Hk Hp.
  destruct (succ_at_cases i L2) as [[-> HL]|[rest HL]].
  - exists 1. destruct (base_tail_node _ _ HB) as (nd & Hnd & Hit).
    split; [exists nd; rewrite Hit; auto|]. split; [lia|].
    right. apply (base_tail_nil _ _ HB). exact Hi.
  - assert (Hin : succ_at i L2 ∈ lev i L2) by (rewrite HL; left).
    apply elem_of_lev in Hin as (e & He & Hea & _).
    exists (Compare (e_key e) k). rewrite <- Hea. split; [|split].
    + apply node_cmp_entry. apply (base_nodes _ _ HB). auto.
    + unfold keys_not_below in Hk. rewrite Forall_forall in Hk. auto.
    + left. rewrite HL in Hp. rewrite Hea.
      destruct rest as [|b rest]; cbn in Hp; [exists 1%nat|exists b]; tauto.
Qed.

Lemma below_nodes (st : State K) L i k L1 B :
  Base st L -> (forall e, e ∈ L1 -> e ∈ L) -> keys_below k L1 ->
  (forall a, a ∈ B -> a ∈ lev i L1) ->
  Forall (fun y => exists cy, node_cmp st y k cy /\ cy < 0) B.
Proof.
  intros HB Hsub Hk HBin. apply Forall_forall. intros a Ha.
  apply HBin, elem_of_lev in Ha as (e & He & <- & _).
  exists (Compare (e_key e) k). split.
  - apply node_cmp_entry. apply (base_nodes _ _ HB). auto.
  - unfold keys_below in Hk. rewrite Forall_forall in Hk. auto.
Qed.

(** One level of the descent when no marked node is met. *)
Lemma level_step_plain (st : State K) L fuel i k L1 L2 cv :
  Base st L -> (forall e, e ∈ L1 ++ L2 -> e ∈ L) -> (i <= 32)%nat ->
  keys_below k L1 -> keys_not_below k L2 ->
  path st i (0%nat :: lev i (L1 ++ L2) ++ [1%nat]) ->
  (length L1 < fuel)%nat ->
  exists curr cc,
    getNext (Some (pred_at (S i) L1)) i st = Ok ((Some curr, false), st) /\
    levelSearch fuel fuel i k (Some (pred_at (S i) L1)) (Some curr) cv st =
      Ok ((Some (Some (pred_at i L1), Some (succ_at i L2)), cc), st) /\
    node_cmp st (succ_at i L2) k cc.
Proof.
  intros HB Hsub Hi Hlo Hhi Hp Hfuel.
  pose proof (base_sched _ _ HB) as Hs.
  destruct (lev_split i L1) as (A & B & HAB & HA & HBl).
  destruct (cons_snoc_default 0%nat A) as [xs Hxs]. rewrite HA in Hxs.
  set (prev := pred_at (S i) L1) in *.
  rewrite lev_app, HAB in Hp.
  replace (0%nat :: ((A ++ B) ++ lev i L2) ++ [1%nat])
    with (xs ++ prev :: (B ++ lev i L2 ++ [1%nat])) in Hp
    by (rewrite app_comm_cons, <- !app_assoc, app_comm_cons, Hxs, <- !app_assoc;
        reflexivity).
  apply path_app_inv in Hp as [_ Hp].
  assert (Hc2 : lev i L2 ++ [1%nat] = succ_at i L2 :: tl (lev i L2 ++ [1%nat])).
  { unfold succ_at. destruct (lev i L2); reflexivity. }
  assert (Hp2 : path st i (lev i L2 ++ [1%nat])).
  { rewrite app_comm_cons in Hp. rewrite Hc2 in Hp |- *.
    apply path_app_inv in Hp as [_ Hp]. exact Hp. }
  destruct (succ_stops st L i k L2 HB) as [cc Hstop]; auto.
  { intros e He. apply Hsub, elem_of_app. auto. }
  set (c := succ_at i L2) in *.
  assert (Hp1 : path st i (prev :: B ++ [c])).
  { rewrite Hc2 in Hp. rewrite app_comm_cons in Hp.
    apply path_app_inv in Hp as [Hp _]. exact Hp. }
  exists (hd c B), cc. split; [|split].
  - apply getNext_edge; [exact Hs|]. destruct B; cbn in Hp1 |- *; tauto.
  - rewrite HBl. fold prev.
    apply levelSearch_walk; auto.
    + apply (below_nodes st L i k L1 B HB); [|exact Hlo|].
      * intros e He. apply Hsub, elem_of_app. auto.
      * intros a Ha. rewrite HAB. apply elem_of_app. auto.
    + assert (length B <= length (lev i L1))%nat
        by (rewrite HAB, length_app; lia).
      pose proof (lev_length i L1). lia.
  - destruct Hstop as [Hc _]. exact Hc.
Qed.

Lemma Base_addr_ge (st : State K) L a : Base st L -> a ∈ addrs L -> (2 <= a)%nat.
Proof.
  intros HB Ha. apply elem_of_addrs in Ha as (e & He & <-).
  apply (base_nodes _ _ HB). exact He.
Qed.

Lemma NoDup_head_lev (st : State K) L i (L1 : list (Entry K)) :
  Base st L -> addrs L1 `sublist_of` addrs L -> NoDup (0%nat :: lev i L1).
Proof.
  intros HB Hsub. constructor.
  - intros Hin. apply lev_in_addrs in Hin.
    assert (H0 : 0%nat ∈ addrs L) by (eapply elem_of_sublist; eauto).
    pose proof (Base_addr_ge st L 0%nat HB H0). lia.
  - eapply sublist_NoDup; [apply (base_nodup _ _ HB)|].
    etransitivity; [apply lev_sublist | exact Hsub].
Qed.

Lemma pred_ne_succ (st : State K) (L1 m L2 : list (Entry K)) i j :
  Base st (L1 ++ m ++ L2) -> succ_at i L2 <> pred_at j L1.
Proof.
  intros HB.
  pose proof (base_nodup _ _ HB) as Hnd.
  unfold addrs in Hnd. rewrite !map_app in Hnd. fold (addrs L1) (addrs L2) in Hnd.
  assert (H1 : forall a, a ∈ addrs L1 -> (2 <= a)%nat).
  { intros a Ha. apply (Base_addr_ge st _ a HB). unfold addrs. rewrite map_app.
    apply elem_of_app. auto. }
  assert (H2 : forall a, a ∈ addrs L2 -> (2 <= a)%nat).
  { intros a Ha. apply (Base_addr_ge st _ a HB). unfold addrs. rewrite !map_app.
    apply elem_of_app. right. apply elem_of_app. auto. }
  destruct (pred_at_cases j L1) as [->|Hp];
    destruct (succ_at_cases i L2) as [[-> _]|[rest Hc]]; try lia.
  - assert (Hin : succ_at i L2 ∈ lev i L2) by (rewrite Hc; left).
    apply lev_in_addrs, H2 in Hin. lia.
  - apply lev_in_addrs, H1 in Hp. lia.
  - assert (Hin : succ_at i L2 ∈ lev i L2) by (rewrite Hc; left).
    apply lev_in_addrs in Hin, Hp. intros E. rewrite E in Hin.
    apply NoDup_app in Hnd as (_ & Hdis & _).
    apply (Hdis _ Hp). apply elem_of_app. auto.
Qed.

Lemma pred_ne_tail (st : State K) L j (L1 : list (Entry K)) :
  Base st L -> (forall a, a ∈ addrs L1 -> a ∈ addrs L) -> pred_at j L1 <> 1%nat.
Proof.
  intros HB Hsub. destruct (pred_at_cases j L1) as [->|Hp]; [lia|].
  apply lev_in_addrs, Hsub in Hp. pose proof (Base_addr_ge st L _ HB Hp). lia.
Qed.

(** One level of the descent when the marked node [d] is met. *)
Lemma level_step_help (st : State K) fuel i k L1 d L2 cv :
  Base st (L1 ++ [d] ++ L2) -> (i <= 32)%nat ->
  keys_below k L1 -> keys_not_below k L2 ->
  path st i (0%nat :: lev i L1 ++ [e_addr d]) ->
  has_edge st (e_addr d) i true (succ_at i L2) ->
  path st i (lev i L2 ++ [1%nat]) ->
  (length L1 < fuel)%nat ->
  exists curr cc,
    getNext (Some (pred_at (S i) L1)) i st = Ok ((Some curr, false), st) /\
    levelSearch fuel fuel i k (Some (pred_at (S i) L1)) (Some curr) cv st =
      Ok ((Some (Some (pred_at i L1), Some (succ_at i L2)), cc),
          upd_edge (pred_at i L1) i (mkRef false (Some (succ_at i L2))) st) /\
    node_cmp (upd_edge (pred_at i L1) i (mkRef false (Some (succ_at i L2))) st)
      (succ_at i L2) k cc /\
    path (upd_edge (pred_at i L1) i (mkRef false (Some (succ_at i L2))) st) i
      (0%nat :: lev i (L1 ++ L2) ++ [1%nat]).
Proof.
  intros HB Hi Hlo Hhi Hp Hd Hp2 Hfuel.
  pose proof (base_sched _ _ HB) as Hs.
  assert (HsubL : forall e, e ∈ L1 -> e ∈ L1 ++ [d] ++ L2)
    by (intros e He; apply elem_of_app; auto).
  assert (HsubR : forall e, e ∈ L2 -> e ∈ L1 ++ [d] ++ L2)
    by (intros e He; apply elem_of_app; right; apply elem_of_app; auto).
  destruct (lev_split i L1) as (A & B & HAB & HA & HBl).
  destruct (cons_snoc_default 0%nat A) as [xs Hxs]. rewrite HA in Hxs.
  set (prev := pred_at (S i) L1) in *.
  set (p := pred_at i L1) in *. set (c := succ_at i L2) in *.
  destruct (succ_stops st _ i k L2 HB HsubR Hi Hhi Hp2) as [cc Hstop].
  fold c in Hstop.
  assert (Hcp : c <> p) by (eapply pred_ne_succ; eauto).
  assert (Hp1 : path st i (prev :: B ++ [e_addr d])).
  { rewrite HAB in Hp.
    replace (0%nat :: (A ++ B) ++ [e_addr d])
      with (xs ++ prev :: (B ++ [e_addr d])) in Hp
      by (rewrite app_comm_cons, <- !app_assoc, app_comm_cons, Hxs, <- !app_assoc;
          reflexivity).
    apply path_app_inv in Hp as [_ Hp]. exact Hp. }
  destruct (cons_snoc_default 0%nat (lev i L1)) as [xs' Hxs'].
  fold (pred_at i L1) in Hxs'. fold p in Hxs'.
  assert (Hpd : path st i (xs' ++ [p; e_addr d])).
  { replace (xs' ++ [p; e_addr d]) with ((xs' ++ [p]) ++ [e_addr d])
      by (rewrite <- app_assoc; reflexivity).
    rewrite <- Hxs'. exact Hp. }
  pose proof (path_last_edge _ _ _ _ _ Hpd) as Hedge.
  set (st' := upd_edge p i (mkRef false (Some c)) st).
  exists (hd (e_addr d) B), cc. split; [|split; [|split]].
  - apply getNext_edge; [exact Hs|]. destruct B; cbn in Hp1 |- *; tauto.
  - subst st' p. rewrite HBl. fold prev.
    apply levelSearch_walk_help; auto.
    + apply (below_nodes st _ i k L1 B HB HsubL Hlo).
      intros a Ha. rewrite HAB. apply elem_of_app. auto.
    + rewrite <- HBl. exact Hcp.
    + lia.
    + assert (length B <= length (lev i L1))%nat
        by (rewrite HAB, length_app; lia).
      pose proof (lev_length i L1). lia.
  - apply node_cmp_upd. destruct Hstop as [Hc _]. exact Hc.
  - rewrite lev_app.
    replace (0%nat :: (lev i L1 ++ lev i L2) ++ [1%nat])
      with (xs' ++ p :: (lev i L2 ++ [1%nat]))
      by (rewrite app_comm_cons, <- !app_assoc, app_comm_cons, Hxs', <- !app_assoc;
          reflexivity).
    assert (Hnd : NoDup (xs' ++ [p])).
    { rewrite <- Hxs'. eapply NoDup_head_lev; [exact HB|].
      unfold addrs. rewrite map_app. apply sublist_inserts_r. reflexivity. }
    apply NoDup_app in Hnd as (_ & Hdis & _).
    apply path_app.
    + apply path_upd.
      * right. intros Hin. apply (Hdis _ Hin). left.
      * apply (path_app_inv st i xs' p [e_addr d]) in Hpd as [Hpd _]. exact Hpd.
    + assert (Hc2 : lev i L2 ++ [1%nat] = c :: tl (lev i L2 ++ [1%nat])).
      { subst c. unfold succ_at. destruct (lev i L2); reflexivity. }
      rewrite Hc2. apply path_cons. split.
      * destruct Hedge as (ndp & Hndp & Hip).
        eapply has_edge_upd_same; [exact Hndp|]. eapply lookup_lt_Some; eauto.
      * rewrite <- Hc2. apply path_upd; [|exact Hp2].
        right. intros Hin.
        destruct (pred_at_cases i L1) as [E|Hpin]; fold p in E || fold p in Hpin.
        -- rewrite E in Hin. apply lev_in_addrs in Hin.
           assert (H0 : (0%nat) ∈ addrs (L1 ++ [d] ++ L2)).
           { unfold addrs. rewrite !map_app. apply elem_of_app. right.
             apply elem_of_app. right. exact Hin. }
           pose proof (Base_addr_ge st _ _ HB H0). lia.
        -- pose proof (base_nodup _ _ HB) as Hnd.
           unfold addrs in Hnd. rewrite !map_app in Hnd.
           apply NoDup_app in Hnd as (_ & Hdis2 & _).
           apply (Hdis2 p); [apply lev_in_addrs in Hpin; exact Hpin|].
           apply elem_of_app. right. apply lev_in_addrs in Hin. exact Hin.
Qed.

(** *** The descent through the levels *)

Lemma level_ok_shift (st : State K) L1 od L2 i j :
  j <> i -> level_ok st L1 od L2 (S i) j -> level_ok st L1 od L2 i j.
Proof.
  intros Hne. unfold level_ok. destruct od as [d|]; [|auto].
  destruct (decide (j < S i /\ j <= e_level d)%nat) as [Ha|Ha];
    destruct (decide (j < i /\ j <= e_level d)%nat) as [Hb|Hb]; auto; lia.
Qed.

Lemma level_ok_upd (st : State K) L1 od L2 n a i r j :
  j <> i -> level_ok st L1 od L2 n j ->
  level_ok (upd_edge a i r st) L1 od L2 n j.
Proof.
  intros Hne. unfold level_ok.
  assert (Hplain : path st j (0%nat :: lev j (L1 ++ L2) ++ [1%nat]) ->
            path (upd_edge a i r st) j (0%nat :: lev j (L1 ++ L2) ++ [1%nat])).
  { rewrite app_comm_cons. apply path_upd. auto. }
  destruct od as [d|]; [|exact Hplain].
  destruct (decide (j < n /\ j <= e_level d)%nat); [|exact Hplain].
  intros (H1 & H2 & H3). split; [|split].
  - rewrite app_comm_cons in *. apply path_upd; auto.
  - apply has_edge_upd_other; auto.
  - apply path_upd; auto.
Qed.

Lemma same_frame_refl S (st : State K) : same_frame S st st.
Proof. unfold same_frame. auto. Qed.

Lemma same_frame_trans S (st1 st2 st3 : State K) :
  same_frame S st1 st2 -> same_frame S st2 st3 -> same_frame S st1 st3.
Proof.
  intros (A1 & A2 & A3) (B1 & B2 & B3). split; [congruence|].
  split; [congruence|]. auto.
Qed.

Lemma pred_at_in (i : nat) (L1 : list (Entry K)) :
  pred_at i L1 ∈ 0%nat :: addrs L1.
Proof.
  destruct (pred_at_cases i L1) as [->|Hin]; [left|right].
  eapply lev_in_addrs; eauto.
Qed.

Lemma levelLoop_spec fuel k L1 od L2 :
  keys_below k L1 -> keys_not_below k L2 -> (length L1 < fuel)%nat ->
  forall n (st : State K) pa,
    (n <= 33)%nat -> Desc st L1 od L2 n ->
    length (preds pa) = 33%nat -> length (succs pa) = 33%nat ->
    exists st' pa',
      levelLoop fuel n k (Some (pred_at n L1)) pa st = Ok ((true, pa'), st') /\
      Desc st' L1 od L2 0 /\
      (forall j, (j < n)%nat ->
         preds pa' !! j = Some (Some (pred_at j L1)) /\
         succs pa' !! j = Some (Some (succ_at j L2))) /\
      (forall j, (n <= j)%nat ->
         preds pa' !! j = preds pa !! j /\ succs pa' !! j = succs pa !! j) /\
      length (preds pa') = 33%nat /\ length (succs pa') = 33%nat /\
      ((0 < n)%nat -> node_cmp st' (succ_at 0 L2) k (cmpVal pa')) /\
      (n = 0%nat -> st' = st /\ pa' = pa) /\
      (od = None -> st' = st) /\
      same_frame (0%nat :: addrs L1) st st'.
Proof.
  intros Hlo Hhi Hfuel. induction n as [|i IH]; intros st pa Hn HD Hlp Hls.
  - exists st, pa. cbn [levelLoop]. split; [reflexivity|]. split; [exact HD|].
    split; [intros j Hj; lia|]. split; [auto|]. split; [exact Hlp|].
    split; [exact Hls|]. split; [lia|]. split; [auto|]. split; [auto|].
    apply same_frame_refl.
  - destruct HD as [HB Hlev]. cbn [levelLoop].
    assert (Hi : (i <= 32)%nat) by lia.
    assert (Hstep : exists curr cc st1,
              getNext (Some (pred_at (S i) L1)) i st = Ok ((Some curr, false), st) /\
              levelSearch fuel fuel i k (Some (pred_at (S i) L1)) (Some curr)
                (cmpVal pa) st =
                Ok ((Some (Some (pred_at i L1), Some (succ_at i L2)), cc), st1) /\
              node_cmp st1 (succ_at i L2) k cc /\
              Desc st1 L1 od L2 i /\ (od = None -> st1 = st) /\
              same_frame (0%nat :: addrs L1) st st1).
    { pose proof (Hlev i Hi) as Hok. unfold level_ok in Hok.
      assert (Hplain : path st i (0%nat :: lev i (L1 ++ L2) ++ [1%nat]) ->
                (forall d, od = Some d -> ~ (i <= e_level d)%nat) ->
                exists curr cc st1,
                  getNext (Some (pred_at (S i) L1)) i st =
                    Ok ((Some curr, false), st) /\
                  levelSearch fuel fuel i k (Some (pred_at (S i) L1)) (Some curr)
                    (cmpVal pa) st =
                    Ok ((Some (Some (pred_at i L1), Some (succ_at i L2)), cc), st1) /\
                  node_cmp st1 (succ_at i L2) k cc /\
                  Desc st1 L1 od L2 i /\ (od = None -> st1 = st) /\
                  same_frame (0%nat :: addrs L1) st st1).
      { intros Hp Hod.
        destruct (level_step_plain st _ fuel i k L1 L2 (cmpVal pa) HB)
          as (curr & cc & E1 & E2 & Hc); auto.
        { intros e He. apply elem_of_app in He as [He|He];
            apply elem_of_app; [auto|right; apply elem_of_app; auto]. }
        exists curr, cc, st. split; [exact E1|]. split; [exact E2|].
        split; [exact Hc|]. split; [|split; [auto|apply same_frame_refl]].
        split; [exact HB|].
        intros j Hj. destruct (decide (j = i)) as [->|Hne].
        - unfold level_ok. destruct od as [d|]; [|exact Hp].
          destruct (decide (i < i /\ i <= e_level d)%nat); [lia|exact Hp].
        - apply level_ok_shift; auto. }
      destruct od as [d|]; [|apply Hplain; [exact Hok | discriminate]].
      destruct (decide (i < S i /\ i <= e_level d)%nat) as [Hdec|Hdec];
        [|apply Hplain; [exact Hok | intros d' [= <-]; lia]].
      destruct Hok as (Hp1 & Hed & Hp2).
      destruct (level_step_help st fuel i k L1 d L2 (cmpVal pa) HB Hi Hlo Hhi
                  Hp1 Hed Hp2 Hfuel) as (curr & cc & E1 & E2 & Hc & Hp').
      eexists curr, cc, _. split; [exact E1|]. split; [exact E2|].
      split; [exact Hc|].
      split; [|split; [discriminate|]].
      2:{ destruct (upd_edge_fields (pred_at i L1) i
                      (mkRef false (Some (succ_at i L2))) st)
            as (_ & _ & _ & G1 & G2).
          split; [exact G1|]. split; [exact G2|].
          intros a j del b Ha He. apply has_edge_upd_other; [|exact He].
          left. intros ->. apply Ha. apply pred_at_in. }
      split.
      - apply Base_upd; [exact HB|].
        eapply pred_ne_tail; [exact HB|]. intros a Ha.
        unfold addrs. rewrite map_app. apply elem_of_app. auto.
      - intros j Hj. destruct (decide (j = i)) as [->|Hne].
        + unfold level_ok.
          destruct (decide (i < i /\ i <= e_level d)%nat); [lia|exact Hp'].
        + apply level_ok_upd; [exact Hne|]. apply level_ok_shift; auto. }
    destruct Hstep as (curr & cc & st1 & E1 & E2 & Hc & HD1 & Hnone & Hfr1).
    mstep E1. mstep E2.
    unfold store_at. rewrite Hlp, Hls.
    destruct (decide (i < 33)%nat) as [_|?]; [|lia].
    unfold bind at 1 2. unfold ret at 1 2.
    set (pa1 := mkPath (<[i:=Some (pred_at i L1)]> (preds pa))
                       (<[i:=Some (succ_at i L2)]> (succs pa)) cc).
    destruct (IH st1 pa1)
      as (st' & pa' & E & HD' & Hlt & Hge & Hlp' & Hls' & Hcmp & H0 & Hn' & Hfr');
      [lia | exact HD1 | subst pa1; cbn; rewrite length_insert; exact Hlp
       | subst pa1; cbn; rewrite length_insert; exact Hls |].
    exists st', pa'. split; [exact E|]. split; [exact HD'|].
    split; [|split; [|split; [exact Hlp'|split; [exact Hls'|split; [|split; [|split]]]]]].
    + intros j Hj. destruct (decide (j = i)) as [->|Hne]; [|apply Hlt; lia].
      destruct (Hge i (Nat.le_refl i)) as [-> ->]. subst pa1. cbn.
      rewrite !list_lookup_insert_eq by lia. auto.
    + intros j Hj. destruct (Hge j ltac:(lia)) as [-> ->]. subst pa1. cbn.
      rewrite !list_lookup_insert_ne by lia. auto.
    + intros _. destruct i as [|i].
      * destruct (H0 eq_refl) as [-> ->]. subst pa1. cbn. exact Hc.
      * apply Hcmp. lia.
    + intros ?. lia.
    + intros Hod. rewrite (Hn' Hod). apply Hnone, Hod.
    + eapply same_frame_trans; eauto.
Qed.

(** *** findPath *)

Lemma Inv_Desc (st : State K) L1 L2 n :
  Inv st (L1 ++ L2) <-> Desc st L1 None L2 n.
Proof. unfold Inv, Desc, level_ok. cbn [mid app]. reflexivity. Qed.

Lemma loadLevel_seq (st : State K) :
  sched st = [] -> loadLevel st = Ok (slevel st, st).
Proof.
  intros Hs. unfold loadLevel. mstep (yield_seq st Hs). reflexivity.
Qed.

Lemma pred_at_top (st : State K) L L1 :
  Base st L -> (forall e, e ∈ L1 -> e ∈ L) ->
  pred_at (Z.to_nat (slevel st + 1)) L1 = 0%nat.
Proof.
  intros HB Hsub. unfold pred_at. rewrite lev_above; [reflexivity|].
  intros e He. destruct (base_nodes _ _ HB e (Hsub e He)) as (_ & _ & Hl). lia.
Qed.

(** [findPath] on a list whose nodes below [k] are [L1] and whose other
    nodes are [L2], with possibly a marked node [od] between them: the
    marked node is unlinked, and the path is the one of [L1 ++ L2]. *)
Lemma findPath_spec fuel k L1 od L2 (st : State K) :
  keys_below k L1 -> keys_not_below k L2 -> (length L1 < fuel)%nat ->
  Desc st L1 od L2 (Z.to_nat (slevel st + 1)) ->
  exists st' ps ss cc,
    findPath fuel k st = Ok ((ps, ss, cc =? 0), st') /\
    Desc st' L1 od L2 0 /\
    (forall j, Z.of_nat j <= slevel st ->
       ps !! j = Some (Some (pred_at j L1)) /\
       ss !! j = Some (Some (succ_at j L2))) /\
    node_cmp st' (succ_at 0 L2) k cc /\
    same_frame (0%nat :: addrs L1) st st' /\
    (od = None -> st' = st).
Proof.
  intros Hlo Hhi Hfuel HD. pose proof HD as [HB _].
  pose proof (base_sched _ _ HB) as Hs.
  pose proof (base_level _ _ HB) as Hlv. unfold MaxLevel in Hlv.
  destruct fuel as [|fuel]; [lia|].
  unfold findPath. cbn [findPath_retry].
  unfold bind at 1. rewrite (base_head _ _ HB).
  mstep (loadLevel_seq st Hs).
  set (pa0 := mkPath _ _ _).
  destruct (levelLoop_spec (S fuel) k L1 od L2 Hlo Hhi Hfuel
              (Z.to_nat (slevel st + 1)) st pa0)
    as (st' & pa' & E & HD' & Hlt & _ & _ & _ & Hcmp & _ & Hnone & Hfr);
    [lia | exact HD | reflexivity | reflexivity |].
  rewrite (pred_at_top st _ L1 HB) in E
    by (intros e He; apply elem_of_app; auto).
  mstep E. exists st', (preds pa'), (succs pa'), (cmpVal pa').
  split; [reflexivity|]. split; [exact HD'|].
  split; [intros j Hj; apply Hlt; lia|].
  split; [apply Hcmp; lia|]. split; [exact Hfr|exact Hnone].
Qed.

End Sequential.

(** *** Insert *)

Section Insert.
Context {K : Type} `{Item K} `{!ItemLaws K}.

Ltac mstep E := rewrite (bind_Ok _ _ _ _ _ E); cbv beta iota.

Lemma Compare_flip (a b : K) : 0 <= Compare a b -> Compare b a <= 0.
Proof. intros Hab. pose proof (Compare_antisym a b) as Hs. lia. Qed.

Lemma Compare_below_trans (a b k : K) :
  Compare a b <= 0 -> 0 <= Compare a k -> 0 <= Compare b k.
Proof.
  intros Hab Hak.
  destruct (Z.lt_ge_cases (Compare b k) 0) as [Hlt|Hge]; [exfalso|lia].
  pose proof (Compare_trans a b k Hab ltac:(lia)) as Hak'.
  pose proof (Compare_flip a k Hak) as Hka.
  pose proof (Compare_trans k a b Hka Hab) as Hkb.
  pose proof (Compare_antisym b k) as Hs. lia.
Qed.

(** A sorted list splits into the items below [k] and the others. *)
Lemma split_at_key (k : K) (L : list (Entry K)) :
  StronglySorted key_le L ->
  exists L1 L2, L = L1 ++ L2 /\ keys_below k L1 /\ keys_not_below k L2.
Proof.
  induction 1 as [|e L Hso IH He].
  - exists [], []. repeat split; constructor.
  - destruct (Z.lt_ge_cases (Compare (e_key e) k) 0) as [Hlt|Hge].
    + destruct IH as (L1 & L2 & -> & H1 & H2).
      exists (e :: L1), L2. repeat split; [constructor; assumption | exact H2].
    + exists [], (e :: L). split; [reflexivity|]. split; [constructor|].
      constructor; [exact Hge|].
      eapply Forall_impl; [exact He|]. cbn. intros e' Hle.
      eapply Compare_below_trans; eauto.
Qed.

Lemma sorted_insert (k : K) x l (L1 L2 : list (Entry K)) :
  StronglySorted key_le (L1 ++ L2) -> keys_below k L1 -> keys_not_below k L2 ->
  StronglySorted key_le (L1 ++ mkEntry x k l :: L2).
Proof.
  intros Hso H1 H2. apply StronglySorted_app in Hso as (Hcross & Hs1 & Hs2).
  apply StronglySorted_app. split; [|split; [exact Hs1|]].
  - intros a b Ha Hb. apply elem_of_cons in Hb as [->|Hb]; [|auto].
    unfold key_le, keys_below in *. cbn. rewrite Forall_forall in H1.
    specialize (H1 a Ha). lia.
  - constructor; [exact Hs2|].
    unfold keys_not_below in H2. eapply Forall_impl; [exact H2|].
    cbn. intros e He. unfold key_le. cbn. apply Compare_flip. exact He.
Qed.

Lemma sorted_remove (d : Entry K) (L1 L2 : list (Entry K)) :
  StronglySorted key_le (L1 ++ d :: L2) -> StronglySorted key_le (L1 ++ L2).
Proof.
  intros Hso. apply StronglySorted_app in Hso as (Hcross & Hs1 & Hs2).
  apply StronglySorted_app. split; [|split; [exact Hs1|]].
  - intros a b Ha Hb. apply Hcross; [exact Ha | right; exact Hb].
  - inversion Hs2; assumption.
Qed.

Lemma has_edge_ext (st st' : State K) a i del b :
  extends st st' -> has_edge st a i del b -> has_edge st' a i del b.
Proof. intros He (nd & Ha & Hi). exists nd. auto. Qed.

Lemma path_ext (st st' : State K) i xs :
  extends st st' -> path st i xs -> path st' i xs.
Proof.
  intros He. induction xs as [|a xs IH]; [auto|].
  destruct xs as [|b xs]; [auto|]. intros [H1 H2].
  split; [eapply has_edge_ext; eauto | auto].
Qed.

Lemma Base_ext (st st' : State K) L :
  extends st st' -> sched st' = [] -> head st' = head st -> tail st' = tail st ->
  slevel st <= slevel st' <= MaxLevel -> Base st L -> Base st' L.
Proof.
  intros He Hs Hh Ht Hl [Bs Bh Bt Bl Btn Btl Bnd Bno Bso].
  constructor; auto; try congruence; try lia.
  - destruct Btn as (nd & Hnd & Hit). exists nd. auto.
  - intros i Hi. destruct (Btl i Hi) as (nd & Hnd & Hni). exists nd. auto.
  - intros e Hin. destruct (Bno e Hin) as (H2 & (nd & Hnd & Hrest) & Hlv).
    split; [exact H2|]. split; [exists nd; auto | lia].
Qed.

Lemma Inv_ext (st st' : State K) L :
  extends st st' -> sched st' = [] -> head st' = head st -> tail st' = tail st ->
  slevel st <= slevel st' <= MaxLevel -> Inv st L -> Inv st' L.
Proof.
  intros He Hs Hh Ht Hl [HB Hp]. split; [eapply Base_ext; eauto|].
  intros i Hi. eapply path_ext; eauto.
Qed.

Lemma pred_notin_lev (st : State K) (L1 m L2 : list (Entry K)) i j :
  Base st (L1 ++ m ++ L2) -> pred_at i L1 ∉ lev j (m ++ L2).
Proof.
  intros HB Hin. apply lev_in_addrs in Hin.
  assert (Hge : (2 <= pred_at i L1)%nat).
  { apply (Base_addr_ge st _ _ HB). unfold addrs in *. rewrite map_app.
    apply elem_of_app. auto. }
  destruct (pred_at_cases i L1) as [E|Hp]; [lia|].
  pose proof (base_nodup _ _ HB) as Hnd. unfold addrs in Hnd.
  rewrite map_app in Hnd. apply NoDup_app in Hnd as (_ & Hdis & _).
  apply (Hdis _ (lev_in_addrs _ _ _ Hp)). exact Hin.
Qed.

End Insert.

(** *** randomLevel *)

Section RandomLevel.
Context {K : Type}.

Lemma yield_yielded (st : State K) : yield st = Ok (tt, yielded st).
Proof. unfold yield, yielded. destruct (sched st); reflexivity. Qed.

Lemma wrap_i64_add (a b : Z) : wrap_i64 (wrap_i64 a + b) = wrap_i64 (a + b).
Proof.
  unfold wrap_i64.
  rewrite (Z.mod_eq (a + 2 ^ 63) (2 ^ 64)) by lia. f_equal.
  replace (a + 2 ^ 63 - 2 ^ 64 * ((a + 2 ^ 63) / 2 ^ 64) - 2 ^ 63 + b + 2 ^ 63)
    with (a + b + 2 ^ 63 + (- ((a + 2 ^ 63) / 2 ^ 64)) * 2 ^ 64) by lia.
  apply Z_mod_plus_full.
Qed.

(** The loop counts the samples below [p] that come first, in an [int]. *)
Lemma count_below_spec (pre : list Q) x rest (st : State K) : forall n,
  Forall (fun y => below_p y = true) pre -> below_p x = false ->
  count_below (pre ++ x :: rest) (wrap_i64 n) st =
  Ok (wrap_i64 (n + Z.of_nat (length pre)), st).
Proof.
  induction pre as [|y pre IH]; intros n Hpre Hx; cbn [app count_below length].
  - rewrite Hx, Z.add_0_r. reflexivity.
  - inversion Hpre as [|? ? Hy Hpre']; subst. rewrite Hy.
    rewrite wrap_i64_add, IH by assumption. do 3 f_equal. lia.
Qed.

(** [randomLevel] under any interference of other threads: [st1] is the
    state in which the level counter is loaded and [st2] the one in which
    the CAS runs. *)
Lemma randomLevel_spec (pre : list Q) x rest (st : State K) :
  Forall (fun y => below_p y = true) pre -> below_p x = false ->
  Z.of_nat (length pre) < 2 ^ 63 ->
  - 2 ^ 31 <= slevel (yielded st) < 2 ^ 31 ->
  let k := Z.of_nat (length pre) in
  let st1 := yielded st in
  let st2 := yielded st1 in
  let L := slevel st1 in
  (Z.min k MaxLevel <= L ->
     randomLevel (pre ++ x :: rest) st = Ok (Z.min k MaxLevel, st1)) /\
  (L < Z.min k MaxLevel ->
     randomLevel (pre ++ x :: rest) st =
       Ok (L + 1, if slevel st2 =? L then set_slevel (L + 1) st2 else st2)).
Proof.
  intros Hpre Hx Hk HL. cbn zeta. unfold randomLevel.
  pose proof (count_below_spec pre x rest st 0 Hpre Hx) as Hc.
  change (wrap_i64 0) with 0 in Hc. rewrite Z.add_0_l in Hc.
  rewrite wrap_i64_small in Hc by lia.
  rewrite (bind_Ok _ _ _ _ _ Hc). cbv beta.
  set (k := Z.of_nat (length pre)) in *.
  assert (Hmin : (if k >? MaxLevel then MaxLevel else k) = Z.min k MaxLevel).
  { unfold MaxLevel. destruct (Z.gtb_spec k 32); lia. }
  rewrite Hmin.
  assert (Hload : loadLevel st = Ok (slevel (yielded st), yielded st)).
  { unfold loadLevel. rewrite (bind_Ok _ _ _ _ _ (yield_yielded st)). reflexivity. }
  rewrite (bind_Ok _ _ _ _ _ Hload). cbv beta.
  set (L := slevel (yielded st)) in *.
  split; intros Hcase.
  - destruct (Z.gtb_spec (Z.min k MaxLevel) L); [lia|reflexivity].
  - destruct (Z.gtb_spec (Z.min k MaxLevel) L); [|lia].
    assert (HL1 : L + 1 <= 32) by (unfold MaxLevel in *; lia).
    rewrite (wrap_i32_small L) by lia.
    rewrite (wrap_i64_small (L + 1)) by lia.
    rewrite (wrap_i32_small (L + 1)) by lia.
    unfold casLevel.
    unfold bind at 1. rewrite (bind_Ok _ _ _ _ _ (yield_yielded (yielded st))).
    destruct (slevel (yielded (yielded st)) =? L); reflexivity.
Qed.



(** The two cases of [randomLevel], and what the call leaves behind when
    no other thread runs. *)
Lemma randomLevel_cases (pre : list Q) x rest (st : State K) :
  Forall (fun y => below_p y = true) pre -> below_p x = false ->
  Z.of_nat (length pre) < 2 ^ 63 ->
  - 2 ^ 31 <= slevel (yielded st) < 2 ^ 31 ->
  exists r st',
    randomLevel (pre ++ x :: rest) st = Ok (r, st') /\
    (Z.min (Z.of_nat (length pre)) MaxLevel <= slevel (yielded st) ->
       r = Z.min (Z.of_nat (length pre)) MaxLevel /\ st' = yielded st) /\
    (slevel (yielded st) < Z.min (Z.of_nat (length pre)) MaxLevel ->
       r = slevel (yielded st) + 1 /\
       (st' = set_slevel (slevel (yielded st) + 1) (yielded (yielded st)) \/
        st' = yielded (yielded st))) /\
    r <= MaxLevel /\
    (sched st = [] -> 0 <= slevel st <= MaxLevel ->
       0 <= r <= slevel st' /\ slevel st' <= MaxLevel /\
       heap st' = heap st /\ sched st' = [] /\
       head st' = head st /\ tail st' = tail st /\
       slevel st <= slevel st').
Proof.
  intros Hpre Hx Hk HL.
  destruct (randomLevel_spec pre x rest st Hpre Hx Hk HL) as [Hle Hgt].
  cbn zeta in *.
  set (k := Z.of_nat (length pre)) in *. set (L := slevel (yielded st)) in *.
  assert (Hseq : sched st = [] -> yielded st = st /\ yielded (yielded st) = st).
  { intros Hs. unfold yielded. rewrite Hs. cbn. rewrite Hs. auto. }
  destruct (Z.le_gt_cases (Z.min k MaxLevel) L) as [Hcase|Hcase].
  - exists (Z.min k MaxLevel), (yielded st). split; [apply Hle, Hcase|].
    split; [auto|]. split; [intros ?; lia|]. split; [lia|].
    intros Hs Hlv. destruct (Hseq Hs) as [E1 _]. subst L. rewrite E1 in *.
    unfold MaxLevel in *. repeat split; auto; lia.
  - eexists (L + 1), _. split; [apply Hgt, Hcase|].
    split; [intros ?; lia|]. split.
    + intros _. split; [reflexivity|].
      destruct (slevel (yielded (yielded st)) =? L); auto.
    + split; [unfold MaxLevel in *; lia|].
      intros Hs Hlv. destruct (Hseq Hs) as [E1 E2]. subst L.
      rewrite E2. rewrite E1 in *. rewrite Z.eqb_refl. cbn.
      unfold MaxLevel in *. repeat split; auto; lia.
Qed.


End RandomLevel.



(** *** Insert2 *)

Section Operations.
Context {K : Type} `{Item K} `{!ItemLaws K}.

Ltac mstep E := rewrite (bind_Ok _ _ _ _ _ E); cbv beta iota.

Lemma lev_skip i (L1 L2 : list (Entry K)) ex :
  (e_level ex < i)%nat -> lev i (L1 ++ [ex] ++ L2) = lev i (L1 ++ L2).
Proof.
  intros Hlt. rewrite !lev_app, lev_cons.
  destruct (decide (i <= e_level ex)%nat); [lia|reflexivity].
Qed.

Lemma lev_keep i (L1 L2 : list (Entry K)) ex :
  (i <= e_level ex)%nat ->
  lev i (L1 ++ [ex] ++ L2) = lev i L1 ++ e_addr ex :: lev i L2.
Proof.
  intros Hle. rewrite !lev_app, lev_cons.
  destruct (decide (i <= e_level ex)%nat); [reflexivity|lia].
Qed.

Lemma entry_notin (st : State K) (L1 L2 : list (Entry K)) ex i :
  Base st (L1 ++ [ex] ++ L2) ->
  (e_addr ex ∉ 0%nat :: lev i L1) /\ (e_addr ex ∉ lev i L2) /\
  (2 <= e_addr ex)%nat.
Proof.
  intros HB. pose proof (base_nodup _ _ HB) as Hnd.
  unfold addrs in Hnd. rewrite !map_app in Hnd. cbn [map app] in Hnd.
  apply NoDup_app in Hnd as (_ & Hdis & Hnd2).
  apply NoDup_cons in Hnd2 as [Hx2 _].
  assert (Hge : (2 <= e_addr ex)%nat).
  { apply (base_nodes _ _ HB). apply elem_of_app. right. left. }
  split; [|split; [|exact Hge]].
  - intros Hin. apply elem_of_cons in Hin as [E|Hin]; [lia|].
    apply lev_in_addrs in Hin. apply (Hdis _ Hin). left.
  - intros Hin. apply lev_in_addrs in Hin. apply Hx2. exact Hin.
Qed.

Lemma snoc_rearrange (a p : nat) A xs B C :
  a :: A = xs ++ [p] -> a :: (A ++ B) ++ C = xs ++ p :: (B ++ C).
Proof.
  intros E. change (a :: (A ++ B) ++ C) with (((a :: A) ++ B) ++ C).
  rewrite E, <- !app_assoc. reflexivity.
Qed.

(** Linking the new node [ex] at level [i]. *)
Lemma link_level (st : State K) (L1 L2 : list (Entry K)) ex i :
  Base st (L1 ++ [ex] ++ L2) -> (i <= e_level ex)%nat ->
  path st i (0%nat :: lev i (L1 ++ L2) ++ [1%nat]) ->
  exists st',
    st' = upd_edge (pred_at i L1) i (mkRef false (Some (e_addr ex)))
            (upd_edge (e_addr ex) i (mkRef false (Some (succ_at i L2))) st) /\
    setNext (Some (e_addr ex)) i (Some (succ_at i L2)) false st =
      Ok (tt, upd_edge (e_addr ex) i (mkRef false (Some (succ_at i L2))) st) /\
    dcasNext (Some (pred_at i L1)) i (Some (succ_at i L2)) (Some (e_addr ex))
      false false
      (upd_edge (e_addr ex) i (mkRef false (Some (succ_at i L2))) st) =
      Ok (true, st') /\
    Base st' (L1 ++ [ex] ++ L2) /\
    path st' i (0%nat :: lev i (L1 ++ [ex] ++ L2) ++ [1%nat]) /\
    (forall j xs z, j <> i -> path st j (xs ++ [z]) -> path st' j (xs ++ [z])).
Proof.
  intros HB Hi Hp.
  pose proof (base_sched _ _ HB) as Hs.
  destruct (entry_notin st L1 L2 ex i HB) as (Hx1 & Hx2 & Hxge).
  set (x := e_addr ex) in *. set (p := pred_at i L1) in *.
  set (c := succ_at i L2) in *.
  destruct (base_nodes _ _ HB ex) as (_ & (ndx & Hndx & _ & _ & Hlen) & _).
  { apply elem_of_app. right. left. }
  fold x in Hndx.
  destruct (cons_snoc_default 0%nat (lev i L1)) as [xs' Hxs'].
  fold (pred_at i L1) in Hxs'. fold p in Hxs'.
  assert (Hc2 : lev i L2 ++ [1%nat] = c :: tl (lev i L2 ++ [1%nat])).
  { subst c. unfold succ_at. destruct (lev i L2); reflexivity. }
  rewrite lev_app in Hp.
  replace (0%nat :: (lev i L1 ++ lev i L2) ++ [1%nat])
    with (xs' ++ p :: (lev i L2 ++ [1%nat])) in Hp
    by (rewrite app_comm_cons, <- !app_assoc, app_comm_cons, Hxs', <- !app_assoc;
        reflexivity).
  apply path_app_inv in Hp as [Hpre Hpost].
  assert (Hpc : has_edge st p i false c).
  { rewrite Hc2 in Hpost. apply Hpost. }
  assert (Hp2 : path st i (lev i L2 ++ [1%nat])).
  { rewrite Hc2 in Hpost |- *. apply Hpost. }
  assert (Hxp : x <> p).
  { intros E. apply Hx1. rewrite Hxs'. apply elem_of_app. right. rewrite E. left. }
  assert (Hnd : NoDup (xs' ++ [p])).
  { rewrite <- Hxs'. eapply NoDup_head_lev; [exact HB|].
    unfold addrs. rewrite map_app. apply sublist_inserts_r. reflexivity. }
  apply NoDup_app in Hnd as (_ & Hdis & _).
  assert (Hp_xs : p ∉ xs') by (intros Hin; apply (Hdis _ Hin); left).
  assert (Hx_xs : x ∉ xs').
  { intros Hin. apply Hx1. rewrite Hxs'. apply elem_of_app. auto. }
  assert (Hp_l2 : p ∉ lev i L2).
  { intros Hin. apply (pred_notin_lev st L1 [ex] L2 i i HB).
    rewrite lev_app. apply elem_of_app. auto. }
  set (sta := upd_edge x i (mkRef false (Some c)) st).
  destruct (upd_edge_fields x i (mkRef false (Some c)) st) as (Hsa & _).
  fold sta in Hsa. rewrite Hs in Hsa.
  assert (Hpc' : has_edge sta p i false c).
  { subst sta. apply has_edge_upd_other; auto. }
  eexists. split; [reflexivity|]. split; [|split; [|split; [|split]]].
  - apply (setNext_ok st x i ndx); [exact Hndx | lia].
  - apply dcasNext_ok; assumption.
  - apply Base_upd; [apply Base_upd; [exact HB | lia]|].
    eapply pred_ne_tail; [exact HB|]. intros a Ha.
    unfold addrs. rewrite map_app. apply elem_of_app. auto.
  - rewrite lev_keep by exact Hi. fold x.
    rewrite (snoc_rearrange _ p _ xs' (x :: lev i L2) [1%nat] Hxs').
    cbn [app].
    apply path_app.
    + apply path_upd; [auto|]. apply path_upd; [auto|]. exact Hpre.
    + apply path_cons. split.
      * destruct Hpc' as (ndp & Hndp & Hip).
        eapply has_edge_upd_same; [exact Hndp|]. eapply lookup_lt_Some; eauto.
      * rewrite Hc2. apply path_cons. split.
        -- apply has_edge_upd_other; [auto|].
           subst sta. eapply has_edge_upd_same; [exact Hndx|]. lia.
        -- rewrite <- Hc2. apply path_upd; [auto|]. apply path_upd; [auto|].
           exact Hp2.
  - intros j xs z Hne Hpj. apply path_upd; [auto|]. apply path_upd; [auto|].
    exact Hpj.
Qed.

Lemma ins_ok_step (st : State K) L1 ex L2 i n fuel k ps ss :
  ins_ok st L1 ex L2 i -> (i <= e_level ex)%nat -> (i <= 32)%nat ->
  ps !! i = Some (Some (pred_at i L1)) ->
  ss !! i = Some (Some (succ_at i L2)) ->
  exists st',
    fixThisLevel fuel (S n) k (Some (e_addr ex)) i ps ss st = Ok ((ps, ss), st') /\
    ins_ok st' L1 ex L2 (S i).
Proof.
  intros [HB Hp] Hi Hi32 Hps Hss.
  pose proof (Hp i Hi32) as Hpi.
  destruct (decide (i < i)%nat); [lia|].
  destruct (link_level st L1 L2 ex i HB Hi Hpi)
    as (st' & _ & E1 & E2 & HB' & Hp' & Hframe).
  exists st'. split.
  - cbn [fixThisLevel]. unfold index_at. rewrite Hss, Hps.
    unfold bind at 1. unfold ret at 1. mstep E1.
    unfold bind at 1. unfold ret at 1. mstep E2. reflexivity.
  - split; [exact HB'|]. intros j Hj.
    destruct (decide (j = i)) as [->|Hne].
    + destruct (decide (i < S i)%nat); [exact Hp'|lia].
    + specialize (Hp j Hj). rewrite app_comm_cons in *.
      destruct (decide (j < S i)%nat); destruct (decide (j < i)%nat); try lia;
        apply Hframe; auto.
Qed.

Lemma upperLevels_spec fuel k L1 ex L2 ps ss : forall cnt i (st : State K),
  (0 < fuel)%nat -> ins_ok st L1 ex L2 i ->
  (i + cnt = S (e_level ex))%nat -> (e_level ex <= 32)%nat ->
  (forall j, (j <= e_level ex)%nat ->
     ps !! j = Some (Some (pred_at j L1)) /\
     ss !! j = Some (Some (succ_at j L2))) ->
  exists st',
    upperLevels fuel cnt i k (Some (e_addr ex)) ps ss st = Ok (tt, st') /\
    ins_ok st' L1 ex L2 (S (e_level ex)).
Proof.
  induction cnt as [|cnt IH]; intros i st Hfuel Hok Hsum Hl32 Hpath.
  - exists st. split; [reflexivity|].
    replace (S (e_level ex)) with i by lia. exact Hok.
  - destruct fuel as [|fuel]; [lia|].
    destruct (Hpath i ltac:(lia)) as [Hps Hss].
    destruct (ins_ok_step st L1 ex L2 i fuel (S fuel) k ps ss Hok)
      as (st1 & E1 & Hok1); auto; try lia.
    destruct (IH (S i) st1) as (st' & E & Hok'); auto; try lia.
    exists st'. split; [|exact Hok'].
    cbn [upperLevels]. mstep E1. exact E.
Qed.

Lemma ins_ok_Inv (st : State K) L1 ex L2 :
  ins_ok st L1 ex L2 (S (e_level ex)) -> Inv st (L1 ++ ex :: L2).
Proof.
  intros [HB Hp]. split; [exact HB|]. intros i Hi. specialize (Hp i Hi).
  destruct (decide (i < S (e_level ex))%nat); [exact Hp|].
  change (L1 ++ ex :: L2) with (L1 ++ [ex] ++ L2).
  rewrite lev_skip by lia. exact Hp.
Qed.

Lemma yielded_seq (st : State K) : sched st = [] -> yielded st = st.
Proof. intros Hs. unfold yielded. rewrite Hs. reflexivity. Qed.

Lemma addr_lt_heap (st : State K) L a :
  Base st L -> a ∈ addrs L -> (a < length (heap st))%nat.
Proof.
  intros HB Ha. apply elem_of_addrs in Ha as (e & He & <-).
  destruct (base_nodes _ _ HB e He) as (_ & (nd & Hnd & _) & _).
  eapply lookup_lt_Some; eauto.
Qed.

(** [Insert2] on a well-formed list: the new node is linked, at every
    level up to its own, in front of the first node that is not smaller. *)
Lemma Insert2_fresh fuel k samples (st : State K) L :
  Inv st L -> ends_below_run samples -> (length L < fuel)%nat ->
  exists st' L1 ex L2,
    L = L1 ++ L2 /\ Insert2 fuel k samples st = Ok (tt, st') /\
    Inv st' (L1 ++ ex :: L2) /\ e_key ex = k /\
    keys_below k L1 /\ keys_not_below k L2 /\
    e_addr ex = length (heap st).
Proof.
  intros HI (pre & x & rest & -> & Hpre & Hx & Hlen) Hfuel.
  pose proof HI as [HB _].
  pose proof (base_sched _ _ HB) as Hs.
  pose proof (base_level _ _ HB) as Hlv.
  destruct (randomLevel_cases pre x rest st Hpre Hx Hlen)
    as (r & st1 & Er & _ & _ & _ & Hseq).
  { rewrite (yielded_seq st Hs). unfold MaxLevel in Hlv. lia. }
  destruct (Hseq Hs Hlv) as (Hr & Hl1 & Hheap & Hs1 & Hh1 & Ht1 & Hmono).
  assert (HI1 : Inv st1 L).
  { apply (Inv_ext st st1 L); [|exact Hs1|exact Hh1|exact Ht1|lia|exact HI].
    intros a nd. rewrite Hheap. auto. }
  destruct (split_at_key k L (base_sorted _ _ HB)) as (L1 & L2 & -> & Hlo & Hhi).
  unfold MaxLevel in *.
  set (x0 := length (heap st1)).
  set (nd := {| next := replicate (Z.to_nat (wrap_i64 (r + 1))) None;
                itm := userItem k; level := r mod 2 ^ 16 |}).
  set (st2 := set_heap (heap st1 ++ [nd]) st1).
  assert (En : newNode (userItem k) r st1 = Ok (Some x0, st2)).
  { unfold newNode. rewrite (wrap_i64_small (r + 1)) by lia.
    destruct (Z.ltb_spec (r + 1) 0); [lia|].
    subst st2 nd. rewrite (wrap_i64_small (r + 1)) by lia. reflexivity. }
  assert (Hext : extends st1 st2).
  { intros a nd' Ha. subst st2. cbn. apply lookup_app_l_Some. exact Ha. }
  assert (HI2 : Inv st2 (L1 ++ L2)).
  { apply (Inv_ext st1 st2 (L1 ++ L2));
      [exact Hext|exact Hs1|reflexivity|reflexivity
       |unfold st2, MaxLevel; cbn; lia|exact HI1]. }
  pose proof HI2 as [HB2 Hp2].
  set (ex := mkEntry x0 k (Z.to_nat r)).
  assert (Hfresh : x0 ∉ addrs (L1 ++ L2)).
  { intros Hin. pose proof (addr_lt_heap st1 _ _ (proj1 HI1) Hin). lia. }
  assert (Hx0 : (2 <= x0)%nat).
  { destruct (base_tail_node _ _ (proj1 HI1)) as (tn & Htn & _).
    apply lookup_lt_Some in Htn. subst x0. lia. }
  assert (HBx : Base st2 (L1 ++ [ex] ++ L2)).
  { destruct HB2 as [Bs Bh Bt Bl Btn Btl Bnd Bno Bso].
    constructor; auto.
    - unfold addrs in *. rewrite !map_app in *. cbn [map app].
      apply NoDup_app in Bnd as (N1 & Ndis & N2).
      apply NoDup_app. split; [exact N1|]. split.
      + intros a Ha Hin. apply elem_of_cons in Hin as [->|Hin].
        * apply Hfresh. apply elem_of_app. auto.
        * apply (Ndis a Ha Hin).
      + constructor; [|exact N2]. intros Hin. apply Hfresh.
        apply elem_of_app. auto.
    - intros e He. apply elem_of_app in He as [He|He];
        [apply Bno; apply elem_of_app; auto|].
      apply elem_of_cons in He as [->|He];
        [|apply Bno; apply elem_of_app; auto].
      split; [exact Hx0|]. split; [|cbn; subst st2; cbn; lia].
      exists nd. subst st2 ex. cbn. split.
      + rewrite lookup_app_r by (subst x0; lia).
        subst x0. rewrite Nat.sub_diag. reflexivity.
      + subst nd. cbn. split; [reflexivity|].
        rewrite Z.mod_small by lia. split; [lia|].
        rewrite length_replicate, (wrap_i64_small (r + 1)) by lia. lia.
    - apply sorted_insert; assumption. }
  destruct fuel as [|fuel]; [lia|].
  destruct (findPath_spec (S fuel) k L1 None L2 st2 Hlo Hhi)
    as (st2' & ps & ss & cc & Ef & _ & Hpath & _ & _ & Hsame).
  { rewrite length_app in Hfuel. lia. }
  { apply Inv_Desc. exact HI2. }
  rewrite (Hsame eq_refl) in Ef. clear st2' Hsame.
  assert (Hl2 : slevel st2 = slevel st1) by reflexivity.
  destruct (Hpath 0%nat ltac:(lia)) as [Hps0 Hss0].
  destruct (link_level st2 L1 L2 ex 0 HBx ltac:(lia) (Hp2 0%nat ltac:(lia)))
    as (st3 & _ & E1 & E2 & HB3 & Hp3 & Hframe).
  assert (Hok3 : ins_ok st3 L1 ex L2 1).
  { split; [exact HB3|]. intros j Hj. destruct (decide (j = 0%nat)) as [->|Hne].
    - destruct (decide (0 < 1)%nat); [exact Hp3|lia].
    - destruct (decide (j < 1)%nat); [lia|].
      rewrite app_comm_cons. apply Hframe; [exact Hne|].
      rewrite <- app_comm_cons. apply Hp2. exact Hj. }
  destruct (upperLevels_spec (S fuel) k L1 ex L2 ps ss (Z.to_nat r) 1 st3)
    as (st4 & E4 & Hok4); auto; try (cbn; lia).
  { intros j Hj. apply Hpath. cbn in Hj. lia. }
  exists st4, L1, ex, L2. split; [reflexivity|].
  split; [|split; [apply ins_ok_Inv; exact Hok4 |]].
  2:{ split; [reflexivity|]. split; [exact Hlo|]. split; [exact Hhi|].
      cbn. unfold x0. rewrite Hheap. reflexivity. }
  unfold Insert2. mstep Er. mstep En.
  assert (E0 : insert_level0 (S fuel) (S fuel) k (Some x0) st2 = Ok ((ps, ss), st3)).
  { cbn [insert_level0]. mstep Ef. unfold index_at. rewrite Hss0, Hps0.
    unfold bind at 1. unfold ret at 1. mstep E1.
    unfold bind at 1. unfold ret at 1. mstep E2. reflexivity. }
  mstep E0. exact E4.
Qed.

Lemma Insert2_spec fuel k samples (st : State K) L :
  Inv st L -> ends_below_run samples -> (length L < fuel)%nat ->
  exists st' L1 ex L2,
    L = L1 ++ L2 /\ Insert2 fuel k samples st = Ok (tt, st') /\
    Inv st' (L1 ++ ex :: L2) /\ e_key ex = k /\
    keys_below k L1 /\ keys_not_below k L2.
Proof.
  intros HI Hs Hf.
  destruct (Insert2_fresh fuel k samples st L HI Hs Hf)
    as (st' & L1 & ex & L2 & H1 & H2 & H3 & H4 & H5 & H6 & _).
  exists st', L1, ex, L2. auto 7.
Qed.

(** *** The marking loop of Delete *)

Lemma nodeptr_eqb_refl (a : option nat) : nodeptr_eqb a a = true.
Proof. destruct a; cbn; [apply Nat.eqb_refl|reflexivity]. Qed.

Lemma edge_of_Some (st : State K) d i r :
  edge_of st d i = Some r ->
  exists nd, heap st !! d = Some nd /\ next nd !! i = Some (Some r).
Proof.
  unfold edge_of. destruct (heap st !! d) as [nd|]; [|discriminate].
  destruct (next nd !! i) as [[r'|]|] eqn:Hi; try discriminate.
  intros [= ->]. exists nd. auto.
Qed.

Lemma edge_of_upd_same (st : State K) d i r r' :
  edge_of st d i = Some r -> edge_of (upd_edge d i r' st) d i = Some r'.
Proof.
  intros He. apply edge_of_Some in He as (nd & Hd & Hi).
  unfold edge_of. rewrite (upd_edge_lookup_eq d i r' st nd Hd). cbn.
  rewrite list_lookup_insert_eq by (eapply lookup_lt_Some; eauto). reflexivity.
Qed.

Lemma edge_of_upd_other (st : State K) d i r' a j :
  a <> d \/ j <> i -> edge_of (upd_edge d i r' st) a j = edge_of st a j.
Proof.
  intros Hne. unfold edge_of. destruct (decide (a = d)) as [->|Hna].
  - unfold upd_edge. destruct (heap st !! d) as [nd|] eqn:Hd; [|rewrite Hd; reflexivity].
    cbn. rewrite list_lookup_insert_eq by (eapply lookup_lt_Some; eauto). cbn.
    rewrite list_lookup_insert_ne by (destruct Hne; congruence). reflexivity.
  - rewrite upd_edge_lookup_ne by exact Hna. reflexivity.
Qed.

Lemma mark_one_sched (st : State K) d i : sched (mark_one d i st) = sched st.
Proof.
  unfold mark_one. destruct (edge_of st d i) as [r|]; [|reflexivity].
  destruct (deleted r); [reflexivity|]. apply upd_edge_fields.
Qed.

Lemma mark_one_other (st : State K) d i a j :
  a <> d \/ j <> i -> edge_of (mark_one d i st) a j = edge_of st a j.
Proof.
  intros Hne. unfold mark_one. destruct (edge_of st d i) as [r|]; [|reflexivity].
  destruct (deleted r); [reflexivity|]. apply edge_of_upd_other. exact Hne.
Qed.

Lemma loadNext_edge_of (st : State K) d i r :
  sched st = [] -> edge_of st d i = Some r ->
  loadNext (Some d) i st = Ok (Some r, st).
Proof.
  intros Hs He. apply edge_of_Some in He as (nd & Hd & Hi).
  eapply loadNext_seq; eauto.
Qed.

Lemma getNext_edge_of (st : State K) d i r :
  sched st = [] -> edge_of st d i = Some r ->
  getNext (Some d) i st = Ok ((ptr r, deleted r), st).
Proof.
  intros Hs He. unfold getNext. mstep (loadNext_edge_of st d i r Hs He).
  reflexivity.
Qed.

Lemma markInner_done n delNode i nxt dm log (st : State K) :
  markInner n delNode i nxt true dm log st = Ok ((dm, log), st).
Proof. destruct n; reflexivity. Qed.

(** One level of the marking loop, without interference, whatever the
    mark already there. *)
Lemma mark_level (st : State K) fuel d i r dm log :
  sched st = [] -> edge_of st d i = Some r -> (0 < fuel)%nat ->
  bind (getNext (Some d) i)
       (fun '(nxt, del) => markInner fuel (Some d) i nxt del dm log) st =
  Ok ((if deleted r then dm else true, log ++ mark_log d i st),
      mark_one d i st).
Proof.
  intros Hs He Hfuel. mstep (getNext_edge_of st d i r Hs He).
  unfold mark_log, mark_one. rewrite He.
  destruct (deleted r) eqn:Hdel.
  - rewrite markInner_done, app_nil_r. reflexivity.
  - destruct fuel as [|fuel]; [lia|]. cbn [markInner].
    assert (Ed : dcasNext (Some d) i (ptr r) (ptr r) false true st =
                 Ok (true, upd_edge d i (mkRef true (ptr r)) st)).
    { unfold dcasNext. mstep (loadNext_edge_of st d i r Hs He).
      rewrite nodeptr_eqb_refl, Hdel. cbn [Bool.eqb andb].
      unfold casNext. mstep (yield_seq st Hs).
      apply edge_of_Some in He as (nd & Hd & Hi).
      mstep (deref_ok st d nd Hd). rewrite Hi, NodeRef_eqb_refl.
      unfold upd_edge. rewrite Hd. reflexivity. }
    mstep Ed.
    set (st' := upd_edge d i (mkRef true (ptr r)) st).
    assert (Hs' : sched st' = []).
    { subst st'. destruct (upd_edge_fields d i (mkRef true (ptr r)) st) as (E & _).
      congruence. }
    mstep (getNext_edge_of st' d i _ Hs' (edge_of_upd_same st d i r _ He)).
    cbn [deleted]. apply markInner_done.
Qed.

(** The marking loop without interference: every level that was not yet
    marked is marked by one successful CAS. *)
Lemma markLevels_seq fuel d : forall n (st : State K) dm log,
  sched st = [] -> (0 < fuel)%nat ->
  (forall i, (i < n)%nat -> is_Some (edge_of st d i)) ->
  markLevels fuel n (Some d) dm log st =
  Ok ((if decide (mark_logs d n st = []) then dm else true,
       log ++ mark_logs d n st),
      mark_state d n st).
Proof.
  induction n as [|i IH]; intros st dm log Hs Hfuel Hedges.
  - cbn. rewrite app_nil_r. reflexivity.
  - destruct (Hedges i ltac:(lia)) as [r He].
    cbn [markLevels mark_state mark_logs].
    pose proof (mark_level st fuel d i r dm log Hs He Hfuel) as Hl.
    unfold bind in Hl |- *. destruct (getNext (Some d) i st) as [[[nxt del] st0]| |];
      try discriminate.
    rewrite Hl. rewrite IH; auto.
    + rewrite <- app_assoc. f_equal. f_equal.
      unfold mark_log. rewrite He.
      destruct (deleted r); cbn [app]; [reflexivity|].
      destruct (decide (mark_logs d i (mark_one d i st) = [])); reflexivity.
    + rewrite mark_one_sched. exact Hs.
    + intros j Hj. rewrite mark_one_other by (right; lia). apply Hedges. lia.
Qed.

(** *** Delete *)

Lemma marked_shape_upd (st : State K) L1 d L2 a i r j :
  j <> i -> marked_shape st L1 d L2 j ->
  marked_shape (upd_edge a i r st) L1 d L2 j.
Proof.
  intros Hne (H1 & H2 & H3). split; [|split].
  - rewrite app_comm_cons in *. apply path_upd; auto.
  - apply has_edge_upd_other; auto.
  - apply path_upd; auto.
Qed.

Lemma has_edge_edge_of (st : State K) a i del b :
  has_edge st a i del b -> edge_of st a i = Some (mkRef del (Some b)).
Proof. intros (nd & Ha & Hi). unfold edge_of. rewrite Ha, Hi. reflexivity. Qed.

Lemma mark_state_ok L1 d L2 : forall n (st : State K),
  (n <= S (e_level d))%nat -> mark_ok st L1 d L2 n ->
  mark_ok (mark_state (e_addr d) n st) L1 d L2 0 /\
  mark_logs (e_addr d) n st = replicate n true /\
  slevel (mark_state (e_addr d) n st) = slevel st.
Proof.
  induction n as [|i IH]; intros st Hn [HB Hlev].
  - cbn. split; [split; assumption|]. split; reflexivity.
  - assert (Hi32 : (i <= 32)%nat).
    { destruct (base_nodes _ _ HB d) as (_ & _ & Hl);
        [apply elem_of_app; right; left|].
      pose proof (base_level _ _ HB). unfold MaxLevel in *. lia. }
    pose proof (Hlev i Hi32) as Hpi.
    destruct (decide (S i <= i <= e_level d)%nat); [lia|].
    rewrite lev_keep in Hpi by lia.
    replace (0%nat :: (lev i L1 ++ e_addr d :: lev i L2) ++ [1%nat])
      with ((0%nat :: lev i L1) ++ e_addr d :: (lev i L2 ++ [1%nat])) in Hpi
      by (cbn [app]; rewrite <- app_assoc; reflexivity).
    apply path_app_inv in Hpi as [Hpre Hpost].
    set (c := succ_at i L2).
    assert (Hc2 : lev i L2 ++ [1%nat] = c :: tl (lev i L2 ++ [1%nat])).
    { subst c. unfold succ_at. destruct (lev i L2); reflexivity. }
    assert (Hdc : has_edge st (e_addr d) i false c).
    { rewrite Hc2 in Hpost. apply Hpost. }
    assert (Hp2 : path st i (lev i L2 ++ [1%nat])).
    { rewrite Hc2 in Hpost |- *. apply Hpost. }
    destruct (entry_notin st L1 L2 d i HB) as (Hd1 & Hd2 & Hdge).
    assert (Hone : mark_one (e_addr d) i st =
                   upd_edge (e_addr d) i (mkRef true (Some c)) st).
    { unfold mark_one. rewrite (has_edge_edge_of _ _ _ _ _ Hdc). reflexivity. }
    assert (Hlog : mark_log (e_addr d) i st = [true]).
    { unfold mark_log. rewrite (has_edge_edge_of _ _ _ _ _ Hdc). reflexivity. }
    cbn [mark_state mark_logs]. rewrite Hlog, Hone.
    set (st1 := upd_edge (e_addr d) i (mkRef true (Some c)) st).
    assert (Hok1 : mark_ok st1 L1 d L2 i).
    { split; [apply Base_upd; [exact HB|lia]|].
      intros j Hj. destruct (decide (j = i)) as [->|Hne].
      - destruct (decide (i <= i <= e_level d)%nat); [|lia].
        split; [|split].
        + rewrite app_comm_cons. apply path_upd; [auto|]. exact Hpre.
        + destruct Hdc as (ndd & Hndd & Hid).
          eapply has_edge_upd_same; [exact Hndd|]. eapply lookup_lt_Some; eauto.
        + apply path_upd; [auto|exact Hp2].
      - specialize (Hlev j Hj).
        destruct (decide (S i <= j <= e_level d)%nat);
          destruct (decide (i <= j <= e_level d)%nat); try lia.
        + apply marked_shape_upd; auto.
        + rewrite app_comm_cons in *. apply path_upd; auto. }
    destruct (IH st1 ltac:(lia) Hok1) as (Hok & Hlogs & Hfr).
    split; [exact Hok|]. split; [rewrite Hlogs; reflexivity|].
    destruct (upd_edge_fields (e_addr d) i (mkRef true (Some c)) st)
      as (_ & _ & _ & G1 & G2).
    fold st1 in G1. congruence.
Qed.

Lemma mark_ok_Desc (st : State K) L1 d L2 n :
  (e_level d < n)%nat -> mark_ok st L1 d L2 0 -> Desc st L1 (Some d) L2 n.
Proof.
  intros Hn [HB Hlev]. split; [exact HB|]. intros i Hi. specialize (Hlev i Hi).
  unfold level_ok.
  destruct (decide (0 <= i <= e_level d)%nat);
    destruct (decide (i < n /\ i <= e_level d)%nat); try lia.
  - exact Hlev.
  - rewrite lev_skip in Hlev by lia. exact Hlev.
Qed.

Lemma Inv_mark_ok (st : State K) L1 d L2 :
  Inv st (L1 ++ d :: L2) -> mark_ok st L1 d L2 (S (e_level d)).
Proof.
  intros [HB Hp]. split; [exact HB|]. intros i Hi.
  destruct (decide (S (e_level d) <= i <= e_level d)%nat); [lia|].
  apply Hp. exact Hi.
Qed.

Lemma Base_remove (st : State K) L1 d L2 :
  Base st (L1 ++ [d] ++ L2) -> Base st (L1 ++ L2).
Proof.
  intros [Bs Bh Bt Bl Btn Btl Bnd Bno Bso]. constructor; auto.
  - eapply sublist_NoDup; [exact Bnd|]. unfold addrs.
    apply fmap_sublist. apply sublist_app; [reflexivity|].
    apply sublist_cons. reflexivity.
  - intros e He. apply Bno. apply elem_of_app in He as [He|He];
      apply elem_of_app; [auto|right; right; exact He].
  - eapply sorted_remove. exact Bso.
Qed.

Lemma Desc_Inv (st : State K) L1 d L2 :
  Desc st L1 (Some d) L2 0 -> Inv st (L1 ++ L2).
Proof.
  intros [HB Hlev]. split; [eapply Base_remove; exact HB|].
  intros i Hi. specialize (Hlev i Hi). unfold level_ok in Hlev.
  destruct (decide (i < 0 /\ i <= e_level d)%nat); [lia|exact Hlev].
Qed.

Lemma node_cmp_fun (st : State K) a k c1 c2 :
  node_cmp st a k c1 -> node_cmp st a k c2 -> c1 = c2.
Proof. intros (n1 & H1 & E1) (n2 & H2 & E2). congruence. Qed.

Lemma lev_0 (L : list (Entry K)) : lev 0 L = addrs L.
Proof.
  unfold lev. f_equal. induction L as [|e L IH]; [reflexivity|].
  rewrite filter_cons. destruct (decide (0 <= e_level e)%nat); [|lia].
  rewrite IH. reflexivity.
Qed.

Lemma no_equal_key k (L1 L2 : list (Entry K)) :
  StronglySorted key_le (L1 ++ L2) -> keys_below k L1 -> keys_not_below k L2 ->
  (forall d, hd_error L2 = Some d -> Compare (e_key d) k <> 0) ->
  Forall (fun e => Compare (e_key e) k <> 0) (L1 ++ L2).
Proof.
  intros Hso H1 H2 Hhd. apply Forall_app. split.
  - eapply Forall_impl; [exact H1|]. cbn. intros; lia.
  - destruct L2 as [|d L2]; [constructor|].
    specialize (Hhd d eq_refl).
    apply StronglySorted_app in Hso as (_ & _ & Hs2).
    inversion Hs2 as [|? ? _ Hd]; subst.
    inversion H2 as [|? ? Hdk H2']; subst.
    constructor; [exact Hhd|].
    apply Forall_forall. intros e He Hek.
    rewrite Forall_forall in Hd. specialize (Hd e He). unfold key_le in Hd.
    pose proof (Compare_trans (e_key d) (e_key e) k Hd ltac:(lia)). lia.
Qed.

(** [Delete] on a well-formed list: either no item equals [k] and nothing
    changes, or the first node with an equal item is marked at all its
    levels, each by one successful CAS, and unlinked by the second
    [findPath]. *)
Lemma Delete_run_spec fuel k (st : State K) L :
  Inv st L -> (length L < fuel)%nat ->
  (Forall (fun e => Compare (e_key e) k <> 0) L /\
   Delete_run fuel k st = Ok (mkRun false None [] false, st)) \/
  (exists L1 d L2 st',
     L = L1 ++ d :: L2 /\ keys_below k L1 /\ Compare (e_key d) k = 0 /\
     Delete_run fuel k st =
       Ok (mkRun true (Some (e_addr d)) (replicate (S (e_level d)) true) true,
           st') /\
     Inv st' (L1 ++ L2) /\
     forall i, (i <= e_level d)%nat ->
       has_edge st' (e_addr d) i true (succ_at i L2)).
Proof.
  intros HI Hfuel. pose proof HI as [HB Hp].
  pose proof (base_sched _ _ HB) as Hs.
  pose proof (base_level _ _ HB) as Hlv. unfold MaxLevel in Hlv.
  destruct (split_at_key k L (base_sorted _ _ HB)) as (L1 & L2 & -> & Hlo & Hhi).
  assert (Hf1 : (length L1 < fuel)%nat) by (rewrite length_app in Hfuel; lia).
  destruct (findPath_spec fuel k L1 None L2 st Hlo Hhi Hf1)
    as (st0 & ps & ss & cc & Ef & _ & Hpath & Hcmp & _ & Hsame).
  { apply Inv_Desc. exact HI. }
  rewrite (Hsame eq_refl) in Ef, Hcmp. clear st0 Hsame.
  destruct (Hpath 0%nat ltac:(lia)) as [_ Hss0].
  unfold Delete_run. mstep Ef.
  assert (Hnot : cc <> 0 ->
            Forall (fun e => Compare (e_key e) k <> 0) (L1 ++ L2)).
  { intros Hcc. apply no_equal_key; auto; [apply (base_sorted _ _ HB)|].
    intros d Hd. destruct L2 as [|d' L2]; [discriminate|]. injection Hd as ->.
    assert (Hc' : node_cmp st (e_addr d) k (Compare (e_key d) k)).
    { apply node_cmp_entry. apply (base_nodes _ _ HB).
      apply elem_of_app. right. left. }
    unfold succ_at in Hcmp. rewrite lev_0 in Hcmp. cbn in Hcmp.
    rewrite (node_cmp_fun _ _ _ _ _ Hc' Hcmp). exact Hcc. }
  destruct (Z.eqb_spec cc 0) as [Hcc|Hcc]; cbn [negb];
    [|left; split; [apply Hnot, Hcc|reflexivity]].
  right. subst cc.
  destruct L2 as [|d L2].
  { exfalso. unfold succ_at in Hcmp. cbn in Hcmp.
    destruct (base_tail_node _ _ HB) as (tn & Htn & Hit).
    assert (Hc' : node_cmp st 1 k 1) by (exists tn; rewrite Hit; auto).
    pose proof (node_cmp_fun _ _ _ _ _ Hc' Hcmp). lia. }
  assert (Hdk : Compare (e_key d) k = 0).
  { assert (Hc' : node_cmp st (e_addr d) k (Compare (e_key d) k)).
    { apply node_cmp_entry. apply (base_nodes _ _ HB).
      apply elem_of_app. right. left. }
    unfold succ_at in Hcmp. rewrite lev_0 in Hcmp. cbn in Hcmp.
    apply (node_cmp_fun _ _ _ _ _ Hc' Hcmp). }
  assert (Hsucc : succ_at 0 (d :: L2) = e_addr d).
  { unfold succ_at. rewrite lev_0. reflexivity. }
  rewrite Hsucc in Hss0. unfold index_at. rewrite Hss0.
  unfold bind at 1. unfold ret at 1.
  destruct (base_nodes _ _ HB d) as (Hdge & (ndd & Hndd & Hitd & Hlvd & Hlend) & Hdl).
  { apply elem_of_app. right. left. }
  mstep (deref_ok st (e_addr d) ndd Hndd). rewrite Hlvd.
  replace (Z.to_nat (Z.of_nat (e_level d) + 1)) with (S (e_level d)) by lia.
  pose proof (Inv_mark_ok st L1 d L2 HI) as Hmk.
  destruct (mark_state_ok L1 d L2 (S (e_level d)) st (Nat.le_refl _) Hmk)
    as (Hmk0 & Hlogs & Hsl).
  assert (Hfuel0 : (0 < fuel)%nat) by lia.
  assert (Hedges : forall i, (i < S (e_level d))%nat ->
            is_Some (edge_of st (e_addr d) i)).
  { intros i Hi.
    assert (Hi32 : (i <= 32)%nat) by lia.
    specialize (Hp i Hi32). change (L1 ++ d :: L2) with (L1 ++ [d] ++ L2) in Hp.
    rewrite lev_keep in Hp by lia.
    replace (0%nat :: (lev i L1 ++ e_addr d :: lev i L2) ++ [1%nat])
      with ((0%nat :: lev i L1) ++ e_addr d :: (lev i L2 ++ [1%nat])) in Hp
      by (cbn [app]; rewrite <- app_assoc; reflexivity).
    apply path_app_inv in Hp as [_ Hpost].
    destruct (lev i L2 ++ [1%nat]) as [|c rest] eqn:E.
    { destruct (lev i L2); discriminate. }
    destruct Hpost as [He _]. rewrite (has_edge_edge_of _ _ _ _ _ He). eauto. }
  pose proof (markLevels_seq fuel (e_addr d) (S (e_level d)) st false []
                Hs Hfuel0 Hedges) as Em.
  rewrite Hlogs in Em. cbn [app] in Em.
  destruct (decide (replicate (S (e_level d)) true = [])) as [E|_];
    [discriminate|].
  set (stm := mark_state (e_addr d) (S (e_level d)) st) in *.
  assert (HD : Desc stm L1 (Some d) L2 (Z.to_nat (slevel stm + 1))).
  { apply mark_ok_Desc; [rewrite Hsl; lia | exact Hmk0]. }
  inversion Hhi as [|? ? _ Hhi2]; subst.
  destruct (findPath_spec fuel k L1 (Some d) L2 stm Hlo Hhi2 Hf1 HD)
    as (st' & ps' & ss' & cc' & Ef' & HD' & _ & _ & Hfr & _).
  exists L1, d, L2, st'. split; [reflexivity|]. split; [exact Hlo|].
  split; [exact Hdk|]. split; [mstep Em; mstep Ef'; reflexivity|].
  split; [eapply Desc_Inv; exact HD'|].
  intros i Hi. destruct Hfr as (_ & _ & Hkeep). apply Hkeep.
  - destruct (entry_notin st L1 L2 d 0 HB) as (Hn & _). rewrite lev_0 in Hn.
    exact Hn.
  - destruct Hmk0 as [_ Hl0]. specialize (Hl0 i ltac:(lia)).
    destruct (decide (0 <= i <= e_level d)%nat); [|lia]. apply Hl0.
Qed.

(** Whatever the other threads do, the flag [deleteMarked] holds the
    outcome of the last marking CAS. *)
Lemma markInner_last delNode i : forall n nxt del dm log (st : State K) dm' log' st',
  markInner n delNode i nxt del dm log st = Ok ((dm', log'), st') ->
  exists ext, log' = log ++ ext /\ dm' = default dm (last ext).
Proof.
  induction n as [|n IH]; intros nxt del dm log st dm' log' st' E.
  - destruct del; cbn in E; [|discriminate].
    injection E as <- <- <-. exists []. rewrite app_nil_r. auto.
  - destruct del; cbn [markInner] in E.
    + injection E as <- <- <-. exists []. rewrite app_nil_r. auto.
    + unfold bind at 1 in E.
      destruct (dcasNext delNode i nxt nxt false true st) as [[ok st1]| |];
        try discriminate.
      unfold bind at 1 in E.
      destruct (getNext delNode i st1) as [[[nxt' del'] st2]| |];
        try discriminate.
      apply IH in E as (ext & -> & ->). exists (ok :: ext).
      rewrite <- app_assoc. split; [reflexivity|].
      rewrite last_cons. destruct (last ext); reflexivity.
Qed.

Lemma markLevels_last fuel delNode : forall n dm log (st : State K) dm' log' st',
  markLevels fuel n delNode dm log st = Ok ((dm', log'), st') ->
  exists ext, log' = log ++ ext /\ dm' = default dm (last ext).
Proof.
  induction n as [|n IH]; intros dm log st dm' log' st' E.
  - cbn in E. injection E as <- <- <-. exists []. rewrite app_nil_r. auto.
  - cbn [markLevels] in E. unfold bind at 1 in E.
    destruct (getNext delNode n st) as [[[nxt del] st1]| |]; try discriminate.
    unfold bind at 1 in E.
    destruct (markInner fuel delNode n nxt del dm log st1)
      as [[[dm1 log1] st2]| |] eqn:E1; try discriminate.
    apply markInner_last in E1 as (ext1 & -> & ->).
    apply IH in E as (ext2 & -> & ->). exists (ext1 ++ ext2).
    rewrite <- app_assoc. split; [reflexivity|].
    destruct ext2 as [|b ext2]; [rewrite app_nil_r; reflexivity|].
    rewrite last_app. cbn [default].
    destruct (last (b :: ext2)) eqn:El; [reflexivity|].
    apply last_None in El. discriminate.
Qed.

Lemma Delete_run_again fuel k (st : State K) r st' :
  Delete_run fuel k st = Ok (r, st') ->
  run_again r = default false (last (run_cas r)).
Proof.
  unfold Delete_run. intros E. unfold bind at 1 in E.
  destruct (findPath fuel k st) as [[[[ps ss] found] st1]| |]; try discriminate.
  destruct found; cbn [negb] in E.
  - unfold bind at 1 in E.
    destruct (index_at ss 0 st1) as [[delNode st2]| |]; try discriminate.
    unfold bind at 1 in E.
    destruct (deref delNode st2) as [[nd st3]| |]; try discriminate.
    cbv zeta in E. unfold bind at 1 in E.
    destruct (markLevels fuel (Z.to_nat (level nd + 1)) delNode false [] st3)
      as [[[dm log] st4]| |] eqn:Em; try discriminate.
    apply markLevels_last in Em as (ext & -> & ->). cbn [app] in E.
    destruct (default false (last ext)) eqn:Ed.
    + unfold bind at 1 in E.
      destruct (findPath fuel k st4) as [[? st5]| |]; try discriminate.
      injection E as <- <-. cbn. auto.
    + injection E as <- <-. cbn. auto.
  - injection E as <- <-. reflexivity.
Qed.

Lemma Delete_ok fuel k (st : State K) L :
  Inv st L -> (length L < fuel)%nat ->
  exists st' L', Delete fuel k st = Ok (tt, st') /\ Inv st' L' /\
                 (length L' <= length L)%nat.
Proof.
  intros HI Hfuel. unfold Delete.
  destruct (Delete_run_spec fuel k st L HI Hfuel)
    as [[_ E]|(L1 & d & L2 & st' & -> & _ & _ & E & HI' & _)].
  - exists st, L. mstep E. auto.
  - exists st', (L1 ++ L2). mstep E. split; [reflexivity|]. split; [exact HI'|].
    rewrite !length_app. cbn. lia.
Qed.

(** *** The new list and the traversal *)

Lemma Inv_New : Inv (@New K) [].
Proof.
  split.
  - split; try reflexivity.
    + cbn. unfold MaxLevel. lia.
    + eexists. split; reflexivity.
    + intros i Hi. eexists. split; [reflexivity|]. cbn [next].
      apply lookup_replicate_2. lia.
    + constructor.
    + intros e He. inversion He.
    + constructor.
  - intros i Hi. cbn. split; [|exact I]. eexists. split; [reflexivity|].
    cbn [next]. apply lookup_replicate_2. lia.
Qed.

Lemma path_hd (st : State K) i a xs :
  xs <> [] -> path st i (a :: xs) ->
  has_edge st a i false (hd 1%nat xs) /\ path st i xs.
Proof. destruct xs as [|b t]; [congruence|]. intros _ Hp. exact Hp. Qed.

Lemma snoc_ne_nil {A} (l : list A) x : l ++ [x] <> [].
Proof. destruct l; discriminate. Qed.

Lemma walk0_spec (st : State K) : forall (L : list (Entry K)) n,
  tail st = Some 1%nat ->
  (forall e, e ∈ L -> (2 <= e_addr e)%nat /\ node_ok st e) ->
  path st 0 (addrs L ++ [1%nat]) -> (length L < n)%nat ->
  walk0 n st (Some (hd 1%nat (addrs L ++ [1%nat]))) = Some (map e_key L).
Proof.
  induction L as [|e L IH]; intros n Ht Hn Hp Hlen.
  - destruct n as [|n]; [cbn in Hlen; lia|]. cbn. rewrite Ht. reflexivity.
  - destruct n as [|n]; [cbn in Hlen; lia|].
    destruct (Hn e ltac:(left)) as (Hge & nd & Hnd & Hit & _ & _).
    change (addrs (e :: L) ++ [1%nat])
      with (e_addr e :: (addrs L ++ [1%nat])) in Hp |- *.
    apply path_hd in Hp as [Hedge Hp']; [|apply snoc_ne_nil].
    destruct Hedge as (nd' & Hnd' & Hnx). rewrite Hnd in Hnd'.
    injection Hnd' as <-.
    cbn [walk0 hd]. rewrite Ht. cbn [nodeptr_eqb].
    destruct (Nat.eqb_spec (e_addr e) 1) as [E1|_]; [lia|].
    rewrite Hnd, Hnx. cbn [ptr deleted].
    rewrite (IH n Ht (fun e' He' => Hn e' ltac:(right; exact He')) Hp'
               ltac:(cbn in Hlen; lia)).
    rewrite Hit. reflexivity.
Qed.

(** The traversal of a well-formed list yields the items of its nodes,
    in list order. *)
Lemma items_spec (st : State K) L n :
  Inv st L -> (length L < n)%nat -> items n st = Some (map e_key L).
Proof.
  intros [HB Hp] Hlen. specialize (Hp 0%nat ltac:(lia)).
  rewrite lev_0 in Hp. unfold items. rewrite (base_head _ _ HB).
  apply path_hd in Hp as [Hedge Hp']; [|apply snoc_ne_nil].
  destruct Hedge as (nd & Hnd & Hnx). rewrite Hnd, Hnx. cbn [ptr].
  apply walk0_spec; [apply (base_tail _ _ HB)| |exact Hp'|exact Hlen].
  intros e He. destruct (base_nodes _ _ HB e He) as (? & ? & _). auto.
Qed.

Lemma sorted_keys (L : list (Entry K)) :
  StronglySorted key_le L ->
  StronglySorted (fun a b : K => Compare a b <= 0) (map e_key L).
Proof.
  induction 1 as [|e L _ IH Hall]; cbn; constructor; [exact IH|].
  apply Forall_map. exact Hall.
Qed.

(** *** Sequences of operations *)

Lemma step_spec fuel op (st : State K) L :
  Inv st L -> op_ok op -> (length L < fuel)%nat ->
  exists st' L', step fuel op st = Ok (tt, st') /\ Inv st' L' /\
                 (length L' <= S (length L))%nat.
Proof.
  intros HI Hop Hfuel. destruct op as [k samples|k]; cbn [step].
  - destruct (Insert2_spec fuel k samples st L HI Hop Hfuel)
      as (st' & L1 & ex & L2 & -> & E & HI' & _).
    exists st', (L1 ++ ex :: L2). split; [exact E|]. split; [exact HI'|].
    rewrite !length_app. cbn. lia.
  - destruct (Delete_ok fuel k st L HI Hfuel) as (st' & L' & E & HI' & Hl).
    exists st', L'. split; [exact E|]. split; [exact HI'|]. lia.
Qed.

Lemma run_spec fuel : forall ops (st : State K) L,
  Inv st L -> Forall op_ok ops -> (length L + length ops <= fuel)%nat ->
  exists st' L', run fuel ops st = Ok (tt, st') /\ Inv st' L' /\
                 (length L' <= length L + length ops)%nat.
Proof.
  induction ops as [|op ops IH]; intros st L HI Hops Hfuel.
  - exists st, L. split; [reflexivity|]. split; [exact HI|]. lia.
  - inversion Hops as [|? ? Hop Hops']; subst. cbn [length] in Hfuel.
    destruct (step_spec fuel op st L HI Hop ltac:(lia))
      as (st1 & L1 & E1 & HI1 & Hl1).
    destruct (IH st1 L1 HI1 Hops' ltac:(lia)) as (st' & L' & E & HI' & Hl).
    exists st', L'. cbn [run]. mstep E1. split; [exact E|].
    split; [exact HI'|]. cbn [length]. lia.
Qed.

(** C1 (amended): [Delete] returns no value.  In single-threaded use on a
    well-formed list it finds a node iff some item of the list equals
    [k]; if none does, the list is left as it is; otherwise the first node
    with an equal item is marked at every level and unlinked from the
    list. *)
Theorem Delete_marks_found_item fuel k (st : State K) L :
  Inv st L -> (length L < fuel)%nat ->
  exists r st',
    Delete_run fuel k st = Ok (r, st') /\
    Delete fuel k st = Ok (tt, st') /\
    (run_found r = true <-> Exists (fun e => Compare (e_key e) k = 0) L) /\
    (run_found r = false -> st' = st) /\
    (run_found r = true ->
       exists L1 d L2,
         L = L1 ++ d :: L2 /\ keys_below k L1 /\ Compare (e_key d) k = 0 /\
         run_target r = Some (e_addr d) /\
         (forall i, (i <= e_level d)%nat ->
            has_edge st' (e_addr d) i true (succ_at i L2)) /\
         Inv st' (L1 ++ L2)).
Proof.
  intros HI Hfuel.
  destruct (Delete_run_spec fuel k st L HI Hfuel)
    as [[Hno E]|(L1 & d & L2 & st' & -> & Hlo & Hdk & E & HI' & Hmarked)].
  - exists (mkRun false None [] false), st. split; [exact E|].
    split; [unfold Delete; mstep E; reflexivity|]. cbn [run_found].
    split; [|split; [reflexivity|discriminate]].
    split; [discriminate|]. intros Hex. exfalso.
    apply Exists_exists in Hex as (e & He & Hek).
    rewrite Forall_forall in Hno. exact (Hno e He Hek).
  - eexists _, st'. split; [exact E|].
    split; [unfold Delete; mstep E; reflexivity|]. cbn [run_found run_target].
    split; [|split; [discriminate|]].
    + split; [intros _|reflexivity]. apply Exists_exists. exists d.
      split; [|exact Hdk]. apply elem_of_app. right. left.
    + intros _. exists L1, d, L2. auto 7.
Qed.

(** [Delete] is its marking part followed, when [deleteMarked] is set,
    by [findPath]. *)
Lemma Delete_split fuel k (st : State K) :
  Delete fuel k st =
    match Delete_mark fuel k st with
    | Ok ((deleteMarked, _), st1) =>
        if deleteMarked then bind (findPath fuel k) (fun _ => ret tt) st1
        else Ok (tt, st1)
    | Panic f => Panic f
    | OutOfFuel => OutOfFuel
    end.
Proof.
  unfold Delete, Delete_run, Delete_mark, bind, ret.
  destruct (findPath fuel k st) as [[[[ps ss] found] st1]| |]; try reflexivity.
  destruct found; cbn [negb]; [|reflexivity].
  destruct (index_at ss 0 st1) as [[delNode st2]| |]; try reflexivity.
  destruct (deref delNode st2) as [[nd st3]| |]; try reflexivity.
  cbv zeta.
  destruct (markLevels fuel (Z.to_nat (level nd + 1)) delNode false [] st3)
    as [[[dm log] st4]| |]; try reflexivity.
  destruct dm; [|reflexivity].
  destruct (findPath fuel k st4) as [[? st5]| |]; reflexivity.
Qed.

Lemma Delete_mark_last fuel k (st : State K) dm log st1 :
  Delete_mark fuel k st = Ok ((dm, log), st1) ->
  dm = default false (last log).
Proof.
  unfold Delete_mark. intros E. unfold bind at 1 in E.
  destruct (findPath fuel k st) as [[[[ps ss] found] st0]| |]; try discriminate.
  destruct found; cbn [negb] in E.
  - unfold bind at 1 in E.
    destruct (index_at ss 0 st0) as [[delNode st2]| |]; try discriminate.
    unfold bind at 1 in E.
    destruct (deref delNode st2) as [[nd st3]| |]; try discriminate.
    cbv zeta in E.
    apply markLevels_last in E as (ext & -> & ->). reflexivity.
  - injection E as <- <- <-. reflexivity.
Qed.

(** The last node of level [i] before the place of the search points to
    what follows on the path. *)
Lemma pred_at_edge (st : State K) i (L1 : list (Entry K)) b :
  path st i (0%nat :: lev i L1 ++ [b]) -> has_edge st (pred_at i L1) i false b.
Proof.
  unfold pred_at. generalize (lev i L1). intros l.
  induction l as [|a l _] using rev_ind.
  - cbn. intros [He _]. exact He.
  - rewrite last_snoc. cbn [default]. intros Hp.
    apply (path_last_edge st i (0%nat :: l)). cbn [app].
    rewrite <- app_assoc in Hp. exact Hp.
Qed.

(** The two parts of [Delete] on a well-formed list that holds an item
    equal to [k]: the marking loop marks every level of the first such
    node with one successful CAS each and leaves the node linked; the
    second [findPath] unlinks it. *)
Lemma Delete_mark_spec fuel k (st : State K) L :
  Inv st L -> (length L < fuel)%nat ->
  (Forall (fun e => Compare (e_key e) k <> 0) L /\
   Delete_mark fuel k st = Ok ((false, []), st)) \/
  (exists L1 d L2 st1 r st',
     L = L1 ++ d :: L2 /\ keys_below k L1 /\ Compare (e_key d) k = 0 /\
     Delete_mark fuel k st =
       Ok ((true, replicate (S (e_level d)) true), st1) /\
     mark_ok st1 L1 d L2 0 /\
     findPath fuel k st1 = Ok (r, st') /\
     Inv st' (L1 ++ L2) /\
     forall i, (i <= e_level d)%nat ->
       has_edge st' (e_addr d) i true (succ_at i L2)).
Proof.
  intros HI Hfuel. pose proof HI as [HB Hp].
  pose proof (base_sched _ _ HB) as Hs.
  pose proof (base_level _ _ HB) as Hlv. unfold MaxLevel in Hlv.
  destruct (split_at_key k L (base_sorted _ _ HB)) as (L1 & L2 & -> & Hlo & Hhi).
  assert (Hf1 : (length L1 < fuel)%nat) by (rewrite length_app in Hfuel; lia).
  destruct (findPath_spec fuel k L1 None L2 st Hlo Hhi Hf1)
    as (st0 & ps & ss & cc & Ef & _ & Hpath & Hcmp & _ & Hsame).
  { apply Inv_Desc. exact HI. }
  rewrite (Hsame eq_refl) in Ef, Hcmp. clear st0 Hsame.
  destruct (Hpath 0%nat ltac:(lia)) as [_ Hss0].
  unfold Delete_mark. mstep Ef.
  assert (Hnot : cc <> 0 ->
            Forall (fun e => Compare (e_key e) k <> 0) (L1 ++ L2)).
  { intros Hcc. apply no_equal_key; auto; [apply (base_sorted _ _ HB)|].
    intros d Hd. destruct L2 as [|d' L2]; [discriminate|]. injection Hd as ->.
    assert (Hc' : node_cmp st (e_addr d) k (Compare (e_key d) k)).
    { apply node_cmp_entry. apply (base_nodes _ _ HB).
      apply elem_of_app. right. left. }
    unfold succ_at in Hcmp. rewrite lev_0 in Hcmp. cbn in Hcmp.
    rewrite (node_cmp_fun _ _ _ _ _ Hc' Hcmp). exact Hcc. }
  destruct (Z.eqb_spec cc 0) as [Hcc|Hcc]; cbn [negb];
    [|left; split; [apply Hnot, Hcc|reflexivity]].
  right. subst cc.
  destruct L2 as [|d L2].
  { exfalso. unfold succ_at in Hcmp. cbn in Hcmp.
    destruct (base_tail_node _ _ HB) as (tn & Htn & Hit).
    assert (Hc' : node_cmp st 1 k 1) by (exists tn; rewrite Hit; auto).
    pose proof (node_cmp_fun _ _ _ _ _ Hc' Hcmp). lia. }
  assert (Hdk : Compare (e_key d) k = 0).
  { assert (Hc' : node_cmp st (e_addr d) k (Compare (e_key d) k)).
    { apply node_cmp_entry. apply (base_nodes _ _ HB).
      apply elem_of_app. right. left. }
    unfold succ_at in Hcmp. rewrite lev_0 in Hcmp. cbn in Hcmp.
    apply (node_cmp_fun _ _ _ _ _ Hc' Hcmp). }
  assert (Hsucc : succ_at 0 (d :: L2) = e_addr d).
  { unfold succ_at. rewrite lev_0. reflexivity. }
  rewrite Hsucc in Hss0. unfold index_at. rewrite Hss0.
  unfold bind at 1. unfold ret at 1.
  destruct (base_nodes _ _ HB d) as (Hdge & (ndd & Hndd & Hitd & Hlvd & Hlend) & Hdl).
  { apply elem_of_app. right. left. }
  mstep (deref_ok st (e_addr d) ndd Hndd). rewrite Hlvd.
  replace (Z.to_nat (Z.of_nat (e_level d) + 1)) with (S (e_level d)) by lia.
  pose proof (Inv_mark_ok st L1 d L2 HI) as Hmk.
  destruct (mark_state_ok L1 d L2 (S (e_level d)) st (Nat.le_refl _) Hmk)
    as (Hmk0 & Hlogs & Hsl).
  assert (Hfuel0 : (0 < fuel)%nat) by lia.
  assert (Hedges : forall i, (i < S (e_level d))%nat ->
            is_Some (edge_of st (e_addr d) i)).
  { intros i Hi.
    assert (Hi32 : (i <= 32)%nat) by lia.
    specialize (Hp i Hi32). change (L1 ++ d :: L2) with (L1 ++ [d] ++ L2) in Hp.
    rewrite lev_keep in Hp by lia.
    replace (0%nat :: (lev i L1 ++ e_addr d :: lev i L2) ++ [1%nat])
      with ((0%nat :: lev i L1) ++ e_addr d :: (lev i L2 ++ [1%nat])) in Hp
      by (cbn [app]; rewrite <- app_assoc; reflexivity).
    apply path_app_inv in Hp as [_ Hpost].
    destruct (lev i L2 ++ [1%nat]) as [|c rest] eqn:E.
    { destruct (lev i L2); discriminate. }
    destruct Hpost as [He _]. rewrite (has_edge_edge_of _ _ _ _ _ He). eauto. }
  pose proof (markLevels_seq fuel (e_addr d) (S (e_level d)) st false []
                Hs Hfuel0 Hedges) as Em.
  rewrite Hlogs in Em. cbn [app] in Em.
  destruct (decide (replicate (S (e_level d)) true = [])) as [E|_];
    [discriminate|].
  set (stm := mark_state (e_addr d) (S (e_level d)) st) in *.
  assert (HD : Desc stm L1 (Some d) L2 (Z.to_nat (slevel stm + 1))).
  { apply mark_ok_Desc; [rewrite Hsl; lia | exact Hmk0]. }
  inversion Hhi as [|? ? _ Hhi2]; subst.
  destruct (findPath_spec fuel k L1 (Some d) L2 stm Hlo Hhi2 Hf1 HD)
    as (st' & ps' & ss' & cc' & Ef' & HD' & _ & _ & Hfr & _).
  exists L1, d, L2, stm, (ps', ss', cc' =? 0), st'.
  split; [reflexivity|]. split; [exact Hlo|]. split; [exact Hdk|].
  split; [exact Em|]. split; [exact Hmk0|]. split; [exact Ef'|].
  split; [eapply Desc_Inv; exact HD'|].
  intros i Hi. destruct Hfr as (_ & _ & Hkeep). apply Hkeep.
  - destruct (entry_notin st L1 L2 d 0 HB) as (Hn & _). rewrite lev_0 in Hn.
    exact Hn.
  - destruct Hmk0 as [_ Hl0]. specialize (Hl0 i ltac:(lia)).
    destruct (decide (0 <= i <= e_level d)%nat); [|lia]. apply Hl0.
Qed.

(** C4 (amended): whatever the other threads do, [deleteMarked] at the
    end of the marking loop is the outcome of the last marking CAS that
    [Delete] attempted, and [Delete] goes on with [findPath] exactly when
    it is set; when it is not, [Delete] returns in the state the marking
    loop left.  In single-threaded use on a well-formed list that holds an
    item equal to [k], every level of the first such node is marked by one
    successful CAS; after the marking loop the node is still linked at
    each of its levels, and the second [findPath] unlinks it at every
    level before [Delete] returns. *)
Theorem Delete_findPath_again fuel k (st : State K) :
  match Delete_mark fuel k st with
  | Ok ((deleteMarked, log), st1) =>
      (deleteMarked = true <-> last log = Some true) /\
      Delete fuel k st =
        (if deleteMarked then bind (findPath fuel k) (fun _ => ret tt) st1
         else Ok (tt, st1))
  | Panic f => Delete fuel k st = Panic f
  | OutOfFuel => Delete fuel k st = OutOfFuel
  end /\
  (forall L, Inv st L -> (length L < fuel)%nat ->
     Exists (fun e => Compare (e_key e) k = 0) L ->
     exists L1 d L2 st1 r st',
       L = L1 ++ d :: L2 /\ keys_below k L1 /\ Compare (e_key d) k = 0 /\
       Delete_mark fuel k st =
         Ok ((true, replicate (S (e_level d)) true), st1) /\
       findPath fuel k st1 = Ok (r, st') /\
       Delete fuel k st = Ok (tt, st') /\
       (forall i, (i <= e_level d)%nat ->
          has_edge st1 (pred_at i L1) i false (e_addr d) /\
          has_edge st1 (e_addr d) i true (succ_at i L2) /\
          has_edge st' (pred_at i L1) i false (succ_at i L2) /\
          has_edge st' (e_addr d) i true (succ_at i L2)) /\
       Inv st' (L1 ++ L2)).
Proof.
  split.
  - rewrite Delete_split.
    destruct (Delete_mark fuel k st) as [[[dm log] st1]| |] eqn:E;
      try reflexivity.
    split; [|reflexivity].
    rewrite (Delete_mark_last fuel k st dm log st1 E).
    destruct (last log) as [[|]|]; cbn; split; congruence.
  - intros L HI Hfuel Hex.
    destruct (Delete_mark_spec fuel k st L HI Hfuel)
      as [[Hno _]|(L1 & d & L2 & st1 & r & st' & -> & Hlo & Hdk & Em & Hmk
                    & Ef & HI' & Hdel)].
    { exfalso. apply Exists_exists in Hex as (e & He & Hek).
      rewrite Forall_forall in Hno. exact (Hno e He Hek). }
    exists L1, d, L2, st1, r, st'.
    split; [reflexivity|]. split; [exact Hlo|]. split; [exact Hdk|].
    split; [exact Em|]. split; [exact Ef|].
    split.
    { rewrite Delete_split, Em. unfold bind. rewrite Ef. reflexivity. }
    split; [|exact HI'].
    intros i Hi.
    destruct Hmk as [HB1 Hl1].
    assert (Hi32 : (i <= 32)%nat).
    { destruct (base_nodes _ _ HB1 d) as (_ & _ & Hdl).
      { apply elem_of_app. right. left. }
      pose proof (base_level _ _ HB1) as Hlv. unfold MaxLevel in Hlv. lia. }
    specialize (Hl1 i Hi32).
    destruct (decide (0 <= i <= e_level d)%nat) as [_|Hn]; [|lia].
    destruct Hl1 as (Hpre & Hmark & _).
    split; [apply pred_at_edge; exact Hpre|]. split; [exact Hmark|].
    split; [|apply Hdel; exact Hi].
    destruct HI' as [_ Hp']. specialize (Hp' i Hi32).
    rewrite lev_app in Hp'.
    assert (Hrest : exists rest, lev i L2 ++ [1%nat] = succ_at i L2 :: rest).
    { destruct (succ_at_cases i L2) as [[-> ->]|[rest Er]].
      - exists []. reflexivity.
      - exists (rest ++ [1%nat]). rewrite Er. reflexivity. }
    destruct Hrest as [rest Er].
    replace (0%nat :: (lev i L1 ++ lev i L2) ++ [1%nat])
      with ((0%nat :: lev i L1) ++ succ_at i L2 :: rest) in Hp'
      by (cbn [app]; rewrite <- app_assoc, Er; reflexivity).
    apply path_app_inv in Hp' as [Hp' _].
    apply pred_at_edge. exact Hp'.
Qed.

(** C5: after any sequence of inserts and deletes on a new list, without
    other threads, the items met along level 0 from the head to the tail,
    leaving out the nodes whose level-0 reference is marked, are in
    non-decreasing order. *)
Theorem items_sorted_after_run fuel (ops : list (@Skiplist.Op K)) :
  Forall op_ok ops -> (length ops <= fuel)%nat ->
  exists st ks,
    run fuel ops New = Ok (tt, st) /\
    (forall n, (length ops < n)%nat -> items n st = Some ks) /\
    StronglySorted (fun a b : K => Compare a b <= 0) ks.
Proof.
  intros Hops Hfuel.
  destruct (run_spec fuel ops New [] Inv_New Hops ltac:(cbn; lia))
    as (st & L & E & HI & Hlen).
  exists st, (map e_key L). split; [exact E|]. split.
  - intros n Hn. apply items_spec; [exact HI|]. cbn in Hlen. lia.
  - apply sorted_keys. apply (base_sorted _ _ (proj1 HI)).
Qed.

End Operations.

(** *** The list the operations implement *)

Section Refinement.
Context {K : Type} `{Item K} `{!ItemLaws K}.

Ltac mstep E := rewrite (bind_Ok _ _ _ _ _ E); cbv beta iota.

Lemma Compare_refl (k : K) : Compare k k = 0.
Proof. pose proof (Compare_antisym k k). lia. Qed.

Lemma list_ins_split (k : K) l1 l2 :
  Forall (fun a => Compare a k < 0) l1 ->
  Forall (fun a => 0 <= Compare a k) l2 ->
  list_ins k (l1 ++ l2) = l1 ++ k :: l2.
Proof.
  intros H1 H2. induction H1 as [|a l1 Ha _ IH]; cbn.
  - destruct H2 as [|b l2 Hb _]; [reflexivity|]. cbn.
    destruct (Z.ltb_spec (Compare b k) 0); [lia|reflexivity].
  - destruct (Z.ltb_spec (Compare a k) 0); [|lia]. rewrite IH. reflexivity.
Qed.

Lemma list_del_found (k : K) l1 a l2 :
  Forall (fun b => Compare b k < 0) l1 -> Compare a k = 0 ->
  list_del k (l1 ++ a :: l2) = l1 ++ l2.
Proof.
  intros H1 Ha. induction H1 as [|b l1 Hb _ IH]; cbn.
  - rewrite Ha. reflexivity.
  - destruct (Z.ltb_spec (Compare b k) 0); [|lia]. rewrite IH. reflexivity.
Qed.

Lemma list_del_none (k : K) l :
  Forall (fun a => Compare a k <> 0) l -> list_del k l = l.
Proof.
  induction 1 as [|a l Ha _ IH]; cbn; [reflexivity|].
  destruct (Z.ltb_spec (Compare a k) 0); [rewrite IH; reflexivity|].
  destruct (Z.eqb_spec (Compare a k) 0); [contradiction|reflexivity].
Qed.

Lemma list_del_ins (k : K) l : list_del k (list_ins k l) = l.
Proof.
  induction l as [|a l IH]; cbn.
  - rewrite Compare_refl. reflexivity.
  - destruct (Z.ltb_spec (Compare a k) 0) as [Hlt|Hge]; cbn.
    + destruct (Z.ltb_spec (Compare a k) 0); [|lia]. rewrite IH. reflexivity.
    + rewrite Compare_refl. reflexivity.
Qed.

Lemma keys_below_map (k : K) L :
  keys_below k L -> Forall (fun a => Compare a k < 0) (map e_key L).
Proof. intros HL. apply Forall_map. exact HL. Qed.

Lemma keys_not_below_map (k : K) L :
  keys_not_below k L -> Forall (fun a => 0 <= Compare a k) (map e_key L).
Proof. intros HL. apply Forall_map. exact HL. Qed.

Lemma step_model fuel op (st : State K) L :
  Inv st L -> op_ok op -> (length L < fuel)%nat ->
  exists st' L', step fuel op st = Ok (tt, st') /\ Inv st' L' /\
                 (length L' <= S (length L))%nat /\
                 map e_key L' = list_op (map e_key L) op.
Proof.
  intros HI Hop Hfuel. destruct op as [k samples|k]; cbn [step list_op].
  - destruct (Insert2_spec fuel k samples st L HI Hop Hfuel)
      as (st' & L1 & ex & L2 & -> & E & HI' & Hk & Hlo & Hhi).
    exists st', (L1 ++ ex :: L2). split; [exact E|]. split; [exact HI'|].
    split; [rewrite !length_app; cbn; lia|].
    rewrite !map_app. cbn [map]. rewrite Hk. symmetry.
    apply list_ins_split;
      [apply keys_below_map, Hlo | apply keys_not_below_map, Hhi].
  - unfold Delete.
    destruct (Delete_run_spec fuel k st L HI Hfuel)
      as [[Hno E]|(L1 & d & L2 & st' & -> & Hlo & Hdk & E & HI' & _)].
    + exists st, L. mstep E. split; [reflexivity|]. split; [exact HI|].
      split; [lia|]. symmetry. apply list_del_none. apply Forall_map. exact Hno.
    + exists st', (L1 ++ L2). mstep E. split; [reflexivity|].
      split; [exact HI'|]. split; [rewrite !length_app; cbn; lia|].
      rewrite !map_app. cbn [map]. symmetry.
      apply list_del_found; [apply keys_below_map, Hlo | exact Hdk].
Qed.

Lemma run_model fuel : forall ops (st : State K) L,
  Inv st L -> Forall op_ok ops -> (length L + length ops <= fuel)%nat ->
  exists st' L', run fuel ops st = Ok (tt, st') /\ Inv st' L' /\
                 (length L' <= length L + length ops)%nat /\
                 map e_key L' = fold_left list_op ops (map e_key L).
Proof.
  induction ops as [|op ops IH]; intros st L HI Hops Hfuel.
  - exists st, L. split; [reflexivity|]. split; [exact HI|]. split; [lia|].
    reflexivity.
  - inversion Hops as [|? ? Hop Hops']; subst. cbn [length] in Hfuel.
    destruct (step_model fuel op st L HI Hop ltac:(lia))
      as (st1 & L1 & E1 & HI1 & Hl1 & Hm1).
    destruct (IH st1 L1 HI1 Hops' ltac:(lia)) as (st' & L' & E & HI' & Hl & Hm).
    exists st', L'. cbn [run]. mstep E1. split; [exact E|].
    split; [exact HI'|]. split; [cbn [length]; lia|].
    cbn [fold_left]. rewrite <- Hm1. exact Hm.
Qed.

(** A state reached from the new list is well formed, and holds what the
    operations put there. *)
Lemma reached_Inv fuel ops (st : State K) :
  Forall op_ok ops -> (length ops <= fuel)%nat ->
  run fuel ops New = Ok (tt, st) ->
  exists L, Inv st L /\ (length L <= length ops)%nat /\
            map e_key L = fold_left list_op ops [].
Proof.
  intros Hops Hfuel Hrun.
  destruct (run_model fuel ops New [] Inv_New Hops ltac:(cbn; lia))
    as (st' & L & E & HI & Hl & Hm).
  rewrite Hrun in E. injection E as <-. exists L. auto.
Qed.

(** Without other threads, a sequence of inserts and deletes on a new
    list runs to its end, and the forward traversal then yields the list
    obtained by inserting each item in front of the first item that is not
    smaller and deleting the first item that compares equal. *)
Theorem run_items fuel (ops : list (@Skiplist.Op K)) :
  Forall op_ok ops -> (length ops <= fuel)%nat ->
  exists st,
    run fuel ops New = Ok (tt, st) /\
    forall n, (length ops < n)%nat ->
      items n st = Some (fold_left list_op ops []).
Proof.
  intros Hops Hfuel.
  destruct (run_model fuel ops New [] Inv_New Hops ltac:(cbn; lia))
    as (st & L & E & HI & Hl & Hm).
  exists st. split; [exact E|]. intros n Hn. cbn [map] in Hm. rewrite <- Hm.
  apply items_spec; [exact HI|]. cbn in Hl. lia.
Qed.

(** [findPath] on a well-formed list changes nothing, and reports an item
    found iff the first node that is not smaller holds an equal item. *)
Lemma findPath_seq fuel k (st : State K) L1 L2 :
  Inv st (L1 ++ L2) -> keys_below k L1 -> keys_not_below k L2 ->
  (length L1 < fuel)%nat ->
  exists ps ss found,
    findPath fuel k st = Ok ((ps, ss, found), st) /\
    (forall j, Z.of_nat j <= slevel st ->
       ps !! j = Some (Some (pred_at j L1)) /\
       ss !! j = Some (Some (succ_at j L2))) /\
    (found = true <-> exists d, hd_error L2 = Some d /\ Compare (e_key d) k = 0).
Proof.
  intros HI Hlo Hhi Hfuel. pose proof HI as [HB _].
  destruct (findPath_spec fuel k L1 None L2 st Hlo Hhi Hfuel)
    as (st0 & ps & ss & cc & Ef & _ & Hpath & Hcmp & _ & Hsame).
  { apply Inv_Desc. exact HI. }
  rewrite (Hsame eq_refl) in Ef, Hcmp. clear st0 Hsame.
  exists ps, ss, (cc =? 0). split; [exact Ef|]. split; [exact Hpath|].
  destruct L2 as [|d L2].
  - unfold succ_at in Hcmp. cbn in Hcmp.
    destruct (base_tail_node _ _ HB) as (tn & Htn & Hit).
    assert (Hc' : node_cmp st 1 k 1) by (exists tn; rewrite Hit; auto).
    pose proof (node_cmp_fun _ _ _ _ _ Hc' Hcmp) as <-.
    split; [discriminate|]. intros (d & Hd & _). discriminate.
  - assert (Hc' : node_cmp st (e_addr d) k (Compare (e_key d) k)).
    { apply node_cmp_entry. apply (base_nodes _ _ HB).
      apply elem_of_app. right. left. }
    unfold succ_at in Hcmp. rewrite lev_0 in Hcmp. cbn in Hcmp.
    pose proof (node_cmp_fun _ _ _ _ _ Hc' Hcmp) as <-.
    rewrite Z.eqb_eq. split.
    + intros E. exists d. auto.
    + intros (d' & [= <-] & E). exact E.
Qed.

(** On a list built by inserts and deletes, [findPath] changes nothing
    and reports an item found iff the traversal meets an item that compares
    equal; the node it returns at level 0 then holds such an item. *)
Theorem findPath_member fuel (ops : list (@Skiplist.Op K)) k (st : State K) :
  Forall op_ok ops -> (length ops < fuel)%nat ->
  run fuel ops New = Ok (tt, st) ->
  exists ps ss found l,
    findPath fuel k st = Ok ((ps, ss, found), st) /\
    items fuel st = Some l /\
    (found = true <-> Exists (fun a => Compare a k = 0) l) /\
    (found = true ->
       exists a nd k', ss !! 0%nat = Some (Some a) /\
         heap st !! a = Some nd /\ itm nd = userItem k' /\ Compare k' k = 0).
Proof.
  intros Hops Hfuel Hrun.
  destruct (reached_Inv fuel ops st Hops ltac:(lia) Hrun) as (L & HI & Hl & _).
  pose proof HI as [HB _].
  destruct (split_at_key k L (base_sorted _ _ HB)) as (L1 & L2 & -> & Hlo & Hhi).
  destruct (findPath_seq fuel k st L1 L2 HI Hlo Hhi) as
    (ps & ss & found & Ef & Hpath & Hfound).
  { rewrite length_app in Hl. lia. }
  exists ps, ss, found, (map e_key (L1 ++ L2)). split; [exact Ef|].
  split; [apply items_spec; [exact HI|lia]|].
  split.
  - rewrite Hfound. split.
    + intros (d & Hd & Hdk). apply Exists_exists. exists (e_key d).
      split; [|exact Hdk]. apply list_elem_of_fmap. exists d.
      split; [reflexivity|]. destruct L2 as [|d' L2]; [discriminate|].
      injection Hd as ->. apply elem_of_app. right. left.
    + intros Hex. apply Exists_exists in Hex as (a & Ha & Hak).
      apply list_elem_of_fmap in Ha as (e & -> & He).
      assert (Hno : ~ Forall (fun e => Compare (e_key e) k <> 0) (L1 ++ L2)).
      { intros HF. rewrite Forall_forall in HF. exact (HF e He Hak). }
      destruct L2 as [|d L2].
      * exfalso. apply Hno.
        apply (no_equal_key k L1 [] (base_sorted _ _ HB) Hlo Hhi).
        intros d Hd. discriminate.
      * destruct (Z.eq_dec (Compare (e_key d) k) 0) as [E|Hne];
          [exists d; auto|].
        exfalso. apply Hno.
        apply (no_equal_key k L1 (d :: L2) (base_sorted _ _ HB) Hlo Hhi).
        intros d' [= <-]. exact Hne.
  - intros Hf. apply Hfound in Hf as (d & Hd & Hdk).
    destruct L2 as [|d' L2]; [discriminate|]. injection Hd as ->.
    destruct (Hpath 0%nat) as [_ Hss].
    { pose proof (base_level _ _ HB). lia. }
    destruct (base_nodes _ _ HB d) as (_ & (nd & Hnd & Hit & _) & _).
    { apply elem_of_app. right. left. }
    exists (e_addr d), nd, (e_key d).
    split; [|auto]. rewrite Hss. unfold succ_at. rewrite lev_0. reflexivity.
Qed.

(** An item just inserted is found: [findPath] reports it found and
    returns, at level 0, the node [Insert2] allocated for it. *)
Theorem Insert2_then_findPath fuel (ops : list (@Skiplist.Op K)) k samples
    (st : State K) :
  Forall op_ok ops -> ends_below_run samples -> (S (length ops) < fuel)%nat ->
  run fuel ops New = Ok (tt, st) ->
  exists st1 ps ss nd,
    Insert2 fuel k samples st = Ok (tt, st1) /\
    findPath fuel k st1 = Ok ((ps, ss, true), st1) /\
    ss !! 0%nat = Some (Some (length (heap st))) /\
    heap st1 !! length (heap st) = Some nd /\ itm nd = userItem k.
Proof.
  intros Hops Hsam Hfuel Hrun.
  destruct (reached_Inv fuel ops st Hops ltac:(lia) Hrun) as (L & HI & Hl & _).
  destruct (Insert2_fresh fuel k samples st L HI Hsam ltac:(lia))
    as (st1 & L1 & ex & L2 & -> & E & HI1 & Hk & Hlo & Hhi & Haddr).
  assert (Hhi' : keys_not_below k (ex :: L2)).
  { constructor; [rewrite Hk, Compare_refl; lia | exact Hhi]. }
  destruct (findPath_seq fuel k st1 L1 (ex :: L2) HI1 Hlo Hhi')
    as (ps & ss & found & Ef & Hpath & Hfound).
  { rewrite length_app in Hl. lia. }
  assert (Hf : found = true).
  { apply Hfound. exists ex. split; [reflexivity|]. rewrite Hk. apply Compare_refl. }
  subst found. pose proof HI1 as [HB1 _].
  destruct (base_nodes _ _ HB1 ex) as (_ & (nd & Hnd & Hit & _) & _).
  { apply elem_of_app. right. left. }
  exists st1, ps, ss, nd. split; [exact E|]. split; [exact Ef|].
  rewrite <- Haddr, <- Hk. split; [|auto].
  destruct (Hpath 0%nat) as [_ Hss].
  { pose proof (base_level _ _ HB1). lia. }
  rewrite Hss. unfold succ_at. rewrite lev_0. reflexivity.
Qed.

(** [Insert2] of an item followed by [Delete] of the same item gives back
    the items the list held, in the same order. *)
Theorem Insert2_Delete_items fuel (ops : list (@Skiplist.Op K)) k samples
    (st : State K) :
  Forall op_ok ops -> ends_below_run samples -> (S (length ops) < fuel)%nat ->
  run fuel ops New = Ok (tt, st) ->
  exists st1 st2 l,
    Insert2 fuel k samples st = Ok (tt, st1) /\
    Delete fuel k st1 = Ok (tt, st2) /\
    items fuel st = Some l /\ items fuel st2 = Some l.
Proof.
  intros Hops Hsam Hfuel Hrun.
  destruct (reached_Inv fuel ops st Hops ltac:(lia) Hrun) as (L & HI & Hl & _).
  destruct (step_model fuel (OpInsert k samples) st L HI Hsam ltac:(lia))
    as (st1 & L1 & E1 & HI1 & Hl1 & Hm1).
  destruct (step_model fuel (OpDelete k) st1 L1 HI1 I ltac:(lia))
    as (st2 & L2 & E2 & HI2 & Hl2 & Hm2).
  exists st1, st2, (map e_key L). split; [exact E1|]. split; [exact E2|].
  split; [apply items_spec; [exact HI|lia]|].
  cbn [list_op] in Hm1, Hm2. rewrite Hm1, list_del_ins in Hm2. rewrite <- Hm2.
  apply items_spec; [exact HI2|].
  apply (f_equal length) in Hm2. rewrite !length_map in Hm2. lia.
Qed.

End Refinement.

(** *** What no operation does, whatever the other threads do *)

Section Frame.
Context {K : Type} `{Item K}.

Lemma grows_refl (st : State K) : grows 0 st st.
Proof.
  split; [reflexivity|]. split; [reflexivity|]. split; [lia|].
  intros a nd Ha. exists nd. auto.
Qed.

Lemma grows_trans n m (st1 st2 st3 : State K) :
  grows n st1 st2 -> grows m st2 st3 -> grows (n + m) st1 st3.
Proof.
  intros (A1 & A2 & A3 & A4) (B1 & B2 & B3 & B4).
  split; [congruence|]. split; [congruence|]. split; [lia|].
  intros a nd Ha. destruct (A4 a nd Ha) as (nd1 & Ha1 & E1 & E2 & E3).
  destruct (B4 a nd1 Ha1) as (nd2 & Ha2 & F1 & F2 & F3).
  exists nd2. split; [exact Ha2|]. repeat split; congruence.
Qed.

Lemma grows_set_next (st : State K) a nd i r :
  heap st !! a = Some nd ->
  grows 0 st (set_heap (<[a := set_next i r nd]> (heap st)) st).
Proof.
  intros Ha. split; [reflexivity|]. split; [reflexivity|].
  split; [cbn; rewrite length_insert; lia|].
  intros b nb Hb. cbn. destruct (decide (b = a)) as [->|Hne].
  - rewrite Ha in Hb. injection Hb as <-.
    exists (set_next i r nd).
    rewrite list_lookup_insert_eq by (eapply lookup_lt_Some; eauto).
    cbn. rewrite length_insert. auto.
  - exists nb. rewrite list_lookup_insert_ne by auto. auto.
Qed.

Lemma grows_env_apply (st : State K) e : grows 0 st (env_apply st e).
Proof.
  destruct e as [n lvl old new|old new]; cbn.
  - destruct (heap st !! n) as [nd|] eqn:Hn; [|apply grows_refl].
    destruct (next nd !! lvl) as [[r|]|]; try apply grows_refl.
    destruct (NodeRef_eqb r old); [|apply grows_refl].
    apply grows_set_next. exact Hn.
  - destruct (slevel st =? old); [|apply grows_refl].
    split; [reflexivity|]. split; [reflexivity|]. split; [cbn; lia|].
    intros a nd Ha. exists nd. auto.
Qed.

Lemma grows_env_steps es : forall st : State K,
  grows 0 st (fold_left env_apply es st).
Proof.
  induction es as [|e es IH]; intros st; cbn; [apply grows_refl|].
  apply (grows_trans 0 0 _ (env_apply st e)); [apply grows_env_apply|apply IH].
Qed.

Lemma keeps_ret {A} (a : A) : keeps 0 (ret (K := K) a).
Proof. intros st r st' [= <- <-]. apply grows_refl. Qed.

Lemma keeps_bind {A B} n p (m : M K A) (f : A -> M K B) :
  keeps n m -> (forall a, keeps p (f a)) -> keeps (n + p) (bind m f).
Proof.
  intros Hm Hf st r st'. unfold bind.
  destruct (m st) as [[a st1]| |] eqn:E; try discriminate.
  intros E2. eapply grows_trans; [eapply Hm; eauto | eapply Hf; eauto].
Qed.

Lemma keeps_panic {A} e : keeps 0 (panic (K := K) (A := A) e).
Proof. intros st r st'. discriminate. Qed.

Lemma keeps_out_of_fuel {A} : keeps 0 (out_of_fuel (K := K) (A := A)).
Proof. intros st r st'. discriminate. Qed.

Lemma keeps_yield : keeps 0 (yield (K := K)).
Proof.
  intros st r st'. unfold yield. destruct (sched st) as [|es sc].
  - intros [= <- <-]. apply grows_refl.
  - intros [= <- <-].
    apply (grows_trans 0 0 _ (set_sched sc st)); [|apply grows_env_steps].
    split; [reflexivity|]. split; [reflexivity|]. split; [cbn; lia|].
    intros a nd Ha. exists nd. auto.
Qed.

Lemma keeps_deref n : keeps 0 (deref (K := K) n).
Proof.
  intros st r st'. unfold deref. destruct n as [a|]; [|discriminate].
  destruct (heap st !! a); [|discriminate]. intros [= <- <-]. apply grows_refl.
Qed.

Create HintDb keeps.
#[local] Hint Resolve keeps_ret keeps_panic keeps_out_of_fuel keeps_yield
  keeps_deref : keeps.

Ltac keeps_step :=
  match goal with
  | |- keeps _ (bind _ _) => apply (keeps_bind 0 0); [|intros ?]
  | |- keeps _ (if ?b then _ else _) => destruct b
  | |- keeps _ (match ?x with _ => _ end) => destruct x
  | |- keeps _ _ => solve [eauto with keeps]
  end.

Lemma keeps_loadNext n lvl : keeps 0 (loadNext (K := K) n lvl).
Proof. unfold loadNext. repeat keeps_step. Qed.
#[local] Hint Resolve keeps_loadNext : keeps.

Lemma keeps_getNext n lvl : keeps 0 (getNext (K := K) n lvl).
Proof. unfold getNext. repeat keeps_step. Qed.
#[local] Hint Resolve keeps_getNext : keeps.

Lemma keeps_casNext n lvl old new : keeps 0 (casNext (K := K) n lvl old new).
Proof.
  unfold casNext. apply (keeps_bind 0 0); [auto with keeps|]. intros _.
  intros st r st'. unfold bind, deref. destruct n as [a|]; [|discriminate].
  destruct (heap st !! a) as [nd|] eqn:Ha; [|discriminate].
  destruct (next nd !! lvl) as [[r0|]|]; try discriminate.
  - destruct (NodeRef_eqb r0 old).
    + intros [= <- <-]. apply grows_set_next. exact Ha.
    + intros [= <- <-]. apply grows_refl.
  - intros [= <- <-]. apply grows_refl.
Qed.
#[local] Hint Resolve keeps_casNext : keeps.

Lemma keeps_dcasNext n lvl pp np pd nd :
  keeps 0 (dcasNext (K := K) n lvl pp np pd nd).
Proof. unfold dcasNext. repeat keeps_step. Qed.
#[local] Hint Resolve keeps_dcasNext : keeps.

Lemma keeps_setNext n lvl pt del : keeps 0 (setNext (K := K) n lvl pt del).
Proof.
  intros st r st'. unfold setNext. destruct n as [a|]; [|discriminate].
  destruct (heap st !! a) as [nd|] eqn:Ha; [|discriminate].
  destruct (decide (lvl < length (next nd))%nat); [|discriminate].
  intros [= <- <-]. apply grows_set_next. exact Ha.
Qed.
#[local] Hint Resolve keeps_setNext : keeps.

Lemma keeps_newNode it lvl : keeps 1 (newNode (K := K) it lvl).
Proof.
  intros st r st'. unfold newNode.
  destruct (wrap_i64 (lvl + 1) <? 0); [discriminate|].
  intros [= <- <-]. split; [reflexivity|]. split; [reflexivity|].
  split; [cbn; rewrite length_app; cbn; lia|].
  intros a nd Ha. exists nd. cbn. split; [|auto].
  apply lookup_app_l_Some. exact Ha.
Qed.

Lemma keeps_loadLevel : keeps 0 (loadLevel (K := K)).
Proof.
  unfold loadLevel. apply (keeps_bind 0 0); [auto with keeps|]. intros _.
  intros st r st' [= <- <-]. apply grows_refl.
Qed.
#[local] Hint Resolve keeps_loadLevel : keeps.

Lemma keeps_casLevel old new : keeps 0 (casLevel (K := K) old new).
Proof.
  unfold casLevel. apply (keeps_bind 0 0); [auto with keeps|]. intros _.
  intros st r st'. destruct (slevel st =? old); intros [= <- <-];
    [|apply grows_refl].
  split; [reflexivity|]. split; [reflexivity|]. split; [cbn; lia|].
  intros a nd Ha. exists nd. auto.
Qed.
#[local] Hint Resolve keeps_casLevel : keeps.

Lemma keeps_index_at l i : keeps 0 (index_at (K := K) l i).
Proof. unfold index_at. repeat keeps_step. Qed.

Lemma keeps_store_at l i v : keeps 0 (store_at (K := K) l i v).
Proof. unfold store_at. repeat keeps_step. Qed.
#[local] Hint Resolve keeps_index_at keeps_store_at : keeps.

Lemma keeps_helpLoop n : forall lvl prev curr nxt del,
  keeps 0 (helpLoop (K := K) n lvl prev curr nxt del).
Proof.
  induction n as [|n IH]; intros lvl prev curr nxt del; cbn [helpLoop];
    unfold helpDelete; repeat keeps_step.
Qed.
#[local] Hint Resolve keeps_helpLoop : keeps.

Lemma keeps_levelSearch fuel n : forall lvl k prev curr cv,
  keeps 0 (levelSearch fuel n lvl k prev curr cv).
Proof.
  induction n as [|n IH]; intros lvl k prev curr cv; cbn [levelSearch];
    repeat keeps_step.
Qed.
#[local] Hint Resolve keeps_levelSearch : keeps.

Lemma keeps_levelLoop fuel n : forall k prev pa,
  keeps 0 (levelLoop fuel n k prev pa).
Proof.
  induction n as [|n IH]; intros k prev pa; cbn [levelLoop];
    repeat keeps_step.
Qed.
#[local] Hint Resolve keeps_levelLoop : keeps.

Lemma keeps_findPath_retry fuel n : forall k pa,
  keeps 0 (findPath_retry fuel n k pa).
Proof.
  induction n as [|n IH]; intros k pa; cbn [findPath_retry];
    [auto with keeps|].
  apply (keeps_bind 0 0).
  - intros st r st' [= <- <-]. apply grows_refl.
  - intros prev. repeat keeps_step.
Qed.

Lemma keeps_findPath fuel k : keeps 0 (findPath fuel k).
Proof. unfold findPath. apply keeps_findPath_retry. Qed.
#[local] Hint Resolve keeps_findPath : keeps.

Lemma keeps_insert_level0 fuel n : forall k x,
  keeps 0 (insert_level0 fuel n k x).
Proof.
  induction n as [|n IH]; intros k x; cbn [insert_level0]; repeat keeps_step.
Qed.
#[local] Hint Resolve keeps_insert_level0 : keeps.

Lemma keeps_fixThisLevel fuel n : forall k x i ps ss,
  keeps 0 (fixThisLevel fuel n k x i ps ss).
Proof.
  induction n as [|n IH]; intros k x i ps ss; cbn [fixThisLevel];
    repeat keeps_step.
Qed.
#[local] Hint Resolve keeps_fixThisLevel : keeps.

Lemma keeps_upperLevels fuel cnt : forall i k x ps ss,
  keeps 0 (upperLevels fuel cnt i k x ps ss).
Proof.
  induction cnt as [|cnt IH]; intros i k x ps ss; cbn [upperLevels];
    repeat keeps_step.
Qed.
#[local] Hint Resolve keeps_upperLevels : keeps.

Lemma keeps_count_below samples : forall nl,
  keeps 0 (count_below (K := K) samples nl).
Proof.
  induction samples as [|x samples IH]; intros nl; cbn [count_below];
    repeat keeps_step.
Qed.
#[local] Hint Resolve keeps_count_below : keeps.

Lemma keeps_randomLevel samples : keeps 0 (randomLevel (K := K) samples).
Proof. unfold randomLevel. repeat keeps_step. Qed.
#[local] Hint Resolve keeps_randomLevel : keeps.

Lemma keeps_Insert2 fuel k samples : keeps 1 (Insert2 fuel k samples).
Proof.
  unfold Insert2. apply (keeps_bind 0 1); [auto with keeps|]. intros lvl.
  apply (keeps_bind 1 0); [apply keeps_newNode|]. intros x.
  repeat keeps_step.
Qed.

Lemma keeps_markInner n : forall delNode i nxt del dm log,
  keeps 0 (markInner (K := K) n delNode i nxt del dm log).
Proof.
  induction n as [|n IH]; intros delNode i nxt del dm log; cbn [markInner];
    repeat keeps_step.
Qed.
#[local] Hint Resolve keeps_markInner : keeps.

Lemma keeps_markLevels fuel n : forall delNode dm log,
  keeps 0 (markLevels (K := K) fuel n delNode dm log).
Proof.
  induction n as [|n IH]; intros delNode dm log; cbn [markLevels];
    repeat keeps_step.
Qed.
#[local] Hint Resolve keeps_markLevels : keeps.

Lemma keeps_Delete_run fuel k : keeps 0 (Delete_run fuel k).
Proof. unfold Delete_run. repeat keeps_step. Qed.
#[local] Hint Resolve keeps_Delete_run : keeps.

Lemma keeps_Delete fuel k : keeps 0 (Delete fuel k).
Proof. unfold Delete. repeat keeps_step. Qed.

(** Whatever the other threads do in between: no operation frees a node
    or changes the item, the level or the number of references of a node;
    [findPath] and [Delete] allocate nothing, and [Insert2] allocates
    exactly one node. *)
Theorem operations_keep_nodes fuel k samples (st : State K) :
  (forall r st', findPath fuel k st = Ok (r, st') -> grows 0 st st') /\
  (forall st', Insert2 fuel k samples st = Ok (tt, st') -> grows 1 st st') /\
  (forall st', Delete fuel k st = Ok (tt, st') -> grows 0 st st').
Proof.
  split; [|split].
  - intros r st'. apply keeps_findPath.
  - intros st'. apply keeps_Insert2.
  - intros st'. apply keeps_Delete.
Qed.

End Frame.

(** *** Deletion marks, without other threads *)

Section Marks.
Context {K : Type} `{Item K}.

Lemma same_marks_refl (st : State K) : sched st = [] -> same_marks st st.
Proof. intros Hs. split; [exact Hs|]. intros. reflexivity. Qed.

Lemma same_marks_trans (st1 st2 st3 : State K) :
  same_marks st1 st2 -> same_marks st2 st3 -> same_marks st1 st3.
Proof.
  intros [_ A] [Hs B]. split; [exact Hs|]. intros a i r Hr.
  rewrite (A a i r Hr). apply B. exact Hr.
Qed.

Lemma same_marks_kept (st st' : State K) : same_marks st st' -> marks_kept st st'.
Proof. intros [Hs A]. split; [exact Hs|]. intros a i r Hr. apply A. exact Hr. Qed.

Lemma marks_kept_trans (st1 st2 st3 : State K) :
  marks_kept st1 st2 -> marks_kept st2 st3 -> marks_kept st1 st3.
Proof. intros [_ A] [Hs B]. split; [exact Hs|]. eauto. Qed.

Lemma unmarked_same x (st st' : State K) :
  unmarked x st -> same_marks st st' -> unmarked x st'.
Proof.
  destruct x as [a|]; [|auto]. cbn. intros Hu [_ A] i r Hr.
  destruct (deleted r) eqn:Hd; [|reflexivity].
  apply A in Hr; [|exact Hd]. rewrite (Hu i r Hr) in Hd. discriminate.
Qed.

Lemma edge_of_upd (st : State K) a i r :
  edge_of (upd_edge a i r st) a i = Some r \/
  edge_of (upd_edge a i r st) a i = edge_of st a i.
Proof.
  unfold upd_edge, edge_of. destruct (heap st !! a) as [nd|] eqn:Ha;
    [|rewrite Ha; auto].
  cbn. rewrite list_lookup_insert_eq by (eapply lookup_lt_Some; eauto). cbn.
  destruct (decide (i < length (next nd))%nat) as [Hlt|Hge].
  - left. rewrite list_lookup_insert_eq by exact Hlt. reflexivity.
  - right. rewrite list_insert_ge by lia. reflexivity.
Qed.

(** A store of an unmarked reference over a reference that is not marked
    changes no mark. *)
Lemma same_marks_upd (st : State K) a i p :
  sched st = [] ->
  (forall r0, edge_of st a i = Some r0 -> deleted r0 = false) ->
  same_marks st (upd_edge a i (mkRef false p) st).
Proof.
  intros Hs Hun. split.
  - destruct (upd_edge_fields a i (mkRef false p) st) as (E & _). congruence.
  - intros a' j r Hr.
    destruct (decide (a' = a /\ j = i)) as [[-> ->]|Hne].
    + split.
      * intros He. rewrite (Hun r He) in Hr. discriminate.
      * intros He. destruct (edge_of_upd st a i (mkRef false p)) as [E|E];
          rewrite E in He; [|exact He].
        injection He as <-. discriminate.
    + rewrite edge_of_upd_other by (destruct (decide (a' = a)); [right|left]; tauto).
      reflexivity.
Qed.

(** Marking a reference keeps the marks that are there. *)
Lemma marks_kept_upd (st : State K) a i r' :
  sched st = [] ->
  (forall r0, edge_of st a i = Some r0 -> deleted r0 = false) ->
  marks_kept st (upd_edge a i r' st).
Proof.
  intros Hs Hun. split.
  - destruct (upd_edge_fields a i r' st) as (E & _). congruence.
  - intros a' j r Hr He.
    destruct (decide (a' = a /\ j = i)) as [[-> ->]|Hne].
    + rewrite (Hun r He) in Hr. discriminate.
    + rewrite edge_of_upd_other by (destruct (decide (a' = a)); [right|left]; tauto).
      exact He.
Qed.

(** What [dcasNext] does: nothing, or a store over a reference that
    carries the expected mark. *)
Lemma dcasNext_cases (st : State K) n lvl pp np pd nd b st' :
  sched st = [] -> dcasNext n lvl pp np pd nd st = Ok (b, st') ->
  st' = st \/
  exists a r0, n = Some a /\ edge_of st a lvl = Some r0 /\ deleted r0 = pd /\
               st' = upd_edge a lvl (mkRef nd np) st.
Proof.
  intros Hs. unfold dcasNext, loadNext, bind, yield, deref. rewrite Hs.
  destruct n as [a|]; [|discriminate].
  destruct (heap st !! a) as [node|] eqn:Ha; [|discriminate].
  destruct (next node !! lvl) as [[r0|]|] eqn:Hl; try discriminate;
    unfold ret; [|intros [= _ <-]; auto].
  destruct (nodeptr_eqb (ptr r0) pp && Bool.eqb (deleted r0) pd) eqn:Ec;
    [|intros [= _ <-]; auto].
  apply andb_true_iff in Ec as [_ Ed]. apply Bool.eqb_prop in Ed.
  unfold casNext, bind, yield, deref. rewrite Hs, Ha, Hl, NodeRef_eqb_refl.
  intros [= _ <-]. right. exists a, r0.
  split; [reflexivity|]. split; [unfold edge_of; rewrite Ha, Hl; reflexivity|].
  split; [exact Ed|]. unfold upd_edge. rewrite Ha. reflexivity.
Qed.

Lemma keepsx_ret {A} x (a : A) : keepsx x (ret (K := K) a).
Proof. intros st r st' Hs _ [= <- <-]. apply same_marks_refl, Hs. Qed.

Lemma keepsx_bind {A B} x (m : M K A) (f : A -> M K B) :
  keepsx x m -> (forall a, keepsx x (f a)) -> keepsx x (bind m f).
Proof.
  intros Hm Hf st r st' Hs Hu. unfold bind.
  destruct (m st) as [[a st1]| |] eqn:E; try discriminate.
  intros E2. pose proof (Hm st a st1 Hs Hu E) as H1.
  eapply same_marks_trans; [exact H1|].
  eapply Hf; [apply H1 | eapply unmarked_same; eauto | exact E2].
Qed.

Lemma keepsx_panic {A} x e : keepsx x (panic (K := K) (A := A) e).
Proof. intros st r st'. discriminate. Qed.

Lemma keepsx_out_of_fuel {A} x : keepsx x (out_of_fuel (K := K) (A := A)).
Proof. intros st r st'. discriminate. Qed.

Lemma keepsx_yield x : keepsx x (yield (K := K)).
Proof.
  intros st r st' Hs _. rewrite (yield_seq st Hs). intros [= _ <-].
  apply same_marks_refl, Hs.
Qed.

Lemma keepsx_deref x n : keepsx x (deref (K := K) n).
Proof.
  intros st r st' Hs _. unfold deref. destruct n as [a|]; [|discriminate].
  destruct (heap st !! a); [|discriminate]. intros [= <- <-].
  apply same_marks_refl, Hs.
Qed.

Create HintDb marks.
#[local] Hint Resolve keepsx_ret keepsx_panic keepsx_out_of_fuel keepsx_yield
  keepsx_deref : marks.

Ltac marks_step :=
  match goal with
  | |- keepsx _ (bind _ _) => apply keepsx_bind; [|intros ?]
  | |- keepsx _ (if ?b then _ else _) => destruct b
  | |- keepsx _ (match ?x with _ => _ end) => destruct x
  | |- keepsx _ _ => solve [eauto with marks]
  end.

Lemma keepsx_loadNext x n lvl : keepsx x (loadNext (K := K) n lvl).
Proof. unfold loadNext. repeat marks_step. Qed.
#[local] Hint Resolve keepsx_loadNext : marks.

Lemma keepsx_getNext x n lvl : keepsx x (getNext (K := K) n lvl).
Proof. unfold getNext. repeat marks_step. Qed.
#[local] Hint Resolve keepsx_getNext : marks.

Lemma keepsx_dcasNext x n lvl pp np :
  keepsx x (dcasNext (K := K) n lvl pp np false false).
Proof.
  intros st b st' Hs _ E.
  destruct (dcasNext_cases st n lvl pp np false false b st' Hs E)
    as [->|(a & r0 & -> & He & Hd & ->)]; [apply same_marks_refl, Hs|].
  apply same_marks_upd; [exact Hs|]. intros r1 Hr1. congruence.
Qed.
#[local] Hint Resolve keepsx_dcasNext : marks.

Lemma keepsx_setNext x lvl pt : keepsx x (setNext (K := K) x lvl pt false).
Proof.
  intros st r st' Hs Hu. unfold setNext. destruct x as [a|]; [|discriminate].
  destruct (heap st !! a) as [nd|] eqn:Ha; [|discriminate].
  destruct (decide (lvl < length (next nd))%nat); [|discriminate].
  intros [= _ <-].
  replace (set_heap (<[a := set_next lvl (Some (mkRef false pt)) nd]> (heap st)) st)
    with (upd_edge a lvl (mkRef false pt) st)
    by (unfold upd_edge; rewrite Ha; reflexivity).
  apply same_marks_upd; [exact Hs|]. apply Hu.
Qed.
#[local] Hint Resolve keepsx_setNext : marks.

Lemma keepsx_loadLevel x : keepsx x (loadLevel (K := K)).
Proof.
  unfold loadLevel. apply keepsx_bind; [auto with marks|]. intros _.
  intros st r st' Hs _ [= <- <-]. apply same_marks_refl, Hs.
Qed.
#[local] Hint Resolve keepsx_loadLevel : marks.

Lemma keepsx_casLevel x old new : keepsx x (casLevel (K := K) old new).
Proof.
  unfold casLevel. apply keepsx_bind; [auto with marks|]. intros _.
  intros st r st' Hs _. destruct (slevel st =? old); intros [= <- <-];
    [|apply same_marks_refl, Hs].
  split; [exact Hs|]. intros. reflexivity.
Qed.
#[local] Hint Resolve keepsx_casLevel : marks.

Lemma keepsx_index_at x l i : keepsx x (index_at (K := K) l i).
Proof. unfold index_at. repeat marks_step. Qed.

Lemma keepsx_store_at x l i v : keepsx x (store_at (K := K) l i v).
Proof. unfold store_at. repeat marks_step. Qed.
#[local] Hint Resolve keepsx_index_at keepsx_store_at : marks.

Lemma keepsx_helpLoop x n : forall lvl prev curr nxt del,
  keepsx x (helpLoop (K := K) n lvl prev curr nxt del).
Proof.
  induction n as [|n IH]; intros lvl prev curr nxt del; cbn [helpLoop];
    unfold helpDelete; repeat marks_step.
Qed.
#[local] Hint Resolve keepsx_helpLoop : marks.

Lemma keepsx_levelSearch x fuel n : forall lvl k prev curr cv,
  keepsx x (levelSearch fuel n lvl k prev curr cv).
Proof.
  induction n as [|n IH]; intros lvl k prev curr cv; cbn [levelSearch];
    repeat marks_step.
Qed.
#[local] Hint Resolve keepsx_levelSearch : marks.

Lemma keepsx_levelLoop x fuel n : forall k prev pa,
  keepsx x (levelLoop fuel n k prev pa).
Proof.
  induction n as [|n IH]; intros k prev pa; cbn [levelLoop];
    repeat marks_step.
Qed.
#[local] Hint Resolve keepsx_levelLoop : marks.

Lemma keepsx_findPath_retry x fuel n : forall k pa,
  keepsx x (findPath_retry fuel n k pa).
Proof.
  induction n as [|n IH]; intros k pa; cbn [findPath_retry];
    [auto with marks|].
  apply keepsx_bind.
  - intros st r st' Hs _ [= <- <-]. apply same_marks_refl, Hs.
  - intros prev. repeat marks_step.
Qed.

Lemma keepsx_findPath x fuel k : keepsx x (findPath fuel k).
Proof. unfold findPath. apply keepsx_findPath_retry. Qed.
#[local] Hint Resolve keepsx_findPath : marks.

Lemma keepsx_insert_level0 x fuel n : forall k,
  keepsx x (insert_level0 fuel n k x).
Proof.
  induction n as [|n IH]; intros k; cbn [insert_level0]; repeat marks_step.
Qed.
#[local] Hint Resolve keepsx_insert_level0 : marks.

Lemma keepsx_fixThisLevel x fuel n : forall k i ps ss,
  keepsx x (fixThisLevel fuel n k x i ps ss).
Proof.
  induction n as [|n IH]; intros k i ps ss; cbn [fixThisLevel];
    repeat marks_step.
Qed.
#[local] Hint Resolve keepsx_fixThisLevel : marks.

Lemma keepsx_upperLevels x fuel cnt : forall i k ps ss,
  keepsx x (upperLevels fuel cnt i k x ps ss).
Proof.
  induction cnt as [|cnt IH]; intros i k ps ss; cbn [upperLevels];
    repeat marks_step.
Qed.
#[local] Hint Resolve keepsx_upperLevels : marks.

Lemma keepsx_count_below x samples : forall nl,
  keepsx x (count_below (K := K) samples nl).
Proof.
  induction samples as [|y samples IH]; intros nl; cbn [count_below];
    repeat marks_step.
Qed.
#[local] Hint Resolve keepsx_count_below : marks.

Lemma keepsx_randomLevel x samples : keepsx x (randomLevel (K := K) samples).
Proof. unfold randomLevel. repeat marks_step. Qed.

Lemma Insert2_same_marks fuel k samples (st st' : State K) :
  sched st = [] -> Insert2 fuel k samples st = Ok (tt, st') ->
  same_marks st st'.
Proof.
  intros Hs. unfold Insert2, bind at 1.
  destruct (randomLevel samples st) as [[lvl st0]| |] eqn:E0; try discriminate.
  pose proof (keepsx_randomLevel None samples st lvl st0 Hs I E0) as H0.
  unfold bind at 1. unfold newNode at 1.
  destruct (wrap_i64 (lvl + 1) <? 0); [discriminate|].
  set (nd := {| next := replicate (Z.to_nat (wrap_i64 (lvl + 1))) None;
                itm := userItem k; level := lvl mod 2 ^ 16 |}).
  set (st1 := set_heap (heap st0 ++ [nd]) st0).
  set (x := length (heap st0)).
  assert (Hx : forall i, edge_of st1 x i = None).
  { intros i. unfold edge_of, st1, x. cbn.
    rewrite lookup_app_r, Nat.sub_diag by lia. cbn.
    destruct (replicate (Z.to_nat (wrap_i64 (lvl + 1))) None !! i) as [o|] eqn:El;
      [|reflexivity].
    apply lookup_replicate in El as [-> _]. reflexivity. }
  assert (H1 : same_marks st0 st1).
  { split; [apply H0|]. intros a i r Hr. unfold edge_of, st1. cbn.
    destruct (decide (a < length (heap st0))%nat) as [Hlt|Hge].
    - rewrite lookup_app_l by exact Hlt. reflexivity.
    - rewrite (lookup_ge_None_2 (heap st0)) by lia.
      destruct (decide (a = x)) as [->|Hne].
      + pose proof (Hx i) as Hn. unfold edge_of, st1 in Hn. cbn in Hn.
        rewrite Hn. reflexivity.
      + rewrite lookup_ge_None_2; [reflexivity|].
        rewrite length_app. cbn. unfold x in Hne. lia. }
  intros E.
  assert (H2 : same_marks st1 st').
  { assert (Hk : keepsx (Some x)
              (bind (insert_level0 fuel fuel k (Some x))
                 (fun r => let (ps, ss) := r in
                    upperLevels fuel (Z.to_nat lvl) 1 k (Some x) ps ss))).
    { apply keepsx_bind; [auto with marks|]. intros [ps ss]. auto with marks. }
    eapply Hk; [apply H1 | | exact E].
    cbn. intros i r Hr. rewrite Hx in Hr. discriminate. }
  eapply same_marks_trans; [exact H0|].
  eapply same_marks_trans; [exact H1 | exact H2].
Qed.

Lemma keepsm_of_keepsx {A} (m : M K A) : keepsx None m -> keepsm m.
Proof.
  intros Hm st r st' Hs E. apply same_marks_kept. eapply Hm; eauto. exact I.
Qed.

Lemma keepsm_bind {A B} (m : M K A) (f : A -> M K B) :
  keepsm m -> (forall a, keepsm (f a)) -> keepsm (bind m f).
Proof.
  intros Hm Hf st r st' Hs. unfold bind.
  destruct (m st) as [[a st1]| |] eqn:E; try discriminate.
  intros E2. pose proof (Hm st a st1 Hs E) as H1.
  eapply marks_kept_trans; [exact H1|]. eapply Hf; [apply H1 | exact E2].
Qed.

Lemma keepsm_dcasNext n lvl pp np nd :
  keepsm (dcasNext (K := K) n lvl pp np false nd).
Proof.
  intros st b st' Hs E.
  destruct (dcasNext_cases st n lvl pp np false nd b st' Hs E)
    as [->|(a & r0 & -> & He & Hd & ->)];
    [apply same_marks_kept, same_marks_refl, Hs|].
  apply marks_kept_upd; [exact Hs|]. intros r1 Hr1. congruence.
Qed.

Lemma keepsm_markInner n : forall delNode i nxt del dm log,
  keepsm (markInner (K := K) n delNode i nxt del dm log).
Proof.
  induction n as [|n IH]; intros delNode i nxt del dm log; cbn [markInner].
  - destruct del; apply keepsm_of_keepsx; auto with marks.
  - destruct del; [apply keepsm_of_keepsx; auto with marks|].
    apply keepsm_bind; [apply keepsm_dcasNext|]. intros ok.
    apply keepsm_bind; [apply keepsm_of_keepsx; auto with marks|].
    intros [nxt' del']. apply IH.
Qed.

Lemma keepsm_markLevels fuel n : forall delNode dm log,
  keepsm (markLevels (K := K) fuel n delNode dm log).
Proof.
  induction n as [|n IH]; intros delNode dm log; cbn [markLevels].
  - apply keepsm_of_keepsx. auto with marks.
  - apply keepsm_bind; [apply keepsm_of_keepsx; auto with marks|].
    intros [nxt del]. apply keepsm_bind; [apply keepsm_markInner|].
    intros [dm' log']. apply IH.
Qed.

Lemma keepsm_Delete fuel k : keepsm (Delete fuel k).
Proof.
  unfold Delete, Delete_run.
  apply keepsm_bind; [|intros ?; apply keepsm_of_keepsx; auto with marks].
  apply keepsm_bind; [apply keepsm_of_keepsx; auto with marks|].
  intros [[ps ss] found]. destruct found; cbn [negb];
    [|apply keepsm_of_keepsx; auto with marks].
  apply keepsm_bind; [apply keepsm_of_keepsx; auto with marks|]. intros delNode.
  apply keepsm_bind; [apply keepsm_of_keepsx; auto with marks|]. intros nd.
  cbv zeta. apply keepsm_bind; [apply keepsm_markLevels|].
  intros [dm log]. destruct dm.
  - apply keepsm_bind; [apply keepsm_of_keepsx; auto with marks|].
    intros ?. apply keepsm_of_keepsx. auto with marks.
  - apply keepsm_of_keepsx. auto with marks.
Qed.

(** Without other threads a deletion mark is for ever: [findPath] and
    [Insert2] neither set nor clear a mark and never redirect a marked
    reference, and [Delete] only adds marks. *)
Theorem marks_are_permanent fuel k samples (st : State K) :
  sched st = [] ->
  (forall r st', findPath fuel k st = Ok (r, st') -> same_marks st st') /\
  (forall st', Insert2 fuel k samples st = Ok (tt, st') -> same_marks st st') /\
  (forall st', Delete fuel k st = Ok (tt, st') -> marks_kept st st').
Proof.
  intros Hs. split; [|split].
  - intros r st' E. apply (keepsx_findPath None fuel k st r st' Hs I E).
  - intros st'. apply Insert2_same_marks. exact Hs.
  - intros st' E. apply (keepsm_Delete fuel k st tt st' Hs E).
Qed.

End Marks.

(** *** Nodes and their references, without other threads *)

Section NodeOps.
Context {K : Type} `{Item K}.

Ltac mstep E := rewrite (bind_Ok _ _ _ _ _ E); cbv beta iota.

Lemma nodeptr_eqb_eq (a b : option nat) : nodeptr_eqb a b = true <-> a = b.
Proof.
  destruct a as [x|], b as [y|]; cbn; try (split; congruence).
  rewrite Nat.eqb_eq. split; congruence.
Qed.

Lemma getNext_slot (st : State K) a i nd r :
  sched st = [] -> heap st !! a = Some nd -> next nd !! i = Some (Some r) ->
  getNext (Some a) i st = Ok ((ptr r, deleted r), st).
Proof.
  intros Hs Ha Hi. unfold getNext.
  mstep (loadNext_seq st a i nd _ Hs Ha Hi). reflexivity.
Qed.

(** [dcasNext] succeeds iff the reference holds the expected pointer and
    mark, which is what [getNext] returns; [getNext] then returns the new
    pointer and mark.  A failed [dcasNext] changes nothing, and no other
    reference is ever touched. *)
Theorem dcasNext_getNext (st : State K) a i nd r pp np pd ndel :
  sched st = [] -> heap st !! a = Some nd -> next nd !! i = Some (Some r) ->
  exists b st',
    dcasNext (Some a) i pp np pd ndel st = Ok (b, st') /\
    (b = true <-> getNext (Some a) i st = Ok ((pp, pd), st)) /\
    (b = true -> getNext (Some a) i st' = Ok ((np, ndel), st')) /\
    (b = false -> st' = st) /\
    (forall a' j, a' <> a \/ j <> i -> edge_of st' a' j = edge_of st a' j).
Proof.
  intros Hs Ha Hi.
  rewrite (getNext_slot st a i nd r Hs Ha Hi).
  unfold dcasNext. mstep (loadNext_seq st a i nd _ Hs Ha Hi).
  destruct (nodeptr_eqb (ptr r) pp && Bool.eqb (deleted r) pd) eqn:Ec.
  - apply andb_true_iff in Ec as [E1 E2].
    apply nodeptr_eqb_eq in E1. apply Bool.eqb_prop in E2.
    exists true, (upd_edge a i (mkRef ndel np) st).
    split; [|split; [|split; [|split]]].
    + unfold casNext. mstep (yield_seq st Hs).
      unfold bind, deref. rewrite Ha, Hi, NodeRef_eqb_refl.
      unfold upd_edge. rewrite Ha. reflexivity.
    + split; [intros _; congruence | reflexivity].
    + intros _.
      destruct (upd_edge_fields a i (mkRef ndel np) st) as (Hs' & _).
      apply (getNext_slot _ a i (set_next i (Some (mkRef ndel np)) nd)
               (mkRef ndel np));
        [congruence | apply upd_edge_lookup_eq; exact Ha |].
      cbn. apply list_lookup_insert_eq. eapply lookup_lt_Some; eauto.
    + discriminate.
    + intros a' j Hne. apply edge_of_upd_other. exact Hne.
  - exists false, st. split; [reflexivity|].
    split; [|split; [discriminate|split; [reflexivity|reflexivity]]].
    split; [discriminate|]. intros [= E1 E2]. exfalso.
    apply andb_false_iff in Ec as [Ec|Ec].
    + apply not_true_iff_false in Ec. apply Ec, nodeptr_eqb_eq. exact E1.
    + rewrite E2 in Ec. rewrite eqb_reflx in Ec. discriminate.
Qed.

(** A slot that holds no reference, as those of the tail, reads as
    [(nil, false)] and makes every [dcasNext] fail; a level above those of
    the node, and a [nil] node, raise a run-time panic. *)
Theorem node_edge_cases (st : State K) a nd i :
  sched st = [] -> heap st !! a = Some nd ->
  (next nd !! i = Some None ->
     getNext (Some a) i st = Ok ((None, false), st) /\
     forall pp np pd ndel,
       dcasNext (Some a) i pp np pd ndel st = Ok (false, st)) /\
  ((length (next nd) <= i)%nat ->
     getNext (Some a) i st = Panic IndexOutOfRange /\
     (forall pp np pd ndel,
        dcasNext (Some a) i pp np pd ndel st = Panic IndexOutOfRange) /\
     forall p d, setNext (Some a) i p d st = Panic IndexOutOfRange) /\
  getNext None i st = Panic NilDereference /\
  (forall pp np pd ndel,
     dcasNext None i pp np pd ndel st = Panic NilDereference) /\
  (forall p d, setNext None i p d st = Panic NilDereference).
Proof.
  intros Hs Ha. split; [|split; [|split; [|split]]].
  - intros Hi. split.
    + unfold getNext. mstep (loadNext_seq st a i nd _ Hs Ha Hi). reflexivity.
    + intros. unfold dcasNext.
      mstep (loadNext_seq st a i nd _ Hs Ha Hi). reflexivity.
  - intros Hi. apply lookup_ge_None_2 in Hi as Hn.
    assert (El : loadNext (Some a) i st = Panic IndexOutOfRange).
    { unfold loadNext. mstep (yield_seq st Hs). unfold bind, deref.
      rewrite Ha, Hn. reflexivity. }
    split; [|split].
    + unfold getNext, bind. rewrite El. reflexivity.
    + intros. unfold dcasNext, bind. rewrite El. reflexivity.
    + intros. unfold setNext. rewrite Ha.
      destruct (decide (i < length (next nd))%nat); [lia|reflexivity].
  - unfold getNext, loadNext, bind, yield, deref. rewrite Hs. reflexivity.
  - intros. unfold dcasNext, loadNext, bind, yield, deref. rewrite Hs.
    reflexivity.
  - reflexivity.
Qed.

(** [newNode] allocates a node with one empty slot per level up to its
    own and leaves the other nodes alone; a reference stored there with
    [setNext] is what [getNext] returns, and a store above the level of
    the node panics.  A level below [-1] makes [make] panic. *)
Theorem newNode_setNext_getNext (st : State K) it lvl i p d :
  sched st = [] ->
  (0 <= lvl < 2 ^ 16 ->
     exists st1,
       newNode it lvl st = Ok (Some (length (heap st)), st1) /\
       (forall a nd, heap st !! a = Some nd -> heap st1 !! a = Some nd) /\
       (exists nd, heap st1 !! length (heap st) = Some nd /\
                   itm nd = it /\ level nd = lvl) /\
       (Z.of_nat i <= lvl ->
          getNext (Some (length (heap st))) i st1 = Ok ((None, false), st1) /\
          exists st2,
            setNext (Some (length (heap st))) i p d st1 = Ok (tt, st2) /\
            getNext (Some (length (heap st))) i st2 = Ok ((p, d), st2)) /\
       (lvl < Z.of_nat i ->
          setNext (Some (length (heap st))) i p d st1 = Panic IndexOutOfRange)) /\
  (- 2 ^ 63 <= lvl < -1 -> newNode it lvl st = Panic MakeSliceLen).
Proof.
  intros Hs. split.
  - intros Hl. unfold newNode. rewrite (wrap_i64_small (lvl + 1)) by lia.
    destruct (Z.ltb_spec (lvl + 1) 0); [lia|].
    rewrite Z.mod_small by lia.
    set (nd := {| next := replicate (Z.to_nat (lvl + 1)) None;
                  itm := it; level := lvl |}).
    set (x := length (heap st)).
    set (st1 := set_heap (heap st ++ [nd]) st).
    assert (Hx : heap st1 !! x = Some nd).
    { subst st1 x. cbn. rewrite lookup_app_r by lia.
      rewrite Nat.sub_diag. reflexivity. }
    assert (Hs1 : sched st1 = []) by exact Hs.
    exists st1. split; [reflexivity|]. split; [|split; [|split]].
    + intros a nd' Ha. subst st1. cbn. apply lookup_app_l_Some. exact Ha.
    + exists nd. auto.
    + intros Hi.
      assert (Hlt : (i < length (next nd))%nat).
      { subst nd. cbn. rewrite length_replicate. lia. }
      assert (Hslot : next nd !! i = Some None).
      { subst nd. cbn. apply lookup_replicate_2. lia. }
      split.
      * unfold getNext. mstep (loadNext_seq st1 x i nd _ Hs1 Hx Hslot).
        reflexivity.
      * exists (upd_edge x i (mkRef d p) st1).
        split; [apply (setNext_ok st1 x i nd); assumption|].
        destruct (upd_edge_fields x i (mkRef d p) st1) as (Hs2 & _).
        apply (getNext_slot _ x i (set_next i (Some (mkRef d p)) nd)
                 (mkRef d p));
          [congruence | apply upd_edge_lookup_eq; exact Hx |].
        cbn. apply list_lookup_insert_eq. exact Hlt.
    + intros Hi. unfold setNext. rewrite Hx.
      destruct (decide (i < length (next nd))%nat) as [Hlt|_]; [|reflexivity].
      subst nd. cbn in Hlt. rewrite length_replicate in Hlt. lia.
  - intros Hl. unfold newNode. rewrite (wrap_i64_small (lvl + 1)) by lia.
    destruct (Z.ltb_spec (lvl + 1) 0); [reflexivity|lia].
Qed.

End NodeOps.

(** *** A list of integers *)

Import IntList.

#[global] Instance ZItemLaws : ItemLaws Z.
Proof.
  split; unfold Compare, ZItem; intros; [|lia].
  replace (b - a) with (- (a - b)) by lia. apply Z.sgn_opp.
Qed.

Lemma samples_for_ok n : Z.of_nat n < 2 ^ 63 -> ends_below_run (samples_for n).
Proof.
  intros Hn. exists (replicate n (0 # 1)%Q), (1 # 1)%Q, [].
  split; [reflexivity|]. split; [|split; [reflexivity|]].
  - apply Forall_forall. intros x Hx. apply elem_of_replicate in Hx as [-> _].
    reflexivity.
  - rewrite length_replicate. exact Hn.
Qed.

Lemma Inv_one_item : Inv one_item [mkEntry 2%nat 5 1%nat].
Proof.
  split.
  - split.
    + vm_compute. reflexivity.
    + vm_compute. reflexivity.
    + vm_compute. reflexivity.
    + vm_compute. split; discriminate.
    + eexists. split; vm_compute; reflexivity.
    + intros i Hi. eexists. split; [vm_compute; reflexivity|]. cbn [next].
      do 33 (destruct i as [|i]; [reflexivity|]). lia.
    + apply NoDup_singleton.
    + intros e He. apply list_elem_of_singleton in He as ->. cbn.
      split; [lia|]. split; [|vm_compute; discriminate].
      eexists. split; [vm_compute; reflexivity|]. cbn. auto.
    + repeat constructor.
  - intros i Hi. destruct i as [|[|i]].
    + cbn. repeat split; eexists; split; vm_compute; reflexivity.
    + cbn. repeat split; eexists; split; vm_compute; reflexivity.
    + cbn. split; [|exact I]. eexists. split; [vm_compute; reflexivity|].
      cbn [next]. do 31 (destruct i as [|i]; [reflexivity|]). lia.
Qed.

(** C1 (as stated, refuted): [Delete] has no result to tell the two cases
    apart: it returns the same (empty) result when it finds and marks the
    item 5 and when it does not find it. *)
Lemma Delete_result_same_found_or_not :
  exists r1 st1 r2 st2,
    Delete_run 3 5 one_item = Ok (r1, st1) /\
    Delete 3 5 one_item = Ok (tt, st1) /\
    run_found r1 = true /\ run_cas r1 = [true; true] /\
    Delete_run 3 5 (@New Z) = Ok (r2, st2) /\
    Delete 3 5 (@New Z) = Ok (tt, st2) /\
    run_found r2 = false.
Proof.
  eexists _, _, _, _.
  split; [vm_compute; reflexivity|]. split; [vm_compute; reflexivity|].
  split; [reflexivity|]. split; [reflexivity|].
  split; [vm_compute; reflexivity|]. split; [vm_compute; reflexivity|].
  reflexivity.
Qed.

Lemma Delete_marks_found_item_witness :
  exists r st',
    Delete_run 3 5 one_item = Ok (r, st') /\
    Delete 3 5 one_item = Ok (tt, st') /\
    (run_found r = true <->
     Exists (fun e => Compare (e_key e) 5 = 0) [mkEntry 2%nat 5 1%nat]) /\
    (run_found r = false -> st' = one_item) /\
    (run_found r = true ->
       exists L1 d L2,
         [mkEntry 2%nat 5 1%nat] = L1 ++ d :: L2 /\ keys_below 5 L1 /\
         Compare (e_key d) 5 = 0 /\
         run_target r = Some (e_addr d) /\
         (forall i, (i <= e_level d)%nat ->
            has_edge st' (e_addr d) i true (succ_at i L2)) /\
         Inv st' (L1 ++ L2)).
Proof.
  apply (Delete_marks_found_item 3 5 one_item [mkEntry 2%nat 5 1%nat]).
  - exact Inv_one_item.
  - cbn. lia.
Defined.

(** C4 (as stated, refuted): [Delete] of 5 marks level 1 of its node with
    a successful CAS; another deleter then marks level 0, the CAS of
    [Delete] at level 0 fails, the loop ends with [deleteMarked] false and
    [findPath] is not run again: [Delete] returns in the state the marking
    loop left, where the head still points to the marked node at both
    levels. *)
Lemma Delete_skips_findPath_after_lost_race :
  exists st',
    Delete_run 3 5 (set_sched racing_deleter one_item) =
    Ok (mkRun true (Some 2%nat) [true; false] false, st') /\
    Delete_mark 3 5 (set_sched racing_deleter one_item) =
    Ok ((false, [true; false]), st') /\
    Delete 3 5 (set_sched racing_deleter one_item) = Ok (tt, st') /\
    has_edge st' 0 1 false 2 /\ has_edge st' 2 1 true 1 /\
    has_edge st' 0 0 false 2 /\ has_edge st' 2 0 true 1.
Proof.
  eexists. split; [vm_compute; reflexivity|].
  split; [vm_compute; reflexivity|]. split; [vm_compute; reflexivity|].
  repeat split; eexists; split; vm_compute; reflexivity.
Qed.

Lemma Delete_findPath_again_witness :
  exists L1 d L2 st1 r st',
    [mkEntry 2%nat 5 1%nat] = L1 ++ d :: L2 /\ keys_below 5 L1 /\
    Compare (e_key d) 5 = 0 /\
    Delete_mark 3 5 one_item =
      Ok ((true, replicate (S (e_level d)) true), st1) /\
    findPath 3 5 st1 = Ok (r, st') /\
    Delete 3 5 one_item = Ok (tt, st') /\
    (forall i, (i <= e_level d)%nat ->
       has_edge st1 (pred_at i L1) i false (e_addr d) /\
       has_edge st1 (e_addr d) i true (succ_at i L2) /\
       has_edge st' (pred_at i L1) i false (succ_at i L2) /\
       has_edge st' (e_addr d) i true (succ_at i L2)) /\
    Inv st' (L1 ++ L2).
Proof.
  destruct (Delete_findPath_again 3 5 one_item) as [_ Hseq].
  apply (Hseq [mkEntry 2%nat 5 1%nat]).
  - exact Inv_one_item.
  - cbn. lia.
  - constructor. reflexivity.
Defined.

Lemma items_sorted_after_run_witness :
  exists st ks,
    run 10 inserts_then_delete New = Ok (tt, st) /\
    (forall n, (length inserts_then_delete < n)%nat -> items n st = Some ks) /\
    StronglySorted (fun a b : Z => Compare a b <= 0) ks.
Proof.
  apply (items_sorted_after_run 10 inserts_then_delete).
  - unfold inserts_then_delete.
    repeat (constructor; [first [exact I | apply samples_for_ok; cbn; lia]|]).
    constructor.
  - cbn. lia.
Defined.

(** The example of the specification: what the traversal yields. *)
Example inserts_then_delete_items :
  items 10 (exec (run 10 inserts_then_delete) New) = Some [1; 2; 5; 7; 9].
Proof. vm_compute. reflexivity. Qed.

Lemma inserts_then_delete_ok : Forall op_ok inserts_then_delete.
Proof.
  unfold inserts_then_delete.
  repeat (constructor; [first [exact I | apply samples_for_ok; cbn; lia]|]).
  constructor.
Qed.

Lemma built_run : run 10 inserts_then_delete New = Ok (tt, built).
Proof. vm_compute. reflexivity. Qed.

Lemma run_items_witness :
  exists st,
    run 10 inserts_then_delete New = Ok (tt, st) /\
    forall n, (length inserts_then_delete < n)%nat ->
      items n st = Some (fold_left list_op inserts_then_delete []).
Proof.
  apply (run_items 10 inserts_then_delete).
  - exact inserts_then_delete_ok.
  - cbn. lia.
Defined.

Lemma findPath_member_witness :
  exists ps ss found l,
    findPath 10 7 built = Ok ((ps, ss, found), built) /\
    items 10 built = Some l /\
    (found = true <-> Exists (fun a => Compare a 7 = 0) l) /\
    (found = true ->
       exists a nd k', ss !! 0%nat = Some (Some a) /\
         heap built !! a = Some nd /\ itm nd = userItem k' /\
         Compare k' 7 = 0).
Proof.
  apply (findPath_member 10 inserts_then_delete 7 built).
  - exact inserts_then_delete_ok.
  - cbn. lia.
  - exact built_run.
Defined.

Lemma Insert2_then_findPath_witness :
  exists st1 ps ss nd,
    Insert2 10 4 (samples_for 1) built = Ok (tt, st1) /\
    findPath 10 4 st1 = Ok ((ps, ss, true), st1) /\
    ss !! 0%nat = Some (Some (length (heap built))) /\
    heap st1 !! length (heap built) = Some nd /\ itm nd = userItem 4.
Proof.
  apply (Insert2_then_findPath 10 inserts_then_delete 4 (samples_for 1) built).
  - exact inserts_then_delete_ok.
  - apply samples_for_ok. cbn. lia.
  - cbn. lia.
  - exact built_run.
Defined.

Lemma Insert2_Delete_items_witness :
  exists st1 st2 l,
    Insert2 10 4 (samples_for 1) built = Ok (tt, st1) /\
    Delete 10 4 st1 = Ok (tt, st2) /\
    items 10 built = Some l /\ items 10 st2 = Some l.
Proof.
  apply (Insert2_Delete_items 10 inserts_then_delete 4 (samples_for 1) built).
  - exact inserts_then_delete_ok.
  - apply samples_for_ok. cbn. lia.
  - cbn. lia.
  - exact built_run.
Defined.

Lemma marks_are_permanent_witness :
  (forall r st', findPath 10 5 built = Ok (r, st') -> same_marks built st') /\
  (forall st', Insert2 10 5 (samples_for 1) built = Ok (tt, st') ->
     same_marks built st') /\
  (forall st', Delete 10 5 built = Ok (tt, st') -> marks_kept built st').
Proof.
  apply (marks_are_permanent 10 5 (samples_for 1) built).
  vm_compute. reflexivity.
Defined.

Lemma dcasNext_getNext_witness :
  exists b st',
    dcasNext (Some 0%nat) 0 (Some 1%nat) (Some 2%nat) false false one_item
      = Ok (b, st') /\
    (b = true <->
     getNext (Some 0%nat) 0 one_item = Ok ((Some 1%nat, false), one_item)) /\
    (b = true ->
     getNext (Some 0%nat) 0 st' = Ok ((Some 2%nat, false), st')) /\
    (b = false -> st' = one_item) /\
    (forall a' j, a' <> 0%nat \/ j <> 0%nat ->
       edge_of st' a' j = edge_of one_item a' j).
Proof.
  eapply (dcasNext_getNext one_item 0%nat 0%nat _ (mkRef false (Some 2%nat))).
  - reflexivity.
  - vm_compute. reflexivity.
  - reflexivity.
Defined.

Lemma node_edge_cases_witness :
  (replicate 33 (@None NodeRef) !! 40%nat = Some None ->
     getNext (Some 1%nat) 40 (@New Z) = Ok ((None, false), New) /\
     forall pp np pd ndel,
       dcasNext (Some 1%nat) 40 pp np pd ndel (@New Z) = Ok (false, New)) /\
  ((length (replicate 33 (@None NodeRef)) <= 40)%nat ->
     getNext (Some 1%nat) 40 (@New Z) = Panic IndexOutOfRange /\
     (forall pp np pd ndel,
        dcasNext (Some 1%nat) 40 pp np pd ndel (@New Z)
          = Panic IndexOutOfRange) /\
     forall p d, setNext (Some 1%nat) 40 p d (@New Z) = Panic IndexOutOfRange) /\
  getNext None 40 (@New Z) = Panic NilDereference /\
  (forall pp np pd ndel,
     dcasNext None 40 pp np pd ndel (@New Z) = Panic NilDereference) /\
  (forall p d, setNext None 40 p d (@New Z) = Panic NilDereference).
Proof.
  apply (node_edge_cases (@New Z) 1%nat
           {| next := replicate 33 None; itm := nilItem 1; level := MaxLevel |}
           40%nat); reflexivity.
Defined.

Lemma newNode_setNext_getNext_witness :
  (0 <= 1 < 2 ^ 16 ->
     exists st1,
       newNode (userItem 5) 1 (@New Z) = Ok (Some (length (heap (@New Z))), st1) /\
       (forall a nd, heap (@New Z) !! a = Some nd -> heap st1 !! a = Some nd) /\
       (exists nd, heap st1 !! length (heap (@New Z)) = Some nd /\
                   itm nd = userItem 5 /\ level nd = 1) /\
       (Z.of_nat 1 <= 1 ->
          getNext (Some (length (heap (@New Z)))) 1 st1 = Ok ((None, false), st1) /\
          exists st2,
            setNext (Some (length (heap (@New Z)))) 1 (Some 1%nat) false st1
              = Ok (tt, st2) /\
            getNext (Some (length (heap (@New Z)))) 1 st2
              = Ok ((Some 1%nat, false), st2)) /\
       (1 < Z.of_nat 1 ->
          setNext (Some (length (heap (@New Z)))) 1 (Some 1%nat) false st1
            = Panic IndexOutOfRange)) /\
  (- 2 ^ 63 <= 1 < -1 -> newNode (userItem 5) 1 (@New Z) = Panic MakeSliceLen).
Proof.
  apply (newNode_setNext_getNext (@New Z) (userItem 5) 1 1%nat (Some 1%nat) false).
  reflexivity.
Defined.

End SkiplistSpec.
